(** * image-processor: the orchestration core, embedded and verified

    A shallow embedding of the Go packages [errors], [utils], [core] and
    [pipeline] of Skryldev/image-processor.  Go [int]/[int64] values are
    integers of [Z] with 64-bit wrap-around written out where the code
    does arithmetic on them; a Go [error] is [option error] ([None] is
    [nil]); code that touches shared or external state is written in a
    small state monad. *)

From Stdlib Require Import ZArith QArith Qabs Qround Lqa String Ascii List Bool Lia.
From Stdlib Require Import Strings.Byte Decimal DecimalString DecimalPos DecimalZ.
From Stdlib Require PrimFloat FloatOps SpecFloat Uint63.
From stdpp Require Import base option list gmap strings.

Local Open Scope string_scope.
Local Open Scope Z_scope.

(** * Part I: the embedding *)

(** ** Go machine integers *)

Module goint.

Definition min_int : Z := - 2 ^ 63.
Definition max_int : Z := 2 ^ 63 - 1.

(** Two's complement wrap-around of 64-bit signed arithmetic. *)
Definition wrap (z : Z) : Z := (z + 2 ^ 63) mod 2 ^ 64 - 2 ^ 63.

Definition in_range (z : Z) : Prop := min_int <= z <= max_int.

Definition add (a b : Z) : Z := wrap (a + b).
Definition sub (a b : Z) : Z := wrap (a - b).

End goint.

(** ** A state monad for effectful Go code *)

Definition M (S A : Type) : Type := S -> A * S.

Definition ret {S A} (a : A) : M S A := fun s => (a, s).

Definition bind {S A B} (m : M S A) (k : A -> M S B) : M S B :=
  fun s => let (a, s') := m s in k a s'.

Definition modify {S} (f : S -> S) : M S unit := fun s => (tt, f s).

Declare Scope go_scope.
Delimit Scope go_scope with go.
Notation "'let*' x ':=' c 'in' k" := (bind c (fun x => k))
  (at level 10, x pattern, c at level 100, k at level 200) : go_scope.
Notation "c ;;; k" := (bind c (fun _ => k))
  (at level 100, right associativity) : go_scope.
Local Open Scope go_scope.

(** ** Go [float64]

    A finite [float64] is the rational number it denotes, kept in lowest
    terms; every operation computes the exact result and rounds it to
    the nearest number with a 53-bit significand, ties to even, as IEEE
    754 binary64 does.  Exponent range is not modelled: the numbers met
    here are quotients and products of 64-bit integers, far from
    overflow and from the subnormal numbers. *)

Module float64.

(** The exponent of the leading bit of n/d: floor (log2 (n/d)). *)
Definition ilog2 (n d : positive) : Z :=
  let k := Z.log2 (Zpos n) - Z.log2 (Zpos d) in
  if (if 0 <=? k then Zpos d * 2 ^ k <=? Zpos n
      else Zpos d <=? Zpos n * 2 ^ (- k))
  then k else k - 1.

(** N/D rounded to the nearest integer, ties to even. *)
Definition round_half_even (N D : Z) : Z :=
  let q := N / D in
  let r := N mod D in
  if 2 * r <? D then q
  else if D <? 2 * r then q + 1
  else if Z.even q then q else q + 1.

(** n/d rounded to a significand of 53 bits. *)
Definition round_pos (n d : positive) : Q :=
  let e := ilog2 n d - 52 in
  if 0 <=? e
  then inject_Z (round_half_even (Zpos n) (Zpos d * 2 ^ e) * 2 ^ e)
  else Qred (Qmake (round_half_even (Zpos n * 2 ^ (- e)) (Zpos d))
                   (Z.to_pos (2 ^ (- e)))).

Definition round (x : Q) : Q :=
  match Qnum x with
  | Z0 => 0%Q
  | Zpos n => round_pos n (Qden x)
  | Zneg n => Qopp (round_pos n (Qden x))
  end.

Inductive float64 :=
| finite (q : Q)
| infinity (negative : bool)
| NaN.

(** [float64(z)] *)
Definition of_int (z : Z) : float64 := finite (round (inject_Z z)).

Definition is_zero (q : Q) : bool := Qnum q =? 0.
Definition is_neg (q : Q) : bool := Qnum q <? 0.

(** [x / y] *)
Definition div (x y : float64) : float64 :=
  match x, y with
  | NaN, _ | _, NaN => NaN
  | infinity _, infinity _ => NaN
  | infinity s, finite b => infinity (xorb s (is_neg b))
  | finite _, infinity _ => finite 0
  | finite a, finite b =>
      if is_zero b then (if is_zero a then NaN else infinity (is_neg a))
      else finite (round (Qred (a / b)))
  end.

(** [x * y] *)
Definition mul (x y : float64) : float64 :=
  match x, y with
  | NaN, _ | _, NaN => NaN
  | infinity s, infinity t => infinity (xorb s t)
  | infinity s, finite b | finite b, infinity s =>
      if is_zero b then NaN else infinity (xorb s (is_neg b))
  | finite a, finite b => finite (round (Qred (a * b)))
  end.

(** [int(x)]: the fraction is discarded (truncation towards zero).  Go
    leaves the result open when the value does not fit; amd64 gives
    the smallest [int], which is what this model returns. *)
Definition to_int (x : float64) : Z :=
  match x with
  | finite q =>
      let t := Z.quot (Qnum q) (Zpos (Qden q)) in
      if (goint.min_int <=? t) && (t <=? goint.max_int) then t
      else goint.min_int
  | _ => goint.min_int
  end.

End float64.

(** ** Package fmt: the verb [%d] *)

Module fmt.

(** [fmt.Sprintf("%d", z)] *)
Definition Sprintf_d (z : Z) : string :=
  NilEmpty.string_of_int (Z.to_int z).

(** The space characters that [Sscanf] skips before a number; a newline
    is not one of them and makes the scan fail. *)
Definition is_space (a : ascii) : bool :=
  let c := nat_of_ascii a in
  (c =? 32)%nat || (c =? 9)%nat || (c =? 11)%nat || (c =? 12)%nat
  || (c =? 13)%nat.

Fixpoint skip_space (s : string) : option string :=
  match s with
  | EmptyString => Some EmptyString
  | String a s' =>
      if (nat_of_ascii a =? 10)%nat then None
      else if is_space a then skip_space s'
      else Some s
  end.

(** The token of a number: the longest prefix of decimal digits. *)
Fixpoint digits (s : string) : uint :=
  match s with
  | EmptyString => Nil
  | String a s' =>
      match a with
      | "0" => D0 (digits s')
      | "1" => D1 (digits s')
      | "2" => D2 (digits s')
      | "3" => D3 (digits s')
      | "4" => D4 (digits s')
      | "5" => D5 (digits s')
      | "6" => D6 (digits s')
      | "7" => D7 (digits s')
      | "8" => D8 (digits s')
      | "9" => D9 (digits s')
      | _ => Nil
      end%char
  end.

(** [fmt.Sscanf(s, "%d", &q)] on a string of ASCII characters: leading
    spaces, one optional sign, the digits that follow (at least one),
    read as a 64-bit integer; what comes after the digits is not looked
    at.  [None] is an error: [q] is then left as it was. *)
Definition Sscanf_d (s : string) : option Z :=
  match skip_space s with
  | None | Some EmptyString => None
  | Some (String a rest as s') =>
      let negative := Ascii.eqb a "-" in
      let rest := if negative || Ascii.eqb a "+" then rest else s' in
      match digits rest with
      | Nil => None
      | d =>
          let v := if negative then - Z.of_uint d else Z.of_uint d in
          if (goint.min_int <=? v) && (v <=? goint.max_int) then Some v
          else None
      end
  end.

End fmt.

(** ** Package errors *)

Module apperrors.

Inductive Category :=
| CategoryDecode | CategoryEncode | CategoryPipeline | CategoryStorage
| CategoryConfig | CategoryTransient | CategoryInput.

(** Go error values that the packages create or pass on: the sentinels
    of the package, the two errors of a [context], [io]'s sentinels, a
    [fmt.Errorf] value (plain, or wrapping an error through [%w]),
    a [*ProcessingError], and errors of external collaborators. *)
Inductive error :=
| ErrUnsupportedFormat
| ErrInvalidDimensions
| ErrEmptyInput
| ErrContextCanceled
| ErrWorkerPoolFull
| ErrStorageUnavailable
| context_Canceled
| context_DeadlineExceeded
| io_EOF
| io_ErrUnexpectedEOF
| fmt_Errorf (msg : string)
| fmt_Errorf_w (msg : string) (wrapped : error)
| ProcessingError (category : Category) (Op : string) (Err : error)
                  (Retryable : bool)
| external (what : string).

(** [New] creates a non-retryable ProcessingError. *)
Definition New (category : Category) (op : string) (err : error) : error :=
  ProcessingError category op err false.

(** [Transient] creates a retryable ProcessingError. *)
Definition Transient (op : string) (err : error) : error :=
  ProcessingError CategoryTransient op err true.

(** [Wrap] wraps an existing error with context; [nil] stays [nil]. *)
Definition Wrap (category : Category) (op : string) (err : option error)
  : option error :=
  match err with
  | None => None
  | Some e => Some (New category op e)
  end.

(** [errors.As(err, &pe)]: the first [*ProcessingError] on the chain of
    wrapped errors.  A [ProcessingError] is itself the first match, so the
    chain is only followed through [fmt.Errorf] values. *)
Fixpoint As_ProcessingError (e : error) : option (Category * bool) :=
  match e with
  | ProcessingError c _ _ r => Some (c, r)
  | fmt_Errorf_w _ e' => As_ProcessingError e'
  | _ => None
  end.

Definition IsRetryable (err : option error) : bool :=
  match err with
  | None => false
  | Some e =>
      match As_ProcessingError e with
      | Some (_, r) => r
      | None => false
      end
  end.

Definition IsCategory (err : option error) (cat : Category) : bool :=
  match err with
  | None => false
  | Some e =>
      match As_ProcessingError e with
      | Some (c, _) =>
          match c, cat with
          | CategoryDecode, CategoryDecode | CategoryEncode, CategoryEncode
          | CategoryPipeline, CategoryPipeline
          | CategoryStorage, CategoryStorage | CategoryConfig, CategoryConfig
          | CategoryTransient, CategoryTransient
          | CategoryInput, CategoryInput => true
          | _, _ => false
          end
      | None => false
      end
  end.

End apperrors.

(** ** The execution scope ([context.Context]) and the Go runtime

    The scope changes under the code's feet (another goroutine cancels
    it, a deadline passes), so its observations are effects on the state
    [Env] of everything outside the engine: the scope itself, the
    caller's readers, user steps, codecs and the clock. *)

Module context.
Import apperrors.

Record Context (Env : Type) := {
  (** [ctx.Err()] *)
  Err : M Env (option error);
  (** [select { case <-ctx.Done(): ... ctx.Err() ...; case <-time.After(d): }]:
      [Some e] when the Done branch is taken, [e] being [ctx.Err()] there
      (never nil once Done is closed); [None] when the timer fires. *)
  Done_or_After : Z -> M Env (option error);
}.
Arguments Err {Env}.
Arguments Done_or_After {Env}.

End context.

Record GoRuntime (Env : Type) := {
  runtime_NumCPU : Z;
  time_Now : M Env Z;
  http_DetectContentType : list byte -> string;
}.
Arguments runtime_NumCPU {Env}.
Arguments time_Now {Env}.
Arguments http_DetectContentType {Env}.

(** ** Package utils: streaming.go *)

Module streaming.
Import apperrors context.

(** An [io.Reader] of the caller.  [Read lenp] is [r.Read(p)] with
    [len(p) = lenp]: the bytes it stored in [p[:n]] and its error.  The
    reader's position is part of [Env]. *)
Record Reader (Env : Type) := {
  Read : nat -> M Env (list byte * option error);
}.
Arguments Read {Env}.

(** [LimitedReader] wraps [R] and counts the bytes read in [n]. *)
Record LimitedReader (Env : Type) := {
  R : Reader Env;
  Max : Z;
  n : Z;
}.
Arguments R {Env}.
Arguments Max {Env}.
Arguments n {Env}.
Arguments Build_LimitedReader {Env}.

(** [(l *LimitedReader) Read(p)]; the receiver's new value is returned
    beside the results. *)
Definition LimitedReader_Read {Env} (l : LimitedReader Env) (lenp : nat)
  : M Env ((list byte * option error) * LimitedReader Env) :=
  if (Max l <=? n l) && (0 <? Max l) then
    ret (([], Some io_ErrUnexpectedEOF), l)
  else
    let lenp :=
      if 0 <? Max l then
        let remain := goint.sub (Max l) (n l) in
        if remain <? Z.of_nat lenp then Z.to_nat remain else lenp
      else lenp in
    let* (bs, err) := Read (R l) lenp in
    ret ((bs, err),
         Build_LimitedReader (R l) (Max l)
           (goint.add (n l) (Z.of_nat (length bs)))).

(** The [io.Reader] values that reach [DrainReader]: the source's reader
    itself, or a [*LimitedReader] around it. *)
Inductive io_Reader (Env : Type) :=
| plain (r : Reader Env)
| limited (l : LimitedReader Env).
Arguments plain {Env}.
Arguments limited {Env}.

Definition io_Read {Env} (r : io_Reader Env) (lenp : nat)
  : M Env ((list byte * option error) * io_Reader Env) :=
  match r with
  | plain r0 => let* res := Read r0 lenp in ret (res, plain r0)
  | limited l =>
      let* (res, l') := LimitedReader_Read l lenp in ret (res, limited l')
  end.

(** The loop of [DrainReader].  [buf] is the pooled buffer's content (the
    pool only recycles storage: [Process] copies the bytes out before it
    releases the buffer).  Every return of the Go function gives either
    the buffer or an error, never both: [inl buf] and [inr err].  [None]
    means the loop did not finish within [fuel] reads. *)
Fixpoint DrainReader_loop {Env} (fuel : nat) (ctx : Context Env)
  (r : io_Reader Env) (chunkSize : nat) (buf : list byte)
  : M Env (option (list byte + error)) :=
  match fuel with
  | O => ret None
  | S fuel' =>
      let* cerr := Err ctx in
      match cerr with
      | Some e => ret (Some (inr e))
      | None =>
          let* ((bs, err), r') := io_Read r chunkSize in
          let buf := if (0 <? length bs)%nat then (buf ++ bs)%list else buf in
          match err with
          | Some io_EOF => ret (Some (inl buf))
          | Some e => ret (Some (inr e))
          | None => DrainReader_loop fuel' ctx r' chunkSize buf
          end
      end
  end.

(** [DrainReader] reads all bytes from [r]. *)
Definition DrainReader {Env} (fuel : nat) (ctx : Context Env)
  (r : io_Reader Env) (chunkSize : Z)
  : M Env (option (list byte + error)) :=
  let chunkSize := if chunkSize <=? 0 then 32 * 1024 else chunkSize in
  DrainReader_loop fuel ctx r (Z.to_nat chunkSize) [].

End streaming.

(** ** Package utils: format detection *)

Module utils.

Definition formatJPEG : string := "jpeg".
Definition formatPNG : string := "png".
Definition formatWebP : string := "webp".
Definition formatUnknown : string := "unknown".

Definition byte_is (data : list byte) (i : nat) (b : byte) : bool :=
  match data !! i with
  | Some c => Byte.eqb c b
  | None => false
  end.

(** [DetectFormat] sniffs the magic bytes and falls back to
    [http.DetectContentType] (the Go library's sniffer, a parameter). *)
Definition DetectFormat (http_sniff : list byte -> string) (data : list byte)
  : string :=
  if (length data <? 4)%nat then formatUnknown
  else if byte_is data 0 xff && byte_is data 1 xd8 && byte_is data 2 xff
  then formatJPEG
  else if byte_is data 0 x89 && byte_is data 1 x50 && byte_is data 2 x4e
          && byte_is data 3 x47
  then formatPNG
  else if (12 <=? length data)%nat
          && byte_is data 0 x52 && byte_is data 1 x49 && byte_is data 2 x46
          && byte_is data 3 x46 && byte_is data 8 x57 && byte_is data 9 x45
          && byte_is data 10 x42 && byte_is data 11 x50
  then formatWebP
  else
    let ct := http_sniff data in
    if String.eqb ct "image/jpeg" then formatJPEG
    else if String.eqb ct "image/png" then formatPNG
    else if String.eqb ct "image/webp" then formatWebP
    else formatUnknown.

(** [ScaleDimensions] computes output (w, h) preserving aspect ratio. *)
Definition ScaleDimensions (srcW srcH targetW targetH : Z) : Z * Z :=
  if (targetW =? 0) && (targetH =? 0) then (srcW, srcH)
  else if targetW =? 0 then
    let ratio := float64.div (float64.of_int targetH) (float64.of_int srcH) in
    (float64.to_int (float64.mul (float64.of_int srcW) ratio), targetH)
  else if targetH =? 0 then
    let ratio := float64.div (float64.of_int targetW) (float64.of_int srcW) in
    (targetW, float64.to_int (float64.mul (float64.of_int srcH) ratio))
  else (targetW, targetH).

(** [CloneBytes] returns a copy of [b]. *)
Definition CloneBytes (b : list byte) : list byte := b.

End utils.

(** ** Package config *)

Module config.

Record AdaptiveConfig := {
  Enabled : bool;
  TargetSizeBytes : Z;
  MinQuality : Z;
  MaxQuality : Z;
  StepSize : Z;
}.

Record Config := {
  WorkerCount : Z;
  QueueSize : Z;
  JobTimeout : Z;
  MaxRetries : Z;
  RetryDelay : Z;
  DefaultQuality : Z;
  DefaultFormat : string;
  MaxImageBytes : Z;
  ChunkSize : Z;
  AdaptiveCompression : AdaptiveConfig;
  LogLevel : string;
}.

(** [Default]; durations are in nanoseconds, as [time.Duration] is. *)
Definition Default : Config := {|
  WorkerCount := 0;
  QueueSize := 256;
  JobTimeout := 30 * 1000000000;
  MaxRetries := 3;
  RetryDelay := 200 * 1000000;
  DefaultQuality := 85;
  DefaultFormat := "";
  MaxImageBytes := 0;
  ChunkSize := 32 * 1024;
  AdaptiveCompression :=
    {| Enabled := false; TargetSizeBytes := 0; MinQuality := 30;
       MaxQuality := 95; StepSize := 5 |};
  LogLevel := "info";
|}.

(** [Validate]: [Some msg] is the error it returns. *)
Definition Validate (c : Config) : option string :=
  if (DefaultQuality c <? 1) || (100 <? DefaultQuality c) then
    Some "config: DefaultQuality must be between 1 and 100"
  else if ChunkSize c <=? 0 then
    Some "config: ChunkSize must be positive"
  else if Enabled (AdaptiveCompression c)
          && (MaxQuality (AdaptiveCompression c)
              <=? MinQuality (AdaptiveCompression c)) then
    Some "config: AdaptiveCompression.MinQuality must be less than MaxQuality"
  else None.

End config.

(** ** Package core: the data model *)

Module core.
Import apperrors context streaming.

(** [apperrors.New]; [New] below is the constructor of this package. *)
Definition New_ := apperrors.New.

Definition Format := string.
Definition FormatJPEG : Format := "jpeg".
Definition FormatPNG : Format := "png".
Definition FormatWebP : Format := "webp".
Definition FormatUnknown : Format := "unknown".

Definition ColorSpace := string.
Definition ColorSpaceRGB : ColorSpace := "rgb".
Definition ColorSpaceRGBA : ColorSpace := "rgba".
Definition ColorSpaceCMYK : ColorSpace := "cmyk".
Definition ColorSpaceGray : ColorSpace := "gray".

(** The address of a Go map: [Metadata.EXIF] is a reference, so copying
    a [Metadata] copies the address and shares the map. *)
Definition loc := positive.

(** The store of the EXIF maps allocated so far. *)
Abbreviation Heap := (gmap loc (gmap string string)).

Record Rectangle := { MinX : Z; MinY : Z; MaxX : Z; MaxY : Z }.
Definition Dx (r : Rectangle) : Z := goint.sub (MaxX r) (MinX r).
Definition Dy (r : Rectangle) : Z := goint.sub (MaxY r) (MinY r).

(** The dynamic values of the field [Image interface{}]: nil, a Go
    [image.Image] (its bounds and pixel buffer) or a [*vips.VipsImage]
    (a handle of the native library). *)
Inductive Decoded :=
| Decoded_nil
| image_Image (bounds : Rectangle) (pix : list Z)
| VipsImage (ref : nat).

Record Metadata := {
  Width : Z;
  Height : Z;
  Metadata_Format : Format;
  Metadata_ColorSpace : ColorSpace;
  HasAlpha : bool;
  SizeBytes : Z;
  EXIF : option loc;
  HasEXIF : bool;
  Orientation : Z;
}.

Record ImageData := {
  Data : list byte;
  ImageData_Format : Format;
  Image : Decoded;
  Meta : Metadata;
  OriginalSize : Z;
}.

Definition zero_Metadata : Metadata :=
  {| Width := 0; Height := 0; Metadata_Format := ""; Metadata_ColorSpace := "";
     HasAlpha := false; SizeBytes := 0; EXIF := None; HasEXIF := false;
     Orientation := 0 |}.

Record EncodeOptions := {
  Quality : Z;
  Lossless : bool;
  StripEXIF : bool;
  Interlaced : bool;
}.

(** A call of [enc.Encode] as a step made it: the state and the options
    it passed, the bytes and the error it got back.  The list of these
    calls is a ghost record. *)
Record EncodeCall := {
  encoded_img : ImageData;
  encoded_opts : EncodeOptions;
  encoded_data : list byte;
  encoded_err : option error;
}.

(** The world the steps of a pipeline run in: the state [X] of the
    collaborators outside the engine (the scope, the caller's readers,
    the codecs, the clock), the store of the EXIF maps, and the ghost
    record of the encoder calls. *)
Record World (X : Type) := {
  ext : X;
  heap : Heap;
  encodes : list EncodeCall;
}.
Arguments ext {X}.
Arguments heap {X}.
Arguments encodes {X}.
Arguments Build_World {X}.

Definition on_ext {X A} (m : M X A) : M (World X) A :=
  fun w => let (a, x') := m (ext w) in (a, Build_World x' (heap w) (encodes w)).

Record ProcessingResult := {
  Primary : option ImageData;
  Variants : gmap string ImageData;
  ProcessingTime : Z;
  StepTimings : gmap string Z;
  MemoryUsedB : Z;
}.

Record Source (X : Type) := {
  Reader : streaming.Reader X;
  ContentType : string;
  Source_Name : string;
  Size : Z;
}.
Arguments Reader {X}.
Arguments ContentType {X}.

(** [Step]: [Execute] gets the pointer it is given, which is nil
    ([None]) when the step before returned a nil state without error. *)
Record Step (X : Type) := {
  Name : string;
  Execute : Context X -> option ImageData
            -> M (World X) (option ImageData * option error);
}.
Arguments Name {X}.
Arguments Execute {X}.

Record Hook (X : Type) := {
  BeforeStep : Context X -> string -> option ImageData -> M (World X) unit;
  AfterStep : Context X -> string -> option ImageData -> Z -> option error
              -> M (World X) unit;
}.
Arguments BeforeStep {X}.
Arguments AfterStep {X}.

Record Decoder (X : Type) := {
  Decode : Context X -> list byte
           -> M (World X) (option ImageData * option error);
  CanDecode : Format -> bool;
}.
Arguments Decode {X}.

Record Encoder (X : Type) := {
  Encode : Context X -> ImageData -> EncodeOptions
           -> M X (list byte * option error);
  CanEncode : Format -> bool;
}.
Arguments Encode {X}.

(** The codecs of the repository read the state they are given and
    write none of it: an encoder acts on the outside only. *)

(** [DefaultRegistry]; the lock only serialises accesses. *)
Record DefaultRegistry (X : Type) := {
  decoders : gmap Format (Decoder X);
  encoders : gmap Format (Encoder X);
}.
Arguments decoders {X}.
Arguments encoders {X}.
Arguments Build_DefaultRegistry {X}.

Definition NewRegistry {X} : DefaultRegistry X :=
  Build_DefaultRegistry ∅ ∅.
Definition RegisterDecoder {X} (r : DefaultRegistry X) (f : Format)
  (d : Decoder X) : DefaultRegistry X :=
  Build_DefaultRegistry (<[f := d]> (decoders r)) (encoders r).
Definition RegisterEncoder {X} (r : DefaultRegistry X) (f : Format)
  (e : Encoder X) : DefaultRegistry X :=
  Build_DefaultRegistry (decoders r) (<[f := e]> (encoders r)).
Definition DecoderFor {X} (r : DefaultRegistry X) (f : Format)
  : option (Decoder X) := decoders r !! f.
Definition EncoderFor {X} (r : DefaultRegistry X) (f : Format)
  : option (Encoder X) := encoders r !! f.

Record Job (X : Type) := {
  ID : string;
  Ctx : Context X;
  Job_Source : Source X;
  Steps : list (Step X);
  (** the result channel; [None] for fire-and-forget *)
  ResultCh : option nat;
}.

(** A buffered channel that is never closed: its queue and its capacity. *)
Record Chan (A : Type) := { buf : list A; cap : Z }.
Arguments buf {A}.
Arguments cap {A}.
Arguments Build_Chan {A}.

(** [select { case ch <- x: ...; default: ... }]: the send goes through
    when the buffer has room (a waiting receiver means an empty buffer),
    otherwise the default branch runs ([None]). *)
Definition try_send {A} (ch : Chan A) (x : A) : option (Chan A) :=
  if Z.of_nat (length (buf ch)) <? cap ch
  then Some (Build_Chan (buf ch ++ [x])%list (cap ch))
  else None.

(** [Processor]: [workers] counts the worker goroutines that were
    launched and have not returned, [once] is the done flag of the
    [sync.Once], [shutdown] tells whether the channel has been closed. *)
Record Processor (X : Type) := {
  cfg : config.Config;
  registry : DefaultRegistry X;
  hooks : list (Hook X);
  jobQueue : Chan (Job X);
  wg : Z;
  workers : nat;
  once : bool;
  shutdown : bool;
  processedCount : Z;
  errorCount : Z;
}.
Arguments cfg {X}.
Arguments registry {X}.
Arguments hooks {X}.
Arguments jobQueue {X}.
Arguments wg {X}.
Arguments workers {X}.
Arguments once {X}.
Arguments shutdown {X}.
Arguments processedCount {X}.
Arguments errorCount {X}.
Arguments Build_Processor {X}.

(** ** Package core: the processor *)

(** A call of [step.Execute] as the engine made it: the step's name and
    what the call returned.  The list of calls is a ghost record. *)
Record Call := {
  call_step : string;
  call_result : option ImageData;
  call_err : option error;
}.

(** The state the engine runs in: the world of the steps, the processor
    object behind the pointer [p], and the ghost record of step calls. *)
Record St (X : Type) := {
  world : World X;
  proc : Processor X;
  calls : list Call;
}.
Arguments world {X}.
Arguments proc {X}.
Arguments calls {X}.
Arguments Build_St {X}.

Definition on_world {X A} (m : M (World X) A) : M (St X) A :=
  fun st =>
    let (a, w') := m (world st) in (a, Build_St w' (proc st) (calls st)).

(** Scopes, readers and the clock act on the outside only. *)
Definition on_env {X A} (m : M X A) : M (St X) A := on_world (on_ext m).

Definition on_proc {X} (f : Processor X -> Processor X)
  : M (St X) unit :=
  fun st => (tt, Build_St (world st) (f (proc st)) (calls st)).

Definition record_call {X} (c : Call) : M (St X) unit :=
  fun st => (tt, Build_St (world st) (proc st) (calls st ++ [c])%list).

(** [step.Execute(ctx, img)], recorded. *)
Definition call_Execute {X} (step : Step X) (ctx : Context X)
  (img : option ImageData) : M (St X) (option ImageData * option error) :=
  let* (result, err) := on_world (Execute step ctx img) in
  record_call (Build_Call (Name step) result err) ;;;
  ret (result, err).

Definition add_processed {X} (p : Processor X) : Processor X :=
  Build_Processor (cfg p) (registry p) (hooks p) (jobQueue p) (wg p)
    (workers p) (once p) (shutdown p)
    (goint.add (processedCount p) 1) (errorCount p).

Definition add_error {X} (p : Processor X) : Processor X :=
  Build_Processor (cfg p) (registry p) (hooks p) (jobQueue p) (wg p)
    (workers p) (once p) (shutdown p)
    (processedCount p) (goint.add (errorCount p) 1).

(** [New] creates a Processor with the given config. *)
Definition New {X} (c : config.Config) (reg : DefaultRegistry X)
  : Processor X :=
  let queueSize :=
    if config.QueueSize c <=? 0 then 256 else config.QueueSize c in
  Build_Processor c reg [] (Build_Chan [] queueSize) 0 0 false false 0 0.

(** One turn of the loop of [Start]: [p.wg.Add(1); go p.worker()]. *)
Definition launch_worker {X} (p : Processor X) : Processor X :=
  Build_Processor (cfg p) (registry p) (hooks p) (jobQueue p)
    (goint.add (wg p) 1) (S (workers p)) (once p) (shutdown p)
    (processedCount p) (errorCount p).

Definition set_once {X} (p : Processor X) : Processor X :=
  Build_Processor (cfg p) (registry p) (hooks p) (jobQueue p) (wg p)
    (workers p) true (shutdown p) (processedCount p) (errorCount p).

(** The worker count [Start] resolves. *)
Definition workerCount {X} (rt : GoRuntime X) (p : Processor X) : Z :=
  if config.WorkerCount (cfg p) <=? 0 then runtime_NumCPU rt
  else config.WorkerCount (cfg p).

(** [Start]: [p.once.Do(func() { ... })]; the loop
    [for i := 0; i < workerCount; i++] runs its body [workerCount] times
    (none when that is not positive). *)
Definition Start {X} (rt : GoRuntime X) (p : Processor X)
  : Processor X :=
  if once p then p
  else Nat.iter (Z.to_nat (workerCount rt p)) launch_worker (set_once p).

(** What a call does when it can panic. *)
Inductive result (A : Type) :=
| returns (a : A)
| panics (msg : string).
Arguments returns {A}.
Arguments panics {A}.

(** [Stop]: [close(p.shutdown)] panics on a closed channel; [p.wg.Wait()]
    returns once every worker has seen the closed channel and called
    [Done], so [Stop] returns in a state without workers.  What the
    workers did with queued jobs before they left is not part of this
    model (the queue is left as it is). *)
Definition Stop {X} (p : Processor X) : result (Processor X) :=
  if shutdown p then panics "close of closed channel"
  else
    returns (Build_Processor (cfg p) (registry p) (hooks p) (jobQueue p)
               0 0%nat (once p) true (processedCount p) (errorCount p)).

(** [Submit] enqueues an async job. *)
Definition Submit {X} (p : Processor X) (job : Job X)
  : option error * Processor X :=
  match try_send (jobQueue p) job with
  | Some q =>
      (None,
       Build_Processor (cfg p) (registry p) (hooks p) q (wg p) (workers p)
         (once p) (shutdown p) (processedCount p) (errorCount p))
  | None => (Some (New_ CategoryPipeline "submit" ErrWorkerPoolFull), p)
  end.

Fixpoint notifyBefore {X} (hs : list (Hook X)) (ctx : Context X)
  (name : string) (img : option ImageData) : M (World X) unit :=
  match hs with
  | [] => ret tt
  | h :: hs' => BeforeStep h ctx name img ;;; notifyBefore hs' ctx name img
  end.

Fixpoint notifyAfter {X} (hs : list (Hook X)) (ctx : Context X)
  (name : string) (img : option ImageData) (d : Z) (err : option error)
  : M (World X) unit :=
  match hs with
  | [] => ret tt
  | h :: hs' =>
      AfterStep h ctx name img d err ;;; notifyAfter hs' ctx name img d err
  end.

Definition is_nil {A} (o : option A) : bool :=
  match o with None => true | Some _ => false end.

(** The loop of [runWithRetry], entered with the counter at [i] and with
    [result], [err] as the declared variables hold them.  [None] means
    the loop did not finish within [fuel] turns. *)
Fixpoint runWithRetry_loop {X} (fuel : nat) (maxRetries delay : Z)
  (ctx : Context X) (step : Step X) (img : option ImageData)
  (i : Z) (result : option ImageData) (err : option error)
  : M (St X) (option (option ImageData * option error)) :=
  match fuel with
  | O => ret None
  | S fuel' =>
      if i <=? maxRetries then
        let* (result, err) := call_Execute step ctx img in
        if is_nil err || negb (IsRetryable err) then ret (Some (result, err))
        else
          let* done :=
            (if i <? maxRetries then on_env (Done_or_After ctx delay)
             else ret None) in
          match done with
          | Some cerr =>
              ret (Some (None, Wrap CategoryPipeline (Name step) (Some cerr)))
          | None =>
              runWithRetry_loop fuel' maxRetries delay ctx step img
                (goint.add i 1) result err
          end
      else ret (Some (result, err))
  end.

Definition runWithRetry {X} (fuel : nat) (ctx : Context X)
  (step : Step X) (img : option ImageData)
  : M (St X) (option (option ImageData * option error)) :=
  fun st =>
    let maxRetries := config.MaxRetries (cfg (proc st)) in
    let delay := config.RetryDelay (cfg (proc st)) in
    runWithRetry_loop fuel maxRetries delay ctx step img 0 None None st.

(** [contentTypeToFormat] maps MIME types to Format values. *)
Definition contentTypeToFormat (ct : string) : Format :=
  if String.eqb ct "image/jpeg" || String.eqb ct "image/jpg" then FormatJPEG
  else if String.eqb ct "image/png" then FormatPNG
  else if String.eqb ct "image/webp" then FormatWebP
  else FormatUnknown.

(** The step loop of [Process]: [Some (Some (current, timings), None)]
    when every step has run, [Some (None, err)] at the first failure. *)
Fixpoint Process_steps {X} (rt : GoRuntime X) (fuel : nat)
  (ctx : Context X) (steps : list (Step X))
  (current : option ImageData) (timings : gmap string Z)
  : M (St X)
      (option (option (option ImageData * gmap string Z) * option error)) :=
  match steps with
  | [] => ret (Some (Some (current, timings), None))
  | step :: rest =>
      let* cerr := on_env (Err ctx) in
      match cerr with
      | Some e =>
          on_proc add_error ;;;
          ret (Some (None, Wrap CategoryPipeline (Name step) (Some e)))
      | None =>
          let* hs := (fun st => (hooks (proc st), st)) in
          on_world (notifyBefore hs ctx (Name step) current) ;;;
          let* t := on_env (time_Now rt) in
          let* r := runWithRetry fuel ctx step current in
          match r with
          | None => ret None
          | Some (next, stepErr) =>
              let* t' := on_env (time_Now rt) in
              let elapsed := goint.sub t' t in
              let timings := <[Name step := elapsed]> timings in
              let* hs := (fun st => (hooks (proc st), st)) in
              on_world (notifyAfter hs ctx (Name step) next elapsed stepErr) ;;;
              match stepErr with
              | Some e =>
                  on_proc add_error ;;;
                  ret (Some (None, Some e))
              | None => Process_steps rt fuel ctx rest next timings
              end
          end
      end
  end.

(** [Process] is the primary synchronous API.  [None] means that a loop
    (draining, a retry loop) did not finish within [fuel]. *)
Definition Process {X} (rt : GoRuntime X) (fuel : nat)
  (ctx : Context X) (src : Source X) (steps : list (Step X))
  : M (St X) (option (option ProcessingResult * option error)) :=
  match steps with
  | [] =>
      ret (Some (None, Some (New_ CategoryPipeline "process" ErrEmptyInput)))
  | _ =>
      let* start := on_env (time_Now rt) in
      let* c := (fun st => (cfg (proc st), st)) in
      let limitedR :=
        if 0 <? config.MaxImageBytes c
        then limited (Build_LimitedReader (Reader src)
                        (config.MaxImageBytes c) 0)
        else plain (Reader src) in
      let* d := on_env (DrainReader fuel ctx limitedR (config.ChunkSize c)) in
      match d with
      | None => ret None
      | Some (inr err) =>
          ret (Some (None, Wrap CategoryDecode "process.drain" (Some err)))
      | Some (inl buf) =>
          let rawBytes := utils.CloneBytes buf in
          let format :=
            if String.eqb (ContentType src) ""
            then utils.DetectFormat (http_DetectContentType rt) rawBytes
            else contentTypeToFormat (ContentType src) in
          let img :=
            {| Data := rawBytes; ImageData_Format := format;
               Image := Decoded_nil; Meta := zero_Metadata;
               OriginalSize := Z.of_nat (length rawBytes) |} in
          let* r := Process_steps rt fuel ctx steps (Some img) ∅ in
          match r with
          | None => ret None
          | Some (None, err) => ret (Some (None, err))
          | Some (Some (current, timings), _) =>
              on_proc add_processed ;;;
              let* stop := on_env (time_Now rt) in
              ret (Some (Some {| Primary := current; Variants := ∅;
                                 ProcessingTime := goint.sub stop start;
                                 StepTimings := timings;
                                 MemoryUsedB := 0 |}, None))
          end
      end
  end.

(** *** [Batch]: fan-out and fan-in

    [Batch] launches one goroutine per source and waits for all of them.
    The goroutines and the launching loop are the threads of a small
    machine; a schedule (the thread chosen at each turn: [0] is the
    caller, [k+1] the goroutine launched at turn [k] of the loop) fixes
    the interleaving.  A turn given to a thread that cannot move (it has
    returned, or it waits) changes nothing.  A call of [Process] is one
    turn: the calls of the goroutines take effect on the shared state
    one after the other, in the order the schedule gives. *)

(** Where a goroutine of [Batch] stands; from the call of [Process] on
    it carries the values [r], [e] that the call returned. *)
Inductive branch_pc :=
| call_Process
| store_result (r : option ProcessingResult) (e : option error)
| store_err (r : option ProcessingResult) (e : option error)
| call_Done (r : option ProcessingResult) (e : option error)
| gone (r : option ProcessingResult) (e : option error).

(** A goroutine with its arguments [idx] and [s]. *)
Record Branch (X : Type) := {
  idx : nat;
  s : Source X;
  pc : branch_pc;
}.
Arguments idx {X}.
Arguments s {X}.
Arguments pc {X}.
Arguments Build_Branch {X}.

(** Where the caller stands: in the [range] loop at index [i], in
    [wg.Wait()], or back from [Batch]. *)
Inductive main_pc :=
| range_at (i : nat)
| call_Wait
| batch_returned.

Record BatchState (X : Type) := {
  main : main_pc;
  branches : list (Branch X);
  results : list (option ProcessingResult);
  errs : list (option error);
  wg_counter : Z;
  (** an index out of range makes the program panic *)
  panicked : bool;
  shared : St X;
}.
Arguments main {X}.
Arguments branches {X}.
Arguments results {X}.
Arguments errs {X}.
Arguments wg_counter {X}.
Arguments panicked {X}.
Arguments shared {X}.
Arguments Build_BatchState {X}.

Definition set_pc {X} (br : Branch X) (pc' : branch_pc) : Branch X :=
  Build_Branch (idx br) (s br) pc'.

(** One turn of the goroutine launched [k]-th. *)
Definition branch_step {X} (rt : GoRuntime X) (fuel : nat)
  (ctx : Context X) (steps : list (Step X)) (k : nat)
  (b : BatchState X) : BatchState X :=
  match branches b !! k with
  | None => b
  | Some br =>
      match pc br with
      | call_Process =>
          match Process rt fuel ctx (s br) steps (shared b) with
          | (Some (r, e), st') =>
              Build_BatchState (main b)
                (<[k := set_pc br (store_result r e)]> (branches b))
                (results b) (errs b) (wg_counter b) (panicked b) st'
          | (None, _) => b
          end
      | store_result r e =>
          if (idx br <? length (results b))%nat then
            Build_BatchState (main b)
              (<[k := set_pc br (store_err r e)]> (branches b))
              (<[idx br := r]> (results b)) (errs b) (wg_counter b)
              (panicked b) (shared b)
          else
            Build_BatchState (main b) (branches b) (results b) (errs b)
              (wg_counter b) true (shared b)
      | store_err r e =>
          if (idx br <? length (errs b))%nat then
            Build_BatchState (main b)
              (<[k := set_pc br (call_Done r e)]> (branches b))
              (results b) (<[idx br := e]> (errs b)) (wg_counter b)
              (panicked b) (shared b)
          else
            Build_BatchState (main b) (branches b) (results b) (errs b)
              (wg_counter b) true (shared b)
      | call_Done r e =>
          Build_BatchState (main b)
            (<[k := set_pc br (gone r e)]> (branches b))
            (results b) (errs b) (wg_counter b - 1) (panicked b) (shared b)
      | gone _ _ => b
      end
  end.

(** One turn of the caller: [wg.Add(1); go func(idx, s){...}(i, src)] for
    the next source, then [wg.Wait()], which returns when the counter is
    zero. *)
Definition main_step {X} (sources : list (Source X))
  (b : BatchState X) : BatchState X :=
  match main b with
  | range_at i =>
      match sources !! i with
      | Some src =>
          Build_BatchState (range_at (S i))
            (branches b ++ [Build_Branch i src call_Process])
            (results b) (errs b) (wg_counter b + 1) (panicked b) (shared b)
      | None =>
          Build_BatchState call_Wait (branches b) (results b) (errs b)
            (wg_counter b) (panicked b) (shared b)
      end
  | call_Wait =>
      if wg_counter b =? 0 then
        Build_BatchState batch_returned (branches b) (results b) (errs b)
          (wg_counter b) (panicked b) (shared b)
      else b
  | batch_returned => b
  end.

Definition batch_step {X} (rt : GoRuntime X) (fuel : nat)
  (ctx : Context X) (sources : list (Source X)) (steps : list (Step X))
  (b : BatchState X) (thread : nat) : BatchState X :=
  if panicked b then b
  else
    match thread with
    | O => main_step sources b
    | S k => branch_step rt fuel ctx steps k b
    end.

(** [results := make(..., len(sources)); errs := make(..., len(sources))] *)
Definition batch_init {X} (sources : list (Source X)) (st : St X)
  : BatchState X :=
  Build_BatchState (range_at 0) []
    (replicate (length sources) None) (replicate (length sources) None)
    0 false st.

Definition batch_run {X} (rt : GoRuntime X) (fuel : nat)
  (ctx : Context X) (sources : list (Source X)) (steps : list (Step X))
  (schedule : list nat) (b : BatchState X) : BatchState X :=
  fold_left (batch_step rt fuel ctx sources steps) schedule b.

(** [Batch] under a schedule: the two slices once the caller is back. *)
Definition Batch {X} (rt : GoRuntime X) (fuel : nat) (ctx : Context X)
  (sources : list (Source X)) (steps : list (Step X))
  (schedule : list nat) (st : St X)
  : option (list (option ProcessingResult) * list (option error)) * St X :=
  let b := batch_run rt fuel ctx sources steps schedule (batch_init sources st) in
  match main b with
  | batch_returned => (Some (results b, errs b), shared b)
  | _ => (None, shared b)
  end.

Definition ProcessedCount {X} (p : Processor X) : Z := processedCount p.
Definition ErrorCount {X} (p : Processor X) : Z := errorCount p.

End core.

(** ** Package pipeline: the built-in steps *)

Module pipeline.
Import apperrors context core.

(** *** The image libraries

    [image.Rect] orders its corners; [r.In(s)] holds of every empty [r]. *)
Definition image_Rect (x0 y0 x1 y1 : Z) : Rectangle :=
  let (x0, x1) := if x1 <? x0 then (x1, x0) else (x0, x1) in
  let (y0, y1) := if y1 <? y0 then (y1, y0) else (y0, y1) in
  {| MinX := x0; MinY := y0; MaxX := x1; MaxY := y1 |}.

Definition Rectangle_Empty (r : Rectangle) : bool :=
  (MaxX r <=? MinX r) || (MaxY r <=? MinY r).

Definition Rectangle_In (r s : Rectangle) : bool :=
  if Rectangle_Empty r then true
  else (MinX s <=? MinX r) && (MaxX r <=? MaxX s)
       && (MinY s <=? MinY r) && (MaxY r <=? MaxY s).

Definition Rectangle_Add (r : Rectangle) (x y : Z) : Rectangle :=
  {| MinX := goint.add (MinX r) x; MinY := goint.add (MinY r) y;
     MaxX := goint.add (MaxX r) x; MaxY := goint.add (MaxY r) y |}.

(** [xdraw.Interpolator]: [Scale] fills a new buffer of [dr] from the
    pixels of the source. *)
Definition Interpolator := Rectangle -> Rectangle -> list Z -> list Z.

(** The pixel operations of [image/draw], [image/color] and
    [x/image/draw], and the allocation limit of the runtime.  The steps
    pass buffers and bounds to the operations and keep what comes back;
    what the pixels are is not looked at here. *)
Record ImageLib := {
  (** [runtime.maxAlloc]: the largest size in bytes that [make] accepts
      (2^48 on linux/amd64) *)
  maxAlloc : Z;
  xdraw_BiLinear : Interpolator;
  (** [draw.Draw(dst, dst.Bounds(), src, sp, draw.Src)] on a new [dst] *)
  draw_Src : Rectangle -> Rectangle -> list Z -> Z * Z -> list Z;
  (** [draw.Draw(dst, r, src, image.Point{}, draw.Over)] on a filled [dst] *)
  draw_Over : Rectangle -> list Z -> Rectangle -> Rectangle -> list Z
              -> list Z;
  (** [dst.Set(x, y, color.GrayModel.Convert(src.At(x, y)))] over the bounds *)
  gray_Convert : Rectangle -> list Z -> list Z;
}.

(** *** New pixel buffers

    [image.NewRGBA(r)] and [image.NewGray(r)] make a buffer of
    [pixelBufferLength(bytesPerPixel, r, name)] bytes.  They panic when
    a side of [r] is negative or the length overflows, and [make] panics
    beyond the limit of the runtime.  (Memory that the machine does not
    have ends the program with a fatal error; that is outside the
    model.) *)

(** [bits.Mul64(x, y)] on values of [uint64]: the high and the low word
    of the product. *)
Definition bits_Mul64 (x y : Z) : Z * Z :=
  ((x * y) / 2 ^ 64, (x * y) mod 2 ^ 64).

(** [mul3NonNeg]: the product of three ints, or -1 when an argument is
    negative or a product overflows. *)
Definition mul3NonNeg (x y z : Z) : Z :=
  if (x <? 0) || (y <? 0) || (z <? 0) then -1
  else
    let (hi, lo) := bits_Mul64 x y in
    if negb (hi =? 0) then -1
    else
      let (hi, lo) := bits_Mul64 lo z in
      if negb (hi =? 0) then -1
      else
        let a := goint.wrap lo in
        if (a <? 0) || negb (a mod 2 ^ 64 =? lo) then -1 else a.

Definition pixelBufferLength (bytesPerPixel : Z) (r : Rectangle)
  (imageTypeName : string) : result Z :=
  let totalLength := mul3NonNeg bytesPerPixel (Dx r) (Dy r) in
  if totalLength <? 0 then
    panics ("image: New" ++ imageTypeName
            ++ " Rectangle has huge or negative dimensions")
  else returns totalLength.

(** [make([]uint8, n)] for [0 <= n]. *)
Definition make_uint8 (lib : ImageLib) (n : Z) : result Z :=
  if maxAlloc lib <? n then panics "runtime error: makeslice: len out of range"
  else returns n.

(** A new image of [bytesPerPixel] bytes a pixel: its bounds, when the
    buffer is made. *)
Definition new_image (lib : ImageLib) (bytesPerPixel : Z) (r : Rectangle)
  (imageTypeName : string) : result Rectangle :=
  match pixelBufferLength bytesPerPixel r imageTypeName with
  | panics msg => panics msg
  | returns n =>
      match make_uint8 lib n with
      | panics msg => panics msg
      | returns _ => returns r
      end
  end.

Definition image_NewRGBA (lib : ImageLib) (r : Rectangle) : result Rectangle :=
  new_image lib 4 r "RGBA".

Definition image_NewGray (lib : ImageLib) (r : Rectangle) : result Rectangle :=
  new_image lib 1 r "Gray".

(** *** Copies of a state with fields changed ([out := *img; out.F = v]) *)

Definition set_Data (v : list byte) (img : ImageData) : ImageData :=
  {| Data := v; ImageData_Format := ImageData_Format img;
     Image := Image img; Meta := Meta img;
     OriginalSize := OriginalSize img |}.

Definition set_Format (v : Format) (img : ImageData) : ImageData :=
  {| Data := Data img; ImageData_Format := v; Image := Image img;
     Meta := Meta img; OriginalSize := OriginalSize img |}.

Definition set_Image (v : Decoded) (img : ImageData) : ImageData :=
  {| Data := Data img; ImageData_Format := ImageData_Format img;
     Image := v; Meta := Meta img; OriginalSize := OriginalSize img |}.

Definition set_OriginalSize (v : Z) (img : ImageData) : ImageData :=
  {| Data := Data img; ImageData_Format := ImageData_Format img;
     Image := Image img; Meta := Meta img; OriginalSize := v |}.

Definition set_Meta (f : Metadata -> Metadata) (img : ImageData)
  : ImageData :=
  {| Data := Data img; ImageData_Format := ImageData_Format img;
     Image := Image img; Meta := f (Meta img);
     OriginalSize := OriginalSize img |}.

Definition Meta_Width (v : Z) (m : Metadata) : Metadata :=
  {| Width := v; Height := Height m; Metadata_Format := Metadata_Format m;
     Metadata_ColorSpace := Metadata_ColorSpace m; HasAlpha := HasAlpha m;
     SizeBytes := SizeBytes m; EXIF := EXIF m; HasEXIF := HasEXIF m;
     Orientation := Orientation m |}.

Definition Meta_Height (v : Z) (m : Metadata) : Metadata :=
  {| Width := Width m; Height := v; Metadata_Format := Metadata_Format m;
     Metadata_ColorSpace := Metadata_ColorSpace m; HasAlpha := HasAlpha m;
     SizeBytes := SizeBytes m; EXIF := EXIF m; HasEXIF := HasEXIF m;
     Orientation := Orientation m |}.

Definition Meta_Format (v : Format) (m : Metadata) : Metadata :=
  {| Width := Width m; Height := Height m; Metadata_Format := v;
     Metadata_ColorSpace := Metadata_ColorSpace m; HasAlpha := HasAlpha m;
     SizeBytes := SizeBytes m; EXIF := EXIF m; HasEXIF := HasEXIF m;
     Orientation := Orientation m |}.

Definition Meta_ColorSpace (v : ColorSpace) (m : Metadata) : Metadata :=
  {| Width := Width m; Height := Height m;
     Metadata_Format := Metadata_Format m; Metadata_ColorSpace := v;
     HasAlpha := HasAlpha m; SizeBytes := SizeBytes m; EXIF := EXIF m;
     HasEXIF := HasEXIF m; Orientation := Orientation m |}.

Definition Meta_SizeBytes (v : Z) (m : Metadata) : Metadata :=
  {| Width := Width m; Height := Height m;
     Metadata_Format := Metadata_Format m;
     Metadata_ColorSpace := Metadata_ColorSpace m; HasAlpha := HasAlpha m;
     SizeBytes := v; EXIF := EXIF m; HasEXIF := HasEXIF m;
     Orientation := Orientation m |}.

Definition Meta_EXIF (v : option loc) (m : Metadata) : Metadata :=
  {| Width := Width m; Height := Height m;
     Metadata_Format := Metadata_Format m;
     Metadata_ColorSpace := Metadata_ColorSpace m; HasAlpha := HasAlpha m;
     SizeBytes := SizeBytes m; EXIF := v; HasEXIF := HasEXIF m;
     Orientation := Orientation m |}.

Definition Meta_HasEXIF (v : bool) (m : Metadata) : Metadata :=
  {| Width := Width m; Height := Height m;
     Metadata_Format := Metadata_Format m;
     Metadata_ColorSpace := Metadata_ColorSpace m; HasAlpha := HasAlpha m;
     SizeBytes := SizeBytes m; EXIF := EXIF m; HasEXIF := v;
     Orientation := Orientation m |}.

Definition Meta_Orientation (v : Z) (m : Metadata) : Metadata :=
  {| Width := Width m; Height := Height m;
     Metadata_Format := Metadata_Format m;
     Metadata_ColorSpace := Metadata_ColorSpace m; HasAlpha := HasAlpha m;
     SizeBytes := SizeBytes m; EXIF := EXIF m; HasEXIF := HasEXIF m;
     Orientation := v |}.

(** *** Go maps in the store *)

(** [make(map[string]string)]: a new, empty map at an unused address. *)
Definition make_map {X} : M (World X) loc :=
  fun w =>
    let l := fresh (dom (heap w)) in
    (l, Build_World (ext w) (<[l := ∅]> (heap w)) (encodes w)).

(** [m[k] = v] on the map at [l]. *)
Definition map_store {X} (l : loc) (k v : string) : M (World X) unit :=
  fun w =>
    (tt, Build_World (ext w)
           (<[l := <[k := v]> (default ∅ (heap w !! l))]> (heap w))
           (encodes w)).

(** [v, found := m[k]] on the map at [l]. *)
Definition map_load {X} (l : loc) (k : string)
  : M (World X) (option string) :=
  fun w => (default ∅ (heap w !! l) !! k, w).

(** What a caller that holds [img] sees of it: its fields and the
    entries of the EXIF map behind its reference. *)
Definition EXIF_entries {X} (w : World X) (img : ImageData)
  : option (gmap string string) :=
  match EXIF (Meta img) with
  | None => None
  | Some l => Some (default ∅ (heap w !! l))
  end.

(** [enc.Encode(ctx, img, opts)], recorded. *)
Definition call_Encode {X} (enc : Encoder X) (ctx : Context X)
  (img : ImageData) (opts : EncodeOptions)
  : M (World X) (list byte * option error) :=
  fun w =>
    let (r, x') := Encode enc ctx img opts (ext w) in
    (r, Build_World x' (heap w)
          (encodes w ++ [Build_EncodeCall img opts (fst r) (snd r)])%list).

Definition outcome : Type := option ImageData * option error.

Section Steps.
Context {X : Type}.
Variable lib : ImageLib.

(** *** Resize *)

Record ResizeStep := {
  ResizeStep_Width : Z;
  ResizeStep_Height : Z;
  Resampler : option Interpolator;
}.

Definition ResizeStep_Execute (s : ResizeStep) (ctx : Context X)
  (img : ImageData) : M (World X) (result outcome) :=
  let* cerr := on_ext (Err ctx) in
  match cerr with
  | Some err =>
      ret (returns (None, Wrap CategoryPipeline "resize" (Some err)))
  | None =>
      match Image img with
      | image_Image srcB pix =>
          let (dstW, dstH) :=
            utils.ScaleDimensions (Dx srcB) (Dy srcB)
              (ResizeStep_Width s) (ResizeStep_Height s) in
          if (dstW =? Dx srcB) && (dstH =? Dy srcB) then
            ret (returns (Some img, None))
          else if (dstW <=? 0) || (dstH <=? 0) then
            ret (returns
                   (None,
                    Some (New_ CategoryPipeline "resize"
                            ErrInvalidDimensions)))
          else
            let sampler := default (xdraw_BiLinear lib) (Resampler s) in
            match image_NewRGBA lib (image_Rect 0 0 dstW dstH) with
            | panics msg => ret (panics msg)
            | returns dr =>
                let dst := image_Image dr (sampler dr srcB pix) in
                let out := set_Image dst img in
                let out := set_Meta (Meta_Width dstW) out in
                let out := set_Meta (Meta_Height dstH) out in
                ret (returns (Some out, None))
            end
      | _ =>
          ret (returns
                 (None, Some (New_ CategoryPipeline "resize" ErrEmptyInput)))
      end
  end.

(** *** Crop *)

Record CropStep := {
  CropStep_X : Z;
  CropStep_Y : Z;
  CropStep_Width : Z;
  CropStep_Height : Z;
}.

Definition CropStep_Execute (s : CropStep) (ctx : Context X)
  (img : ImageData) : M (World X) (result outcome) :=
  let* cerr := on_ext (Err ctx) in
  match cerr with
  | Some err => ret (returns (None, Wrap CategoryPipeline "crop" (Some err)))
  | None =>
      match Image img with
      | image_Image srcB pix =>
          let rect :=
            image_Rect (CropStep_X s) (CropStep_Y s)
              (goint.add (CropStep_X s) (CropStep_Width s))
              (goint.add (CropStep_Y s) (CropStep_Height s)) in
          if negb (Rectangle_In rect srcB) then
            ret (returns
                   (None,
                    Some (New_ CategoryPipeline "crop"
                            (fmt_Errorf "crop rect exceeds image bounds"))))
          else
            match image_NewRGBA lib
                    (image_Rect 0 0 (CropStep_Width s) (CropStep_Height s))
            with
            | panics msg => ret (panics msg)
            | returns dr =>
                let dst :=
                  image_Image dr
                    (draw_Src lib dr srcB pix (MinX rect, MinY rect)) in
                let out := set_Image dst img in
                let out := set_Meta (Meta_Width (CropStep_Width s)) out in
                let out := set_Meta (Meta_Height (CropStep_Height s)) out in
                ret (returns (Some out, None))
            end
      | _ =>
          ret (returns
                 (None, Some (New_ CategoryPipeline "crop" ErrEmptyInput)))
      end
  end.

(** *** Format conversion *)

Record FormatStep := { FormatStep_Format : Format }.

Definition FormatStep_Execute (s : FormatStep) (_ : Context X)
  (img : ImageData) : M (World X) outcome :=
  let out := set_Format (FormatStep_Format s) img in
  let out := set_Meta (Meta_Format (FormatStep_Format s)) out in
  ret (Some out, None).

(** *** Quality

    [out := *img] copies the reference [img.Meta.EXIF], not the map: when
    it is not nil, the store that follows writes into the map of [img]. *)

Record QualityStep := { QualityStep_Quality : Z }.

Definition QualityStep_Execute (s : QualityStep) (_ : Context X)
  (img : ImageData) : M (World X) outcome :=
  let out := img in
  let* exif :=
    match EXIF (Meta out) with
    | None => make_map
    | Some l => ret l
    end in
  let out := set_Meta (Meta_EXIF (Some exif)) out in
  map_store exif "_quality" (fmt.Sprintf_d (QualityStep_Quality s)) ;;;
  ret (Some out, None).

(** *** EXIF strip *)

Definition StripEXIFStep_Execute (_ : Context X) (img : ImageData)
  : M (World X) outcome :=
  let out := set_Meta (Meta_EXIF None) img in
  let out := set_Meta (Meta_HasEXIF false) out in
  let out := set_Meta (Meta_Orientation 0) out in
  ret (Some out, None).

(** *** Thumbnail

    [resized.Image.(image.Image)] is an unchecked assertion; it panics
    when the state does not hold a Go image.  A panic of one of the two
    stages is a panic of the step. *)

Record ThumbnailStep := { ThumbnailStep_Size : Z }.

Definition ThumbnailStep_Execute (s : ThumbnailStep) (ctx : Context X)
  (img : ImageData) : M (World X) (result outcome) :=
  match Image img with
  | image_Image bounds _ =>
      let w := Dx bounds in
      let h := Dy bounds in
      let (rw, rh) :=
        if w <? h then (ThumbnailStep_Size s, 0)
        else (0, ThumbnailStep_Size s) in
      let* r :=
        ResizeStep_Execute
          {| ResizeStep_Width := rw; ResizeStep_Height := rh;
             Resampler := None |} ctx img in
      match r with
      | panics msg => ret (panics msg)
      | returns (_, Some e) => ret (returns (None, Some e))
      | returns (None, None) => ret (panics "nil pointer dereference")
      | returns (Some resized, None) =>
          match Image resized with
          | image_Image rb _ =>
              let ox := Z.quot (goint.sub (Dx rb) (ThumbnailStep_Size s)) 2 in
              let oy := Z.quot (goint.sub (Dy rb) (ThumbnailStep_Size s)) 2 in
              CropStep_Execute
                {| CropStep_X := ox; CropStep_Y := oy;
                   CropStep_Width := ThumbnailStep_Size s;
                   CropStep_Height := ThumbnailStep_Size s |} ctx resized
          | _ => ret (panics "interface conversion")
          end
      end
  | _ =>
      ret (returns
             (None, Some (New_ CategoryPipeline "thumbnail" ErrEmptyInput)))
  end.

(** *** Encode *)

Record EncodeStep := {
  EncodeStep_Registry : DefaultRegistry X;
  BaseOptions : EncodeOptions;
}.

Definition set_Quality (q : Z) (opts : EncodeOptions) : EncodeOptions :=
  {| Quality := q; Lossless := Lossless opts; StripEXIF := StripEXIF opts;
     Interlaced := Interlaced opts |}.

(** [opts] as [EncodeStep] passes them on: with the quality read from
    the entry ["_quality"] when the map has one ([q] stays 0 when the
    entry does not scan). *)
Definition quality_override (s : EncodeStep) (img : ImageData)
  : M (World X) EncodeOptions :=
  let opts := BaseOptions s in
  match EXIF (Meta img) with
  | None => ret opts
  | Some l =>
      let* found := map_load l "_quality" in
      match found with
      | Some qs =>
          let q := default 0 (fmt.Sscanf_d qs) in
          ret (set_Quality q opts)
      | None => ret opts
      end
  end.

Definition EncodeStep_Execute (s : EncodeStep) (ctx : Context X)
  (img : ImageData) : M (World X) outcome :=
  match EncoderFor (EncodeStep_Registry s) (ImageData_Format img) with
  | None =>
      ret (None,
           Some (New_ CategoryEncode "encode"
                   (fmt_Errorf_w (": " ++ ImageData_Format img)
                      ErrUnsupportedFormat)))
  | Some enc =>
      let* opts := quality_override s img in
      let* (data, err) := call_Encode enc ctx img opts in
      match err with
      | Some e => ret (None, Some e)
      | None =>
          let out := set_Data data img in
          let out :=
            set_Meta (Meta_SizeBytes (Z.of_nat (length data))) out in
          ret (Some out, None)
      end
  end.

(** *** AdaptiveCompress *)

Record AdaptiveCompressStep := {
  AdaptiveCompressStep_Registry : DefaultRegistry X;
  TargetSizeBytes : Z;
  MinQuality : Z;
  MaxQuality : Z;
  StepSize : Z;
}.

(** The loop [for quality >= minQ { ... quality -= step }] from the
    values [quality] and [best] on: [inl best] when it is left by its
    condition or by [break], [inr err] when it returns from inside;
    [None] when the fuel does not reach. *)
Fixpoint AdaptiveCompress_loop (fuel : nat) (enc : Encoder X)
  (ctx : Context X) (img : ImageData) (target minQ step : Z)
  (quality : Z) (best : list byte)
  : M (World X) (option (list byte + error)) :=
  if quality <? minQ then ret (Some (inl best))
  else
    match fuel with
    | O => ret None
    | S fuel' =>
        let* cerr := on_ext (Err ctx) in
        match cerr with
        | Some err =>
            ret (Some (inr (New_ CategoryPipeline "adaptive_compress" err)))
        | None =>
            let* (data, err) :=
              call_Encode enc ctx img
                {| Quality := quality; Lossless := false;
                   StripEXIF := false; Interlaced := false |} in
            match err with
            | Some e => ret (Some (inr e))
            | None =>
                let best := data in
                if Z.of_nat (length data) <=? target
                then ret (Some (inl best))
                else AdaptiveCompress_loop fuel' enc ctx img target minQ step
                       (goint.sub quality step) best
            end
        end
    end.

Definition AdaptiveCompressStep_Execute (fuel : nat)
  (s : AdaptiveCompressStep) (ctx : Context X) (img : ImageData)
  : M (World X) (option outcome) :=
  if TargetSizeBytes s <=? 0 then ret (Some (Some img, None))
  else
    match EncoderFor (AdaptiveCompressStep_Registry s)
            (ImageData_Format img) with
    | None => ret (Some (Some img, None))
    | Some enc =>
        let quality := MaxQuality s in
        let minQ := goint.sub (MaxQuality s) 1 in
        let minQ := if 0 <? MinQuality s then MinQuality s else minQ in
        let step := StepSize s in
        let step := if step <=? 0 then 5 else step in
        let* r :=
          AdaptiveCompress_loop fuel enc ctx img (TargetSizeBytes s) minQ
            step quality [] in
        match r with
        | None => ret None
        | Some (inr e) => ret (Some (None, Some e))
        | Some (inl best) =>
            let out := set_Data best img in
            let out :=
              set_Meta (Meta_SizeBytes (Z.of_nat (length best))) out in
            ret (Some (Some out, None))
        end
    end.

(** *** Decode

    [decoded.Data = img.Data] dereferences what the decoder returned. *)

Record DecodeStep := { DecodeStep_Registry : DefaultRegistry X }.

Definition DecodeStep_Execute (s : DecodeStep) (ctx : Context X)
  (img : ImageData) : M (World X) (result outcome) :=
  match Image img with
  | Decoded_nil =>
      match Data img with
      | [] =>
          ret (returns
                 (None, Some (New_ CategoryDecode "decode" ErrEmptyInput)))
      | _ =>
          match DecoderFor (DecodeStep_Registry s) (ImageData_Format img) with
          | None =>
              ret (returns
                     (None,
                      Some (New_ CategoryDecode "decode"
                              (fmt_Errorf_w (": " ++ ImageData_Format img)
                                 ErrUnsupportedFormat))))
          | Some dec =>
              let* (decoded, err) := Decode dec ctx (Data img) in
              match err, decoded with
              | Some e, _ => ret (returns (None, Some e))
              | None, None => ret (panics "nil pointer dereference")
              | None, Some decoded =>
                  let decoded := set_Data (Data img) decoded in
                  let decoded :=
                    set_OriginalSize (OriginalSize img) decoded in
                  ret (returns (Some decoded, None))
              end
          end
      end
  | _ => ret (returns (Some img, None))
  end.

(** *** Grayscale *)

Definition GrayscaleStep_Execute (_ : Context X) (img : ImageData)
  : M (World X) (result outcome) :=
  match Image img with
  | image_Image bounds pix =>
      match image_NewGray lib bounds with
      | panics msg => ret (panics msg)
      | returns dr =>
          let dst := image_Image dr (gray_Convert lib bounds pix) in
          let out := set_Image dst img in
          let out := set_Meta (Meta_ColorSpace ColorSpaceGray) out in
          ret (returns (Some out, None))
      end
  | _ =>
      ret (returns
             (None, Some (New_ CategoryPipeline "grayscale" ErrEmptyInput)))
  end.

(** *** Watermark

    [s.Watermark.Bounds()] panics when the step has no watermark; the
    buffer is made before. *)

Record WatermarkStep := {
  Watermark : Decoded;
  OffsetX : Z;
  OffsetY : Z;
}.

Definition WatermarkStep_Execute (s : WatermarkStep) (_ : Context X)
  (img : ImageData) : M (World X) (result outcome) :=
  match Image img with
  | image_Image bounds pix =>
      match image_NewRGBA lib bounds with
      | panics msg => ret (panics msg)
      | returns dr =>
          match Watermark s with
          | image_Image wb wpix =>
              let dst := draw_Src lib dr bounds pix (0, 0) in
              let dst :=
                draw_Over lib dr dst
                  (Rectangle_Add wb (OffsetX s) (OffsetY s)) wb wpix in
              let out := set_Image (image_Image dr dst) img in
              ret (returns (Some out, None))
          | _ => ret (panics "nil pointer dereference")
          end
      end
  | _ =>
      ret (returns
             (None, Some (New_ CategoryPipeline "watermark" ErrEmptyInput)))
  end.

End Steps.

Arguments EncodeStep : clear implicits.
Arguments AdaptiveCompressStep : clear implicits.
Arguments DecodeStep : clear implicits.

End pipeline.

(** ** Sample collaborators

    Concrete scopes, steps and readers.  Their outside counts the calls
    made to it and holds the unread bytes of the caller's reader. *)

Module samples.
Import apperrors context streaming core.

Record Outside := { ticks : nat; unread : list byte }.

Definition tick (w : World Outside) : World Outside :=
  {| ext := {| ticks := S (ticks (ext w)); unread := unread (ext w) |};
     heap := heap w; encodes := encodes w |}.

(** A scope that is never cancelled. *)
Definition ctx_live : Context Outside :=
  {| Err := ret None; Done_or_After := fun _ => ret None |}.

(** A scope that has been cancelled. *)
Definition ctx_cancelled : Context Outside :=
  {| Err := ret (Some context_Canceled);
     Done_or_After := fun _ => ret (Some context_Canceled) |}.

(** [bytes.NewReader(b)] of the Go library, the reader the repository's
    tests and its vips backend drain: [Read] copies what is left, up to
    [len(p)] bytes, and reports [io.EOF] only by a call of its own, once
    nothing is left.  The unread rest is the reader's state. *)
Definition bytes_Reader : streaming.Reader Outside :=
  {| Read := fun lenp w =>
       match unread w with
       | [] => (([], Some io_EOF), w)
       | rest =>
           ((take lenp rest, None),
            {| ticks := ticks w; unread := drop lenp rest |})
       end |}.

Definition FromReader : Source Outside :=
  {| Reader := bytes_Reader; ContentType := ""; Source_Name := "";
     Size := -1 |}.

(** A reader that fails at once, and the source around it. *)
Definition failing_Reader : streaming.Reader Outside :=
  {| Read := fun _ w => (([], Some (external "read failed")), w) |}.

Definition Unreadable : Source Outside :=
  {| Reader := failing_Reader; ContentType := ""; Source_Name := "bad";
     Size := -1 |}.

(** A step that fails with a transient error at every call. *)
Definition flaky : Step Outside :=
  {| Name := "flaky";
     Execute := fun _ _ w =>
       ((None, Some (Transient "flaky" (external "timeout"))), tick w) |}.

(** A step that fails with an error that is not retryable. *)
Definition broken : Step Outside :=
  {| Name := "broken";
     Execute := fun _ _ w =>
       ((None,
         Some (apperrors.New CategoryPipeline "broken" ErrInvalidDimensions)),
        tick w) |}.

(** A step that fails with a transient error at its first two calls and
    then succeeds, returning the state it was given. *)
Definition settles : Step Outside :=
  {| Name := "settles";
     Execute := fun _ img w =>
       if (ticks (ext w) <? 2)%nat
       then ((None, Some (Transient "settles" (external "busy"))), tick w)
       else ((img, None), tick w) |}.

(** A step that returns the state it was given. *)
Definition keep : Step Outside :=
  {| Name := "keep"; Execute := fun _ img w => ((img, None), tick w) |}.

(** The pixel operations, standing in: buffers of as many zeros as the
    destination has pixels. *)
Definition blank (r : Rectangle) : list Z :=
  repeat 0 (Z.to_nat (Dx r * Dy r)).

Definition lib0 : pipeline.ImageLib :=
  {| pipeline.maxAlloc := 2 ^ 48;
     pipeline.xdraw_BiLinear := fun dr _ _ => blank dr;
     pipeline.draw_Src := fun dr _ _ _ => blank dr;
     pipeline.draw_Over := fun _ dst _ _ _ => dst;
     pipeline.gray_Convert := fun r _ => blank r |}.

(** An encoder whose output has as many bytes as the quality it is
    asked for. *)
Definition enc_by_quality : Encoder Outside :=
  {| Encode := fun _ _ opts w =>
       ((repeat x00 (Z.to_nat (Quality opts)), None),
        {| ticks := S (ticks w); unread := unread w |});
     CanEncode := fun _ => true |}.

Definition jpeg_only : DefaultRegistry Outside :=
  RegisterEncoder NewRegistry FormatJPEG enc_by_quality.

(** A decoded JPEG of 4 by 3 pixels whose EXIF map is at address 1, and
    a world whose store holds that map with one entry. *)
Definition photo : ImageData :=
  {| Data := []; ImageData_Format := FormatJPEG;
     Image := image_Image (pipeline.image_Rect 0 0 4 3) (repeat 0 12%nat);
     Meta :=
       {| Width := 4; Height := 3; Metadata_Format := FormatJPEG;
          Metadata_ColorSpace := ColorSpaceRGB; HasAlpha := false;
          SizeBytes := 0; EXIF := Some 1%positive; HasEXIF := true;
          Orientation := 1 |};
     OriginalSize := 0 |}.

Definition album : World Outside :=
  {| ext := {| ticks := 0; unread := [] |};
     heap := {[ 1%positive := {[ "Make" := "Canon" ]} ]};
     encodes := [] |}.

(** The same image without an EXIF map. *)
Definition bare : ImageData := pipeline.set_Meta (pipeline.Meta_EXIF None) photo.

Definition rt0 : GoRuntime Outside :=
  {| runtime_NumCPU := 8; time_Now := fun w => (Z.of_nat (ticks w), w);
     http_DetectContentType := fun _ => "application/octet-stream" |}.

(** A fresh processor with the given configuration, in a world in which
    nothing has been called yet and the reader holds [data]. *)
Definition fresh (c : config.Config) (data : list byte) : St Outside :=
  {| world := {| ext := {| ticks := 0; unread := data |}; heap := ∅;
                 encodes := [] |};
     proc := core.New c NewRegistry; calls := [] |}.

Definition st0 : St Outside := fresh config.Default [].

(** The default configuration with a ceiling on the bytes ingested. *)
Definition with_MaxImageBytes (max : Z) : config.Config :=
  {| config.WorkerCount := 0; config.QueueSize := 256;
     config.JobTimeout := 30 * 1000000000; config.MaxRetries := 3;
     config.RetryDelay := 200 * 1000000; config.DefaultQuality := 85;
     config.DefaultFormat := ""; config.MaxImageBytes := max;
     config.ChunkSize := 32 * 1024;
     config.AdaptiveCompression :=
       config.AdaptiveCompression config.Default;
     config.LogLevel := "info" |}.

(** The default configuration with another queue capacity. *)
Definition with_QueueSize (size : Z) : config.Config :=
  {| config.WorkerCount := 0; config.QueueSize := size;
     config.JobTimeout := 30 * 1000000000; config.MaxRetries := 3;
     config.RetryDelay := 200 * 1000000; config.DefaultQuality := 85;
     config.DefaultFormat := ""; config.MaxImageBytes := 0;
     config.ChunkSize := 32 * 1024;
     config.AdaptiveCompression :=
       config.AdaptiveCompression config.Default;
     config.LogLevel := "info" |}.

Definition job0 : Job Outside :=
  {| ID := "job"; Ctx := ctx_live; Job_Source := FromReader;
     Steps := [keep]; ResultCh := None |}.

End samples.

(** ** Package utils: the chunked writer *)

Module writer.
Import apperrors core.

(** An [io.Writer] of the caller: [Write p] is [w.Write(p)], the count
    and the error it returns.  What the writer keeps of the bytes is
    part of [Env]. *)
Record Writer (Env : Type) := {
  Write : list byte -> M Env (Z * option error);
}.
Arguments Write {Env}.

(** [ChunkedWriter] splits writes into fixed-size chunks. *)
Record ChunkedWriter (Env : Type) := {
  W : Writer Env;
  ChunkSize : Z;
}.
Arguments W {Env}.
Arguments ChunkSize {Env}.

(** The loop of [(c *ChunkedWriter) Write(p)], entered with [p] and
    [total] as they stand.  The slice expression [p[:end]] panics for a
    negative [end]; the loop has no other way out than an empty [p] or
    an error of the writer, so [None] says it was still running after
    [fuel] turns. *)
Fixpoint ChunkedWriter_Write_loop {Env} (fuel : nat)
  (c : ChunkedWriter Env) (p : list byte) (total : Z)
  : M Env (option (result (Z * option error))) :=
  match p with
  | [] => ret (Some (returns (total, None)))
  | _ =>
      match fuel with
      | O => ret None
      | S fuel' =>
          let end_ := ChunkSize c in
          let end_ :=
            if Z.of_nat (length p) <? end_ then Z.of_nat (length p)
            else end_ in
          if end_ <? 0 then ret (Some (panics "slice bounds out of range"))
          else
            let* (n, err) := Write (W c) (take (Z.to_nat end_) p) in
            let total := goint.add total n in
            match err with
            | Some e => ret (Some (returns (total, Some e)))
            | None =>
                ChunkedWriter_Write_loop fuel' c (drop (Z.to_nat end_) p)
                  total
            end
      end
  end.

Definition ChunkedWriter_Write {Env} (fuel : nat) (c : ChunkedWriter Env)
  (p : list byte) : M Env (option (result (Z * option error))) :=
  ChunkedWriter_Write_loop fuel c p 0.

End writer.

(** ** Package encoder *)

Module encoder.
Import apperrors context core.

(** [png.CompressionLevel], the two levels the adapter sets. *)
Inductive CompressionLevel := DefaultCompression | BestCompression.

(** The encoders of the Go library, [jpeg.Encode] and
    the [Encode] of a [png.Encoder] into a fresh buffer: from the pixels, and
    the quality or the level, to the bytes written or an error. *)
Record Codecs := {
  jpeg_Encode : Rectangle -> list Z -> Z -> list byte * option error;
  png_Encode : CompressionLevel -> Rectangle -> list Z
               -> list byte * option error;
}.

Section Encoders.
Context {X : Type}.
Variable lib : Codecs.

(** *** JPEG *)

Record JPEG := { JPEG_DefaultQuality : Z }.

Definition NewJPEG (defaultQuality : Z) : JPEG :=
  let defaultQuality := if defaultQuality <=? 0 then 85 else defaultQuality in
  {| JPEG_DefaultQuality := defaultQuality |}.

Definition JPEG_CanEncode (format : Format) : bool :=
  String.eqb format FormatJPEG.

Definition JPEG_Encode (j : JPEG) (ctx : Context X) (img : ImageData)
  (opts : EncodeOptions) : M X (list byte * option error) :=
  let* cerr := Err ctx in
  match cerr with
  | Some err => ret ([], Wrap CategoryEncode "jpeg.encode" (Some err))
  | None =>
      match Image img with
      | image_Image bounds pix =>
          let quality := Quality opts in
          let quality :=
            if quality <=? 0 then JPEG_DefaultQuality j else quality in
          match jpeg_Encode lib bounds pix quality with
          | (_, Some err) =>
              ret ([], Wrap CategoryEncode "jpeg.encode" (Some err))
          | (data, None) => ret (data, None)
          end
      | _ => ret ([], Some (New_ CategoryEncode "jpeg.encode" ErrEmptyInput))
      end
  end.

Definition JPEG_Encoder (j : JPEG) : Encoder X :=
  {| Encode := JPEG_Encode j; CanEncode := JPEG_CanEncode |}.

(** *** PNG *)

Definition PNG_CanEncode (format : Format) : bool :=
  String.eqb format FormatPNG.

Definition PNG_Encode (ctx : Context X) (img : ImageData)
  (opts : EncodeOptions) : M X (list byte * option error) :=
  let* cerr := Err ctx in
  match cerr with
  | Some err => ret ([], Wrap CategoryEncode "png.encode" (Some err))
  | None =>
      match Image img with
      | image_Image bounds pix =>
          let level :=
            if Lossless opts then BestCompression else DefaultCompression in
          let level := if Interlaced opts then BestCompression else level in
          match png_Encode lib level bounds pix with
          | (_, Some err) =>
              ret ([], Wrap CategoryEncode "png.encode" (Some err))
          | (data, None) => ret (data, None)
          end
      | _ => ret ([], Some (New_ CategoryEncode "png.encode" ErrEmptyInput))
      end
  end.

Definition PNG_Encoder : Encoder X :=
  {| Encode := PNG_Encode; CanEncode := PNG_CanEncode |}.

(** *** WebP: the shim, which encodes with [jpeg.Encode] *)

Record WebP := { WebP_DefaultQuality : Z }.

Definition NewWebP (defaultQuality : Z) : WebP :=
  let defaultQuality := if defaultQuality <=? 0 then 85 else defaultQuality in
  {| WebP_DefaultQuality := defaultQuality |}.

Definition WebP_CanEncode (format : Format) : bool :=
  String.eqb format FormatWebP.

Definition WebP_Encode (e : WebP) (ctx : Context X) (img : ImageData)
  (opts : EncodeOptions) : M X (list byte * option error) :=
  let* cerr := Err ctx in
  match cerr with
  | Some err => ret ([], Wrap CategoryEncode "webp.encode" (Some err))
  | None =>
      match Image img with
      | image_Image bounds pix =>
          let quality := Quality opts in
          let quality :=
            if quality <=? 0 then WebP_DefaultQuality e else quality in
          match jpeg_Encode lib bounds pix quality with
          | (_, Some err) =>
              ret ([], Wrap CategoryEncode "webp.encode.shim" (Some err))
          | (data, None) => ret (data, None)
          end
      | _ => ret ([], Some (New_ CategoryEncode "webp.encode" ErrEmptyInput))
      end
  end.

Definition WebP_Encoder (e : WebP) : Encoder X :=
  {| Encode := WebP_Encode e; CanEncode := WebP_CanEncode |}.

End Encoders.

End encoder.

(** ** Package imageprocessor: the facade *)

Module imageprocessor.
Import apperrors context core.

Section Facade.
Context {X : Type}.
Variable lib : encoder.Codecs.

(** The decoders of [adapters/decoder], as [decoder.NewJPEG()],
    [decoder.NewPNG()] and [decoder.NewWebP()] return them. *)
Variables (decoder_NewJPEG decoder_NewPNG decoder_NewWebP : Decoder X).

(** The registry [New] fills and hands to the processor it creates. *)
Definition default_registry (cfg : config.Config) : DefaultRegistry X :=
  let reg := NewRegistry in
  let reg := RegisterDecoder reg FormatJPEG decoder_NewJPEG in
  let reg := RegisterDecoder reg FormatPNG decoder_NewPNG in
  let reg := RegisterDecoder reg FormatWebP decoder_NewWebP in
  let reg :=
    RegisterEncoder reg FormatJPEG
      (encoder.JPEG_Encoder lib (encoder.NewJPEG (config.DefaultQuality cfg))) in
  let reg := RegisterEncoder reg FormatPNG (encoder.PNG_Encoder lib) in
  let reg :=
    RegisterEncoder reg FormatWebP
      (encoder.WebP_Encoder lib (encoder.NewWebP (config.DefaultQuality cfg))) in
  reg.

(** [EncodeWith] and [AdaptiveCompress], the step constructors that
    take a registry. *)
Definition EncodeWith (reg : DefaultRegistry X) (opts : EncodeOptions)
  : pipeline.EncodeStep X :=
  {| pipeline.EncodeStep_Registry := reg; pipeline.BaseOptions := opts |}.

Definition AdaptiveCompress (reg : DefaultRegistry X)
  (targetBytes minQ maxQ : Z) : pipeline.AdaptiveCompressStep X :=
  {| pipeline.AdaptiveCompressStep_Registry := reg;
     pipeline.TargetSizeBytes := targetBytes;
     pipeline.MinQuality := minQ;
     pipeline.MaxQuality := maxQ;
     pipeline.StepSize := 5 |}.

End Facade.

End imageprocessor.

(** ** Package pipeline: the standalone runner

    A [Pipeline] runs its steps in the same world as the engine; the
    calls of [Execute] are recorded as the engine's are.  The processor
    object of the state is not touched. *)

Module runner.
Import apperrors context core.

Record Pipeline (X : Type) := {
  steps : list (Step X);
  hooks : list (Hook X);
  maxRetries : Z;
  retryDelay : Z;
}.
Arguments steps {X}.
Arguments hooks {X}.
Arguments maxRetries {X}.
Arguments retryDelay {X}.
Arguments Build_Pipeline {X}.

(** [New] returns an empty Pipeline. *)
Definition New {X} : Pipeline X := Build_Pipeline [] [] 0 0.

(** [Use] appends steps to the pipeline. *)
Definition Use {X} (p : Pipeline X) (s : list (Step X)) : Pipeline X :=
  Build_Pipeline (steps p ++ s) (hooks p) (maxRetries p) (retryDelay p).

(** [AddHook] registers an observer. *)
Definition AddHook {X} (p : Pipeline X) (h : Hook X) : Pipeline X :=
  Build_Pipeline (steps p) (hooks p ++ [h]) (maxRetries p) (retryDelay p).

(** [WithRetry] sets the maximum retry count and delay. *)
Definition WithRetry {X} (p : Pipeline X) (maxRetries delay : Z)
  : Pipeline X :=
  Build_Pipeline (steps p) (hooks p) maxRetries delay.

(** [Clone] returns a shallow copy of the pipeline. *)
Definition Clone {X} (p : Pipeline X) : Pipeline X :=
  Build_Pipeline (steps p) (hooks p) (maxRetries p) (retryDelay p).

Fixpoint callHooksBefore {X} (hs : list (Hook X)) (ctx : Context X)
  (name : string) (img : option ImageData) : M (World X) unit :=
  match hs with
  | [] => ret tt
  | h :: hs' => BeforeStep h ctx name img ;;; callHooksBefore hs' ctx name img
  end.

Fixpoint callHooksAfter {X} (hs : list (Hook X)) (ctx : Context X)
  (name : string) (img : option ImageData) (d : Z) (err : option error)
  : M (World X) unit :=
  match hs with
  | [] => ret tt
  | h :: hs' =>
      AfterStep h ctx name img d err ;;; callHooksAfter hs' ctx name img d err
  end.

(** The loop of [runStep], entered with the counter at [i] and with
    [result], [elapsed], [err] as the declared variables hold them;
    what it gives is what the variables hold at the label [done]. *)
Fixpoint runStep_loop {X} (rt : GoRuntime X) (fuel : nat)
  (attempts delay : Z) (ctx : Context X) (step : Step X)
  (img : option ImageData) (i : Z) (result : option ImageData)
  (elapsed : Z) (err : option error)
  : M (St X) (option (option ImageData * Z * option error)) :=
  match fuel with
  | O => ret None
  | S fuel' =>
      if i <? attempts then
        let* start := on_env (time_Now rt) in
        let* (result, err) := call_Execute step ctx img in
        let* stop := on_env (time_Now rt) in
        let elapsed := goint.sub stop start in
        if is_nil err then ret (Some (result, elapsed, err))
        else if negb (IsRetryable err) || (i =? goint.sub attempts 1) then
          ret (Some (result, elapsed, err))
        else
          let* done := on_env (Done_or_After ctx delay) in
          match done with
          | Some cerr =>
              ret (Some (result, elapsed,
                         Wrap CategoryPipeline (Name step) (Some cerr)))
          | None =>
              runStep_loop rt fuel' attempts delay ctx step img
                (goint.add i 1) result elapsed err
          end
      else ret (Some (result, elapsed, err))
  end.

(** [runStep] executes a single step, calling hooks and retrying
    transient errors. *)
Definition runStep {X} (rt : GoRuntime X) (fuel : nat) (p : Pipeline X)
  (ctx : Context X) (step : Step X) (img : option ImageData)
  : M (St X) (option (option ImageData * Z * option error)) :=
  on_world (callHooksBefore (hooks p) ctx (Name step) img) ;;;
  let attempts := goint.add (maxRetries p) 1 in
  let* r :=
    runStep_loop rt fuel attempts (retryDelay p) ctx step img 0 None 0 None in
  match r with
  | None => ret None
  | Some (result, elapsed, err) =>
      on_world (callHooksAfter (hooks p) ctx (Name step) result elapsed err) ;;;
      ret (Some (result, elapsed, err))
  end.

(** The loop of [Run] over the steps that are left. *)
Fixpoint Run_loop {X} (rt : GoRuntime X) (fuel : nat) (p : Pipeline X)
  (ctx : Context X) (todo : list (Step X)) (current : option ImageData)
  (timings : gmap string Z)
  : M (St X) (option (option ImageData * gmap string Z * option error)) :=
  match todo with
  | [] => ret (Some (current, timings, None))
  | step :: rest =>
      let* cerr := on_env (Err ctx) in
      match cerr with
      | Some e =>
          ret (Some (None, timings,
                     Wrap CategoryPipeline (Name step) (Some e)))
      | None =>
          let* r := runStep rt fuel p ctx step current in
          match r with
          | None => ret None
          | Some (result, elapsed, err) =>
              let timings := <[Name step := elapsed]> timings in
              match err with
              | Some e => ret (Some (None, timings, Some e))
              | None => Run_loop rt fuel p ctx rest result timings
              end
          end
      end
  end.

(** [Run] executes the pipeline on [img]. *)
Definition Run {X} (rt : GoRuntime X) (fuel : nat) (p : Pipeline X)
  (ctx : Context X) (img : option ImageData)
  : M (St X) (option (option ImageData * gmap string Z * option error)) :=
  Run_loop rt fuel p ctx (steps p) img ∅.

End runner.

(** ** Package core: variants

    [ProcessVariants] runs the base steps through [Process] and then one
    goroutine per variant.  As for [Batch], the goroutines and the
    caller are the threads of a machine and a schedule fixes the
    interleaving; a call of [Execute] is one turn, and so is each of
    the two statements under the mutex. *)

Module variants.
Import apperrors context core.

Record VariantDefinition (X : Type) := {
  VariantDefinition_Name : string;
  VariantDefinition_Steps : list (Step X);
}.
Arguments VariantDefinition_Name {X}.
Arguments VariantDefinition_Steps {X}.

(** Where a goroutine stands: before [clone := *base.Primary], in the
    loop over its steps with [k] of them done and [result] as it is,
    before the append to [errs], before the store into
    [variantResults], before the deferred [wg.Done()], or back. *)
Inductive variant_pc :=
| at_clone
| at_step (k : nat) (result : option ImageData)
| append_err (e : error)
| store_variant (result : option ImageData)
| at_Done
| variant_gone.

Record Variant (X : Type) := {
  vd : VariantDefinition X;
  vpc : variant_pc;
}.
Arguments vd {X}.
Arguments vpc {X}.
Arguments Build_Variant {X}.

Inductive caller_pc :=
| range_variants (i : nat)
| wait_variants
| variants_returned.

Record VariantsState (X : Type) := {
  caller : caller_pc;
  goroutines : list (Variant X);
  (** the map holds pointers, nil ones included *)
  variantResults : gmap string (option ImageData);
  errs : list error;
  wg_counter : Z;
  (** a nil [base.Primary] makes the program panic *)
  panicked : bool;
  shared : St X;
}.
Arguments caller {X}.
Arguments goroutines {X}.
Arguments variantResults {X}.
Arguments errs {X}.
Arguments wg_counter {X}.
Arguments panicked {X}.
Arguments shared {X}.
Arguments Build_VariantsState {X}.

(** One turn of the goroutine launched [k]-th. *)
Definition variant_step {X} (ctx : Context X) (base : ProcessingResult)
  (k : nat) (b : VariantsState X) : VariantsState X :=
  match goroutines b !! k with
  | None => b
  | Some g =>
      let move pc' := <[k := Build_Variant (vd g) pc']> (goroutines b) in
      match vpc g with
      | at_clone =>
          match Primary base with
          | None =>
              Build_VariantsState (caller b) (goroutines b)
                (variantResults b) (errs b) (wg_counter b) true (shared b)
          | Some clone =>
              Build_VariantsState (caller b) (move (at_step 0 (Some clone)))
                (variantResults b) (errs b) (wg_counter b) (panicked b)
                (shared b)
          end
      | at_step n result =>
          match VariantDefinition_Steps (vd g) !! n with
          | None =>
              Build_VariantsState (caller b) (move (store_variant result))
                (variantResults b) (errs b) (wg_counter b) (panicked b)
                (shared b)
          | Some step =>
              let '((result', stepErr), st') :=
                call_Execute step ctx result (shared b) in
              match stepErr with
              | Some e =>
                  Build_VariantsState (caller b) (move (append_err e))
                    (variantResults b) (errs b) (wg_counter b) (panicked b)
                    st'
              | None =>
                  Build_VariantsState (caller b)
                    (move (at_step (S n) result'))
                    (variantResults b) (errs b) (wg_counter b) (panicked b)
                    st'
              end
          end
      | append_err e =>
          Build_VariantsState (caller b) (move at_Done)
            (variantResults b) (errs b ++ [e]) (wg_counter b) (panicked b)
            (shared b)
      | store_variant result =>
          Build_VariantsState (caller b) (move at_Done)
            (<[VariantDefinition_Name (vd g) := result]> (variantResults b))
            (errs b) (wg_counter b) (panicked b) (shared b)
      | at_Done =>
          Build_VariantsState (caller b) (move variant_gone)
            (variantResults b) (errs b) (wg_counter b - 1) (panicked b)
            (shared b)
      | variant_gone => b
      end
  end.

(** One turn of the caller: [wg.Add(1); go func(vd){...}(v)] for the
    next variant, then [wg.Wait()]. *)
Definition caller_step {X} (vs : list (VariantDefinition X))
  (b : VariantsState X) : VariantsState X :=
  match caller b with
  | range_variants i =>
      match vs !! i with
      | Some v =>
          Build_VariantsState (range_variants (S i))
            (goroutines b ++ [Build_Variant v at_clone])
            (variantResults b) (errs b) (wg_counter b + 1) (panicked b)
            (shared b)
      | None =>
          Build_VariantsState wait_variants (goroutines b)
            (variantResults b) (errs b) (wg_counter b) (panicked b)
            (shared b)
      end
  | wait_variants =>
      if wg_counter b =? 0 then
        Build_VariantsState variants_returned (goroutines b)
          (variantResults b) (errs b) (wg_counter b) (panicked b) (shared b)
      else b
  | variants_returned => b
  end.

Definition variants_step {X} (ctx : Context X) (base : ProcessingResult)
  (vs : list (VariantDefinition X)) (b : VariantsState X) (thread : nat)
  : VariantsState X :=
  if panicked b then b
  else
    match thread with
    | O => caller_step vs b
    | S k => variant_step ctx base k b
    end.

Definition variants_init {X} (st : St X) : VariantsState X :=
  Build_VariantsState (range_variants 0) [] ∅ [] 0 false st.

Definition variants_run {X} (ctx : Context X) (base : ProcessingResult)
  (vs : list (VariantDefinition X)) (schedule : list nat)
  (b : VariantsState X) : VariantsState X :=
  fold_left (variants_step ctx base vs) schedule b.

(** What [ProcessVariants] returns: the result of the base steps
    together with the map that becomes its [Variants] field, or an
    error. *)
Definition variants_outcome : Type :=
  option (ProcessingResult * gmap string (option ImageData)) * option error.

(** [ProcessVariants] under a schedule.  [None] says that the call had
    not returned when the schedule (or the fuel of the base run) ended. *)
Definition ProcessVariants {X} (rt : GoRuntime X) (fuel : nat)
  (ctx : Context X) (src : Source X) (baseSteps : list (Step X))
  (vs : list (VariantDefinition X)) (schedule : list nat)
  : M (St X) (option (result variants_outcome)) :=
  fun st =>
    match Process rt fuel ctx src baseSteps st with
    | (None, st1) => (None, st1)
    | (Some (_, Some err), st1) => (Some (returns (None, Some err)), st1)
    | (Some (None, None), st1) =>
        (Some (panics "nil pointer dereference"), st1)
    | (Some (Some base, None), st1) =>
        let b := variants_run ctx base vs schedule (variants_init st1) in
        if panicked b then
          (Some (panics "nil pointer dereference"), shared b)
        else
          match caller b with
          | variants_returned =>
              match errs b with
              | e :: _ => (Some (returns (None, Some e)), shared b)
              | [] =>
                  (Some (returns (Some (base, variantResults b), None)),
                   shared b)
              end
          | _ => (None, shared b)
          end
    end.

End variants.

(** ** More sample collaborators *)

Module fixtures.
Import apperrors context core.

(** A writer that keeps what it is given, as a [bytes.Buffer] does:
    its state is the list of the slices written so far. *)
Definition buffer_Writer : writer.Writer (list (list byte)) :=
  {| writer.Write := fun p log =>
       ((Z.of_nat (length p), None), (log ++ [p])%list) |}.

(** Library encoders standing in: as many bytes as the quality asks
    for, and one byte per level. *)
Definition codecs0 : encoder.Codecs :=
  {| encoder.jpeg_Encode := fun _ _ q => (repeat x00 (Z.to_nat q), None);
     encoder.png_Encode := fun level _ _ =>
       (match level with
        | encoder.DefaultCompression => [x00; x00]
        | encoder.BestCompression => [x00]
        end, None) |}.

(** A scope with a deadline: it is cancelled once the outside has
    ticked [n] times. *)
Definition ctx_deadline (n : nat) : Context samples.Outside :=
  {| Err := fun w =>
       (if (n <=? samples.ticks w)%nat then Some context_DeadlineExceeded
        else None, w);
     Done_or_After := fun _ w =>
       (if (n <=? samples.ticks w)%nat then Some context_DeadlineExceeded
        else None, w) |}.

(** A decoder that refuses everything. *)
Definition no_decoder : Decoder samples.Outside :=
  {| Decode := fun _ _ w =>
       ((None, Some (apperrors.New CategoryDecode "decode" ErrEmptyInput)), w);
     CanDecode := fun _ => false |}.

(** The facade's registry over these. *)
Definition registry0 (cfg : config.Config) : DefaultRegistry samples.Outside :=
  imageprocessor.default_registry codecs0 no_decoder no_decoder no_decoder cfg.

End fixtures.

(** * Part II: properties *)

(** ** Machine integers *)

Lemma wrap_in_range z : goint.in_range z -> goint.wrap z = z.
Proof.
  unfold goint.in_range, goint.min_int, goint.max_int, goint.wrap. intros H.
  rewrite Z.mod_small by lia. lia.
Qed.

Lemma wrap_range z : goint.in_range (goint.wrap z).
Proof.
  unfold goint.in_range, goint.min_int, goint.max_int, goint.wrap.
  pose proof (Z.mod_pos_bound (z + 2 ^ 63) (2 ^ 64) ltac:(lia)). lia.
Qed.

Lemma add_no_overflow a b :
  goint.min_int <= a + b <= goint.max_int -> goint.add a b = a + b.
Proof. intros H. apply wrap_in_range, H. Qed.

Lemma sub_no_overflow a b :
  goint.min_int <= a - b <= goint.max_int -> goint.sub a b = a - b.
Proof. intros H. apply wrap_in_range, H. Qed.

(** ** The retry policy ([runWithRetry]) *)

Section RetryPolicy.
Import apperrors context core.
Context {X : Type}.
Variables (ctx : Context X) (step : Step X) (img : option ImageData).

(** The step always fails with a retryable error. *)
Definition always_retryable : Prop :=
  forall w : World X, exists r err w',
    Execute step ctx img w = ((r, Some err), w') /\ IsRetryable (Some err) = true.

(** The scope is not cancelled while the policy waits. *)
Definition never_cancelled : Prop :=
  forall d (x : X), fst (Done_or_After ctx d x) = None.

(** [Execute] was called exactly [maxRetries+1] times, and the call
    returned the last error it saw. *)
Definition retry_bound (fuel : nat) (st : St X) : Prop :=
  exists r e st' cs,
    runWithRetry fuel ctx step img st = (Some (r, Some e), st')
    /\ calls st' = (calls st ++ cs)%list
    /\ Z.of_nat (length cs) = config.MaxRetries (cfg (proc st)) + 1
    /\ last cs = Some (Build_Call (Name step) r (Some e)).

Variables (maxRetries delay : Z).

(** [k] attempts in a row that fail with a retryable error, each one
    followed by a wait that runs its full time: the state they lead
    to. *)
Inductive retried : nat -> St X -> St X -> Prop :=
| retried_O st : retried O st st
| retried_S k st r e w' x'' st' :
    Execute step ctx img (world st) = ((r, Some e), w') ->
    IsRetryable (Some e) = true ->
    Done_or_After ctx delay (ext w') = (None, x'') ->
    retried k
      (Build_St (Build_World x'' (heap w') (encodes w')) (proc st)
         (calls st ++ [Build_Call (Name step) r (Some e)])%list) st' ->
    retried (S k) st st'.

(** How a run of the loop ended, read off the calls [cs] it made: by
    its condition, by a call that succeeded or failed for good, by the
    last attempt allowed, or by a wait that the scope cut short. *)
Definition ended_by (i : Z) (result : option ImageData) (err : option error)
  (cs : list Call) (out : option ImageData * option error) : Prop :=
  match last cs with
  | None => maxRetries < i /\ out = (result, err)
  | Some c =>
      i <= maxRetries /\
      if is_nil (call_err c) || negb (IsRetryable (call_err c))
      then out = (call_result c, call_err c)
      else if Z.of_nat (length cs) =? maxRetries - i + 1
           then out = (call_result c, call_err c)
           else exists cerr x,
                  fst (Done_or_After ctx delay x) = Some cerr /\
                  out = (None,
                         Wrap CategoryPipeline (Name step) (Some cerr))
  end.

Lemma loop_exit fuel i result err (st : St X) :
  maxRetries < i ->
  runWithRetry_loop (S fuel) maxRetries delay ctx step img i result err st
  = (Some (result, err), st).
Proof.
  intros Hi. simpl. destruct (Z.leb_spec i maxRetries); [lia|]. reflexivity.
Qed.

Lemma loop_always_retryable fuel :
  always_retryable -> never_cancelled ->
  maxRetries < goint.max_int ->
  forall i result err (st : St X),
    0 <= i <= maxRetries ->
    maxRetries - i + 2 <= Z.of_nat fuel ->
    exists r e st' cs,
      runWithRetry_loop fuel maxRetries delay ctx step img i result err st
      = (Some (r, Some e), st')
      /\ calls st' = (calls st ++ cs)%list
      /\ proc st' = proc st
      /\ Z.of_nat (length cs) = maxRetries - i + 1
      /\ last cs = Some (Build_Call (Name step) r (Some e)).
Proof.
  intros Hretry Hlive Hmax.
  induction fuel as [|fuel IH]; intros i result err st Hi Hfuel; [lia|].
  cbn [runWithRetry_loop].
  destruct (Z.leb_spec i maxRetries) as [_|]; [|lia].
  unfold bind at 1.
  unfold call_Execute, bind, on_env, on_world, on_ext, record_call, ret.
  destruct (Hretry (world st)) as (r & e & w' & Hex & Hr). rewrite Hex.
  cbn [is_nil orb]. rewrite Hr. cbn [negb].
  destruct (Z.ltb_spec i maxRetries) as [Hlt|Hge].
  - pose proof (Hlive delay (ext w')) as Hw.
    destruct (Done_or_After ctx delay (ext w')) as [d x''] eqn:Hd.
    cbn in Hw. subst d.
    cbn [world proc calls]. rewrite Hd.
    rewrite add_no_overflow by (unfold goint.min_int, goint.max_int in *; lia).
    destruct (IH (i + 1) r (Some e)
                (Build_St (Build_World x'' (heap w') (encodes w')) (proc st)
                   (calls st ++ [Build_Call (Name step) r (Some e)])%list))
      as (r' & err' & st' & cs & Hrun & Hcs & Hp & Hlen & Hlast); [lia|lia|].
    exists r', err', st', (Build_Call (Name step) r (Some e) :: cs).
    cbn [calls proc] in Hcs, Hp. rewrite Hrun. repeat split.
    + rewrite Hcs, <- app_assoc. reflexivity.
    + exact Hp.
    + cbn [length]. lia.
    + destruct cs as [|c cs]; [cbn in Hlen; lia|]. exact Hlast.
  - assert (i = maxRetries) as -> by lia.
    rewrite add_no_overflow by (unfold goint.min_int, goint.max_int in *; lia).
    destruct fuel as [|fuel]; [lia|].
    rewrite loop_exit by lia.
    eexists r, e, _, [Build_Call (Name step) r (Some e)].
    repeat split. cbn [length]. lia.
Qed.

(** However the step and the scope behave, a call that fails without a
    retryable error, or succeeds, ends the loop: every call but the last
    one failed with a retryable error, there are never more than
    [maxRetries+1] calls, and the processor is left as it was. *)
Lemma loop_calls fuel :
  maxRetries < goint.max_int ->
  forall i result err (st : St X) out st',
    0 <= i ->
    runWithRetry_loop fuel maxRetries delay ctx step img i result err st
    = (Some out, st') ->
    exists cs,
      calls st' = (calls st ++ cs)%list
      /\ proc st' = proc st
      /\ Z.of_nat (length cs) <= Z.max 0 (maxRetries - i + 1)
      /\ Forall (fun c => IsRetryable (call_err c) = true) (removelast cs)
      /\ Forall (fun c => call_step c = Name step) cs
      /\ (forall c, last cs = Some c -> is_nil (call_err c) = true ->
                    out = (call_result c, None)).
Proof.
  intros Hmax.
  induction fuel as [|fuel IH]; intros i result err st out st' Hi Hrun;
    [discriminate|].
  cbn [runWithRetry_loop] in Hrun.
  destruct (Z.leb_spec i maxRetries) as [Hle|Hgt].
  2:{ injection Hrun as <- <-. exists []. rewrite app_nil_r.
      split; [reflexivity|]. split; [reflexivity|]. split; [cbn; lia|].
      split; [constructor|]. split; [constructor|]. intros c; discriminate. }
  unfold bind at 1 in Hrun.
  unfold call_Execute, bind, on_env, on_world, on_ext, record_call, ret in Hrun.
  destruct (Execute step ctx img (world st)) as [[r e] w'] eqn:Hex.
  cbn [world proc calls] in Hrun.
  set (c := Build_Call (Name step) r e) in *.
  destruct (is_nil e || negb (IsRetryable e)) eqn:Hterm.
  { injection Hrun as <- <-. exists [c]. cbn [calls proc removelast last].
    split; [reflexivity|]. split; [reflexivity|]. split; [cbn [length]; lia|].
    split; [constructor|]. split; [repeat constructor|].
    intros c0 [= <-] Hnil. cbn in Hnil. destruct e; [discriminate|reflexivity]. }
  apply orb_false_iff in Hterm as [Hnil Hr]. apply negb_false_iff in Hr.
  assert (Hcont : forall w'',
    runWithRetry_loop fuel maxRetries delay ctx step img (goint.add i 1)
      r e (Build_St w'' (proc st) (calls st ++ [c])%list) = (Some out, st') ->
    exists cs,
      calls st' = (calls st ++ cs)%list
      /\ proc st' = proc st
      /\ Z.of_nat (length cs) <= Z.max 0 (maxRetries - i + 1)
      /\ Forall (fun c => IsRetryable (call_err c) = true) (removelast cs)
      /\ Forall (fun c => call_step c = Name step) cs
      /\ (forall c, last cs = Some c -> is_nil (call_err c) = true ->
                    out = (call_result c, None))).
  { intros w'' Hrun'.
    rewrite add_no_overflow in Hrun'
      by (unfold goint.min_int, goint.max_int in *; lia).
    apply IH in Hrun' as (cs & Hcs & Hp & Hlen & Hall & Hnames & Hlast); [|lia].
    cbn [calls proc] in Hcs, Hp.
    exists (c :: cs).
    split; [|split; [|split; [|split; [|split]]]].
    - rewrite Hcs, <- app_assoc. reflexivity.
    - exact Hp.
    - cbn [length]. lia.
    - destruct cs as [|c1 cs]; [constructor|].
      change (removelast (c :: c1 :: cs)) with (c :: removelast (c1 :: cs)).
      constructor; [exact Hr | exact Hall].
    - constructor; [reflexivity | exact Hnames].
    - destruct cs as [|c1 cs].
      + intros c0 [= <-] Hn. cbn in Hn. rewrite Hn in Hnil. discriminate.
      + exact Hlast. }
  destruct (i <? maxRetries).
  - cbn [world proc calls] in Hrun.
    destruct (Done_or_After ctx delay (ext w')) as [[cerr|] x'']; [|eauto].
    injection Hrun as <- <-. exists [c]. cbn [calls proc removelast last].
    split; [reflexivity|]. split; [reflexivity|]. split; [cbn [length]; lia|].
    split; [constructor|]. split; [repeat constructor|].
    intros c0 [= <-] Hn. cbn in Hn. rewrite Hn in Hnil. discriminate.
  - eauto.
Qed.

Lemma retried_calls k st st_k :
  retried k st st_k ->
  proc st_k = proc st /\
  exists cs, calls st_k = (calls st ++ cs)%list /\ length cs = k /\
    Forall (fun c => IsRetryable (call_err c) = true) cs.
Proof.
  induction 1 as [st | k st r e w' x'' st' Hex Hr Hd _ IH].
  - split; [reflexivity |]. exists []. rewrite app_nil_r.
    split; [reflexivity |]. split; [reflexivity | constructor].
  - destruct IH as (Hp & cs & Hcs & Hlen & Hall). cbn [proc calls] in Hp, Hcs.
    split; [exact Hp |].
    exists (Build_Call (Name step) r (Some e) :: cs).
    split; [rewrite Hcs, <- app_assoc; reflexivity |].
    split; [cbn [length]; lia |]. constructor; [exact Hr | exact Hall].
Qed.

(** A wait that the scope cuts short, after any number of attempts: the
    loop makes no further call and returns the scope's error, wrapped,
    with a nil result. *)
Lemma loop_cancelled k :
  maxRetries < goint.max_int ->
  forall fuel i result err (st st_k : St X) r e w' cerr x'',
    0 <= i -> i + Z.of_nat k < maxRetries -> (k < fuel)%nat ->
    retried k st st_k ->
    Execute step ctx img (world st_k) = ((r, Some e), w') ->
    IsRetryable (Some e) = true ->
    Done_or_After ctx delay (ext w') = (Some cerr, x'') ->
    runWithRetry_loop fuel maxRetries delay ctx step img i result err st
    = (Some (None, Wrap CategoryPipeline (Name step) (Some cerr)),
       Build_St (Build_World x'' (heap w') (encodes w')) (proc st_k)
         (calls st_k ++ [Build_Call (Name step) r (Some e)])%list).
Proof.
  intros Hmax fuel i result err st st_k r e w' cerr x'' Hi Hk Hfuel Hret.
  revert fuel i result err Hi Hk Hfuel.
  induction Hret as [st | k st r0 e0 w0 x0 st' Hex0 Hr0 Hd0 _ IH];
    intros fuel i result err Hi Hk Hfuel Hex Hr Hdone;
    (destruct fuel as [| fuel]; [lia |]); cbn [runWithRetry_loop];
    (destruct (Z.leb_spec i maxRetries) as [_ |]; [| lia]);
    unfold bind at 1;
    unfold call_Execute, bind, on_env, on_world, on_ext, record_call, ret.
  - rewrite Hex. cbn [is_nil orb]. rewrite Hr. cbn [negb].
    destruct (Z.ltb_spec i maxRetries) as [_ |]; [| lia].
    cbn [world proc calls]. rewrite Hdone. reflexivity.
  - rewrite Hex0. cbn [is_nil orb]. rewrite Hr0. cbn [negb].
    destruct (Z.ltb_spec i maxRetries) as [_ |]; [| lia].
    cbn [world proc calls]. rewrite Hd0.
    rewrite add_no_overflow by (unfold goint.min_int, goint.max_int in *; lia).
    apply IH; try assumption; lia.
Qed.

(** Every run of the loop that returns ended in one of the four ways. *)
Lemma loop_outcome fuel :
  maxRetries < goint.max_int ->
  forall i result err (st : St X) out st',
    0 <= i ->
    runWithRetry_loop fuel maxRetries delay ctx step img i result err st
    = (Some out, st') ->
    exists cs,
      calls st' = (calls st ++ cs)%list /\ ended_by i result err cs out.
Proof.
  intros Hmax.
  induction fuel as [| fuel IH]; intros i result err st out st' Hi Hrun;
    [discriminate |].
  cbn [runWithRetry_loop] in Hrun.
  destruct (Z.leb_spec i maxRetries) as [Hle | Hgt].
  2:{ injection Hrun as <- <-. exists []. rewrite app_nil_r.
      split; [reflexivity |]. split; [exact Hgt | reflexivity]. }
  unfold bind at 1 in Hrun.
  unfold call_Execute, bind, on_env, on_world, on_ext, record_call, ret in Hrun.
  destruct (Execute step ctx img (world st)) as [[r e] w'] eqn:Hex.
  cbn [world proc calls] in Hrun.
  set (c := Build_Call (Name step) r e) in *.
  destruct (is_nil e || negb (IsRetryable e)) eqn:Hterm.
  { injection Hrun as <- <-. exists [c]. split; [reflexivity |].
    unfold ended_by. cbn [last call_err call_result c]. rewrite Hterm.
    split; [exact Hle | reflexivity]. }
  assert (Hcont : forall w'',
    runWithRetry_loop fuel maxRetries delay ctx step img (goint.add i 1)
      r e (Build_St w'' (proc st) (calls st ++ [c])%list) = (Some out, st') ->
    exists cs,
      calls st' = (calls st ++ cs)%list /\ ended_by i result err cs out).
  { intros w'' Hrun'.
    rewrite add_no_overflow in Hrun'
      by (unfold goint.min_int, goint.max_int in *; lia).
    apply IH in Hrun' as (cs & Hcs & Hend); [| lia].
    cbn [calls] in Hcs. exists (c :: cs).
    split; [rewrite Hcs, <- app_assoc; reflexivity |].
    unfold ended_by in Hend |- *.
    destruct cs as [| c1 cs].
    - cbn [last] in Hend |- *. destruct Hend as [Hlast ->].
      split; [exact Hle |]. cbn [call_err call_result c]. rewrite Hterm.
      cbn [length].
      destruct (Z.eqb_spec (Z.of_nat 1) (maxRetries - i + 1)); [reflexivity | lia].
    - change (last (c :: c1 :: cs)) with (last (c1 :: cs)).
      destruct (last (c1 :: cs)) as [c' |] eqn:Hl;
        [| apply last_None in Hl; discriminate Hl].
      destruct Hend as [Hle' Hend]. split; [exact Hle |].
      destruct (is_nil (call_err c') || negb (IsRetryable (call_err c')));
        [exact Hend |].
      replace (Z.of_nat (length (c :: c1 :: cs)) =? maxRetries - i + 1)
        with (Z.of_nat (length (c1 :: cs)) =? maxRetries - (i + 1) + 1);
        [exact Hend |].
      cbn [length].
      destruct (Z.eqb_spec (Z.of_nat (S (length cs))) (maxRetries - (i + 1) + 1)),
        (Z.eqb_spec (Z.of_nat (S (S (length cs)))) (maxRetries - i + 1));
        try reflexivity; lia. }
  destruct (Z.ltb_spec i maxRetries) as [Hlt | Hge].
  - cbn [world proc calls] in Hrun.
    destruct (Done_or_After ctx delay (ext w')) as [[cerr |] x''] eqn:Hd;
      [| eauto].
    injection Hrun as <- <-. exists [c]. split; [reflexivity |].
    unfold ended_by. cbn [last call_err call_result c]. rewrite Hterm.
    split; [exact Hle |]. cbn [length].
    destruct (Z.eqb_spec (Z.of_nat 1) (maxRetries - i + 1)); [lia |].
    exists cerr, (ext w'). rewrite Hd. split; reflexivity.
  - eauto.
Qed.

(** The loop finishes within [maxRetries+2] turns. *)
Lemma loop_total fuel :
  maxRetries < goint.max_int ->
  forall i result err (st : St X),
    0 <= i ->
    Z.max 0 (maxRetries - i + 1) + 1 <= Z.of_nat fuel ->
    exists out st',
      runWithRetry_loop fuel maxRetries delay ctx step img i result err st
      = (Some out, st').
Proof.
  intros Hmax.
  induction fuel as [|fuel IH]; intros i result err st Hi Hfuel; [lia|].
  cbn [runWithRetry_loop].
  destruct (Z.leb_spec i maxRetries) as [Hle|Hgt]; [|unfold ret; eauto].
  unfold bind at 1.
  unfold call_Execute, bind, on_env, on_world, on_ext, record_call, ret.
  destruct (Execute step ctx img (world st)) as [[r e] w'].
  cbn [world proc calls].
  destruct (is_nil e || negb (IsRetryable e)); [eauto|].
  destruct (i <? maxRetries).
  - cbn [world proc calls].
    destruct (Done_or_After ctx delay (ext w')) as [[cerr|] x'']; [eauto|].
    rewrite add_no_overflow by (unfold goint.min_int, goint.max_int in *; lia).
    apply IH; lia.
  - rewrite add_no_overflow by (unfold goint.min_int, goint.max_int in *; lia).
    apply IH; lia.
Qed.

End RetryPolicy.

(** C1 (as amended).  With [0 <= maxRetries] (and [maxRetries+1] an
    [int]) [runWithRetry] returns, and
    - when the step always fails with a retryable error and the scope is
      not cancelled while the policy waits, [Execute] is called exactly
      [maxRetries+1] times and the last error seen is returned;
    - when the first call fails with an error that is not retryable,
      that is the only call and its result and error are returned;
    - in every run a call that succeeds is the last one and its result
      is returned, and there are at most [maxRetries+1] calls;
    - a run whose last call failed returns that call's result and
      error when the error is not retryable or the call was the
      [maxRetries+1]-th, and otherwise ended in a wait that the scope
      cut short;
    - when a retry wait is cut short by the scope, after any number
      [k < maxRetries] of attempts that were retried, no further call is
      made: the result is nil with a pipeline error around the scope's,
      and [Execute] was called [k+1] times. *)
Theorem runWithRetry_policy {X : Type} (ctx : context.Context X)
  (step : core.Step X) (img : option core.ImageData) (st : core.St X)
  (fuel : nat) :
  let maxRetries := config.MaxRetries (core.cfg (core.proc st)) in
  let delay := config.RetryDelay (core.cfg (core.proc st)) in
  0 <= maxRetries < goint.max_int ->
  maxRetries + 2 <= Z.of_nat fuel ->
  (exists out st', core.runWithRetry fuel ctx step img st = (Some out, st'))
  /\ (always_retryable ctx step img -> never_cancelled ctx ->
      retry_bound ctx step img fuel st)
  /\ (forall r e w',
        core.Execute step ctx img (core.world st) = ((r, Some e), w') ->
        apperrors.IsRetryable (Some e) = false ->
        core.runWithRetry fuel ctx step img st
        = (Some (r, Some e),
           core.Build_St w' (core.proc st)
             (core.calls st ++ [core.Build_Call (core.Name step) r (Some e)])))
  /\ (forall out st',
        core.runWithRetry fuel ctx step img st = (Some out, st') ->
        exists cs,
          core.calls st' = (core.calls st ++ cs)%list
          /\ Z.of_nat (length cs) <= maxRetries + 1
          /\ Forall (fun c => apperrors.IsRetryable (core.call_err c) = true)
               (removelast cs)
          /\ (forall c, last cs = Some c -> core.call_err c = None ->
                        out = (core.call_result c, None))
          /\ (forall c, last cs = Some c -> core.call_err c <> None ->
                if negb (apperrors.IsRetryable (core.call_err c))
                   || (Z.of_nat (length cs) =? maxRetries + 1)
                then out = (core.call_result c, core.call_err c)
                else exists cerr x,
                       fst (context.Done_or_After ctx delay x) = Some cerr /\
                       out = (None,
                              apperrors.Wrap apperrors.CategoryPipeline
                                (core.Name step) (Some cerr))))
  /\ (forall k st_k r e w' cerr x'',
        Z.of_nat k < maxRetries ->
        retried ctx step img delay k st st_k ->
        core.Execute step ctx img (core.world st_k) = ((r, Some e), w') ->
        apperrors.IsRetryable (Some e) = true ->
        context.Done_or_After ctx delay (core.ext w') = (Some cerr, x'') ->
        core.runWithRetry fuel ctx step img st
        = (Some (None,
                 apperrors.Wrap apperrors.CategoryPipeline (core.Name step)
                   (Some cerr)),
           core.Build_St
             (core.Build_World x'' (core.heap w') (core.encodes w'))
             (core.proc st)
             (core.calls st_k
              ++ [core.Build_Call (core.Name step) r (Some e)]))
        /\ exists cs,
             core.calls st_k = (core.calls st ++ cs)%list
             /\ length cs = k).
Proof.
  intros maxRetries delay Hmax Hfuel. unfold core.runWithRetry.
  fold maxRetries delay.
  split; [|split; [|split; [|split]]].
  - apply loop_total; lia.
  - intros Hretry Hlive. unfold retry_bound, core.runWithRetry.
    fold maxRetries delay.
    destruct (loop_always_retryable ctx step img maxRetries delay fuel
                Hretry Hlive ltac:(lia) 0 None None st ltac:(lia) ltac:(lia))
      as (r & e & st' & cs & Hrun & Hcs & _ & Hlen & Hlast).
    exists r, e, st', cs. repeat split; try assumption. lia.
  - intros r e w' Hex Hr.
    destruct fuel as [|fuel]; [lia|]. cbn [core.runWithRetry_loop].
    destruct (Z.leb_spec 0 maxRetries) as [_|]; [|lia].
    unfold bind at 1.
    unfold core.call_Execute, bind, core.on_world, core.record_call, ret.
    rewrite Hex. cbn [core.is_nil orb]. rewrite Hr. reflexivity.
  - intros out st' Hrun.
    pose proof Hrun as Hrun'.
    apply loop_calls in Hrun as (cs & Hcs & _ & Hlen & Hall & _ & Hlast);
      [|lia|lia].
    apply loop_outcome in Hrun' as (cs' & Hcs' & Hend); [|lia|lia].
    rewrite Hcs in Hcs'. apply app_inv_head in Hcs'. subst cs'.
    exists cs. split; [exact Hcs |]. split; [lia |]. split; [exact Hall |].
    split.
    + intros c Hc Hn. apply Hlast; [exact Hc|]. rewrite Hn. reflexivity.
    + intros c Hc Hn. unfold ended_by in Hend. rewrite Hc in Hend.
      destruct Hend as [_ Hend].
      destruct (core.call_err c) as [e |] eqn:He; [| contradiction].
      cbn [core.is_nil orb] in Hend. rewrite Z.sub_0_r in Hend.
      destruct (apperrors.IsRetryable (Some e)); cbn [negb orb] in Hend |- *;
        exact Hend.
  - intros k st_k r e w' cerr x'' Hk Hret Hex Hr Hdone.
    destruct (retried_calls _ _ _ _ _ _ _ Hret) as (Hp & cs & Hcs & Hlen & _).
    split; [| exists cs; split; assumption].
    rewrite <- Hp.
    apply (loop_cancelled ctx step img maxRetries delay k); try assumption; lia.
Qed.

(** The retry bound at work: the default configuration retries three
    times, so a step that always fails transiently is called four
    times.  Under a scope whose deadline passes during the second wait
    it is called twice, and the deadline's error comes back. *)
Lemma runWithRetry_policy_witness :
  retry_bound samples.ctx_live samples.flaky None 5 samples.st0
  /\ fst (core.runWithRetry 5 (fixtures.ctx_deadline 2) samples.flaky None
            samples.st0)
     = Some (None,
             Some (apperrors.New apperrors.CategoryPipeline "flaky"
                     apperrors.context_DeadlineExceeded))
  /\ length (core.calls
               (snd (core.runWithRetry 5 (fixtures.ctx_deadline 2)
                       samples.flaky None samples.st0))) = 2%nat.
Proof.
  split.
  - refine (proj1 (proj2 (runWithRetry_policy samples.ctx_live samples.flaky
                            None samples.st0 5 _ _)) _ _).
    + vm_compute. split; [intros H; discriminate H | reflexivity].
    + vm_compute. intros H; discriminate H.
    + intros k. eexists _, _, _. split; reflexivity.
    + intros d k. reflexivity.
  - assert (Hrange : 0 <= config.MaxRetries (core.cfg (core.proc samples.st0))
                     < goint.max_int)
      by (vm_compute; split; [intros H; discriminate H | reflexivity]).
    assert (Hfuel : config.MaxRetries (core.cfg (core.proc samples.st0)) + 2
                    <= Z.of_nat 5)
      by (vm_compute; intros H; discriminate H).
    destruct (proj2 (proj2 (proj2 (proj2
                (runWithRetry_policy (fixtures.ctx_deadline 2) samples.flaky
                   None samples.st0 5 Hrange Hfuel))))
                1%nat
                (core.Build_St
                   (samples.tick (core.world samples.st0))
                   (core.proc samples.st0)
                   [core.Build_Call "flaky" None
                      (Some (apperrors.Transient "flaky"
                               (apperrors.external "timeout")))])
                None
                (apperrors.Transient "flaky" (apperrors.external "timeout"))
                (samples.tick (samples.tick (core.world samples.st0)))
                apperrors.context_DeadlineExceeded
                (core.ext (samples.tick (samples.tick
                                           (core.world samples.st0)))))
      as [Hrun _].
    + reflexivity.
    + eapply retried_S; [reflexivity | reflexivity | reflexivity |].
      apply retried_O.
    + reflexivity.
    + reflexivity.
    + reflexivity.
    + rewrite Hrun. split; reflexivity.
Defined.

(** C1 as stated fails when the scope is cancelled during the first
    wait: the step always fails with a retryable error and
    [maxRetries = 3], yet [Execute] is called once, not four times. *)
Lemma runWithRetry_cancelled_wait :
  always_retryable samples.ctx_cancelled samples.flaky None
  /\ 0 <= config.MaxRetries (core.cfg (core.proc samples.st0))
  /\ (forall fuel,
        ~ retry_bound samples.ctx_cancelled samples.flaky None fuel samples.st0)
  /\ core.runWithRetry 5 samples.ctx_cancelled samples.flaky None samples.st0
     = (Some (None,
              Some (apperrors.New apperrors.CategoryPipeline "flaky"
                      apperrors.context_Canceled)),
        core.Build_St (samples.tick (core.world samples.st0))
          (core.proc samples.st0)
          [core.Build_Call "flaky" None
             (Some (apperrors.Transient "flaky" (apperrors.external "timeout")))]).
Proof.
  split; [|split; [|split]].
  - intros k. eexists _, _, _. split; reflexivity.
  - vm_compute. intros H; discriminate H.
  - intros fuel (r & e & st' & cs & Hrun & Hcs & Hlen & _).
    destruct fuel as [|fuel]; [discriminate Hrun|].
    vm_compute in Hrun. injection Hrun as _ _ <-.
    cbn in Hcs. subst cs. vm_compute in Hlen. discriminate Hlen.
  - vm_compute. reflexivity.
Qed.

(** ** The counters of [Process] *)

Section Counters.
Import apperrors context streaming core.
Context {X : Type}.
Variables (rt : GoRuntime X) (ctx : Context X).

Lemma runWithRetry_loop_proc (step : Step X) (img : option ImageData)
  (maxRetries delay : Z) (fuel : nat) :
  forall i result err (st : St X) out st',
    runWithRetry_loop fuel maxRetries delay ctx step img i result err st
    = (out, st') ->
    proc st' = proc st.
Proof.
  induction fuel as [|fuel IH]; intros i result err st out st' Hrun.
  { cbv in Hrun. injection Hrun as _ <-. reflexivity. }
  cbn [runWithRetry_loop] in Hrun.
  destruct (i <=? maxRetries);
    [|unfold ret in Hrun; inversion Hrun; reflexivity].
  unfold bind at 1 in Hrun.
  unfold call_Execute, bind, on_env, on_world, on_ext, record_call, ret in Hrun.
  destruct (Execute step ctx img (world st)) as [[r e] w'].
  cbn [world proc calls] in Hrun.
  destruct (is_nil e || negb (IsRetryable e));
    [unfold ret in Hrun; inversion Hrun; reflexivity|].
  destruct (i <? maxRetries); cbn [world proc calls] in Hrun.
  - destruct (Done_or_After ctx delay (ext w')) as [[cerr|] x''].
    + unfold ret in Hrun; inversion Hrun; reflexivity.
    + apply IH in Hrun. exact Hrun.
  - apply IH in Hrun. exact Hrun.
Qed.

Lemma runWithRetry_proc (step : Step X) (img : option ImageData)
  (fuel : nat) (st : St X) out st' :
  runWithRetry fuel ctx step img st = (out, st') -> proc st' = proc st.
Proof. apply runWithRetry_loop_proc. Qed.

Lemma on_world_proc {A} (m : M (World X) A) (st : St X) a st' :
  on_world m st = (a, st') -> proc st' = proc st.
Proof.
  unfold on_world. destruct (m (world st)) as [a0 w']. intros [= _ <-].
  reflexivity.
Qed.

Lemma on_env_proc {A} (m : M X A) (st : St X) a st' :
  on_env m st = (a, st') -> proc st' = proc st.
Proof. apply on_world_proc. Qed.

(** The step loop of [Process] counts one error when it fails and
    leaves the processor alone when every step has run. *)
Lemma Process_steps_proc (fuel : nat) (steps : list (Step X)) :
  forall current timings (st : St X) r st',
    Process_steps rt fuel ctx steps current timings st = (Some r, st') ->
    match r with
    | (Some _, _) => proc st' = proc st
    | (None, err) => proc st' = add_error (proc st) /\ is_Some err
    end.
Proof.
  induction steps as [|step rest IH]; intros current timings st r st' Hrun.
  { cbv in Hrun. injection Hrun as <- <-. reflexivity. }
  cbn [Process_steps] in Hrun.
  unfold bind at 1 in Hrun.
  destruct (on_env (Err ctx) st) as [[e|] st1] eqn:H1;
    apply on_env_proc in H1.
  { unfold bind, on_proc, ret in Hrun. cbn in Hrun.
    injection Hrun as <- <-. rewrite H1.
    split; [reflexivity | eexists; reflexivity]. }
  unfold bind at 1 in Hrun. unfold bind at 1 in Hrun.
  destruct (on_world (notifyBefore (hooks (proc st1)) ctx (Name step) current)
              st1) as [[] st2] eqn:H2; apply on_world_proc in H2.
  unfold bind at 1 in Hrun.
  destruct (on_env (time_Now rt) st2) as [t st3] eqn:H3;
    apply on_env_proc in H3.
  unfold bind at 1 in Hrun.
  destruct (runWithRetry fuel ctx step current st3) as [out st4] eqn:H4.
  apply runWithRetry_proc in H4.
  destruct out as [[next stepErr]|]; [|discriminate Hrun].
  unfold bind at 1 in Hrun.
  destruct (on_env (time_Now rt) st4) as [t' st5] eqn:H5;
    apply on_env_proc in H5.
  unfold bind at 1 in Hrun. unfold bind at 1 in Hrun.
  destruct (on_world (notifyAfter (hooks (proc st5)) ctx (Name step) next
                        (goint.sub t' t) stepErr) st5) as [[] st6] eqn:H6;
    apply on_world_proc in H6.
  assert (Hp : proc st6 = proc st) by congruence.
  destruct stepErr as [e|].
  - unfold bind, on_proc, ret in Hrun. cbn in Hrun.
    injection Hrun as <- <-. rewrite Hp.
    split; [reflexivity | eexists; reflexivity].
  - apply IH in Hrun. rewrite Hp in Hrun. exact Hrun.
Qed.

(** What [Process] does to the counters.  A call that succeeds returns a
    result and counts one processed image.  A call that fails returns no
    result and leaves the success counter alone; it counts at most one
    error, and none when the step list is empty: the call then returns
    in the state it was made in. *)
Theorem Process_counters (fuel : nat) (src : Source X)
  (steps : list (Step X)) (st : St X) res err st' :
  Process rt fuel ctx src steps st = (Some (res, err), st') ->
  (err = None ->
     is_Some res
     /\ ProcessedCount (proc st') = goint.add (ProcessedCount (proc st)) 1
     /\ ErrorCount (proc st') = ErrorCount (proc st))
  /\ (is_Some err ->
        res = None
        /\ ProcessedCount (proc st') = ProcessedCount (proc st)
        /\ (ErrorCount (proc st') = ErrorCount (proc st)
            \/ ErrorCount (proc st') = goint.add (ErrorCount (proc st)) 1))
  /\ (steps = [] ->
        st' = st
        /\ err = Some (apperrors.New CategoryPipeline "process" ErrEmptyInput)).
Proof.
  intros Hrun. unfold Process in Hrun.
  destruct steps as [|step rest].
  { unfold ret in Hrun. injection Hrun as <- <- <-.
    split; [discriminate|]. split; [|split; reflexivity].
    intros _. split; [reflexivity|]. split; [reflexivity|]. left; reflexivity. }
  unfold bind at 1 in Hrun.
  destruct (on_env (time_Now rt) st) as [start st1] eqn:H1;
    apply on_env_proc in H1.
  unfold bind at 1 in Hrun. unfold bind at 1 in Hrun.
  match type of Hrun with
  | context [on_env (DrainReader fuel ctx ?r ?c) st1] =>
      destruct (on_env (DrainReader fuel ctx r c) st1) as [[[buf|e]|] st2]
        eqn:H2; apply on_env_proc in H2
  end.
  3:{ unfold ret in Hrun. discriminate Hrun. }
  2:{ unfold ret in Hrun. cbn [Wrap] in Hrun. injection Hrun as <- <- <-.
      rewrite H2, H1.
      split; [discriminate|]. split; [|discriminate].
      intros _. split; [reflexivity|]. split; [reflexivity|]. left; reflexivity. }
  unfold bind at 1 in Hrun.
  match type of Hrun with
  | context [Process_steps rt fuel ctx ?ss ?cur ?tim st2] =>
      destruct (Process_steps rt fuel ctx ss cur tim st2) as [r st3] eqn:Hsteps
  end.
  destruct r as [[[[current timings]|] e]|];
    [| |unfold ret in Hrun; discriminate Hrun].
  - apply Process_steps_proc in Hsteps.
    unfold bind at 1 in Hrun. unfold on_proc at 1 in Hrun.
    unfold bind at 1 in Hrun.
    match type of Hrun with
    | context [on_env (time_Now rt) ?s4] =>
        destruct (on_env (time_Now rt) s4) as [stop st5] eqn:H5;
          apply on_env_proc in H5; cbn [proc] in H5
    end.
    unfold ret in Hrun. injection Hrun as <- <- <-.
    rewrite H5, Hsteps, H2, H1.
    split; [|split; [|discriminate]].
    + intros _. split; [eexists; reflexivity|]. split; reflexivity.
    + intros [? [=]].
  - apply Process_steps_proc in Hsteps as [Hp [e0 ->]].
    unfold ret in Hrun. injection Hrun as <- <- <-. rewrite Hp, H2, H1.
    split; [discriminate|]. split; [|discriminate].
    intros _. split; [reflexivity|]. split; [reflexivity|]. right; reflexivity.
Qed.

(** A failure of the drain is returned before anything is counted: the
    processor is left as it was. *)
Lemma Process_drain_failure (fuel : nat) (src : Source X)
  (step : Step X) (rest : list (Step X)) (st : St X) t x1 e x2 :
  time_Now rt (ext (world st)) = (t, x1) ->
  DrainReader fuel ctx
    (if 0 <? config.MaxImageBytes (cfg (proc st))
     then limited (Build_LimitedReader (Reader src)
                     (config.MaxImageBytes (cfg (proc st))) 0)
     else plain (Reader src))
    (config.ChunkSize (cfg (proc st))) x1 = (Some (inr e), x2) ->
  Process rt fuel ctx src (step :: rest) st
  = (Some (None, Some (apperrors.New CategoryDecode "process.drain" e)),
     Build_St (Build_World x2 (heap (world st)) (encodes (world st)))
       (proc st) (calls st)).
Proof.
  intros Hnow Hdrain. unfold Process.
  unfold bind at 1. unfold on_env at 1, on_world at 1, on_ext at 1.
  rewrite Hnow.
  unfold bind at 1. cbn [proc world calls].
  unfold bind at 1. unfold on_env at 1, on_world at 1, on_ext at 1.
  cbn [proc world calls ext heap encodes].
  rewrite Hdrain. reflexivity.
Qed.

End Counters.

(** A run of [Process] that succeeds, with its counters. *)
Lemma Process_counters_witness :
  let st := samples.fresh config.Default [xff; xd8; xff; xe0] in
  let st' := snd (core.Process samples.rt0 6 samples.ctx_live
                    samples.FromReader [samples.keep] st) in
  core.ProcessedCount (core.proc st') = 1
  /\ core.ErrorCount (core.proc st') = 0.
Proof.
  intros st st'.
  destruct (Process_counters samples.rt0 samples.ctx_live 6
              samples.FromReader [samples.keep] st _ _ st'
              ltac:(vm_compute; reflexivity)) as [Hok _].
  destruct (Hok eq_refl) as (_ & Hp & He). split; [exact Hp | exact He].
Defined.

(** A drain that fails, with the state [Process] returns in. *)
Lemma Process_drain_failure_witness :
  snd (core.Process samples.rt0 6 samples.ctx_live samples.FromReader
         [samples.keep]
         (samples.fresh (samples.with_MaxImageBytes 4) [xff; xd8; xff; xe0]))
  = core.Build_St
      (core.Build_World {| samples.ticks := 0; samples.unread := [] |} ∅ [])
      (core.New (samples.with_MaxImageBytes 4) core.NewRegistry) [].
Proof.
  rewrite (Process_drain_failure samples.rt0 samples.ctx_live 6
             samples.FromReader samples.keep []
             (samples.fresh (samples.with_MaxImageBytes 4)
                [xff; xd8; xff; xe0])
             0 {| samples.ticks := 0; samples.unread := [xff; xd8; xff; xe0] |}
             apperrors.io_ErrUnexpectedEOF
             {| samples.ticks := 0; samples.unread := [] |}
             ltac:(vm_compute; reflexivity) ltac:(vm_compute; reflexivity)).
  reflexivity.
Defined.

(** C8 on failures outside the step loop.  A call of [Process] without
    steps returns the input error in the state it was made in, and a
    call whose drain fails returns the drain error with the processor
    as it was: neither counts an error.  On a fresh processor the error
    counter stays at zero with an empty step list, with a source the
    drain refuses and with a scope that is cancelled already (the drain
    is the first to see it), while a failing step is counted. *)
Theorem Process_uncounted_failures :
  (forall X (rt : GoRuntime X) (fuel : nat) (ctx : context.Context X)
          (src : core.Source X) (st : core.St X),
     core.Process rt fuel ctx src [] st
     = (Some (None, Some (apperrors.New apperrors.CategoryPipeline "process"
                            apperrors.ErrEmptyInput)), st)) /\
  (forall X (rt : GoRuntime X) (fuel : nat) (ctx : context.Context X)
          (src : core.Source X) (step : core.Step X)
          (rest : list (core.Step X)) (st : core.St X) t x1 e x2,
     time_Now rt (core.ext (core.world st)) = (t, x1) ->
     streaming.DrainReader fuel ctx
       (if 0 <? config.MaxImageBytes (core.cfg (core.proc st))
        then streaming.limited
               (streaming.Build_LimitedReader (core.Reader src)
                  (config.MaxImageBytes (core.cfg (core.proc st))) 0)
        else streaming.plain (core.Reader src))
       (config.ChunkSize (core.cfg (core.proc st))) x1 = (Some (inr e), x2) ->
     fst (core.Process rt fuel ctx src (step :: rest) st)
     = Some (None, Some (apperrors.New apperrors.CategoryDecode
                           "process.drain" e)) /\
     core.ErrorCount (core.proc (snd (core.Process rt fuel ctx src
                                        (step :: rest) st)))
     = core.ErrorCount (core.proc st)) /\
  (let data := [xff; xd8; xff; xe0] in
   let run steps ctx c :=
     core.Process samples.rt0 6 ctx samples.FromReader steps
       (samples.fresh c data) in
   core.ErrorCount (core.proc (snd (run [] samples.ctx_live config.Default)))
   = 0
   /\ fst (run [samples.keep] samples.ctx_live (samples.with_MaxImageBytes 4))
      = Some (None, Some (apperrors.New apperrors.CategoryDecode
                            "process.drain" apperrors.io_ErrUnexpectedEOF))
   /\ core.ErrorCount
        (core.proc (snd (run [samples.keep] samples.ctx_live
                           (samples.with_MaxImageBytes 4)))) = 0
   /\ core.ErrorCount
        (core.proc (snd (run [samples.broken] samples.ctx_live config.Default)))
      = 1
   /\ fst (run [samples.keep] samples.ctx_cancelled config.Default)
      = Some (None, Some (apperrors.New apperrors.CategoryDecode
                            "process.drain" apperrors.context_Canceled))
   /\ core.ErrorCount
        (core.proc (snd (run [samples.keep] samples.ctx_cancelled
                           config.Default))) = 0).
Proof.
  split; [reflexivity |]. split.
  - intros X rt fuel ctx src step rest st t x1 e x2 Hnow Hdrain.
    rewrite (Process_drain_failure rt ctx fuel src step rest st t x1 e x2
               Hnow Hdrain).
    split; reflexivity.
  - cbv zeta. repeat split; vm_compute; reflexivity.
Qed.

(** Four bytes under a ceiling of four: the drain fails, [Process]
    returns its error, and the error counter is what it was. *)
Lemma Process_uncounted_failures_witness :
  let st := samples.fresh (samples.with_MaxImageBytes 4)
              [xff; xd8; xff; xe0] in
  fst (core.Process samples.rt0 6 samples.ctx_live samples.FromReader
         [samples.keep] st)
  = Some (None, Some (apperrors.New apperrors.CategoryDecode
                        "process.drain" apperrors.io_ErrUnexpectedEOF)) /\
  core.ErrorCount
    (core.proc (snd (core.Process samples.rt0 6 samples.ctx_live
                       samples.FromReader [samples.keep] st)))
  = core.ErrorCount (core.proc st).
Proof.
  intros st.
  refine (proj1 (proj2 Process_uncounted_failures) samples.Outside
            samples.rt0 6%nat samples.ctx_live samples.FromReader samples.keep
            [] st 0 {| samples.ticks := 0;
                       samples.unread := [xff; xd8; xff; xe0] |}
            apperrors.io_ErrUnexpectedEOF
            {| samples.ticks := 0; samples.unread := [] |} _ _).
  - vm_compute. reflexivity.
  - vm_compute. reflexivity.
Defined.

(** ** Fan-out and fan-in ([Batch]) *)

Section FanOut.
Import apperrors context core.
Context {X : Type}.
Variables (rt : GoRuntime X) (fuel : nat) (ctx : Context X).
Variables (sources : list (Source X)) (steps : list (Step X)).

(** [r], [e] is what a call of [Process] on [src] returned. *)
Definition produced (src : Source X) (r : option ProcessingResult)
  (e : option error) : Prop :=
  exists st1 st2, Process rt fuel ctx src steps st1 = (Some (r, e), st2).

Definition is_gone (p : branch_pc) : bool :=
  match p with gone _ _ => true | _ => false end.

(** The goroutines that have not returned yet. *)
Fixpoint live (bs : list (Branch X)) : Z :=
  match bs with
  | [] => 0
  | br :: bs' => (if is_gone (pc br) then 0 else 1) + live bs'
  end.

(** What the goroutine launched [k]-th has established so far. *)
Definition branch_ok (b : BatchState X) (k : nat) (br : Branch X) : Prop :=
  idx br = k /\ sources !! k = Some (s br) /\
  match pc br with
  | call_Process => True
  | store_result r e => produced (s br) r e
  | store_err r e => produced (s br) r e /\ results b !! k = Some r
  | call_Done r e | gone r e =>
      produced (s br) r e /\ results b !! k = Some r /\ errs b !! k = Some e
  end.

Record Inv (b : BatchState X) : Prop := {
  inv_panicked : panicked b = false;
  inv_results : length (results b) = length sources;
  inv_errs : length (errs b) = length sources;
  inv_main :
    match main b with
    | range_at i => length (branches b) = i /\ (i <= length sources)%nat
    | call_Wait => length (branches b) = length sources
    | batch_returned =>
        length (branches b) = length sources /\ live (branches b) = 0
    end;
  inv_wg : wg_counter b = live (branches b);
  inv_branches : forall k br, branches b !! k = Some br -> branch_ok b k br;
}.

Lemma live_nonneg bs : 0 <= live bs.
Proof. induction bs as [|br bs IH]; cbn [live]; [lia|]. destruct (is_gone _); lia. Qed.

Lemma live_app bs bs' : live (bs ++ bs') = live bs + live bs'.
Proof. induction bs as [|br bs IH]; cbn [live app]; [lia|]. rewrite IH. lia. Qed.

Lemma live_insert bs k br br' :
  bs !! k = Some br ->
  live (<[k := br']> bs)
  = live bs - (if is_gone (pc br) then 0 else 1)
    + (if is_gone (pc br') then 0 else 1).
Proof.
  revert k. induction bs as [|b0 bs IH]; intros [|k] Hk; try discriminate.
  - injection Hk as ->.
    change (<[0%nat := br']> (br :: bs)) with (br' :: bs). cbn [live]. lia.
  - change (<[S k := br']> (b0 :: bs)) with (b0 :: <[k := br']> bs).
    cbn [live]. rewrite (IH k Hk). lia.
Qed.

Lemma live_zero bs k br :
  live bs = 0 -> bs !! k = Some br -> is_gone (pc br) = true.
Proof.
  revert k. induction bs as [|b0 bs IH]; intros [|k] Hz Hk; try discriminate;
    cbn [live] in Hz; pose proof (live_nonneg bs).
  - injection Hk as ->. destruct (is_gone (pc br)); [reflexivity|lia].
  - destruct (is_gone (pc b0)); [|lia]. apply (IH k); [lia|exact Hk].
Qed.

Lemma Inv_init st : Inv (batch_init sources st).
Proof.
  split; cbn.
  - reflexivity.
  - apply length_replicate.
  - apply length_replicate.
  - split; [reflexivity|lia].
  - reflexivity.
  - intros k br Hk. rewrite lookup_nil in Hk. discriminate.
Qed.

(** A goroutine's facts do not depend on the other slots. *)
Lemma branch_ok_frame b b' k br :
  results b' !! k = results b !! k -> errs b' !! k = errs b !! k ->
  branch_ok b k br -> branch_ok b' k br.
Proof.
  intros Hr He (Hi & Hs & Hpc). split; [exact Hi|]. split; [exact Hs|].
  destruct (pc br); try rewrite Hr; try rewrite He; exact Hpc.
Qed.

Lemma Inv_main_step b : Inv b -> Inv (main_step sources b).
Proof.
  intros [Hp Hr He Hm Hw Hb]. unfold main_step.
  destruct (main b) as [i| |] eqn:Hmain.
  - destruct Hm as [Hlen Hi].
    destruct (sources !! i) as [src|] eqn:Hsrc.
    + pose proof (lookup_lt_Some _ _ _ Hsrc) as Hlt.
      split; cbn [panicked results errs main branches wg_counter]; try assumption.
      * rewrite length_app. cbn. lia.
      * rewrite live_app. cbn. lia.
      * intros k br Hk.
        destruct (decide (k < length (branches b))%nat) as [Hin|Hout].
        -- rewrite lookup_app_l in Hk by exact Hin.
           apply (branch_ok_frame b); [reflexivity|reflexivity|]. apply Hb, Hk.
        -- rewrite lookup_app_r in Hk by lia.
           destruct (k - length (branches b))%nat as [|j] eqn:Hj;
             [|rewrite lookup_cons, lookup_nil in Hk; discriminate].
           injection Hk as <-. assert (k = i) as -> by lia.
           split; [reflexivity|]. split; [exact Hsrc|exact I].
    + pose proof (lookup_ge_None_1 _ _ Hsrc) as Hge.
      split; cbn [panicked results errs main branches wg_counter];
        try assumption.
      lia.
  - destruct (Z.eqb_spec (wg_counter b) 0) as [Hz|Hnz].
    + split; cbn [panicked results errs main branches wg_counter];
        try assumption.
      split; [exact Hm | congruence].
    + split; try assumption. rewrite Hmain. exact Hm.
  - split; try assumption. rewrite Hmain. exact Hm.
Qed.


Lemma Inv_branch_step k b : Inv b -> Inv (branch_step rt fuel ctx steps k b).
Proof.
  intros [Hp Hr He Hm Hw Hb]. unfold branch_step.
  destruct (branches b !! k) as [br|] eqn:Hk; [|split; assumption].
  pose proof (Hb k br Hk) as (Hidx & Hsrc & Hpc).
  pose proof (lookup_lt_Some _ _ _ Hsrc) as Hlt.
  assert (Hmain : forall bs',
    length bs' = length (branches b) -> live bs' = live (branches b) ->
    match main b with
    | range_at i => length bs' = i /\ (i <= length sources)%nat
    | call_Wait => length bs' = length sources
    | batch_returned => length bs' = length sources /\ live bs' = 0
    end).
  { intros bs' Hl Hv. destruct (main b); rewrite Hl, ?Hv; exact Hm. }
  assert (Hothers : forall b' pc' j br',
    branches b' = <[k := set_pc br pc']> (branches b) ->
    (forall j, j <> k -> results b' !! j = results b !! j) ->
    (forall j, j <> k -> errs b' !! j = errs b !! j) ->
    branch_ok b' k (set_pc br pc') ->
    branches b' !! j = Some br' -> branch_ok b' j br').
  { intros b' pc' j br' Hbs Hres Herr Hnew Hj. rewrite Hbs in Hj.
    destruct (decide (j = k)) as [->|Hne].
    - rewrite list_lookup_insert_eq in Hj by (eapply lookup_lt_Some, Hk).
      injection Hj as <-. exact Hnew.
    - rewrite list_lookup_insert_ne in Hj by congruence.
      apply (branch_ok_frame b); [apply Hres, Hne | apply Herr, Hne |].
      apply Hb, Hj. }
  destruct (pc br) as [|r e|r e|r e|r e] eqn:Hpcbr.
  - (* the call of Process *)
    destruct (Process rt fuel ctx (s br) steps (shared b)) as [[[r e]|] st']
      eqn:Hproc; [|split; assumption].
    split; cbn [panicked results errs main branches wg_counter shared];
      try assumption.
    + apply Hmain; [apply length_insert|].
      rewrite (live_insert _ _ _ _ Hk), Hpcbr. cbn. lia.
    + rewrite (live_insert _ _ _ _ Hk), Hpcbr. cbn. lia.
    + intros j br' Hj. eapply Hothers; [reflexivity| | | |exact Hj];
        cbn [results errs]; try reflexivity.
      split; [exact Hidx|]. split; [exact Hsrc|].
      cbn [set_pc pc s]. eexists _, _. exact Hproc.
  - (* results[idx] = r *)
    rewrite Hidx. destruct (Nat.ltb_spec k (length (results b))) as [_|]; [|lia].
    split; cbn [panicked results errs main branches wg_counter shared];
      try assumption.
    + rewrite length_insert. exact Hr.
    + apply Hmain; [apply length_insert|].
      rewrite (live_insert _ _ _ _ Hk), Hpcbr. cbn. lia.
    + rewrite (live_insert _ _ _ _ Hk), Hpcbr. cbn. lia.
    + intros j br' Hj. eapply Hothers; [reflexivity| | | |exact Hj];
        cbn [results errs]; try reflexivity.
      * intros j' Hne. apply list_lookup_insert_ne. congruence.
      * split; [exact Hidx|]. split; [exact Hsrc|].
        cbn [set_pc pc s results]. split; [exact Hpc|].
        apply list_lookup_insert_eq. lia.
  - (* errs[idx] = e *)
    rewrite Hidx. destruct (Nat.ltb_spec k (length (errs b))) as [_|]; [|lia].
    destruct Hpc as [Hprod Hres].
    split; cbn [panicked results errs main branches wg_counter shared];
      try assumption.
    + rewrite length_insert. exact He.
    + apply Hmain; [apply length_insert|].
      rewrite (live_insert _ _ _ _ Hk), Hpcbr. cbn. lia.
    + rewrite (live_insert _ _ _ _ Hk), Hpcbr. cbn. lia.
    + intros j br' Hj. eapply Hothers; [reflexivity| | | |exact Hj];
        cbn [results errs]; try reflexivity.
      * intros j' Hne. apply list_lookup_insert_ne. congruence.
      * split; [exact Hidx|]. split; [exact Hsrc|].
        cbn [set_pc pc s results errs]. split; [exact Hprod|].
        split; [exact Hres|]. apply list_lookup_insert_eq. lia.
  - (* wg.Done() *)
    assert (Hlive : live (branches b) <> 0).
    { intros Hz. pose proof (live_zero _ _ _ Hz Hk) as Hg.
      rewrite Hpcbr in Hg. discriminate. }
    split; cbn [panicked results errs main branches wg_counter shared];
      try assumption.
    + destruct (main b) as [i| |]; rewrite ?length_insert; try exact Hm.
      destruct Hm as [_ Hz]. contradiction.
    + rewrite (live_insert _ _ _ _ Hk), Hpcbr. cbn. lia.
    + intros j br' Hj. eapply Hothers; [reflexivity| | | |exact Hj];
        cbn [results errs]; try reflexivity.
      split; [exact Hidx|]. split; [exact Hsrc|]. exact Hpc.
  - split; assumption.
Qed.

Lemma Inv_step b thread :
  Inv b -> Inv (batch_step rt fuel ctx sources steps b thread).
Proof.
  intros HI. unfold batch_step. destruct (panicked b); [exact HI|].
  destruct thread as [|k]; [apply Inv_main_step | apply Inv_branch_step];
    exact HI.
Qed.

Lemma Inv_run schedule b :
  Inv b -> Inv (batch_run rt fuel ctx sources steps schedule b).
Proof.
  revert b. unfold batch_run.
  induction schedule as [|t schedule IH]; intros b HI; [exact HI|].
  cbn [fold_left]. apply IH, Inv_step, HI.
Qed.


(** *** [Batch] returns *)

(** Every call of [Process] returns (within [fuel]). *)
Definition Process_returns : Prop :=
  forall src st, src ∈ sources -> exists r e st',
    Process rt fuel ctx src steps st = (Some (r, e), st').

Definition weight (p : branch_pc) : nat :=
  match p with
  | call_Process => 4
  | store_result _ _ => 3
  | store_err _ _ => 2
  | call_Done _ _ => 1
  | gone _ _ => 0
  end.

Fixpoint pending (bs : list (Branch X)) : nat :=
  match bs with
  | [] => 0
  | br :: bs' => weight (pc br) + pending bs'
  end.

(** The turns that are left before [Batch] is back. *)
Definition turns_left (b : BatchState X) : nat :=
  match main b with
  | range_at i => 2 + 5 * (length sources - i)
  | call_Wait => 1
  | batch_returned => 0
  end + pending (branches b).

Lemma pending_app bs bs' : pending (bs ++ bs') = (pending bs + pending bs')%nat.
Proof. induction bs as [|br bs IH]; cbn [pending app]; [lia|]. rewrite IH. lia. Qed.

Lemma pending_insert bs k br br' :
  bs !! k = Some br ->
  (pending (<[k := br']> bs) + weight (pc br) = pending bs + weight (pc br'))%nat.
Proof.
  revert k. induction bs as [|b0 bs IH]; intros [|k] Hk; try discriminate.
  - injection Hk as ->.
    change (<[0%nat := br']> (br :: bs)) with (br' :: bs). cbn [pending]. lia.
  - change (<[S k := br']> (b0 :: bs)) with (b0 :: <[k := br']> bs).
    cbn [pending]. pose proof (IH k Hk). lia.
Qed.

Lemma live_pos bs :
  live bs <> 0 -> exists k br, bs !! k = Some br /\ is_gone (pc br) = false.
Proof.
  induction bs as [|b0 bs IH]; cbn [live]; [lia|]. intros Hl.
  destruct (is_gone (pc b0)) eqn:Hg.
  - destruct IH as (k & br & Hk & Hbr); [lia|]. exists (S k), br. auto.
  - exists 0%nat, b0. auto.
Qed.

(** Some thread can always move, and its move brings the return nearer. *)
Lemma batch_progress b :
  Process_returns -> Inv b -> main b <> batch_returned ->
  exists thread,
    (turns_left (batch_step rt fuel ctx sources steps b thread)
     < turns_left b)%nat.
Proof.
  intros Hret [Hp Hr He Hm Hw Hb] Hmain.
  unfold batch_step. rewrite Hp.
  destruct (main b) as [i| |] eqn:Hmb; [| |contradiction].
  - exists 0%nat. unfold main_step, turns_left. rewrite Hmb.
    destruct Hm as [Hlen Hi].
    destruct (sources !! i) as [src|] eqn:Hsrc;
      cbn [main branches].
    + pose proof (lookup_lt_Some _ _ _ Hsrc). rewrite pending_app. cbn. lia.
    + lia.
  - destruct (Z.eq_dec (wg_counter b) 0) as [Hz|Hnz].
    + exists 0%nat. unfold main_step, turns_left. rewrite Hmb.
      destruct (Z.eqb_spec (wg_counter b) 0); [|contradiction].
      cbn [main branches]. lia.
    + rewrite Hw in Hnz. destruct (live_pos _ Hnz) as (k & br & Hk & Hlive).
      exists (S k). unfold branch_step, turns_left. rewrite Hk.
      destruct (Hb k br Hk) as (Hidx & Hsrc & _).
      pose proof (lookup_lt_Some _ _ _ Hsrc) as Hlt.
      destruct (pc br) as [|r e|r e|r e|r e] eqn:Hpc; [| | | |discriminate].
      * destruct (Hret (s br) (shared b)) as (r & e & st' & ->);
          [eapply list_elem_of_lookup_2, Hsrc|].
        cbn [main branches].
        pose proof (pending_insert _ k br (set_pc br (store_result r e)) Hk) as Ht.
        rewrite Hpc in Ht. cbn in Ht. rewrite Hmb. lia.
      * rewrite Hidx.
        destruct (Nat.ltb_spec k (length (results b))); [|lia].
        cbn [main branches].
        pose proof (pending_insert _ k br (set_pc br (store_err r e)) Hk) as Ht.
        rewrite Hpc in Ht. cbn in Ht. rewrite Hmb. lia.
      * rewrite Hidx.
        destruct (Nat.ltb_spec k (length (errs b))); [|lia].
        cbn [main branches].
        pose proof (pending_insert _ k br (set_pc br (call_Done r e)) Hk) as Ht.
        rewrite Hpc in Ht. cbn in Ht. rewrite Hmb. lia.
      * cbn [main branches].
        pose proof (pending_insert _ k br (set_pc br (gone r e)) Hk) as Ht.
        rewrite Hpc in Ht. cbn in Ht. rewrite Hmb. lia.
Qed.

Lemma batch_completes (n : nat) :
  Process_returns ->
  forall b, (turns_left b <= n)%nat -> Inv b ->
  exists more,
    main (batch_run rt fuel ctx sources steps more b) = batch_returned.
Proof.
  intros Hret. induction n as [|n IH]; intros b Hn HI.
  - destruct (main b) eqn:Hmb; [| |exists []; exact Hmb];
      unfold turns_left in Hn; rewrite Hmb in Hn; lia.
  - destruct (main b) eqn:Hmb; [| |exists []; exact Hmb].
    + destruct (batch_progress b Hret HI) as (t & Ht); [congruence|].
      destruct (IH (batch_step rt fuel ctx sources steps b t))
        as (more & Hmore); [lia|apply Inv_step, HI|].
      exists (t :: more). exact Hmore.
    + destruct (batch_progress b Hret HI) as (t & Ht); [congruence|].
      destruct (IH (batch_step rt fuel ctx sources steps b t))
        as (more & Hmore); [lia|apply Inv_step, HI|].
      exists (t :: more). exact Hmore.
Qed.

(** C2.  Whatever the schedule, the two slices have the length of the
    input and nothing panics.  When [Batch] returns, it returns two
    slices of the length of the input, every goroutine has returned,
    and position [i] of the slices holds the result and the error that
    the call of [Process] on source [i] returned, whether the calls at
    other positions failed or not.  And [Batch] does return: when every
    call of [Process] returns, every interleaving that has run so far
    can be carried on until [Batch] is back with its two slices. *)
Theorem Batch_positional (schedule : list nat) (st : St X) :
  let b := batch_run rt fuel ctx sources steps schedule
             (batch_init sources st) in
  panicked b = false
  /\ length (results b) = length sources
  /\ length (errs b) = length sources
  /\ (forall rs es st',
        Batch rt fuel ctx sources steps schedule st = (Some (rs, es), st') ->
        length rs = length sources
        /\ length es = length sources
        /\ length (branches b) = length sources
        /\ forall i src,
             sources !! i = Some src ->
             exists r e,
               produced src r e
               /\ rs !! i = Some r
               /\ es !! i = Some e
               /\ branches b !! i = Some (Build_Branch i src (gone r e)))
  /\ (Process_returns ->
      exists more rs es st',
        Batch rt fuel ctx sources steps (schedule ++ more) st
        = (Some (rs, es), st')).
Proof.
  intros b.
  pose proof (Inv_run schedule _ (Inv_init st)) as HI.
  destruct HI as [Hp Hr He Hm Hw Hb].
  fold b in Hp, Hr, He, Hm, Hw, Hb.
  split; [exact Hp|]. split; [exact Hr|]. split; [exact He|]. split.
  - intros rs es st' HB. unfold Batch in HB. fold b in HB.
    destruct (main b) eqn:Hret; try discriminate HB.
    injection HB as <- <- <-.
    destruct Hm as [Hlen Hlive].
    split; [exact Hr|]. split; [exact He|]. split; [exact Hlen|].
    intros i src Hsrc.
    pose proof (lookup_lt_Some _ _ _ Hsrc) as Hlt.
    destruct (lookup_lt_is_Some_2 (branches b) i ltac:(lia)) as [br Hbr].
    pose proof (live_zero _ _ _ Hlive Hbr) as Hgone.
    destruct (Hb i br Hbr) as (Hidx & Hs & Hpc).
    rewrite Hsrc in Hs. injection Hs as Hs.
    destruct br as [j src' pcb]. cbn [idx s pc] in *. subst j src'.
    destruct pcb as [|r e|r e|r e|r e]; try discriminate Hgone.
    destruct Hpc as (Hprod & Hres & Herr).
    exists r, e. repeat split; assumption.
  - intros Hret.
    destruct (batch_completes _ Hret b (Nat.le_refl _)
                (Inv_run schedule _ (Inv_init st))) as (more & Hmore).
    exists more. unfold Batch.
    unfold b, batch_run in *. rewrite fold_left_app, Hmore.
    eexists _, _, _. reflexivity.
Qed.


End FanOut.

(** Two sources, the first one unreadable, under a schedule that
    interleaves the two goroutines and lets the second one finish first:
    [Batch] returns with the error at position 0 and the result at
    position 1. *)
Lemma Batch_positional_witness :
  let sources := [samples.Unreadable; samples.FromReader] in
  match
    fst (core.Batch samples.rt0 6 samples.ctx_live sources [samples.keep]
           [0; 0; 0; 2; 1; 2; 2; 2; 1; 1; 1; 0]%nat
           (samples.fresh config.Default [xff; xd8; xff; xe0]))
  with
  | None => False
  | Some (rs, es) =>
      map core.is_nil rs = [true; false]
      /\ map core.is_nil es = [false; true]
      /\ forall i src,
           sources !! i = Some src ->
           exists r e,
             produced samples.rt0 6 samples.ctx_live [samples.keep] src r e
             /\ rs !! i = Some r
             /\ es !! i = Some e
  end.
Proof.
  intros sources.
  assert (Hc : option_map
                 (fun p => (map core.is_nil (fst p), map core.is_nil (snd p)))
                 (fst (core.Batch samples.rt0 6 samples.ctx_live sources
                         [samples.keep]
                         [0; 0; 0; 2; 1; 2; 2; 2; 1; 1; 1; 0]%nat
                         (samples.fresh config.Default [xff; xd8; xff; xe0])))
               = Some ([true; false], [false; true]))
    by (vm_compute; reflexivity).
  destruct (Batch_positional samples.rt0 6 samples.ctx_live sources
              [samples.keep] [0; 0; 0; 2; 1; 2; 2; 2; 1; 1; 1; 0]%nat
              (samples.fresh config.Default [xff; xd8; xff; xe0]))
    as (_ & _ & _ & Hback & _).
  destruct (core.Batch samples.rt0 6 samples.ctx_live sources [samples.keep]
              [0; 0; 0; 2; 1; 2; 2; 2; 1; 1; 1; 0]%nat
              (samples.fresh config.Default [xff; xd8; xff; xe0]))
    as [[[rs es] |] st'] eqn:HB; cbn [fst option_map snd] in Hc |- *;
    [| discriminate Hc].
  injection Hc as Hrs Hes.
  split; [exact Hrs |]. split; [exact Hes |].
  destruct (Hback rs es st' eq_refl) as (_ & _ & _ & Hpos).
  intros i src Hsrc.
  destruct (Hpos i src Hsrc) as (r & e & H1 & H2 & H3 & _).
  exists r, e. repeat split; assumption.
Defined.



(** ** Backpressure ([Submit]) *)

Section Backpressure.
Import apperrors core.
Context {X : Type}.

(** C3.  With the queue at capacity [Submit] returns the
    worker-pool-full error and leaves the processor as it was; with room
    in the queue it returns no error and the job is the new last element
    of the queue, nothing else being changed.  A call does one or the
    other: a job is enqueued exactly when no error is returned. *)
Theorem Submit_backpressure (p : Processor X) (job : Job X) :
  (cap (jobQueue p) <= Z.of_nat (length (buf (jobQueue p))) ->
     Submit p job
     = (Some (apperrors.New CategoryPipeline "submit" ErrWorkerPoolFull), p))
  /\ (Z.of_nat (length (buf (jobQueue p))) < cap (jobQueue p) ->
        Submit p job
        = (None,
           Build_Processor (cfg p) (registry p) (hooks p)
             (Build_Chan (buf (jobQueue p) ++ [job]) (cap (jobQueue p)))
             (wg p) (workers p) (once p) (shutdown p)
             (processedCount p) (errorCount p)))
  /\ (forall err p',
        Submit p job = (err, p') ->
        (err = None /\ buf (jobQueue p') = (buf (jobQueue p) ++ [job])%list)
        \/ (err = Some (apperrors.New CategoryPipeline "submit"
                          ErrWorkerPoolFull)
            /\ p' = p)).
Proof.
  unfold Submit, try_send.
  destruct (Z.ltb_spec (Z.of_nat (length (buf (jobQueue p)))) (cap (jobQueue p)))
    as [Hroom|Hfull].
  - split; [lia|]. split; [reflexivity|].
    intros err p' [= <- <-]. left. split; reflexivity.
  - split; [reflexivity|]. split; [lia|].
    intros err p' [= <- <-]. right. split; reflexivity.
Qed.

End Backpressure.

(** A queue of capacity one: the first job is taken, the second one is
    refused and the queue still holds the first job only. *)
Lemma Submit_backpressure_witness :
  let p0 := core.New (samples.with_QueueSize 1) core.NewRegistry in
  let p1 := snd (core.Submit p0 samples.job0) in
  core.Submit p0 samples.job0 = (None, p1)
  /\ core.buf (core.jobQueue p1) = [samples.job0]
  /\ core.Submit p1 samples.job0
     = (Some (apperrors.New apperrors.CategoryPipeline "submit"
                apperrors.ErrWorkerPoolFull), p1).
Proof.
  intros p0 p1. split; [|split].
  - exact (proj1 (proj2 (Submit_backpressure p0 samples.job0))
             ltac:(vm_compute; reflexivity)).
  - reflexivity.
  - exact (proj1 (Submit_backpressure p1 samples.job0)
             ltac:(vm_compute; intros H; discriminate H)).
Defined.

(** ** Buffered ingestion ([LimitedReader], [DrainReader]) *)

Section Ingestion.
Import apperrors context streaming core samples.

(** Draining a [bytes.Reader] through a [LimitedReader] that has counted
    [n] bytes so far: the rest is returned when it is shorter than what
    the ceiling leaves, and the read fails otherwise, also when the rest
    is exactly what the ceiling leaves. *)
Lemma drain_limited_loop (max : Z) (chunk : nat) :
  0 < max <= goint.max_int -> (0 < chunk)%nat ->
  forall fuel rest buf n t,
    0 <= n <= max ->
    (length rest + 2 <= fuel)%nat ->
    DrainReader_loop fuel ctx_live
      (limited (Build_LimitedReader bytes_Reader max n)) chunk buf
      {| ticks := t; unread := rest |}
    = if Z.of_nat (length rest) <? max - n
      then (Some (inl (buf ++ rest)%list), {| ticks := t; unread := [] |})
      else (Some (inr io_ErrUnexpectedEOF),
            {| ticks := t; unread := drop (Z.to_nat (max - n)) rest |}).
Proof.
  intros Hmax Hchunk.
  induction fuel as [|fuel IH]; intros rest buf n t Hn Hfuel; [lia|].
  cbn [DrainReader_loop]. unfold bind at 1. cbn [ctx_live Err]. unfold ret at 1.
  unfold bind at 1. unfold io_Read. unfold bind at 1.
  unfold LimitedReader_Read. cbn [Max streaming.n R].
  destruct (Z.leb_spec max n) as [Hfull|Hroom].
  - (* the ceiling is reached: the next read fails *)
    destruct (Z.ltb_spec 0 max) as [_|]; [|lia]. cbn [andb]. unfold ret.
    cbn [length Nat.ltb Nat.leb].
    destruct (Z.ltb_spec (Z.of_nat (length rest)) (max - n)) as [|_]; [lia|].
    replace (max - n) with 0 by lia. reflexivity.
  - cbn [andb]. destruct (Z.ltb_spec 0 max) as [_|]; [|lia].
    rewrite sub_no_overflow by (unfold goint.min_int, goint.max_int in *; lia).
    set (lenp := if max - n <? Z.of_nat chunk then Z.to_nat (max - n) else chunk).
    assert (Hlenp : (0 < lenp)%nat /\ Z.of_nat lenp <= max - n).
    { subst lenp. destruct (Z.ltb_spec (max - n) (Z.of_nat chunk)); lia. }
    unfold bind at 1. cbn [bytes_Reader Read ticks unread].
    destruct rest as [|b rest'] eqn:Hrest.
    + (* nothing left: io.EOF *)
      unfold ret. cbn [length Nat.ltb Nat.leb].
      destruct (Z.ltb_spec (Z.of_nat 0) (max - n)) as [_|]; [|cbn in *; lia].
      rewrite app_nil_r. reflexivity.
    + rewrite <- Hrest in *. unfold ret.
      assert (Hlen : length (take lenp rest) = Nat.min lenp (length rest))
        by apply length_take.
      assert (Hpos : (0 < length rest)%nat) by (subst rest; cbn; lia).
      destruct (Nat.ltb_spec 0 (length (take lenp rest))) as [_|]; [|lia].
      rewrite add_no_overflow
        by (unfold goint.min_int, goint.max_int in *; lia).
      rewrite IH; [| lia | rewrite length_drop; lia ].
      rewrite length_drop.
      destruct (Z.ltb_spec (Z.of_nat (length rest)) (max - n)) as [Hfit|Hover].
      * destruct (Z.ltb_spec (Z.of_nat (length rest - lenp))
                    (max - (n + Z.of_nat (length (take lenp rest)))))
          as [_|]; [|lia].
        rewrite <- app_assoc, take_drop. reflexivity.
      * destruct (Z.ltb_spec (Z.of_nat (length rest - lenp))
                    (max - (n + Z.of_nat (length (take lenp rest)))))
          as [|_]; [lia|].
        rewrite drop_drop. do 3 f_equal. lia.
Qed.


(** Without a ceiling the reader is drained as it is. *)
Lemma drain_plain_loop (chunk : nat) :
  (0 < chunk)%nat ->
  forall fuel rest buf t,
    (length rest + 2 <= fuel)%nat ->
    DrainReader_loop fuel ctx_live (plain bytes_Reader) chunk buf
      {| ticks := t; unread := rest |}
    = (Some (inl (buf ++ rest)%list), {| ticks := t; unread := [] |}).
Proof.
  intros Hchunk.
  induction fuel as [|fuel IH]; intros rest buf t Hfuel; [lia|].
  cbn [DrainReader_loop]. unfold bind at 1. cbn [ctx_live Err]. unfold ret at 1.
  unfold bind at 1. unfold io_Read. unfold bind at 1.
  cbn [bytes_Reader Read ticks unread].
  destruct rest as [|b rest'] eqn:Hrest.
  - unfold ret. cbn [length Nat.ltb Nat.leb]. rewrite app_nil_r. reflexivity.
  - rewrite <- Hrest in *. unfold ret.
    assert (Hlen : length (take chunk rest) = Nat.min chunk (length rest))
      by apply length_take.
    assert (Hpos : (0 < length rest)%nat) by (subst rest; cbn; lia).
    destruct (Nat.ltb_spec 0 (length (take chunk rest))) as [_|]; [|lia].
    rewrite IH by (rewrite length_drop; lia).
    rewrite <- app_assoc, take_drop. reflexivity.
Qed.

Lemma chunk_positive (chunkSize : Z) :
  (0 < Z.to_nat (if (chunkSize <=? 0)%Z then (32 * 1024)%Z else chunkSize))%nat.
Proof. destruct (Z.leb_spec chunkSize 0); lia. Qed.





(** C6 at the ceiling: a source of exactly [MaxImageBytes] bytes is
    refused.  Whatever the ceiling and the chunk size, draining an
    in-memory reader that holds as many bytes as the ceiling allows
    fails with [io.ErrUnexpectedEOF] once all of them have been read,
    and no buffer is returned.  So four bytes under a ceiling of four
    make [Process] return the drain error, while the same bytes under a
    ceiling of five are ingested. *)
Theorem ingestion_at_ceiling_refused :
  (forall (max chunkSize : Z) (data : list byte) (t fuel : nat),
     0 < max <= goint.max_int ->
     (length data + 2 <= fuel)%nat ->
     Z.of_nat (length data) = max ->
     DrainReader fuel ctx_live
       (limited (Build_LimitedReader bytes_Reader max 0)) chunkSize
       {| ticks := t; unread := data |}
     = (Some (inr io_ErrUnexpectedEOF), {| ticks := t; unread := [] |})) /\
  (let data := [xff; xd8; xff; xe0] in
   fst (Process rt0 6 ctx_live FromReader [keep]
          (fresh (with_MaxImageBytes 4) data))
   = Some (None,
           Some (apperrors.New CategoryDecode "process.drain"
                   io_ErrUnexpectedEOF))
   /\ (exists res,
         fst (Process rt0 6 ctx_live FromReader [keep]
                (fresh (with_MaxImageBytes 5) data))
         = Some (Some res, None)
         /\ (Data <$> Primary res) = Some data)).
Proof.
  split.
  - intros max chunkSize data t fuel Hmax Hfuel Hlen. unfold DrainReader.
    rewrite (drain_limited_loop max _ Hmax (chunk_positive chunkSize))
      by (try assumption; lia).
    rewrite Z.sub_0_r.
    destruct (Z.ltb_spec (Z.of_nat (length data)) max) as [| _]; [lia |].
    rewrite drop_ge by lia. reflexivity.
  - split.
    + vm_compute. reflexivity.
    + eexists. split; vm_compute; reflexivity.
Qed.

(** Four bytes under a ceiling of four. *)
Lemma ingestion_at_ceiling_refused_witness :
  0 < 4 <= goint.max_int /\
  DrainReader 6 ctx_live (limited (Build_LimitedReader bytes_Reader 4 0))
    (32 * 1024) {| ticks := 0; unread := [xff; xd8; xff; xe0] |}
  = (Some (inr io_ErrUnexpectedEOF), {| ticks := 0; unread := [] |}).
Proof.
  assert (Hmax : 0 < 4 <= goint.max_int)
    by (split; [reflexivity | intros H; discriminate H]).
  split; [exact Hmax |].
  refine (proj1 ingestion_at_ceiling_refused 4 (32 * 1024)
            [xff; xd8; xff; xe0] 0%nat 6%nat Hmax _ _).
  - cbn. lia.
  - reflexivity.
Defined.

End Ingestion.

(** ** Format detection *)

Section FormatDetection.
Import apperrors context streaming core samples.

(** [DetectFormat] on the magic bytes: fewer than four bytes are of
    unknown format whatever they are, and the three signatures are
    recognised before the content sniffer is asked. *)
Theorem DetectFormat_magic (sniff : list byte -> string) :
  (forall data, (length data < 4)%nat ->
     utils.DetectFormat sniff data = "unknown") /\
  (forall b rest,
     utils.DetectFormat sniff (xff :: xd8 :: xff :: b :: rest) = "jpeg") /\
  (forall rest,
     utils.DetectFormat sniff (x89 :: x50 :: x4e :: x47 :: rest) = "png") /\
  (forall s1 s2 s3 s4 rest,
     utils.DetectFormat sniff
       (x52 :: x49 :: x46 :: x46 :: s1 :: s2 :: s3 :: s4
        :: x57 :: x45 :: x42 :: x50 :: rest) = "webp").
Proof.
  split; [| split; [| split]].
  - intros data Hlen. unfold utils.DetectFormat.
    destruct (Nat.ltb_spec (length data) 4); [reflexivity | lia].
  - reflexivity.
  - reflexivity.
  - reflexivity.
Qed.

(** The three bytes of a JPEG signature alone are of unknown format,
    even when the content sniffer would say JPEG. *)
Lemma DetectFormat_magic_witness :
  (length [xff; xd8; xff] < 4)%nat /\
  utils.DetectFormat (fun _ => "image/jpeg") [xff; xd8; xff] = "unknown".
Proof.
  assert (H : (length [xff; xd8; xff] < 4)%nat) by (cbn; lia).
  split; [exact H |].
  exact (proj1 (DetectFormat_magic _) _ H).
Defined.

(** The state the steps start from.  [Process] with the one step that
    returns what it is given, on an in-memory source without a ceiling:
    the result carries the source's bytes, no decoded image, and as
    format the one the source's content type names, whatever the bytes
    look like; the bytes decide only when the source names no content
    type. *)
Theorem Process_format_hint (ct : string) (data : list byte) (fuel : nat) :
  (length data + 2 <= fuel)%nat ->
  let src := {| Reader := bytes_Reader; ContentType := ct;
                Source_Name := ""; Size := -1 |} in
  exists res,
    fst (Process rt0 fuel ctx_live src [keep] (fresh config.Default data))
    = Some (Some res, None) /\
    Primary res =
      Some {| Data := data;
              ImageData_Format :=
                if String.eqb ct ""
                then utils.DetectFormat (http_DetectContentType rt0) data
                else contentTypeToFormat ct;
              Image := Decoded_nil; Meta := zero_Metadata;
              OriginalSize := Z.of_nat (length data) |}.
Proof.
  intros Hfuel src. unfold Process.
  unfold bind at 1. unfold on_env at 1, on_world at 1, on_ext at 1.
  cbn [time_Now rt0 fresh world ext proc calls ticks].
  unfold bind at 1. cbn [proc cfg core.New fresh].
  unfold bind at 1. unfold on_env at 1, on_world at 1, on_ext at 1.
  cbn [world ext config.MaxImageBytes config.Default config.ChunkSize Reader src].
  change (0 <? 0) with false. cbv iota.
  unfold DrainReader.
  rewrite (drain_plain_loop _ (chunk_positive (32 * 1024))) by assumption.
  cbn [app heap encodes proc calls].
  destruct fuel as [| fuel']; [lia |].
  eexists. split; reflexivity.
Qed.

(** JPEG bytes from a source that says PNG: the format is PNG. *)
Lemma Process_format_hint_witness :
  exists res,
    fst (Process rt0 6 ctx_live
           {| Reader := bytes_Reader; ContentType := "image/png";
              Source_Name := ""; Size := -1 |} [keep]
           (fresh config.Default [xff; xd8; xff; xe0]))
    = Some (Some res, None) /\
    ImageData_Format <$> Primary res = Some "png".
Proof.
  destruct (Process_format_hint "image/png" [xff; xd8; xff; xe0] 6
              ltac:(cbn; lia)) as (res & Hrun & Hres).
  exists res. split; [exact Hrun |]. rewrite Hres. reflexivity.
Defined.

End FormatDetection.

(** ** Lifecycle ([Start], [Stop]) *)

Section Lifecycle.
Import core.
Context {X : Type}.
Variable rt : GoRuntime X.

Lemma launch_workers_once (k : nat) (p : Processor X) :
  once (Nat.iter k launch_worker p) = once p
  /\ workers (Nat.iter k launch_worker p) = (workers p + k)%nat
  /\ shutdown (Nat.iter k launch_worker p) = shutdown p
  /\ jobQueue (Nat.iter k launch_worker p) = jobQueue p.
Proof.
  induction k as [|k IH].
  - cbn [Nat.iter nat_rect].
    split; [reflexivity|]. split; [lia|]. split; reflexivity.
  - destruct IH as (Ho & Hw & Hs & Hq). rewrite Nat.iter_succ.
    cbn [launch_worker once workers shutdown jobQueue].
    split; [exact Ho|]. split; [lia|]. split; [exact Hs | exact Hq].
Qed.

Lemma Start_once (p : Processor X) : once (Start rt p) = true.
Proof.
  unfold Start. destruct (once p) eqn:Ho; [exact Ho|].
  rewrite (proj1 (launch_workers_once _ _)). reflexivity.
Qed.

(** C7 (as amended).  [Start] is idempotent: the first call launches
    [workerCount] workers, the configured count or the number of CPUs
    when none is configured, and a call on a started processor changes
    nothing, however often it is made.  [Stop] is not: the first call
    closes the shutdown channel and returns when no worker is left, and
    a second call panics on the closed channel. *)
Theorem Start_Stop_lifecycle (p : Processor X) :
  (once p = false ->
     workers (Start rt p)
     = (workers p
        + Z.to_nat (if (config.WorkerCount (cfg p) <=? 0)%Z
                    then runtime_NumCPU rt
                    else config.WorkerCount (cfg p)))%nat)
  /\ Start rt (Start rt p) = Start rt p
  /\ (forall k, Nat.iter (S k) (Start rt) p = Start rt p)
  /\ (shutdown p = false ->
        exists p',
          Stop p = returns p'
          /\ shutdown p' = true /\ workers p' = 0%nat
          /\ jobQueue p' = jobQueue p
          /\ Stop p' = panics "close of closed channel").
Proof.
  split; [|split; [|split]].
  - intros Ho. unfold Start. rewrite Ho.
    rewrite (proj1 (proj2 (launch_workers_once _ _))). reflexivity.
  - unfold Start at 1. rewrite Start_once. reflexivity.
  - induction k as [|k IH]; [reflexivity|].
    change (Nat.iter (S (S k)) (Start rt) p)
      with (Start rt (Nat.iter (S k) (Start rt) p)).
    rewrite IH. unfold Start at 1. rewrite Start_once. reflexivity.
  - intros Hs. unfold Stop. rewrite Hs. eexists. split; [reflexivity|].
    cbn [shutdown workers jobQueue]. repeat split.
Qed.

End Lifecycle.

(** The default configuration on eight CPUs: eight workers, however often
    [Start] is called, none after [Stop]. *)
Lemma Start_Stop_lifecycle_witness :
  let p := core.New config.Default (@core.NewRegistry samples.Outside) in
  core.workers (core.Start samples.rt0 p) = 8%nat
  /\ core.Start samples.rt0 (core.Start samples.rt0 p) = core.Start samples.rt0 p
  /\ exists p',
       core.Stop (core.Start samples.rt0 p) = core.returns p'
       /\ core.workers p' = 0%nat.
Proof.
  intros p.
  destruct (Start_Stop_lifecycle samples.rt0 p) as (Hstart & Hidem & _ & _).
  destruct (Start_Stop_lifecycle samples.rt0 (core.Start samples.rt0 p))
    as (_ & _ & _ & Hstop).
  split; [|split].
  - rewrite Hstart by reflexivity. reflexivity.
  - exact Hidem.
  - destruct (Hstop eq_refl) as (p' & Hp' & _ & Hw & _).
    exists p'. split; [exact Hp' | exact Hw].
Defined.

(** C7 as stated fails on the second [Stop]: the first call returns and
    the second one panics. *)
Lemma Stop_twice_panics :
  let p := core.Start samples.rt0 (core.New config.Default core.NewRegistry) in
  match core.Stop p with
  | core.returns p' => core.Stop p' = core.panics "close of closed channel"
  | core.panics _ => False
  end.
Proof.
  vm_compute. reflexivity.
Qed.

(** ** What the built-in steps do to the state they are given

    A caller that holds [img] sees its fields, which no Go code can
    change through a copy, and the EXIF map behind [img.Meta.EXIF],
    which lives in the store.  So a step leaves its input as it was
    exactly when it leaves the store as it was. *)

Section InputFrame.
Import apperrors context core pipeline.
Context {X : Type}.
Variable lib : ImageLib.

Ltac step_cases :=
  repeat match goal with
         | |- context [match ?x with _ => _ end] => destruct x eqn:?
         | |- context [if ?b then _ else _] => destruct b eqn:?
         end.

Lemma on_ext_heap {A} (m : M X A) (w : World X) :
  heap (snd (on_ext m w)) = heap w.
Proof. unfold on_ext. destruct (m (ext w)). reflexivity. Qed.

Lemma call_Encode_heap (enc : Encoder X) ctx img opts (w : World X) :
  heap (snd (call_Encode enc ctx img opts w)) = heap w.
Proof.
  unfold call_Encode. destruct (Encode enc ctx img opts (ext w)).
  reflexivity.
Qed.

Lemma bind_heap {A B} (m : M (World X) A) (k : A -> M (World X) B) w :
  (forall w', heap (snd (m w')) = heap w') ->
  (forall a w', heap (snd (k a w')) = heap w') ->
  heap (snd (bind m k w)) = heap w.
Proof.
  intros Hm Hk. unfold bind. specialize (Hm w).
  destruct (m w) as [a w1]. cbn [snd] in Hm. rewrite Hk. exact Hm.
Qed.

Lemma ret_heap {A} (a : A) (w : World X) : heap (snd (ret a w)) = heap w.
Proof. reflexivity. Qed.

Lemma ResizeStep_heap s ctx img (w : World X) :
  heap (snd (ResizeStep_Execute lib s ctx img w)) = heap w.
Proof.
  unfold ResizeStep_Execute. apply bind_heap.
  - intros; apply on_ext_heap.
  - intros cerr w'. step_cases; apply ret_heap.
Qed.

Lemma CropStep_heap s ctx img (w : World X) :
  heap (snd (CropStep_Execute lib s ctx img w)) = heap w.
Proof.
  unfold CropStep_Execute. apply bind_heap.
  - intros; apply on_ext_heap.
  - intros cerr w'. step_cases; apply ret_heap.
Qed.

Lemma FormatStep_heap s (ctx : Context X) img (w : World X) :
  heap (snd (FormatStep_Execute s ctx img w)) = heap w.
Proof. reflexivity. Qed.

Lemma StripEXIFStep_heap (ctx : Context X) img (w : World X) :
  heap (snd (StripEXIFStep_Execute ctx img w)) = heap w.
Proof. reflexivity. Qed.

Lemma GrayscaleStep_heap (ctx : Context X) img (w : World X) :
  heap (snd (GrayscaleStep_Execute lib ctx img w)) = heap w.
Proof. unfold GrayscaleStep_Execute. step_cases; apply ret_heap. Qed.

Lemma WatermarkStep_heap s (ctx : Context X) img (w : World X) :
  heap (snd (WatermarkStep_Execute lib s ctx img w)) = heap w.
Proof. unfold WatermarkStep_Execute. step_cases; apply ret_heap. Qed.

Lemma ThumbnailStep_heap s ctx img (w : World X) :
  heap (snd (ThumbnailStep_Execute lib s ctx img w)) = heap w.
Proof.
  unfold ThumbnailStep_Execute.
  destruct (Image img); try apply ret_heap.
  destruct (Dx bounds <? Dy bounds).
  - apply bind_heap; [intros; apply ResizeStep_heap |].
    intros [[[resized |] [e |]] | msg] w'; try apply ret_heap.
    destruct (Image resized); try apply ret_heap.
    apply CropStep_heap.
  - apply bind_heap; [intros; apply ResizeStep_heap |].
    intros [[[resized |] [e |]] | msg] w'; try apply ret_heap.
    destruct (Image resized); try apply ret_heap.
    apply CropStep_heap.
Qed.

Lemma quality_override_heap s img (w : World X) :
  heap (snd (quality_override s img w)) = heap w.
Proof.
  unfold quality_override. destruct (EXIF (Meta img)); [| reflexivity].
  unfold bind, map_load. step_cases; reflexivity.
Qed.

Lemma EncodeStep_heap s ctx img (w : World X) :
  heap (snd (EncodeStep_Execute s ctx img w)) = heap w.
Proof.
  unfold EncodeStep_Execute.
  destruct (EncoderFor _ _) as [enc |]; [| apply ret_heap].
  apply bind_heap; [intros; apply quality_override_heap |].
  intros opts w'. apply bind_heap; [intros; apply call_Encode_heap |].
  intros [data [e |]] w''; apply ret_heap.
Qed.

Lemma AdaptiveCompress_loop_heap fuel enc ctx img target minQ step :
  forall quality best (w : World X),
    heap (snd (AdaptiveCompress_loop fuel enc ctx img target minQ step
                 quality best w)) = heap w.
Proof.
  induction fuel as [| fuel IH]; intros quality best w;
    cbn [AdaptiveCompress_loop].
  - destruct (quality <? minQ); apply ret_heap.
  - destruct (quality <? minQ); [apply ret_heap |].
    apply bind_heap; [intros; apply on_ext_heap |].
    intros [cerr |] w'; [apply ret_heap |].
    apply bind_heap; [intros; apply call_Encode_heap |].
    intros [data [e |]] w''; [apply ret_heap |].
    destruct (Z.of_nat (length data) <=? target); [apply ret_heap |].
    apply IH.
Qed.

Lemma AdaptiveCompressStep_heap fuel s ctx img (w : World X) :
  heap (snd (AdaptiveCompressStep_Execute fuel s ctx img w)) = heap w.
Proof.
  unfold AdaptiveCompressStep_Execute.
  destruct (TargetSizeBytes s <=? 0); [apply ret_heap |].
  destruct (EncoderFor _ _) as [enc |]; [| apply ret_heap].
  apply bind_heap; [intros; apply AdaptiveCompress_loop_heap |].
  intros [[best | e] |] w'; apply ret_heap.
Qed.

(** A decode step that does not reach its decoder leaves the store
    alone; a decoder is a collaborator and does what it does. *)
Lemma DecodeStep_heap s ctx img (w : World X) :
  Image img <> Decoded_nil \/ Data img = [] \/
  DecoderFor (DecodeStep_Registry s) (ImageData_Format img) = None ->
  heap (snd (DecodeStep_Execute s ctx img w)) = heap w.
Proof.
  intros H. unfold DecodeStep_Execute.
  destruct (Image img); try apply ret_heap.
  destruct (Data img); [apply ret_heap |].
  destruct (DecoderFor _ _); [| apply ret_heap].
  destruct H as [H | [H | H]]; congruence.
Qed.

(** [QualityStep] on a state that has an EXIF map: the entry is stored
    in that map. *)
Lemma QualityStep_shared s (ctx : Context X) img (w : World X) l :
  EXIF (Meta img) = Some l ->
  QualityStep_Execute s ctx img w =
  ((Some img, None),
   Build_World (ext w)
     (<[l := <["_quality" := fmt.Sprintf_d (QualityStep_Quality s)]>
               (default ∅ (heap w !! l))]> (heap w))
     (encodes w)).
Proof.
  intros Hl. unfold QualityStep_Execute. rewrite Hl.
  unfold bind, ret, map_store.
  do 2 f_equal. destruct img as [d f i m o]. destruct m.
  cbn in Hl. subst. reflexivity.
Qed.

(** [QualityStep] on a state without an EXIF map: the entry is stored
    in a new map, and every map of the store is as it was. *)
Lemma QualityStep_fresh s (ctx : Context X) img (w : World X) :
  EXIF (Meta img) = None ->
  let l := fresh (dom (heap w)) in
  QualityStep_Execute s ctx img w =
  ((Some (set_Meta (Meta_EXIF (Some l)) img), None),
   Build_World (ext w)
     (<[l := {["_quality" := fmt.Sprintf_d (QualityStep_Quality s)]}]>
        (heap w))
     (encodes w)) /\
  heap w !! l = None.
Proof.
  intros Hl l. unfold QualityStep_Execute. rewrite Hl.
  assert (Hfresh : heap w !! l = None).
  { apply not_elem_of_dom. apply is_fresh. }
  split; [| exact Hfresh].
  unfold bind, ret, map_store, make_map. cbn [ext heap encodes]. fold l.
  do 2 f_equal.
  rewrite lookup_insert_eq. cbn [default].
  rewrite insert_insert_eq. reflexivity.
Qed.

End InputFrame.

(** C4.  The code against the claim that no built-in step changes the
    state it is given.  Resize, crop, format, EXIF strip, grayscale,
    watermark, thumbnail, encode and adaptive compression leave the
    store of the EXIF maps as it was, so what their caller holds is
    unchanged.  [QualityStep] does not: on a state that has an EXIF map
    it returns the state it was given and stores the entry ["_quality"]
    in that very map, so the caller's value has changed after the call
    whenever the map did not hold that entry already; for the sample
    photograph the map holds one entry before the call and two after
    it. *)
Theorem QualityStep_writes_input_map :
  (forall X (lib : pipeline.ImageLib) (ctx : context.Context X)
          (img : core.ImageData) (w : core.World X),
     (forall s, core.heap (snd (pipeline.ResizeStep_Execute lib s ctx img w))
                = core.heap w) /\
     (forall s, core.heap (snd (pipeline.CropStep_Execute lib s ctx img w))
                = core.heap w) /\
     (forall s, core.heap (snd (pipeline.FormatStep_Execute s ctx img w))
                = core.heap w) /\
     core.heap (snd (pipeline.StripEXIFStep_Execute ctx img w))
       = core.heap w /\
     core.heap (snd (pipeline.GrayscaleStep_Execute lib ctx img w))
       = core.heap w /\
     (forall s, core.heap (snd (pipeline.WatermarkStep_Execute lib s ctx img w))
                = core.heap w) /\
     (forall s, core.heap (snd (pipeline.ThumbnailStep_Execute lib s ctx img w))
                = core.heap w) /\
     (forall s, core.heap (snd (pipeline.EncodeStep_Execute s ctx img w))
                = core.heap w) /\
     (forall fuel s,
        core.heap (snd (pipeline.AdaptiveCompressStep_Execute fuel s ctx img w))
        = core.heap w)) /\
  (forall X (ctx : context.Context X) (img : core.ImageData)
          (w : core.World X) s entries,
     pipeline.EXIF_entries w img = Some entries ->
     let (r, w') := pipeline.QualityStep_Execute s ctx img w in
     r = (Some img, None) /\
     pipeline.EXIF_entries w' img =
       Some (<["_quality" := fmt.Sprintf_d (pipeline.QualityStep_Quality s)]>
               entries) /\
     (entries !! "_quality"
        <> Some (fmt.Sprintf_d (pipeline.QualityStep_Quality s)) ->
      pipeline.EXIF_entries w' img <> pipeline.EXIF_entries w img)) /\
  (pipeline.EXIF_entries samples.album samples.photo
     = Some {[ "Make" := "Canon" ]} /\
   pipeline.EXIF_entries
     (snd (pipeline.QualityStep_Execute
             {| pipeline.QualityStep_Quality := 80 |}
             samples.ctx_live samples.photo samples.album)) samples.photo
     = Some (<[ "_quality" := "80" ]> {[ "Make" := "Canon" ]}) /\
   (<[ "_quality" := "80" ]> {[ "Make" := "Canon" ]} : gmap string string)
     !! "_quality" = Some "80" /\
   ({[ "Make" := "Canon" ]} : gmap string string) !! "_quality" = None).
Proof.
  split; [| split].
  - intros X lib ctx img w.
    split; [intros; apply ResizeStep_heap |].
    split; [intros; apply CropStep_heap |].
    split; [intros; apply FormatStep_heap |].
    split; [apply StripEXIFStep_heap |].
    split; [apply GrayscaleStep_heap |].
    split; [intros; apply WatermarkStep_heap |].
    split; [intros; apply ThumbnailStep_heap |].
    split; [intros; apply EncodeStep_heap |].
    intros; apply AdaptiveCompressStep_heap.
  - intros X ctx img w s entries He.
    unfold pipeline.EXIF_entries in He.
    destruct (core.EXIF (core.Meta img)) as [l |] eqn:Hl; [| discriminate].
    injection He as He.
    rewrite (QualityStep_shared s ctx img w l Hl).
    split; [reflexivity |].
    unfold pipeline.EXIF_entries. rewrite Hl. cbn [core.heap].
    rewrite lookup_insert_eq. cbn [default]. rewrite He.
    split; [reflexivity |].
    intros Hne Heq. injection Heq as Heq.
    apply Hne. rewrite <- Heq at 1. apply lookup_insert_eq.
  - split; [vm_compute; reflexivity |].
    split; [vm_compute; reflexivity |].
    split; vm_compute; reflexivity.
Qed.

(** The sample photograph: its EXIF map is not the same after a
    [QualityStep] as before. *)
Lemma QualityStep_writes_input_map_witness :
  pipeline.EXIF_entries samples.album samples.photo
    = Some {[ "Make" := "Canon" ]} /\
  pipeline.EXIF_entries
    (snd (pipeline.QualityStep_Execute
            {| pipeline.QualityStep_Quality := 80 |}
            samples.ctx_live samples.photo samples.album)) samples.photo
    <> pipeline.EXIF_entries samples.album samples.photo.
Proof.
  assert (He : pipeline.EXIF_entries samples.album samples.photo
               = Some {[ "Make" := "Canon" ]}) by (vm_compute; reflexivity).
  split; [exact He |].
  pose proof (proj1 (proj2 QualityStep_writes_input_map) samples.Outside
                samples.ctx_live samples.photo samples.album
                {| pipeline.QualityStep_Quality := 80 |} _ He) as H.
  destruct (pipeline.QualityStep_Execute _ _ _ _) as [r w'].
  destruct H as (_ & _ & H). apply H.
  vm_compute. discriminate.
Defined.

(** ** The quality side channel between [QualityStep] and [EncodeStep] *)

Section QualityChannel.
Import apperrors context core pipeline.

Lemma digits_string_of_uint (d : uint) :
  fmt.digits (NilEmpty.string_of_uint d) = d.
Proof.
  induction d; cbn [NilEmpty.string_of_uint fmt.digits]; try reflexivity;
    rewrite IHd; reflexivity.
Qed.

Lemma Sscanf_d_plain (a : ascii) (rest : string) (d : uint) :
  fmt.skip_space (String a rest) = Some (String a rest) ->
  Ascii.eqb a "-" = false -> Ascii.eqb a "+" = false ->
  fmt.digits (String a rest) = d -> d <> Nil ->
  goint.min_int <= Z.of_uint d <= goint.max_int ->
  fmt.Sscanf_d (String a rest) = Some (Z.of_uint d).
Proof.
  intros Hs Hm Hp Hd Hn Hr. unfold fmt.Sscanf_d.
  rewrite Hs, Hm, Hp. cbn [orb]. rewrite Hd.
  assert (Hle : (goint.min_int <=? Z.of_uint d)
                && (Z.of_uint d <=? goint.max_int) = true).
  { apply andb_true_intro; split; apply Z.leb_le; lia. }
  destruct d; [congruence | ..]; rewrite Hle; reflexivity.
Qed.

Lemma Sscanf_d_minus (rest : string) (d : uint) :
  fmt.digits rest = d -> d <> Nil ->
  fmt.Sscanf_d (String "-" rest) =
    (if (goint.min_int <=? - Z.of_uint d) && (- Z.of_uint d <=? goint.max_int)
     then Some (- Z.of_uint d) else None).
Proof.
  intros Hd Hn. unfold fmt.Sscanf_d.
  replace (fmt.skip_space (String "-" rest)) with (Some (String "-" rest))
    by reflexivity.
  cbv beta iota.
  replace (Ascii.eqb "-" "-") with true by reflexivity.
  cbn [orb]. rewrite Hd. destruct d; congruence.
Qed.

Lemma Sscanf_d_unsigned (d : uint) :
  d <> Nil ->
  goint.min_int <= Z.of_uint d <= goint.max_int ->
  fmt.Sscanf_d (NilEmpty.string_of_uint d) = Some (Z.of_uint d) /\
  fmt.Sscanf_d (String "-" (NilEmpty.string_of_uint d)) =
    (if (goint.min_int <=? - Z.of_uint d) && (- Z.of_uint d <=? goint.max_int)
     then Some (- Z.of_uint d) else None).
Proof.
  intros Hnil Hrange. split.
  - pose proof (digits_string_of_uint d) as Hd.
    destruct d; try congruence; cbn [NilEmpty.string_of_uint] in *;
      apply Sscanf_d_plain; solve [reflexivity | assumption].
  - apply Sscanf_d_minus; [apply digits_string_of_uint | exact Hnil].
Qed.

(** What [Sprintf] writes, [Sscanf] reads back. *)
Lemma Sscanf_d_Sprintf_d (z : Z) :
  goint.in_range z -> fmt.Sscanf_d (fmt.Sprintf_d z) = Some z.
Proof.
  unfold goint.in_range, fmt.Sprintf_d. intros Hz.
  destruct z as [| p | p]; cbn [Z.to_int NilEmpty.string_of_int].
  - reflexivity.
  - assert (Hv : Z.of_uint (Pos.to_uint p) = Z.pos p).
    { unfold Z.of_uint. rewrite Unsigned.of_to. reflexivity. }
    destruct (Sscanf_d_unsigned (Pos.to_uint p)) as [H _].
    + apply Unsigned.to_uint_nonnil.
    + rewrite Hv. unfold goint.min_int, goint.max_int in *. lia.
    + rewrite H, Hv. reflexivity.
  - assert (Hv : Z.of_uint (Pos.to_uint p) = Z.pos p).
    { unfold Z.of_uint. rewrite Unsigned.of_to. reflexivity. }
    destruct (Z.eq_dec (Z.neg p) goint.min_int) as [Hmin | Hmin].
    + injection Hmin as ->. vm_compute. reflexivity.
    + destruct (Sscanf_d_unsigned (Pos.to_uint p)) as [_ H].
      * apply Unsigned.to_uint_nonnil.
      * rewrite Hv. unfold goint.min_int, goint.max_int in *. lia.
      * rewrite H, Hv.
        replace (- Z.pos p) with (Z.neg p) by reflexivity.
        destruct (goint.min_int <=? Z.neg p) eqn:E1;
          destruct (Z.neg p <=? goint.max_int) eqn:E2; try reflexivity;
          [apply Z.leb_gt in E2 | apply Z.leb_gt in E1 | apply Z.leb_gt in E1];
          unfold goint.max_int, goint.min_int in *; lia.
Qed.

Context {X : Type}.

(** The options [EncodeStep] passes on, from what the world holds. *)
Lemma quality_override_spec (s : EncodeStep X) img (w : World X) :
  quality_override s img w =
  (match EXIF_entries w img ≫= (.!! "_quality") with
   | Some qs => set_Quality (default 0 (fmt.Sscanf_d qs)) (BaseOptions s)
   | None => BaseOptions s
   end, w).
Proof.
  unfold quality_override, EXIF_entries.
  destruct (EXIF (Meta img)) as [l |]; [| reflexivity].
  unfold bind, map_load, ret. cbn [mbind option_bind].
  destruct (default ∅ (heap w !! l) !! "_quality"); reflexivity.
Qed.

(** [EncodeStep] with a registered encoder calls it once, on the state
    it was given, and builds its result from what the call returned. *)
Lemma EncodeStep_call (s : EncodeStep X) ctx img (w : World X) enc :
  EncoderFor (EncodeStep_Registry s) (ImageData_Format img) = Some enc ->
  let opts := fst (quality_override s img w) in
  let (r, x') := Encode enc ctx img opts (ext w) in
  EncodeStep_Execute s ctx img w =
  (match snd r with
   | Some e => (None, Some e)
   | None =>
       (Some (set_Meta (Meta_SizeBytes (Z.of_nat (length (fst r))))
                (set_Data (fst r) img)), None)
   end,
   Build_World x' (heap w)
     (encodes w ++ [Build_EncodeCall img opts (fst r) (snd r)])).
Proof.
  intros Henc opts. unfold EncodeStep_Execute. rewrite Henc.
  unfold opts. rewrite quality_override_spec. cbn [fst].
  unfold bind at 1. rewrite quality_override_spec.
  unfold bind, call_Encode.
  destruct (Encode enc ctx img _ (ext w)) as [[data err] x'].
  cbn [fst snd]. destruct err; reflexivity.
Qed.

End QualityChannel.



(** ** The adaptive compression search *)

Section AdaptiveSearch.
Import apperrors context core pipeline.
Context {X : Type}.

(** The options of a call at quality [q]. *)
Definition at_quality (q : Z) : EncodeOptions :=
  {| Quality := q; Lossless := false; StripEXIF := false;
     Interlaced := false |}.

(** The floor and the decrement the step works with: [MinQuality] when
    it is positive and otherwise one below the ceiling, [StepSize] when
    it is positive and otherwise 5. *)
Definition quality_floor (s : AdaptiveCompressStep X) : Z :=
  if 0 <? MinQuality s then MinQuality s else goint.sub (MaxQuality s) 1.

Definition quality_stride (s : AdaptiveCompressStep X) : Z :=
  if StepSize s <=? 0 then 5 else StepSize s.


Definition size_of (c : EncodeCall) : Z :=
  Z.of_nat (length (encoded_data c)).

(** A list of encoder calls is a scan from quality [q] down in steps of
    [step]: the [i]-th call encodes [img] at quality [q - i * step],
    which is not below [minQ], and every call but the last returned
    bytes, more of them than the target. *)
Definition quality_scan (img : ImageData) (target minQ step q : Z)
  (tried : list EncodeCall) : Prop :=
  forall (i : nat) (c : EncodeCall),
    tried !! i = Some c ->
    encoded_img c = img /\
    encoded_opts c = at_quality (q - Z.of_nat i * step) /\
    minQ <= q - Z.of_nat i * step /\
    ((S i < length tried)%nat ->
     encoded_err c = None /\ target < size_of c).

(** How a scan ended, against what the loop returned. *)
Definition loop_ended (fuel : nat) (target minQ step q : Z) (best0 : list byte)
  (tried : list EncodeCall) (r : option (list byte + error)) : Prop :=
  match r with
  | Some (inl best) =>
      match last tried with
      | None => best = best0 /\ q < minQ
      | Some c =>
          best = encoded_data c /\ encoded_err c = None /\
          (size_of c <= target \/
           target < size_of c /\ q - Z.of_nat (length tried) * step < minQ)
      end
  | Some (inr e) =>
      match last tried with
      | Some c =>
          encoded_err c = Some e \/
          encoded_err c = None /\ target < size_of c /\
          exists cerr, e = New_ CategoryPipeline "adaptive_compress" cerr
      | None => exists cerr, e = New_ CategoryPipeline "adaptive_compress" cerr
      end
  | None => length tried = fuel /\ minQ <= q - Z.of_nat fuel * step
  end.


Variables (enc : Encoder X) (ctx : Context X) (img : ImageData).
Variables (target minQ step : Z).
Hypothesis step_pos : 0 < step.
Hypothesis no_wrap : goint.min_int <= minQ - step.

Lemma last_cons_cons {A} (a b : A) l : last (a :: b :: l) = last (b :: l).
Proof. reflexivity. Qed.

Lemma AdaptiveCompress_loop_scan (fuel : nat) :
  forall (quality : Z) (best : list byte) (w : World X),
    quality <= goint.max_int ->
    exists tried,
      encodes (snd (AdaptiveCompress_loop fuel enc ctx img target minQ step
                      quality best w)) = (encodes w ++ tried)%list /\
      quality_scan img target minQ step quality tried /\
      loop_ended fuel target minQ step quality best tried
        (fst (AdaptiveCompress_loop fuel enc ctx img target minQ step
                quality best w)).
Proof.
  induction fuel as [| fuel IH]; intros quality best w Hq;
    cbn [AdaptiveCompress_loop].
  - destruct (quality <? minQ) eqn:Hlt.
    + exists []. rewrite app_nil_r. apply Z.ltb_lt in Hlt.
      split; [reflexivity |]. split; [intros i c Hi; discriminate |].
      cbn. split; [reflexivity | exact Hlt].
    + exists []. rewrite app_nil_r. apply Z.ltb_ge in Hlt.
      split; [reflexivity |]. split; [intros i c Hi; discriminate |].
      cbn. split; [reflexivity | lia].
  - destruct (quality <? minQ) eqn:Hlt.
    { exists []. rewrite app_nil_r. apply Z.ltb_lt in Hlt.
      split; [reflexivity |]. split; [intros i c Hi; discriminate |].
      cbn. split; [reflexivity | exact Hlt]. }
    apply Z.ltb_ge in Hlt.
    unfold bind, on_ext.
    destruct (Err ctx (ext w)) as [cerr x1].
    destruct cerr as [cerr |].
    { exists []. rewrite app_nil_r. cbn.
      split; [reflexivity |]. split; [intros i c Hi; discriminate |].
      eauto. }
    unfold call_Encode. cbn [ext heap encodes].
    destruct (Encode enc ctx img _ x1) as [[data err] x2]. cbn [fst snd].
    set (c0 := Build_EncodeCall img
                 {| Quality := quality; Lossless := false;
                    StripEXIF := false; Interlaced := false |} data err).
    assert (Hc0 : forall tail,
               tail = [] \/ (err = None /\ target < Z.of_nat (length data)) ->
               quality_scan img target minQ step (quality - step) tail ->
               quality_scan img target minQ step quality (c0 :: tail)).
    { intros tail Hhead Htail [| i] c Hi.
      - injection Hi as <-. cbn [c0 encoded_img encoded_opts encoded_err].
        replace (quality - Z.of_nat 0 * step) with quality by lia.
        split; [reflexivity |]. split; [reflexivity |]. split; [lia |].
        intros Hlen. destruct Hhead as [-> | Hhead]; [cbn in Hlen; lia |].
        exact Hhead.
      - cbn in Hi. destruct (Htail i c Hi) as (H1 & H2 & H3 & H4).
        replace (quality - Z.of_nat (S i) * step)
          with (quality - step - Z.of_nat i * step) by lia.
        split; [exact H1 |]. split; [exact H2 |]. split; [exact H3 |].
        intros Hlen. apply H4. cbn [length] in Hlen. lia. }
    destruct err as [e |].
    { exists [c0]. cbn [snd fst ret encodes].
      split; [reflexivity |].
      split; [apply Hc0; [left; reflexivity | intros i c Hi; discriminate] |].
      cbn. left. reflexivity. }
    destruct (Z.of_nat (length data) <=? target) eqn:Hfit.
    { exists [c0]. cbn [snd fst ret encodes]. apply Z.leb_le in Hfit.
      split; [reflexivity |].
      split; [apply Hc0; [left; reflexivity | intros i c Hi; discriminate] |].
      cbn. split; [reflexivity |]. split; [reflexivity |]. left. exact Hfit. }
    apply Z.leb_gt in Hfit.
    assert (Hsub : goint.sub quality step = quality - step).
    { apply sub_no_overflow. lia. }
    rewrite Hsub.
    destruct (IH (quality - step) data
                (Build_World x2 (heap w) (encodes w ++ [c0])%list))
      as (tail & Henc & Hscan & Hend); [lia |].
    exists (c0 :: tail). cbn [encodes] in Henc.
    split; [rewrite Henc, <- app_assoc; reflexivity |].
    split; [apply Hc0; [right; split; [reflexivity | exact Hfit] | exact Hscan] |].
    destruct (AdaptiveCompress_loop fuel enc ctx img target minQ step
                (quality - step) data _) as [r w'].
    cbn [fst] in *. unfold loop_ended in *.
    destruct r as [[best' | e] |].
    + destruct tail as [| c1 tail].
      * cbn [last] in *. destruct Hend as [-> Hbelow].
        cbn [c0 encoded_data encoded_err size_of length].
        split; [reflexivity |]. split; [reflexivity |]. right.
        unfold size_of. cbn [encoded_data]. split; [exact Hfit | lia].
      * rewrite last_cons_cons.
        destruct (last (c1 :: tail)) as [c |] eqn:Hlast;
          [| apply last_None in Hlast; discriminate].
        destruct Hend as (Hb & He & Hstop).
        split; [exact Hb |]. split; [exact He |].
        destruct Hstop as [Hstop | [Hover Hbelow]]; [left; exact Hstop |].
        right. split; [exact Hover |].
        cbn [length] in *. lia.
    + destruct tail as [| c1 tail].
      * cbn [last] in *. right.
        unfold size_of. cbn [c0 encoded_data encoded_err].
        split; [reflexivity |]. split; [exact Hfit | exact Hend].
      * rewrite last_cons_cons.
        destruct (last (c1 :: tail)) as [c |] eqn:Hlast;
          [exact Hend | apply last_None in Hlast; discriminate].
    + destruct Hend as [Hlen Hmin]. cbn [length]. split; [lia | lia].
Qed.

End AdaptiveSearch.



(** The sample search: an encoder that returns as many bytes as the
    quality, a target of 75 bytes, qualities from 90 down to 60 in steps
    of 10.  Three calls, at 90, 80 and 70; the 70 bytes of the last are
    the result. *)
Example AdaptiveCompressStep_sample :
  let s := {| pipeline.AdaptiveCompressStep_Registry := samples.jpeg_only;
              pipeline.TargetSizeBytes := 75; pipeline.MinQuality := 60;
              pipeline.MaxQuality := 90; pipeline.StepSize := 10 |} in
  let (r, w) :=
    pipeline.AdaptiveCompressStep_Execute 4 s samples.ctx_live samples.photo
      samples.album in
  map (fun c => core.Quality (core.encoded_opts c)) (core.encodes w)
    = [90; 80; 70] /\
  match r with
  | Some (Some out, None) => length (core.Data out) = 70%nat
  | _ => False
  end.
Proof. vm_compute. split; reflexivity. Qed.

(** ** New pixel buffers ([image.NewRGBA], [image.NewGray]) *)

Section Allocation.
Import core pipeline.
Variable lib : ImageLib.

(** The rectangle [(0,0)-(w,h)], as decoders and [image.NewRGBA] give it. *)
Definition at_origin (w h : Z) : Rectangle :=
  {| MinX := 0; MinY := 0; MaxX := w; MaxY := h |}.

(** The largest buffer that is made: its length is an [int] and the
    runtime accepts it. *)
Definition alloc_limit : Z := Z.min goint.max_int (maxAlloc lib).

Lemma Dx_at_origin w h : goint.in_range w -> Dx (at_origin w h) = w.
Proof.
  intros H. unfold Dx, at_origin. cbn [MaxX MinX].
  rewrite sub_no_overflow; unfold goint.in_range in H; lia.
Qed.

Lemma Dy_at_origin w h : goint.in_range h -> Dy (at_origin w h) = h.
Proof.
  intros H. unfold Dy, at_origin. cbn [MaxY MinY].
  rewrite sub_no_overflow; unfold goint.in_range in H; lia.
Qed.

Lemma in_range_small z : 0 <= z < 2 ^ 62 -> goint.in_range z.
Proof.
  unfold goint.in_range, goint.min_int, goint.max_int.
  change (2 ^ 63) with (2 * 2 ^ 62). lia.
Qed.

Lemma image_Rect_ordered (x0 y0 x1 y1 : Z) :
  x0 <= x1 -> y0 <= y1 ->
  image_Rect x0 y0 x1 y1
  = {| MinX := x0; MinY := y0; MaxX := x1; MaxY := y1 |}.
Proof.
  intros Hx Hy. unfold image_Rect.
  destruct (Z.ltb_spec x1 x0); [lia |].
  destruct (Z.ltb_spec y1 y0); [lia |]. reflexivity.
Qed.

(** The sides of [image.Rect(0, 0, W, H)]: the corners are put in
    order, and the difference wraps around for the smallest [int]. *)
Lemma Dx_image_Rect W H :
  Dx (image_Rect 0 0 W H) = goint.wrap (Z.abs W).
Proof.
  unfold image_Rect, Dx, goint.sub.
  destruct (Z.ltb_spec W 0), (Z.ltb_spec H 0); cbn [MinX MaxX];
    f_equal; lia.
Qed.

Lemma Dy_image_Rect W H :
  Dy (image_Rect 0 0 W H) = goint.wrap (Z.abs H).
Proof.
  unfold image_Rect, Dy, goint.sub.
  destruct (Z.ltb_spec W 0), (Z.ltb_spec H 0); cbn [MinY MaxY];
    f_equal; lia.
Qed.

Lemma wrap_abs z :
  goint.in_range z ->
  goint.wrap (Z.abs z) = if Z.abs z <=? goint.max_int then Z.abs z
                         else goint.min_int.
Proof.
  unfold goint.in_range, goint.min_int, goint.max_int. intros Hz.
  destruct (Z.leb_spec (Z.abs z) (2 ^ 63 - 1)) as [Hle | Hgt].
  - apply wrap_in_range.
    unfold goint.in_range, goint.min_int, goint.max_int. lia.
  - assert (E : Z.abs z = 2 ^ 63) by lia. rewrite E. reflexivity.
Qed.

(** [mul3NonNeg] gives the product when it fits, and -1 otherwise. *)
Lemma mul3NonNeg_fits x y z :
  0 <= x -> 0 <= y -> 0 <= z ->
  x * y < 2 ^ 64 -> x * y * z <= goint.max_int ->
  mul3NonNeg x y z = x * y * z.
Proof.
  unfold goint.max_int. intros Hx Hy Hz Hxy Hxyz.
  unfold mul3NonNeg, bits_Mul64.
  destruct (Z.ltb_spec x 0); [lia |]. destruct (Z.ltb_spec y 0); [lia |].
  destruct (Z.ltb_spec z 0); [lia |]. cbn [orb].
  assert (0 <= x * y) by nia.
  rewrite (Z.div_small (x * y)), (Z.mod_small (x * y)) by lia.
  cbn [Z.eqb negb].
  assert (0 <= x * y * z) by nia.
  rewrite (Z.div_small (x * y * z)), (Z.mod_small (x * y * z)) by lia.
  cbn [Z.eqb negb].
  rewrite wrap_in_range
    by (unfold goint.in_range, goint.min_int, goint.max_int; lia).
  destruct (Z.ltb_spec (x * y * z) 0); [lia |].
  rewrite (Z.mod_small (x * y * z)) by lia. rewrite Z.eqb_refl. reflexivity.
Qed.

Lemma mul3NonNeg_refuses x y z :
  x < 0 \/ y < 0 \/ z < 0 \/ 2 ^ 64 <= x * y \/ goint.max_int < x * y * z ->
  mul3NonNeg x y z = -1.
Proof.
  unfold goint.max_int. intros Hcase.
  unfold mul3NonNeg, bits_Mul64.
  destruct (Z.ltb_spec x 0); [reflexivity |].
  destruct (Z.ltb_spec y 0); [reflexivity |].
  destruct (Z.ltb_spec z 0); [reflexivity |]. cbn [orb].
  assert (Hxy : 0 <= x * y) by nia.
  destruct (Z.eqb_spec (x * y / 2 ^ 64) 0) as [Hhi | Hhi]; [| reflexivity].
  cbn [negb].
  assert (Hlo : 0 <= x * y < 2 ^ 64) by (apply Z.div_small_iff in Hhi; lia).
  rewrite (Z.mod_small (x * y)) by lia.
  assert (Hxyz : 0 <= x * y * z) by nia.
  destruct (Z.eqb_spec (x * y * z / 2 ^ 64) 0) as [Hhi2 | Hhi2];
    [| reflexivity].
  cbn [negb].
  assert (Hlo2 : 0 <= x * y * z < 2 ^ 64)
    by (apply Z.div_small_iff in Hhi2; lia).
  rewrite (Z.mod_small (x * y * z)) by lia.
  assert (Hbig : 2 ^ 63 <= x * y * z) by lia.
  assert (Hw : goint.wrap (x * y * z) = x * y * z - 2 ^ 64).
  { unfold goint.wrap.
    replace (x * y * z + 2 ^ 63)
      with ((x * y * z - 2 ^ 63) + 1 * 2 ^ 64) by lia.
    rewrite Z.mod_add by lia. rewrite Z.mod_small by lia. lia. }
  rewrite Hw. destruct (Z.ltb_spec (x * y * z - 2 ^ 64) 0); [reflexivity | lia].
Qed.

(** When a buffer is made. *)
Lemma new_image_fits bpp r name :
  0 <= bpp -> 0 <= Dx r -> 0 <= Dy r ->
  bpp * Dx r < 2 ^ 64 -> bpp * Dx r * Dy r <= alloc_limit ->
  new_image lib bpp r name = returns r.
Proof.
  unfold alloc_limit. intros Hb Hx Hy Hrow Hall.
  unfold new_image, pixelBufferLength, make_uint8.
  rewrite mul3NonNeg_fits by lia.
  assert (0 <= bpp * Dx r * Dy r) by nia.
  destruct (Z.ltb_spec (bpp * Dx r * Dy r) 0); [lia |].
  destruct (Z.ltb_spec (maxAlloc lib) (bpp * Dx r * Dy r)); [lia | reflexivity].
Qed.

Lemma new_image_refuses bpp r name :
  Dx r < 0 \/ Dy r < 0 \/ 2 ^ 64 <= bpp * Dx r \/
  alloc_limit < bpp * Dx r * Dy r ->
  0 <= bpp ->
  exists msg, new_image lib bpp r name = panics msg.
Proof.
  unfold alloc_limit. intros Hcase Hb.
  unfold new_image, pixelBufferLength, make_uint8.
  destruct (Z.ltb_spec (mul3NonNeg bpp (Dx r) (Dy r)) 0) as [Hneg | Hpos];
    [eexists; reflexivity |].
  destruct (Z.ltb_spec (maxAlloc lib) (mul3NonNeg bpp (Dx r) (Dy r)))
    as [Hbig | Hsmall]; [eexists; reflexivity |].
  exfalso.
  destruct (Z_lt_le_dec (Dx r) 0) as [Hx | Hx];
    [rewrite mul3NonNeg_refuses in Hpos by lia; lia |].
  destruct (Z_lt_le_dec (Dy r) 0) as [Hy | Hy];
    [rewrite mul3NonNeg_refuses in Hpos by lia; lia |].
  destruct (Z_lt_le_dec (bpp * Dx r) (2 ^ 64)) as [Hrow | Hrow];
    [| rewrite mul3NonNeg_refuses in Hpos by lia; lia].
  destruct (Z_lt_le_dec goint.max_int (bpp * Dx r * Dy r)) as [Hov | Hov];
    [rewrite mul3NonNeg_refuses in Hpos by lia; lia |].
  rewrite mul3NonNeg_fits in Hsmall by lia. lia.
Qed.

(** [image.NewRGBA] on a rectangle at the origin. *)
Lemma image_NewRGBA_fits a b :
  0 <= a < 2 ^ 62 -> 0 <= b < 2 ^ 62 -> 4 * a * b <= alloc_limit ->
  image_NewRGBA lib (image_Rect 0 0 a b) = returns (at_origin a b).
Proof.
  intros Ha Hb Hall. rewrite image_Rect_ordered by lia.
  unfold image_NewRGBA. fold (at_origin a b).
  apply new_image_fits;
    rewrite ?Dx_at_origin, ?Dy_at_origin by (apply in_range_small; lia);
    lia.
Qed.

Lemma image_NewRGBA_refuses a b :
  0 <= a < 2 ^ 62 -> 0 <= b < 2 ^ 62 -> alloc_limit < 4 * a * b ->
  exists msg, image_NewRGBA lib (image_Rect 0 0 a b) = panics msg.
Proof.
  intros Ha Hb Hall. rewrite image_Rect_ordered by lia.
  unfold image_NewRGBA. fold (at_origin a b).
  apply new_image_refuses; [| lia].
  rewrite ?Dx_at_origin, ?Dy_at_origin by (apply in_range_small; lia).
  lia.
Qed.

(** [image.NewRGBA(image.Rect(0, 0, W, H))] for any two ints: the
    buffer is made exactly when a row of it has fewer than 2^64 bytes,
    no side is the smallest int and the whole is within the limit. *)
Lemma image_NewRGBA_Rect W H :
  goint.in_range W -> goint.in_range H ->
  (Z.abs W < 2 ^ 62 /\ Z.abs H <= goint.max_int /\
   4 * Z.abs W * Z.abs H <= alloc_limit ->
   image_NewRGBA lib (image_Rect 0 0 W H) = returns (image_Rect 0 0 W H)) /\
  (2 ^ 62 <= Z.abs W \/ goint.max_int < Z.abs H \/
   alloc_limit < 4 * Z.abs W * Z.abs H ->
   exists msg, image_NewRGBA lib (image_Rect 0 0 W H) = panics msg).
Proof.
  intros RW RH.
  pose proof (Dx_image_Rect W H) as HDx. pose proof (Dy_image_Rect W H) as HDy.
  rewrite (wrap_abs W RW) in HDx. rewrite (wrap_abs H RH) in HDy.
  assert (P62 : 2 ^ 63 = 2 * 2 ^ 62) by reflexivity.
  assert (P64 : 2 ^ 64 = 4 * 2 ^ 62) by reflexivity.
  unfold goint.max_int, goint.min_int in *.
  split.
  - intros (HW & HH & Hall).
    destruct (Z.leb_spec (Z.abs W) (2 ^ 63 - 1)); [| lia].
    destruct (Z.leb_spec (Z.abs H) (2 ^ 63 - 1)); [| lia].
    unfold image_NewRGBA. apply new_image_fits; rewrite ?HDx, ?HDy; lia.
  - intros Hcase. unfold image_NewRGBA. apply new_image_refuses; [| lia].
    rewrite HDx, HDy.
    destruct (Z.leb_spec (Z.abs W) (2 ^ 63 - 1)); [| lia].
    destruct (Z.leb_spec (Z.abs H) (2 ^ 63 - 1)); [| lia].
    lia.
Qed.

End Allocation.

(** ** The unchecked assertion of [ThumbnailStep] *)

Section Thumbnail.
Import apperrors context core pipeline.
Context {X : Type}.
Variable lib : ImageLib.

(** A resize that succeeds returns a state that holds a Go image. *)
Lemma ResizeStep_decoded s (ctx : Context X) img w out err w' :
  ResizeStep_Execute lib s ctx img w = (returns (out, err), w') ->
  err = None ->
  exists o bounds pix, out = Some o /\ Image o = image_Image bounds pix.
Proof.
  unfold ResizeStep_Execute, bind, on_ext.
  destruct (Err ctx (ext w)) as [[cerr |] x1]; cbn [Wrap ret].
  { intros [= <- <- <-]. discriminate. }
  destruct (Image img) as [| srcB pix | ref] eqn:Himg; cbn [ret].
  - intros [= <- <- <-]. discriminate.
  - destruct (utils.ScaleDimensions _ _ _ _) as [dstW dstH].
    destruct ((dstW =? Dx srcB) && (dstH =? Dy srcB)).
    + intros [= <- <- <-] _. eauto.
    + destruct ((dstW <=? 0) || (dstH <=? 0)).
      * intros [= <- <- <-]. discriminate.
      * destruct (image_NewRGBA lib _) as [dr | msg]; [| discriminate].
        intros [= <- <- <-] _. eexists _, _, _. split; reflexivity.
  - intros [= <- <- <-]. discriminate.
Qed.

(** The panics of the two stages are those of [image.NewRGBA]. *)
Lemma ResizeStep_panics s (ctx : Context X) img w msg :
  fst (ResizeStep_Execute lib s ctx img w) = panics msg ->
  exists bounds pix,
    Image img = image_Image bounds pix /\
    let (dstW, dstH) :=
      utils.ScaleDimensions (Dx bounds) (Dy bounds)
        (ResizeStep_Width s) (ResizeStep_Height s) in
    image_NewRGBA lib (image_Rect 0 0 dstW dstH) = panics msg.
Proof.
  unfold ResizeStep_Execute, bind, on_ext.
  destruct (Err ctx (ext w)) as [[cerr |] x1]; cbn [Wrap ret fst];
    [discriminate |].
  destruct (Image img) as [| srcB pix | ref] eqn:Himg; cbn [ret fst];
    try discriminate.
  intros Hp. exists srcB, pix. split; [reflexivity |].
  destruct (utils.ScaleDimensions _ _ _ _) as [dstW dstH].
  destruct ((dstW =? Dx srcB) && (dstH =? Dy srcB)); [discriminate |].
  destruct ((dstW <=? 0) || (dstH <=? 0)); [discriminate |].
  destruct (image_NewRGBA lib _) as [dr | m]; [discriminate |].
  cbn [ret fst] in Hp. injection Hp as ->. reflexivity.
Qed.

Lemma CropStep_panics s (ctx : Context X) img w msg :
  fst (CropStep_Execute lib s ctx img w) = panics msg ->
  image_NewRGBA lib (image_Rect 0 0 (CropStep_Width s) (CropStep_Height s))
  = panics msg.
Proof.
  unfold CropStep_Execute, bind, on_ext.
  destruct (Err ctx (ext w)) as [[cerr |] x1]; cbn [Wrap ret fst];
    [discriminate |].
  destruct (Image img) as [| srcB pix | ref]; cbn [ret fst];
    try discriminate.
  destruct (negb (Rectangle_In _ srcB)); [discriminate |].
  destruct (image_NewRGBA lib _) as [dr | m]; [discriminate |].
  cbn [ret fst]. intros [= ->]. reflexivity.
Qed.

(** [ThumbnailStep] asserts, without a check, that the resized state
    holds a Go image.  It does, whatever state, size and scope the step
    is given: the step never panics on the assertion or on a nil
    state.  When it panics, it is [image.NewRGBA] that refuses the
    buffer of the resized image or the buffer of the square. *)
Theorem ThumbnailStep_returns s (ctx : Context X) img (w : World X) :
  match fst (ThumbnailStep_Execute lib s ctx img w) with
  | returns _ => True
  | panics msg =>
      exists bounds pix,
        Image img = image_Image bounds pix /\
        let size := ThumbnailStep_Size s in
        let (dstW, dstH) :=
          if Dx bounds <? Dy bounds
          then utils.ScaleDimensions (Dx bounds) (Dy bounds) size 0
          else utils.ScaleDimensions (Dx bounds) (Dy bounds) 0 size in
        image_NewRGBA lib (image_Rect 0 0 dstW dstH) = panics msg \/
        image_NewRGBA lib (image_Rect 0 0 size size) = panics msg
  end.
Proof.
  unfold ThumbnailStep_Execute.
  destruct (Image img) as [| bounds pix | ref] eqn:Himg; [exact I | | exact I].
  assert (Hstages : forall rw rh,
    match
      fst ((let* r :=
              ResizeStep_Execute lib
                {| ResizeStep_Width := rw; ResizeStep_Height := rh;
                   Resampler := None |} ctx img in
            match r with
            | panics msg => ret (panics msg)
            | returns (_, Some e) => ret (returns (None, Some e))
            | returns (None, None) => ret (panics "nil pointer dereference")
            | returns (Some resized, None) =>
                match Image resized with
                | image_Image rb _ =>
                    CropStep_Execute lib
                      {| CropStep_X :=
                           Z.quot (goint.sub (Dx rb) (ThumbnailStep_Size s)) 2;
                         CropStep_Y :=
                           Z.quot (goint.sub (Dy rb) (ThumbnailStep_Size s)) 2;
                         CropStep_Width := ThumbnailStep_Size s;
                         CropStep_Height := ThumbnailStep_Size s |}
                      ctx resized
                | _ => ret (panics "interface conversion")
                end
            end) w)
    with
    | returns _ => True
    | panics msg =>
        (let (dstW, dstH) :=
           utils.ScaleDimensions (Dx bounds) (Dy bounds) rw rh in
         image_NewRGBA lib (image_Rect 0 0 dstW dstH) = panics msg) \/
        image_NewRGBA lib
          (image_Rect 0 0 (ThumbnailStep_Size s) (ThumbnailStep_Size s))
        = panics msg
    end).
  { intros rw rh. unfold bind.
    destruct (ResizeStep_Execute lib _ ctx img w) as [r w1] eqn:Hr.
    destruct r as [[resized err] | msg].
    - destruct err as [e |]; [destruct resized; exact I |].
      destruct (ResizeStep_decoded _ _ _ _ _ _ _ Hr eq_refl)
        as (o & rb & rpix & -> & Ho).
      cbv beta iota. rewrite Ho. cbv beta iota.
      match goal with
      | |- context [CropStep_Execute lib ?c ctx o w1] =>
          pose proof (CropStep_panics c ctx o w1) as Hc;
          destruct (CropStep_Execute lib c ctx o w1) as [[r | msg] w2]
      end; cbn [fst] in *; [exact I |].
      right. apply Hc. reflexivity.
    - cbn [ret fst]. left.
      assert (Hp : fst (ResizeStep_Execute lib
                          {| ResizeStep_Width := rw; ResizeStep_Height := rh;
                             Resampler := None |} ctx img w) = panics msg)
        by (rewrite Hr; reflexivity).
      apply ResizeStep_panics in Hp as (b' & pix' & Hb' & Hp).
      rewrite Himg in Hb'. injection Hb' as <- <-. exact Hp. }
  destruct (Dx bounds <? Dy bounds) eqn:Hlt.
  - specialize (Hstages (ThumbnailStep_Size s) 0).
    destruct (fst _) as [r | msg]; [exact I |].
    exists bounds, pix. split; [reflexivity |]. cbv zeta. rewrite Hlt.
    destruct (utils.ScaleDimensions _ _ _ _) as [dstW dstH]. exact Hstages.
  - specialize (Hstages 0 (ThumbnailStep_Size s)).
    destruct (fst _) as [r | msg]; [exact I |].
    exists bounds, pix. split; [reflexivity |]. cbv zeta. rewrite Hlt.
    destruct (utils.ScaleDimensions _ _ _ _) as [dstW dstH]. exact Hstages.
Qed.

End Thumbnail.

(** ** Dimension scaling in [float64] *)

Section Float64.
Import float64.

Lemma round_half_even_bound (N D : Z) :
  0 < D ->
  - D <= 2 * (round_half_even N D * D - N) <= D.
Proof.
  intros HD. unfold round_half_even.
  pose proof (Z.div_mod N D ltac:(lia)) as Hdm.
  pose proof (Z.mod_pos_bound N D HD) as Hr.
  destruct (2 * (N mod D) <? D) eqn:E1.
  - apply Z.ltb_lt in E1. lia.
  - apply Z.ltb_ge in E1. destruct (D <? 2 * (N mod D)) eqn:E2.
    + apply Z.ltb_lt in E2. lia.
    + apply Z.ltb_ge in E2. destruct (Z.even (N / D)); lia.
Qed.

Lemma pow2_pos (k : Z) : 0 <= k -> 0 < 2 ^ k.
Proof. intros Hk. apply Z.pow_pos_nonneg; lia. Qed.

(** [ilog2] is not above the logarithm: 2^(ilog2 n d) <= n/d, written
    without fractions. *)
Lemma ilog2_lower (n d : positive) :
  let k := ilog2 n d in
  (0 <= k -> Z.pos d * 2 ^ k <= Z.pos n) /\
  (k < 0 -> Z.pos d <= Z.pos n * 2 ^ (- k)).
Proof.
  unfold ilog2.
  set (ln := Z.log2 (Z.pos n)). set (ld := Z.log2 (Z.pos d)).
  destruct (Z.log2_spec (Z.pos n) ltac:(lia)) as [Hn1 Hn2].
  destruct (Z.log2_spec (Z.pos d) ltac:(lia)) as [Hd1 Hd2].
  pose proof (Z.log2_nonneg (Z.pos n)) as Hln.
  pose proof (Z.log2_nonneg (Z.pos d)) as Hld.
  fold ln in Hn1, Hn2, Hln. fold ld in Hd1, Hd2, Hld.
  destruct (0 <=? ln - ld) eqn:Hk0.
  - apply Z.leb_le in Hk0.
    destruct (Z.pos d * 2 ^ (ln - ld) <=? Z.pos n) eqn:Ht.
    + apply Z.leb_le in Ht. cbv zeta. split; [intros _; exact Ht | lia].
    + apply Z.leb_gt in Ht. cbv zeta.
      assert (Hd3 : Z.pos d < 2 * 2 ^ ld).
      { replace (2 * 2 ^ ld) with (2 ^ Z.succ ld); [exact Hd2 |].
        rewrite Z.pow_succ_r by lia. reflexivity. }
      split.
      * intros Hk.
        assert (Hpow : 2 ^ ln = 2 * 2 ^ ld * 2 ^ (ln - ld - 1)).
        { replace ln with (1 + ld + (ln - ld - 1)) at 1 by lia.
          rewrite !Z.pow_add_r by lia. reflexivity. }
        pose proof (pow2_pos (ln - ld - 1) Hk) as Hp. nia.
      * intros Hk. assert (Heq : ln = ld) by lia.
        replace (- (ln - ld - 1)) with 1 by lia.
        rewrite Heq in Hn1. lia.
  - apply Z.leb_gt in Hk0.
    assert (Hpow : 2 ^ ld = 2 ^ ln * 2 ^ (- (ln - ld))).
    { replace ld with (ln + - (ln - ld)) at 1 by lia.
      rewrite Z.pow_add_r by lia. reflexivity. }
    pose proof (pow2_pos (- (ln - ld)) ltac:(lia)) as Hp.
    destruct (Z.pos d <=? Z.pos n * 2 ^ (- (ln - ld))) eqn:Ht.
    + apply Z.leb_le in Ht. cbv zeta. split; [lia | intros _; exact Ht].
    + apply Z.leb_gt in Ht. cbv zeta. split; [lia |]. intros _.
      replace (- (ln - ld - 1)) with (Z.succ (- (ln - ld))) by lia.
      rewrite Z.pow_succ_r by lia.
      assert (Hd3 : Z.pos d < 2 * 2 ^ ld).
      { replace (2 * 2 ^ ld) with (2 ^ Z.succ ld); [exact Hd2 |].
        rewrite Z.pow_succ_r by lia. reflexivity. }
      nia.
Qed.

(** The relative error of a rounding, without fractions: a nearest
    integer [t / D] of [N / D], where [N / D] has reached 2^52, is
    within [N / D / 2^53] of it. *)
Lemma nearest_relative (t D N : Z) :
  - D <= 2 * (t - N) <= D -> D * 2 ^ 52 <= N ->
  - N <= (t - N) * 2 ^ 53 <= N.
Proof. intros H1 H2. change (2 ^ 52) with 4503599627370496 in H2.
  change (2 ^ 53) with 9007199254740992. lia. Qed.

Definition unit_roundoff : Q := 1 # (2 ^ 53).

(** Rounding is within the relative error [u] = 2^-53. *)
Lemma round_pos_error (n d : positive) :
  (Qabs (round_pos n d - (Z.pos n # d)) <= (Z.pos n # d) * unit_roundoff)%Q.
Proof.
  unfold round_pos.
  destruct (ilog2_lower n d) as [Hge Hlt].
  set (k := ilog2 n d) in *.
  destruct (0 <=? k - 52) eqn:He.
  - apply Z.leb_le in He.
    pose proof (pow2_pos (k - 52) He) as Hp.
    assert (Hk : Z.pos d * 2 ^ (k - 52) * 2 ^ 52 <= Z.pos n).
    { rewrite <- Z.mul_assoc, <- Z.pow_add_r by lia.
      replace (k - 52 + 52) with k by lia. apply Hge. lia. }
    pose proof (round_half_even_bound (Z.pos n) (Z.pos d * 2 ^ (k - 52))
                  ltac:(lia)) as Hr.
    set (z := round_half_even (Z.pos n) (Z.pos d * 2 ^ (k - 52))) in *.
    pose proof (nearest_relative (z * (Z.pos d * 2 ^ (k - 52)))
                  (Z.pos d * 2 ^ (k - 52)) (Z.pos n) Hr Hk) as Hrel.
    apply Qabs_Qle_condition.
    unfold unit_roundoff, Qle, Qminus, Qplus, Qopp, Qmult, inject_Z.
    cbn [Qnum Qden]. rewrite !Pos2Z.inj_mul.
    change (Z.pos (2 ^ 53)) with (2 ^ 53) in *.
    pose proof (Pos2Z.is_pos d). nia.
  - apply Z.leb_gt in He.
    pose proof (pow2_pos (- (k - 52)) ltac:(lia)) as Hp.
    assert (Hk : Z.pos d * 2 ^ 52 <= Z.pos n * 2 ^ (- (k - 52))).
    { destruct (Z_lt_le_dec k 0) as [Hneg | Hpos].
      - specialize (Hlt Hneg).
        replace (- (k - 52)) with (- k + 52) by lia.
        rewrite Z.pow_add_r by lia.
        pose proof (pow2_pos 52 ltac:(lia)). nia.
      - specialize (Hge Hpos).
        assert (H52 : 2 ^ 52 = 2 ^ k * 2 ^ (- (k - 52))).
        { rewrite <- Z.pow_add_r by lia. f_equal. lia. }
        rewrite H52. nia. }
    pose proof (round_half_even_bound (Z.pos n * 2 ^ (- (k - 52))) (Z.pos d)
                  ltac:(lia)) as Hr.
    set (z := round_half_even (Z.pos n * 2 ^ (- (k - 52))) (Z.pos d)) in *.
    pose proof (nearest_relative (z * Z.pos d) (Z.pos d)
                  (Z.pos n * 2 ^ (- (k - 52))) Hr Hk) as Hrel.
    rewrite Qred_correct.
    apply Qabs_Qle_condition.
    unfold unit_roundoff, Qle, Qminus, Qplus, Qopp, Qmult.
    cbn [Qnum Qden]. rewrite !Pos2Z.inj_mul.
    rewrite Z2Pos.id by lia.
    change (Z.pos (2 ^ 53)) with (2 ^ 53) in *.
    set (P := 2 ^ (- (k - 52))) in *.
    pose proof (Pos2Z.is_pos d). nia.
Qed.

Lemma round_error (x : Q) :
  (0 < x)%Q -> (Qabs (round x - x) <= x * unit_roundoff)%Q.
Proof.
  destruct x as [num den]. unfold Qlt. cbn [Qnum Qden]. intros Hx.
  unfold round. cbn [Qnum Qden].
  destruct num as [| n | n]; [lia | | lia].
  apply round_pos_error.
Qed.

Lemma round_pos_positive (n d : positive) : (0 < round_pos n d)%Q.
Proof.
  pose proof (round_pos_error n d) as H.
  apply Qabs_Qle_condition in H. destruct H as [H _].
  assert (Hx : (0 < Z.pos n # d)%Q) by reflexivity.
  assert (Hu : (unit_roundoff < 1)%Q) by reflexivity.
  assert (Hxu : ((Z.pos n # d) * unit_roundoff < (Z.pos n # d))%Q).
  { rewrite <- (Qmult_1_r (Z.pos n # d)) at 2.
    apply Qmult_lt_l; assumption. }
  lra.
Qed.

(** An integer below 2^53 is a [float64]: the conversion is exact. *)
Lemma of_int_exact (z : Z) :
  0 < z < 2 ^ 53 -> (round (inject_Z z) == inject_Z z)%Q.
Proof.
  intros Hz. destruct z as [| n | n]; [lia | | lia].
  unfold round, inject_Z. cbn [Qnum Qden]. unfold round_pos, ilog2.
  change (Z.log2 1) with 0. rewrite Z.sub_0_r.
  destruct (Z.log2_spec (Z.pos n) ltac:(lia)) as [Hn1 Hn2].
  pose proof (Z.log2_nonneg (Z.pos n)) as Hln.
  set (ln := Z.log2 (Z.pos n)) in *.
  assert (Hle : ln <= 52).
  { destruct (Z_le_gt_dec ln 52) as [H | H]; [exact H |].
    assert (2 ^ 53 <= 2 ^ ln) by (apply Z.pow_le_mono_r; lia). lia. }
  assert (H0 : (0 <=? ln) = true) by (apply Z.leb_le; lia). rewrite H0.
  assert (H1 : (1 * 2 ^ ln <=? Z.pos n) = true) by (apply Z.leb_le; lia).
  rewrite H1.
  assert (Hrhe : forall N, round_half_even N 1 = N).
  { intros N. unfold round_half_even. rewrite Z.mod_1_r, Z.div_1_r.
    reflexivity. }
  destruct (0 <=? ln - 52) eqn:He.
  - apply Z.leb_le in He. replace (ln - 52) with 0 by lia.
    change (2 ^ 0) with 1. rewrite Hrhe, Z.mul_1_r. reflexivity.
  - apply Z.leb_gt in He. rewrite Qred_correct, Hrhe.
    pose proof (pow2_pos (- (ln - 52)) ltac:(lia)) as Hp.
    unfold Qeq. cbn [Qnum Qden]. rewrite Z2Pos.id by lia. lia.
Qed.

Lemma round_positive (x : Q) : (0 < x)%Q -> (0 < round x)%Q.
Proof.
  destruct x as [num den]. unfold Qlt at 1. cbn [Qnum Qden]. intros Hx.
  unfold round. cbn [Qnum Qden].
  destruct num as [| n | n]; [lia | | lia].
  apply round_pos_positive.
Qed.

Lemma is_zero_positive (x : Q) : (0 < x)%Q -> is_zero x = false.
Proof.
  unfold Qlt, is_zero. cbn [Qnum Qden]. intros Hx. apply Z.eqb_neq. lia.
Qed.

(** A relative error, scaled by a positive factor. *)
Lemma scaled_error (z x y : Q) :
  (0 < z)%Q -> (Qabs (x - y) <= y * unit_roundoff)%Q ->
  (z * y - z * y * unit_roundoff <= z * x <= z * y + z * y * unit_roundoff)%Q.
Proof.
  intros Hz H. apply Qabs_Qle_condition in H. destruct H as [H1 H2].
  split.
  - setoid_replace (z * y - z * y * unit_roundoff)%Q
      with (z * (y - y * unit_roundoff))%Q using relation Qeq by ring.
    apply Qmult_le_l; [exact Hz | lra].
  - setoid_replace (z * y + z * y * unit_roundoff)%Q
      with (z * (y + y * unit_roundoff))%Q using relation Qeq by ring.
    apply Qmult_le_l; [exact Hz | lra].
Qed.

(** [int(float64(a) * (float64(b) / float64(c)))] for positive integers
    with a product below 2^52: the quotient [a * b / c] with its
    fraction cut off, or one less when the division is exact. *)
Lemma scaled_axis (a b c : Z) :
  0 < a -> 0 < b -> 0 < c < 2 ^ 53 -> a * b < 2 ^ 52 ->
  let h := to_int (mul (of_int a) (div (of_int b) (of_int c))) in
  a * b / c - 1 <= h <= a * b / c /\
  ((a * b) mod c <> 0 -> h = a * b / c).
Proof.
  intros Ha Hb Hc Hab.
  assert (Ha' : 0 < a < 2 ^ 53) by (change (2 ^ 53) with (2 * 2 ^ 52); nia).
  assert (Hb' : 0 < b < 2 ^ 53) by (change (2 ^ 53) with (2 * 2 ^ 52); nia).
  pose proof (of_int_exact a Ha') as EA.
  pose proof (of_int_exact b Hb') as EB.
  pose proof (of_int_exact c Hc) as EC.
  assert (PA : (0 < inject_Z a)%Q) by (rewrite <- (Zlt_Qlt 0); lia).
  assert (PB : (0 < inject_Z b)%Q) by (rewrite <- (Zlt_Qlt 0); lia).
  assert (PC : (0 < inject_Z c)%Q) by (rewrite <- (Zlt_Qlt 0); lia).
  unfold of_int, div, mul.
  set (A := round (inject_Z a)) in *.
  set (B := round (inject_Z b)) in *.
  set (C := round (inject_Z c)) in *.
  assert (PC' : (0 < C)%Q) by (rewrite EC; exact PC).
  rewrite (is_zero_positive C PC').
  set (Y := Qred (B / C)).
  assert (EY : (inject_Z c * Y == inject_Z b)%Q).
  { unfold Y. rewrite Qred_correct, EB, EC. field. lra. }
  assert (PY : (0 < Y)%Q).
  { apply (Qmult_lt_l _ _ (inject_Z c)); [exact PC |]. rewrite EY. lra. }
  set (r := round Y).
  pose proof (round_error Y PY) as Er. fold r in Er.
  pose proof (round_positive Y PY) as Pr. fold r in Pr.
  set (t := Qred (A * r)).
  assert (Et : (t == inject_Z a * r)%Q).
  { unfold t. rewrite Qred_correct, EA. reflexivity. }
  assert (Pt : (0 < t)%Q).
  { rewrite Et. apply Qmult_lt_0_compat; assumption. }
  set (p := round t).
  pose proof (round_error t Pt) as Ep. fold p in Ep.
  pose proof (round_positive t Pt) as Pp. fold p in Pp.
  (* the error of the product, times [c] *)
  pose proof (scaled_error (inject_Z c) r Y PC Er) as H1.
  rewrite EY in H1.
  pose proof (scaled_error (inject_Z c) p t PC Ep) as H2.
  assert (Ect : (inject_Z c * t == inject_Z a * (inject_Z c * r))%Q).
  { rewrite Et. ring. }
  rewrite Ect in H2.
  assert (H3 : (inject_Z (a * b) - inject_Z (a * b) * unit_roundoff
                <= inject_Z a * (inject_Z c * r)
                <= inject_Z (a * b) + inject_Z (a * b) * unit_roundoff)%Q).
  { rewrite inject_Z_mult.
    set (qa := inject_Z a) in *. set (qb := inject_Z b) in *. split.
    - setoid_replace (qa * qb - qa * qb * unit_roundoff)%Q
        with (qa * (qb - qb * unit_roundoff))%Q using relation Qeq by ring.
      apply Qmult_le_l; [exact PA | apply H1].
    - setoid_replace (qa * qb + qa * qb * unit_roundoff)%Q
        with (qa * (qb + qb * unit_roundoff))%Q using relation Qeq by ring.
      apply Qmult_le_l; [exact PA | apply H1]. }
  assert (HN1 : (1 <= inject_Z (a * b))%Q).
  { rewrite <- (Zle_Qle 1). nia. }
  assert (HN2 : (inject_Z (a * b) <= inject_Z (2 ^ 52 - 1))%Q).
  { rewrite <- Zle_Qle. lia. }
  assert (Hcp : (inject_Z (a * b) - 1 < inject_Z c * p
                 < inject_Z (a * b) + 1)%Q).
  { change (inject_Z (2 ^ 52 - 1)) with (4503599627370495 # 1)%Q in HN2.
    change unit_roundoff with (1 # 9007199254740992)%Q in *.
    set (N := inject_Z (a * b)) in *.
    set (ACr := (inject_Z a * (inject_Z c * r))%Q) in *.
    set (Cp := (inject_Z c * p)%Q) in *.
    clearbody N ACr Cp. clear - H2 H3 HN1 HN2. split; lra. }
  (* the fraction is cut off *)
  cbv zeta. unfold to_int.
  assert (Hquot : Z.quot (Qnum p) (Z.pos (Qden p)) = Qfloor p).
  { destruct p as [pn pd]. unfold Qlt in Pp. cbn [Qnum Qden] in *.
    apply Z.quot_div_nonneg; lia. }
  rewrite Hquot.
  set (h := Qfloor p).
  pose proof (Qfloor_le p) as Hf1. pose proof (Qlt_floor p) as Hf2.
  fold h in Hf1, Hf2.
  assert (Hlo : c * h < a * b + 1).
  { rewrite Zlt_Qlt, inject_Z_mult, inject_Z_plus.
    apply Qle_lt_trans with (inject_Z c * p)%Q; [| apply Hcp].
    apply Qmult_le_l; assumption. }
  assert (Hhi : a * b - 1 < c * (h + 1)).
  { rewrite Zlt_Qlt, inject_Z_mult.
    apply Qlt_trans with (inject_Z c * p)%Q.
    - unfold Z.sub. rewrite inject_Z_plus. apply Hcp.
    - apply Qmult_lt_l; assumption. }
  pose proof (Z.div_mod (a * b) c ltac:(lia)) as Hdm.
  pose proof (Z.mod_pos_bound (a * b) c ltac:(lia)) as Hm.
  set (q := a * b / c) in *. set (m := (a * b) mod c) in *.
  assert (Hq0 : 0 <= q) by (apply Z.div_pos; nia).
  assert (Hqn : q <= a * b) by (apply Z.div_le_upper_bound; nia).
  assert (Hh1 : h <= q).
  { assert (H : c * h < c * (q + 1)) by lia.
    apply Z.mul_lt_mono_pos_l in H; lia. }
  assert (Hh2 : q - 1 <= h /\ (m <> 0 -> q <= h)).
  { split.
    - assert (H : c * (q - 1) < c * (h + 1)) by lia.
      apply Z.mul_lt_mono_pos_l in H; lia.
    - intros Hne. assert (H : c * q < c * (h + 1)) by lia.
      apply Z.mul_lt_mono_pos_l in H; lia. }
  assert (Hrange : (goint.min_int <=? h) && (h <=? goint.max_int) = true).
  { apply andb_true_intro. unfold goint.min_int, goint.max_int.
    split; apply Z.leb_le; lia. }
  rewrite Hrange.
  split; [lia |]. intros Hne. destruct Hh2 as [_ Hh2]. specialize (Hh2 Hne).
  lia.
Qed.

End Float64.





(** ** The [float64] model against the machine's binary64

    Rocq's primitive floats are IEEE 754 binary64 numbers, as Go's
    [float64] are.  [binary64_value] reads such a number as a rational;
    the examples run conversions, quotients and products on the machine
    and in the model and compare what comes out. *)

Definition binary64_of_int (z : Z) : PrimFloat.float :=
  if z <? 0 then PrimFloat.opp (PrimFloat.of_uint63 (Uint63.of_Z (- z)))
  else PrimFloat.of_uint63 (Uint63.of_Z z).

Definition binary64_value (f : PrimFloat.float) : float64.float64 :=
  match FloatOps.Prim2SF f with
  | SpecFloat.S754_zero _ => float64.finite 0
  | SpecFloat.S754_finite s m e =>
      let v := if 0 <=? e then inject_Z (Z.pos m * 2 ^ e)
               else Qred (Qmake (Z.pos m) (Z.to_pos (2 ^ (- e)))) in
      float64.finite (if s then Qopp v else v)
  | SpecFloat.S754_infinity s => float64.infinity s
  | SpecFloat.S754_nan => float64.NaN
  end.

(** [float64(a) * (float64(b) / float64(c))] on the machine. *)
Definition binary64_scaled (a b c : Z) : PrimFloat.float :=
  PrimFloat.mul (binary64_of_int a)
    (PrimFloat.div (binary64_of_int b) (binary64_of_int c)).

Example float64_matches_binary64 :
  Forall (fun z => binary64_value (binary64_of_int z) = float64.of_int z)
    [0; 1; 3; 49; 800; -600; 2 ^ 53 + 1; 2 ^ 62 + 2 ^ 9 + 1; 2 ^ 63 - 1] /\
  Forall (fun '(a, b, c) =>
            binary64_value (binary64_scaled a b c)
            = float64.mul (float64.of_int a)
                (float64.div (float64.of_int b) (float64.of_int c)))
    [(600, 400, 800); (800, 300, 600); (1, 2, 3); (49, 1, 49);
     (333, 500, 1000); (1080, 1280, 1920); (7, 3, 11); (1, 1, 10);
     (2 ^ 40 + 1, 2 ^ 11 + 1, 3); (5, 0, 7); (- 5, 2, 3); (1, 1, 0)].
Proof.
  split; repeat constructor; vm_compute; reflexivity.
Qed.

(** ** Wrapped errors and the retry decision *)

Section WrappedErrors.
Import apperrors.

(** [errors.As] stops at the first [*ProcessingError] of a chain, so the
    error [Wrap] builds answers for the whole chain: it is never
    retryable and it is of the category it was wrapped with, whatever
    it wraps, a transient error included.  A [fmt.Errorf] with [%w]
    around an error lets the error under it answer. *)
Theorem Wrap_shadows_cause (c : Category) (op : string) (e : error) :
  IsRetryable (Wrap c op (Some e)) = false /\
  IsCategory (Wrap c op (Some e)) c = true /\
  (forall c', c' <> c -> IsCategory (Wrap c op (Some e)) c' = false) /\
  (forall op', IsRetryable (Wrap c op (Some (Transient op' e))) = false) /\
  (forall op' msg,
     IsRetryable (Some (fmt_Errorf_w msg (Transient op' e))) = true /\
     IsCategory (Some (fmt_Errorf_w msg (Transient op' e))) CategoryTransient
     = true).
Proof.
  split; [reflexivity |]. split; [destruct c; reflexivity |].
  split; [intros c' Hc; destruct c, c'; try reflexivity; congruence |].
  split; [reflexivity |]. intros op' msg. split; reflexivity.
Qed.

End WrappedErrors.

(** ** A negative retry count *)

Section NegativeRetries.
Import apperrors context streaming core.
Context {X : Type}.
Variables (rt : GoRuntime X) (ctx : Context X).

Lemma on_world_calls {A} (m : M (World X) A) (st : St X) a st' :
  on_world m st = (a, st') -> calls st' = calls st.
Proof.
  unfold on_world. destruct (m (world st)) as [a0 w']. intros [= _ <-].
  reflexivity.
Qed.

Lemma on_env_calls {A} (m : M X A) (st : St X) a st' :
  on_env m st = (a, st') -> calls st' = calls st.
Proof. apply on_world_calls. Qed.

(** With [MaxRetries] below zero the loop of [runWithRetry] is not
    entered: no call is made and the declared variables are returned
    as they are, a nil state and a nil error. *)
Lemma runWithRetry_not_entered (step : Step X) (img : option ImageData)
  (fuel : nat) (st : St X) :
  config.MaxRetries (cfg (proc st)) < 0 ->
  runWithRetry (S fuel) ctx step img st = (Some (None, None), st).
Proof.
  intros Hneg. unfold runWithRetry. cbn [runWithRetry_loop].
  destruct (Z.leb_spec 0 (config.MaxRetries (cfg (proc st)))); [lia |].
  reflexivity.
Qed.

Lemma Process_steps_not_entered (fuel : nat) (steps : list (Step X)) :
  forall current timings (st : St X) r st',
    config.MaxRetries (cfg (proc st)) < 0 ->
    Process_steps rt (S fuel) ctx steps current timings st = (r, st') ->
    calls st' = calls st /\
    forall cur tm e, r = Some (Some (cur, tm), e) ->
                     cur = match steps with [] => current | _ => None end.
Proof.
  induction steps as [| step rest IH];
    intros current timings st r st' Hneg Hrun.
  { cbv in Hrun. injection Hrun as <- <-. split; [reflexivity |].
    intros cur tm e [= <- _ _]. reflexivity. }
  cbn [Process_steps] in Hrun.
  unfold bind at 1 in Hrun.
  destruct (on_env (Err ctx) st) as [[e |] st1] eqn:H1;
    pose proof (on_env_proc _ _ _ _ H1) as P1;
    apply on_env_calls in H1.
  { unfold bind, on_proc, ret in Hrun. cbn in Hrun.
    injection Hrun as <- <-. split; [exact H1 |].
    intros cur tm e0 [=]. }
  unfold bind at 1 in Hrun. unfold bind at 1 in Hrun.
  destruct (on_world (notifyBefore (hooks (proc st1)) ctx (Name step) current)
              st1) as [[] st2] eqn:H2;
    pose proof (on_world_proc _ _ _ _ H2) as P2; apply on_world_calls in H2.
  unfold bind at 1 in Hrun.
  destruct (on_env (time_Now rt) st2) as [t st3] eqn:H3;
    pose proof (on_env_proc _ _ _ _ H3) as P3; apply on_env_calls in H3.
  unfold bind at 1 in Hrun.
  rewrite runWithRetry_not_entered in Hrun by congruence.
  unfold bind at 1 in Hrun.
  destruct (on_env (time_Now rt) st3) as [t' st5] eqn:H5;
    pose proof (on_env_proc _ _ _ _ H5) as P5; apply on_env_calls in H5.
  unfold bind at 1 in Hrun. unfold bind at 1 in Hrun.
  destruct (on_world (notifyAfter (hooks (proc st5)) ctx (Name step) None
                        (goint.sub t' t) None) st5) as [[] st6] eqn:H6;
    pose proof (on_world_proc _ _ _ _ H6) as P6; apply on_world_calls in H6.
  apply IH in Hrun; [| congruence].
  destruct Hrun as [Hcalls Hcur]. split; [congruence |].
  intros cur tm e Hr. rewrite (Hcur cur tm e Hr). destruct rest; reflexivity.
Qed.

(** A processor configured with a negative [MaxRetries] runs no step at
    all: [Process] makes no call of [Execute], and when it reports
    success (the source was ingested and the scope stayed live) the
    result carries a nil state and the call is counted as processed. *)
Theorem Process_negative_retries (fuel : nat) (src : Source X)
  (step : Step X) (rest : list (Step X)) (st : St X) res err st' :
  config.MaxRetries (cfg (proc st)) < 0 ->
  Process rt (S fuel) ctx src (step :: rest) st = (Some (res, err), st') ->
  calls st' = calls st /\
  (err = None ->
   exists r, res = Some r /\ Primary r = None /\
     ProcessedCount (proc st') = goint.add (ProcessedCount (proc st)) 1).
Proof.
  intros Hneg Hrun. unfold Process in Hrun.
  unfold bind at 1 in Hrun.
  destruct (on_env (time_Now rt) st) as [start st1] eqn:H1;
    pose proof (on_env_proc _ _ _ _ H1) as P1; apply on_env_calls in H1.
  unfold bind at 1 in Hrun. unfold bind at 1 in Hrun.
  match type of Hrun with
  | context [on_env (DrainReader ?f ctx ?r ?c) st1] =>
      destruct (on_env (DrainReader f ctx r c) st1) as [[[buf | e] |] st2]
        eqn:H2; pose proof (on_env_proc _ _ _ _ H2) as P2;
        apply on_env_calls in H2
  end.
  3:{ unfold ret in Hrun. discriminate Hrun. }
  2:{ unfold ret in Hrun. cbn [Wrap] in Hrun. injection Hrun as <- <- <-.
      split; [congruence | discriminate]. }
  unfold bind at 1 in Hrun.
  match type of Hrun with
  | context [Process_steps rt ?f ctx ?ss ?cur ?tim st2] =>
      destruct (Process_steps rt f ctx ss cur tim st2) as [r st3] eqn:Hsteps
  end.
  destruct r as [[[[current timings] |] e] |];
    [| | unfold ret in Hrun; discriminate Hrun];
    pose proof (Process_steps_proc _ _ _ _ _ _ _ _ _ Hsteps) as Hproc;
    cbv beta iota in Hproc;
    apply Process_steps_not_entered in Hsteps as [Hcalls Hcur];
    try congruence.
  - unfold bind at 1 in Hrun. unfold on_proc at 1 in Hrun.
    unfold bind at 1 in Hrun.
    match type of Hrun with
    | context [on_env (time_Now rt) ?s4] =>
        destruct (on_env (time_Now rt) s4) as [stop st5] eqn:H5;
          pose proof (on_env_proc _ _ _ _ H5) as P5;
          apply on_env_calls in H5; cbn [proc calls] in H5, P5
    end.
    unfold ret in Hrun. injection Hrun as <- <- <-.
    split; [congruence |]. intros _. eexists. split; [reflexivity |].
    cbn [Primary]. split.
    + exact (Hcur _ _ _ eq_refl).
    + rewrite P5, Hproc, P2, P1. reflexivity.
  - unfold ret in Hrun. injection Hrun as <- <- <-.
    split; [congruence |]. intros ->.
    destruct Hproc as [_ [e0 [=]]].
Qed.

End NegativeRetries.

(** The default configuration with [MaxRetries] set to -1 passes
    [Validate]; with it [Process] reports success on the sample source
    though the step, which always fails, was never called. *)
Lemma Process_negative_retries_witness :
  let c := {| config.WorkerCount := 0; config.QueueSize := 256;
              config.JobTimeout := 0; config.MaxRetries := -1;
              config.RetryDelay := 0; config.DefaultQuality := 85;
              config.DefaultFormat := ""; config.MaxImageBytes := 0;
              config.ChunkSize := 32 * 1024;
              config.AdaptiveCompression :=
                config.AdaptiveCompression config.Default;
              config.LogLevel := "info" |} in
  let run := core.Process samples.rt0 6 samples.ctx_live samples.FromReader
               [samples.broken] (samples.fresh c [xff; xd8; xff; xe0]) in
  config.Validate c = None /\
  core.calls (snd run) = [] /\
  exists r, fst run = Some (Some r, None) /\ core.Primary r = None.
Proof.
  intros c run. unfold run. clear run.
  destruct (core.Process samples.rt0 6 samples.ctx_live samples.FromReader
              [samples.broken] (samples.fresh c [xff; xd8; xff; xe0]))
    as [[[res err] |] st'] eqn:Hrun;
    [| vm_compute in Hrun; discriminate Hrun].
  assert (Herr : err = None) by (vm_compute in Hrun; congruence).
  destruct (Process_negative_retries samples.rt0 samples.ctx_live 5
              samples.FromReader samples.broken []
              (samples.fresh c [xff; xd8; xff; xe0]) res err st'
              ltac:(vm_compute; reflexivity) Hrun) as [Hcalls Hok].
  split; [reflexivity |]. split; [exact Hcalls |].
  destruct (Hok Herr) as (r & -> & Hprim & _).
  exists r. subst err. split; [reflexivity | exact Hprim].
Defined.

(** ** The queue under a run of submissions *)

Section QueueCapacity.
Import apperrors core.
Context {X : Type}.







End QueueCapacity.

(** ** The ceiling as a bound on what is ingested *)

Section CeilingBound.
Import apperrors context streaming.
Context {X : Type}.

(** The contract of [io.Reader]: [Read] stores at most [len(p)] bytes. *)
Definition within_slice (r : Reader X) : Prop :=
  forall (lenp : nat) (x : X),
    (length (fst (fst (Read r lenp x))) <= lenp)%nat.

Lemma DrainReader_loop_bounded (ctx : Context X) (r : Reader X)
  (max : Z) (chunk : nat) :
  0 < max <= goint.max_int -> within_slice r ->
  forall fuel buf n x out x',
    0 <= n <= max ->
    DrainReader_loop fuel ctx (limited (Build_LimitedReader r max n)) chunk
      buf x = (Some (inl out), x') ->
    Z.of_nat (length out) <= Z.of_nat (length buf) + (max - n).
Proof.
  intros Hmax Hr.
  induction fuel as [| fuel IH]; intros buf n x out x' Hn Hrun;
    [discriminate |].
  cbn [DrainReader_loop] in Hrun. unfold bind at 1 in Hrun.
  destruct (Err ctx x) as [[cerr |] x1]; [discriminate |].
  unfold bind at 1 in Hrun. unfold io_Read, bind at 1 in Hrun.
  unfold LimitedReader_Read in Hrun. cbn [Max streaming.n R] in Hrun.
  destruct (Z.leb_spec max n) as [Hfull | Hroom].
  { destruct (Z.ltb_spec 0 max); [| lia]. cbn [andb] in Hrun.
    cbv in Hrun. discriminate. }
  cbn [andb] in Hrun.
  destruct (Z.ltb_spec 0 max) as [_ |]; [| lia].
  rewrite sub_no_overflow in Hrun
    by (unfold goint.min_int, goint.max_int in *; lia).
  set (lenp := if max - n <? Z.of_nat chunk then Z.to_nat (max - n)
               else chunk) in Hrun.
  assert (Hlenp : Z.of_nat lenp <= max - n).
  { unfold lenp. destruct (Z.ltb_spec (max - n) (Z.of_nat chunk)); lia. }
  pose proof (Hr lenp x1) as Hlen.
  unfold bind at 1 in Hrun.
  destruct (Read r lenp x1) as [[bs err] x2]. cbn [fst] in Hlen.
  unfold ret at 1 in Hrun. unfold ret at 1 in Hrun.
  rewrite add_no_overflow in Hrun
    by (unfold goint.min_int, goint.max_int in *; lia).
  set (buf' := if (0 <? length bs)%nat then (buf ++ bs)%list else buf)
    in Hrun.
  assert (Hbuf : Z.of_nat (length buf')
                 = Z.of_nat (length buf) + Z.of_nat (length bs)).
  { unfold buf'. destruct (Nat.ltb_spec 0 (length bs)).
    - rewrite length_app. lia.
    - lia. }
  destruct err as [e |].
  - destruct e; try discriminate Hrun.
    unfold ret in Hrun. injection Hrun as <- _. lia.
  - apply IH in Hrun; lia.
Qed.

(** Under a ceiling, a drain that succeeds returns at most [max] bytes,
    whatever reader it drains (a reader that honours the slice it is
    given) and whatever the chunk size: the ceiling bounds the memory
    an ingestion can take. *)
Theorem DrainReader_bounded (ctx : Context X) (r : Reader X)
  (max chunkSize : Z) (fuel : nat) (x x' : X) (out : list byte) :
  0 < max <= goint.max_int -> within_slice r ->
  DrainReader fuel ctx (limited (Build_LimitedReader r max 0)) chunkSize x
  = (Some (inl out), x') ->
  Z.of_nat (length out) <= max.
Proof.
  intros Hmax Hr Hrun. unfold DrainReader in Hrun.
  apply DrainReader_loop_bounded in Hrun; try assumption; [| lia].
  cbn [length] in Hrun. lia.
Qed.

End CeilingBound.

(** The in-memory reader honours its slice; four bytes drained under a
    ceiling of eight. *)
Lemma DrainReader_bounded_witness :
  0 < 8 <= goint.max_int /\
  within_slice samples.bytes_Reader /\
  Z.of_nat (length [xff; xd8; xff; xe0]) <= 8.
Proof.
  assert (Hmax : 0 < 8 <= goint.max_int)
    by (split; [reflexivity | intros H; discriminate H]).
  assert (Hr : within_slice samples.bytes_Reader).
  { intros lenp x. cbn. destruct (samples.unread x) as [| b rest]; cbn [fst].
    - cbn. lia.
    - rewrite length_take. lia. }
  split; [exact Hmax |]. split; [exact Hr |].
  refine (DrainReader_bounded samples.ctx_live samples.bytes_Reader 8 2 6
            {| samples.ticks := 0; samples.unread := [xff; xd8; xff; xe0] |}
            {| samples.ticks := 0; samples.unread := [] |}
            [xff; xd8; xff; xe0] Hmax Hr _).
  vm_compute. reflexivity.
Defined.

(** ** What [CropStep] accepts *)

Section CropBounds.
Import apperrors context core pipeline.
Context {X : Type}.
Variable lib : ImageLib.

Definition crop_refused : result outcome :=
  returns (None, Some (New_ CategoryPipeline "crop"
                         (fmt_Errorf "crop rect exceeds image bounds"))).

Definition cropped_to (s : CropStep) (img : ImageData) (b : Rectangle)
  (pix : list Z) (rect dr : Rectangle) : ImageData :=
  set_Meta (Meta_Height (CropStep_Height s))
    (set_Meta (Meta_Width (CropStep_Width s))
       (set_Image
          (image_Image dr (draw_Src lib dr b pix (MinX rect, MinY rect)))
          img)).

Lemma CropStep_live (s : CropStep) (ctx : Context X) (img : ImageData)
  (b : Rectangle) (pix : list Z) (w : World X) :
  fst (Err ctx (ext w)) = None ->
  Image img = image_Image b pix ->
  let rect :=
    image_Rect (CropStep_X s) (CropStep_Y s)
      (goint.add (CropStep_X s) (CropStep_Width s))
      (goint.add (CropStep_Y s) (CropStep_Height s)) in
  fst (CropStep_Execute lib s ctx img w)
  = if Rectangle_In rect b then
      match image_NewRGBA lib
              (image_Rect 0 0 (CropStep_Width s) (CropStep_Height s)) with
      | panics msg => panics msg
      | returns dr => returns (Some (cropped_to s img b pix rect dr), None)
      end
    else crop_refused.
Proof.
  intros Hlive Himg. cbv zeta. unfold CropStep_Execute, bind, on_ext.
  destruct (Err ctx (ext w)) as [cerr x1]. cbn [fst] in Hlive. subst cerr.
  rewrite Himg.
  destruct (Rectangle_In _ b); [| reflexivity]. cbn [negb].
  destruct (image_NewRGBA lib _); reflexivity.
Qed.

(** The bounds check of [CropStep], for a state that holds an image
    with bounds [b] under a live scope (the corner sums not wrapping
    around).  A rectangle of positive width and height is accepted
    exactly when it lies within [b].  A rectangle of width or height 0
    is accepted wherever it lies, and one of negative width is read
    with its corners exchanged, as the columns to the left of [X]: the
    step does not refuse it.  For what is accepted the step asks
    [image.NewRGBA] for a buffer of [|Width|] by [|Height|] pixels.
    When the buffer is refused (a row of 2^64 bytes or more, the
    smallest int as a side, or more bytes than the limit) the step
    panics.  Otherwise the crop comes back with the step's own [Width]
    and [Height] in the metadata, negative ones included; the encoded
    bytes, the format and the EXIF reference are those of the input. *)
Theorem CropStep_bounds_check (s : CropStep) (ctx : Context X)
  (img : ImageData) (b : Rectangle) (pix : list Z) (w : World X) :
  fst (Err ctx (ext w)) = None ->
  Image img = image_Image b pix ->
  goint.in_range (CropStep_X s + CropStep_Width s) ->
  goint.in_range (CropStep_Y s + CropStep_Height s) ->
  let r := fst (CropStep_Execute lib s ctx img w) in
  let dr := image_Rect 0 0 (CropStep_Width s) (CropStep_Height s) in
  (0 < CropStep_Width s -> 0 < CropStep_Height s ->
   (r <> crop_refused <->
    MinX b <= CropStep_X s /\ CropStep_X s + CropStep_Width s <= MaxX b /\
    MinY b <= CropStep_Y s /\ CropStep_Y s + CropStep_Height s <= MaxY b)) /\
  (CropStep_Width s = 0 \/ CropStep_Height s = 0 -> r <> crop_refused) /\
  (CropStep_Width s < 0 -> 0 < CropStep_Height s ->
   (r <> crop_refused <->
    MinX b <= CropStep_X s + CropStep_Width s /\ CropStep_X s <= MaxX b /\
    MinY b <= CropStep_Y s /\ CropStep_Y s + CropStep_Height s <= MaxY b)) /\
  (r <> crop_refused ->
   match image_NewRGBA lib dr with
   | panics msg => r = panics msg
   | returns dr' =>
       exists out pix',
         r = returns (Some out, None) /\
         Image out = image_Image dr' pix' /\
         Width (Meta out) = CropStep_Width s /\
         Height (Meta out) = CropStep_Height s /\
         Data out = Data img /\
         ImageData_Format out = ImageData_Format img /\
         EXIF (Meta out) = EXIF (Meta img)
   end) /\
  (goint.in_range (CropStep_Width s) -> goint.in_range (CropStep_Height s) ->
   (Z.abs (CropStep_Width s) < 2 ^ 62 /\
    Z.abs (CropStep_Height s) <= goint.max_int /\
    4 * Z.abs (CropStep_Width s) * Z.abs (CropStep_Height s)
    <= alloc_limit lib ->
    image_NewRGBA lib dr = returns dr /\
    Dx dr = Z.abs (CropStep_Width s) /\
    Dy dr = Z.abs (CropStep_Height s)) /\
   (2 ^ 62 <= Z.abs (CropStep_Width s) \/
    goint.max_int < Z.abs (CropStep_Height s) \/
    alloc_limit lib
    < 4 * Z.abs (CropStep_Width s) * Z.abs (CropStep_Height s) ->
    exists msg, image_NewRGBA lib dr = panics msg)).
Proof.
  intros Hlive Himg HX HY r dr.
  pose proof (CropStep_live s ctx img b pix w Hlive Himg) as Hr.
  cbv zeta in Hr. fold r dr in Hr.
  rewrite !add_no_overflow in Hr by exact HX || exact HY.
  set (W := CropStep_Width s) in *. set (H := CropStep_Height s) in *.
  set (x := CropStep_X s) in *. set (y := CropStep_Y s) in *.
  assert (Hacc : r <> crop_refused
                 <-> Rectangle_In (image_Rect x y (x + W) (y + H)) b = true).
  { rewrite Hr. destruct (Rectangle_In _ b).
    - split; [reflexivity |]. intros _.
      destruct (image_NewRGBA lib dr); unfold crop_refused; discriminate.
    - split; [intros E; contradiction E; reflexivity | discriminate]. }
  split; [| split; [| split; [| split]]].
  - intros HW HH. rewrite Hacc. rewrite image_Rect_ordered by lia.
    unfold Rectangle_In, Rectangle_Empty. cbn [MinX MinY MaxX MaxY].
    destruct (Z.leb_spec (x + W) x); [lia |].
    destruct (Z.leb_spec (y + H) y); [lia |]. cbn [orb].
    destruct (Z.leb_spec (MinX b) x), (Z.leb_spec (x + W) (MaxX b)),
      (Z.leb_spec (MinY b) y), (Z.leb_spec (y + H) (MaxY b));
      cbn [andb];
      (split; [intros E; try discriminate E; lia | intros E; try reflexivity; lia]).
  - intros H0. apply Hacc. unfold image_Rect, Rectangle_In, Rectangle_Empty.
    destruct (Z.ltb_spec (x + W) x), (Z.ltb_spec (y + H) y);
      cbn [MinX MinY MaxX MaxY].
    all: match goal with
         | |- context [(?a <=? ?b) || (?c <=? ?d)] =>
             destruct (Z.leb_spec a b), (Z.leb_spec c d); try lia
         end.
    all: reflexivity.
  - intros HW HH. rewrite Hacc. unfold image_Rect.
    destruct (Z.ltb_spec (x + W) x); [| lia].
    destruct (Z.ltb_spec (y + H) y); [lia |].
    unfold Rectangle_In, Rectangle_Empty. cbn [MinX MinY MaxX MaxY].
    destruct (Z.leb_spec x (x + W)); [lia |].
    destruct (Z.leb_spec (y + H) y); [lia |]. cbn [orb].
    destruct (Z.leb_spec (MinX b) (x + W)), (Z.leb_spec x (MaxX b)),
      (Z.leb_spec (MinY b) y), (Z.leb_spec (y + H) (MaxY b));
      cbn [andb];
      (split; [intros E; try discriminate E; lia | intros E; try reflexivity; lia]).
  - intros Hok. apply Hacc in Hok. rewrite Hok in Hr.
    destruct (image_NewRGBA lib dr) as [dr' | msg]; [| exact Hr].
    eexists _, _. split; [exact Hr |]. repeat split; reflexivity.
  - intros RW RH.
    destruct (image_NewRGBA_Rect lib W H RW RH) as [Hfit Hno].
    split; [| exact Hno].
    intros Hcase. split; [exact (Hfit Hcase) |].
    destruct Hcase as (HW & HH & _). unfold dr.
    rewrite Dx_image_Rect, Dy_image_Rect, !wrap_abs by assumption.
    unfold goint.max_int in *.
    destruct (Z.leb_spec (Z.abs W) (2 ^ 63 - 1)); [| lia].
    destruct (Z.leb_spec (Z.abs H) (2 ^ 63 - 1)); [| lia].
    split; reflexivity.
Qed.

End CropBounds.

(** A crop of no width, far outside the 4 by 3 sample image: it is
    accepted, and comes back with the width 0. *)
Lemma CropStep_bounds_check_witness :
  let s := {| pipeline.CropStep_X := 1000; pipeline.CropStep_Y := 1000;
              pipeline.CropStep_Width := 0; pipeline.CropStep_Height := 5 |} in
  let r := fst (pipeline.CropStep_Execute samples.lib0 s samples.ctx_live
                  samples.photo samples.album) in
  r <> crop_refused /\
  exists out, r = core.returns (Some out, None) /\
              core.Width (core.Meta out) = 0.
Proof.
  intros s r.
  destruct (CropStep_bounds_check samples.lib0 s samples.ctx_live
              samples.photo (pipeline.image_Rect 0 0 4 3)
              (repeat 0 12%nat) samples.album eq_refl eq_refl
              ltac:(split; intros E; discriminate E)
              ltac:(split; intros E; discriminate E))
    as (_ & Hzero & _ & Hacc & Halloc).
  fold r in Hzero, Hacc.
  pose proof (Hzero (or_introl eq_refl)) as Hok.
  split; [exact Hok |].
  specialize (Hacc Hok).
  destruct (Halloc ltac:(split; intros E; discriminate E)
                   ltac:(split; intros E; discriminate E)) as [Hfit _].
  destruct Hfit as (Hfit & _ & _).
  { split; [reflexivity |]. split; intros E; discriminate E. }
  rewrite Hfit in Hacc.
  destruct Hacc as (out & pix' & Hr & _ & HW & _).
  exists out. split; [exact Hr | exact HW].
Defined.

(** ** Resizing and thumbnails *)

Section ResizeAndThumbnail.
Import apperrors context core pipeline.
Context {X : Type}.
Variable lib : ImageLib.

Definition resized_to (s : ResizeStep) (img : ImageData) (b : Rectangle)
  (pix : list Z) (dr : Rectangle) (dstW dstH : Z) : ImageData :=
  set_Meta (Meta_Height dstH)
    (set_Meta (Meta_Width dstW)
       (set_Image
          (image_Image dr (default (xdraw_BiLinear lib) (Resampler s) dr b pix))
          img)).

Lemma ResizeStep_live (s : ResizeStep) (ctx : Context X) (img : ImageData)
  (b : Rectangle) (pix : list Z) (w : World X) :
  fst (Err ctx (ext w)) = None ->
  Image img = image_Image b pix ->
  fst (ResizeStep_Execute lib s ctx img w)
  = let (dstW, dstH) :=
      utils.ScaleDimensions (Dx b) (Dy b)
        (ResizeStep_Width s) (ResizeStep_Height s) in
    if (dstW =? Dx b) && (dstH =? Dy b) then returns (Some img, None)
    else if (dstW <=? 0) || (dstH <=? 0) then
      returns
        (None, Some (New_ CategoryPipeline "resize" ErrInvalidDimensions))
    else
      match image_NewRGBA lib (image_Rect 0 0 dstW dstH) with
      | panics msg => panics msg
      | returns dr =>
          returns (Some (resized_to s img b pix dr dstW dstH), None)
      end.
Proof.
  intros Hlive Himg. unfold ResizeStep_Execute, bind, on_ext.
  destruct (Err ctx (ext w)) as [cerr x1]. cbn [fst] in Hlive. subst cerr.
  rewrite Himg.
  destruct (utils.ScaleDimensions _ _ _ _) as [dstW dstH].
  destruct ((dstW =? Dx b) && (dstH =? Dy b)); [reflexivity |].
  destruct ((dstW <=? 0) || (dstH <=? 0)); [reflexivity |].
  destruct (image_NewRGBA lib _); reflexivity.
Qed.

Lemma ResizeStep_world (s : ResizeStep) (ctx : Context X) (img : ImageData)
  (w : World X) :
  snd (ResizeStep_Execute lib s ctx img w)
  = Build_World (snd (Err ctx (ext w))) (heap w) (encodes w).
Proof.
  unfold ResizeStep_Execute, bind, on_ext.
  destruct (Err ctx (ext w)) as [[cerr |] x1]; [reflexivity |].
  destruct (Image img); try reflexivity.
  destruct (utils.ScaleDimensions _ _ _ _) as [dstW dstH].
  destruct ((dstW =? Dx bounds) && (dstH =? Dy bounds)); [reflexivity |].
  destruct ((dstW <=? 0) || (dstH <=? 0)); [reflexivity |].
  destruct (image_NewRGBA lib _); reflexivity.
Qed.

(** [ResizeStep] on an image of [w] by [h] pixels, under a live scope:
    a negative target on either axis is refused with
    [ErrInvalidDimensions], and so is a target that leaves one axis to
    the aspect ratio when that axis comes out below one pixel (a width
    [tW] with [h * tW < w], a height [tH] with [w * tH < h]).  The
    error is a pipeline error that is not retried. *)
Theorem ResizeStep_invalid_dimensions (s : ResizeStep) (ctx : Context X)
  (img : ImageData) (w h : Z) (pix : list Z) (wd : World X) :
  fst (Err ctx (ext wd)) = None ->
  Image img = image_Image (at_origin w h) pix ->
  0 < w < 2 ^ 52 -> 0 < h < 2 ^ 52 ->
  let tW := ResizeStep_Width s in
  let tH := ResizeStep_Height s in
  tW < 0 \/ tH < 0 \/
  (0 < tW /\ tH = 0 /\ h * tW < w) \/
  (tW = 0 /\ 0 < tH /\ w * tH < h) ->
  let e := New_ CategoryPipeline "resize" ErrInvalidDimensions in
  fst (ResizeStep_Execute lib s ctx img wd) = returns (None, Some e) /\
  IsRetryable (Some e) = false /\
  IsCategory (Some e) CategoryPipeline = true.
Proof.
  intros Hlive Himg Hw Hh tW tH Hcase e.
  split; [| split; reflexivity].
  rewrite (ResizeStep_live s ctx img _ pix wd Hlive Himg).
  rewrite Dx_at_origin, Dy_at_origin by (apply in_range_small; lia).
  fold tW tH. unfold utils.ScaleDimensions.
  assert (Hpow : 2 ^ 53 = 2 * 2 ^ 52) by reflexivity.
  destruct Hcase as [Hneg | [Hneg | [(HtW & HtH & Hsmall) | (HtW & HtH & Hsmall)]]].
  - (* negative width *)
    destruct (Z.eqb_spec tW 0) as [E | _]; [lia |]. cbn [andb].
    assert (Hne : (tW =? w) = false) by (apply Z.eqb_neq; lia).
    assert (Hle : (tW <=? 0) = true) by (apply Z.leb_le; lia).
    destruct (tH =? 0); rewrite Hne, Hle; reflexivity.
  - (* negative height *)
    assert (E0 : (tH =? 0) = false) by (apply Z.eqb_neq; lia).
    assert (Hne : (tH =? h) = false) by (apply Z.eqb_neq; lia).
    assert (Hle : (tH <=? 0) = true) by (apply Z.leb_le; lia).
    rewrite E0, andb_false_r.
    destruct (tW =? 0); rewrite Hne, Hle, andb_false_r, orb_true_r;
      reflexivity.
  - (* the height comes out as 0 *)
    assert (E0 : (tW =? 0) = false) by (apply Z.eqb_neq; lia).
    rewrite E0, HtH. cbn [andb Z.eqb].
    destruct (scaled_axis h tW w) as [[_ Hup] _]; try lia.
    rewrite Z.div_small in Hup by lia.
    set (h' := float64.to_int _) in *.
    assert (Hne : (h' =? h) = false) by (apply Z.eqb_neq; lia).
    assert (Hle : (h' <=? 0) = true) by (apply Z.leb_le; lia).
    rewrite Hne, Hle, andb_false_r, orb_true_r. reflexivity.
  - (* the width comes out as 0 *)
    assert (E0 : (tH =? 0) = false) by (apply Z.eqb_neq; lia).
    rewrite HtW, E0. cbn [andb Z.eqb].
    destruct (scaled_axis w tH h) as [[_ Hup] _]; try lia.
    rewrite Z.div_small in Hup by lia.
    set (w' := float64.to_int _) in *.
    assert (Hne : (w' =? w) = false) by (apply Z.eqb_neq; lia).
    assert (Hle : (w' <=? 0) = true) by (apply Z.leb_le; lia).
    rewrite Hne, Hle. reflexivity.
Qed.

(** The centre crop of [ThumbnailStep] on a resized image whose sides
    are not below the size: the square comes back when its buffer is
    made. *)
Lemma centre_crop (size : Z) (ctx : Context X) (resized : ImageData)
  (a b : Z) (pix : list Z) (w : World X) :
  fst (Err ctx (ext w)) = None ->
  Image resized = image_Image (at_origin a b) pix ->
  0 < size -> size <= a < 2 ^ 62 -> size <= b < 2 ^ 62 ->
  let r :=
    fst (CropStep_Execute lib
           {| CropStep_X := Z.quot (goint.sub (Dx (at_origin a b)) size) 2;
              CropStep_Y := Z.quot (goint.sub (Dy (at_origin a b)) size) 2;
              CropStep_Width := size; CropStep_Height := size |}
           ctx resized w) in
  if 4 * size * size <=? alloc_limit lib then
    exists out pix',
      r = returns (Some out, None) /\
      Image out = image_Image (at_origin size size) pix' /\
      Width (Meta out) = size /\ Height (Meta out) = size /\
      Data out = Data resized /\
      ImageData_Format out = ImageData_Format resized
  else exists msg, r = panics msg.
Proof.
  intros Hlive Himg Hs Ha Hb r. unfold r. clear r.
  rewrite Dx_at_origin, Dy_at_origin by (apply in_range_small; lia).
  assert (R62 : goint.max_int = 2 * 2 ^ 62 - 1) by reflexivity.
  assert (L62 : goint.min_int = - (2 * 2 ^ 62)) by reflexivity.
  rewrite !sub_no_overflow by lia.
  rewrite (CropStep_live lib _ ctx resized _ pix w Hlive Himg).
  cbn [CropStep_X CropStep_Y CropStep_Width CropStep_Height].
  pose proof (Z.quot_pos (a - size) 2 ltac:(lia) ltac:(lia)) as Hox.
  pose proof (Z.quot_pos (b - size) 2 ltac:(lia) ltac:(lia)) as Hoy.
  assert (Hox' : 2 * Z.quot (a - size) 2 <= a - size)
    by (apply Z.mul_quot_le; lia).
  assert (Hoy' : 2 * Z.quot (b - size) 2 <= b - size)
    by (apply Z.mul_quot_le; lia).
  set (ox := Z.quot (a - size) 2) in *. set (oy := Z.quot (b - size) 2) in *.
  rewrite !add_no_overflow by lia.
  rewrite (image_Rect_ordered ox oy) by lia.
  unfold Rectangle_In, Rectangle_Empty, at_origin.
  cbn [MinX MinY MaxX MaxY].
  destruct (Z.leb_spec (ox + size) ox); [lia |].
  destruct (Z.leb_spec (oy + size) oy); [lia |]. cbn [orb].
  destruct (Z.leb_spec 0 ox); [| lia].
  destruct (Z.leb_spec (ox + size) a); [| lia].
  destruct (Z.leb_spec 0 oy); [| lia].
  destruct (Z.leb_spec (oy + size) b); [| lia]. cbn [andb].
  destruct (Z.leb_spec (4 * size * size) (alloc_limit lib)) as [Hfit | Hno].
  - rewrite image_NewRGBA_fits by lia.
    eexists _, _. split; [reflexivity |]. repeat split; reflexivity.
  - destruct (image_NewRGBA_refuses lib size size) as [msg Hm]; try lia.
    rewrite Hm. exists msg. reflexivity.
Qed.

(** The resize stage of a thumbnail of a source that is not square:
    the shorter side becomes the size and the longer one is not below
    it, and not above the exact quotient. *)
Lemma thumbnail_resize (size w h : Z) :
  0 < w -> 0 < h -> w <> h -> 0 < size -> Z.max w h * size < 2 ^ 52 ->
  exists a b,
    utils.ScaleDimensions w h
      (if w <? h then size else 0) (if w <? h then 0 else size) = (a, b) /\
    size <= a < 2 ^ 62 /\ size <= b < 2 ^ 62 /\
    Z.min a b = size /\
    Z.max a b <= Z.max w h * size / Z.min w h.
Proof.
  intros Hw Hh Hne Hs Hmax.
  assert (Hpow : 2 ^ 53 = 2 * 2 ^ 52) by reflexivity.
  assert (Hpow' : 2 ^ 62 = 1024 * 2 ^ 52) by reflexivity.
  assert (E0 : (size =? 0) = false) by (apply Z.eqb_neq; lia).
  unfold utils.ScaleDimensions.
  destruct (Z.ltb_spec w h) as [Hlt | Hge].
  - rewrite E0. cbn [andb Z.eqb].
    assert (Hprod : h * size < 2 ^ 52) by nia.
    destruct (scaled_axis h size w) as [[Hlo Hup] Hcut]; try nia.
    set (h' := float64.to_int _) in *.
    exists size, h'. split; [reflexivity |].
    assert (Hq : size <= h * size / w)
      by (apply Z.div_le_lower_bound; nia).
    assert (Hq' : h * size / w <= h * size)
      by (apply Z.div_le_upper_bound; nia).
    assert (Hh' : size <= h').
    { destruct (Z.eq_dec ((h * size) mod w) 0) as [Hex | Hnex].
      - pose proof (Z.div_mod (h * size) w ltac:(lia)) as Hdm.
        rewrite Hex in Hdm. nia.
      - rewrite (Hcut Hnex). exact Hq. }
    rewrite (Z.max_r w h), (Z.min_l w h) by lia.
    rewrite (Z.min_l size h'), (Z.max_r size h') by lia.
    repeat split; try lia; nia.
  - cbn [andb Z.eqb]. rewrite E0.
    assert (Hwh : h < w) by lia.
    assert (Hprod : w * size < 2 ^ 52) by nia.
    destruct (scaled_axis w size h) as [[Hlo Hup] Hcut]; try nia.
    set (w' := float64.to_int _) in *.
    exists w', size. split; [reflexivity |].
    assert (Hq : size <= w * size / h)
      by (apply Z.div_le_lower_bound; nia).
    assert (Hq' : w * size / h <= w * size)
      by (apply Z.div_le_upper_bound; nia).
    assert (Hw' : size <= w').
    { destruct (Z.eq_dec ((w * size) mod h) 0) as [Hex | Hnex].
      - pose proof (Z.div_mod (w * size) h ltac:(lia)) as Hdm.
        rewrite Hex in Hdm. nia.
      - rewrite (Hcut Hnex). exact Hq. }
    rewrite (Z.max_l w h), (Z.min_r w h) by lia.
    rewrite (Z.min_r w' size), (Z.max_l w' size) by lia.
    repeat split; try lia; nia.
Qed.

(** The two stages of [ThumbnailStep] after the choice of the free
    axis. *)
Definition two_stages (size rw rh : Z) (ctx : Context X) (img : ImageData)
  : M (World X) (result outcome) :=
  let* r :=
    ResizeStep_Execute lib
      {| ResizeStep_Width := rw; ResizeStep_Height := rh;
         Resampler := None |} ctx img in
  match r with
  | panics msg => ret (panics msg)
  | returns (_, Some e) => ret (returns (None, Some e))
  | returns (None, None) => ret (panics "nil pointer dereference")
  | returns (Some resized, None) =>
      match Image resized with
      | image_Image rb _ =>
          CropStep_Execute lib
            {| CropStep_X := Z.quot (goint.sub (Dx rb) size) 2;
               CropStep_Y := Z.quot (goint.sub (Dy rb) size) 2;
               CropStep_Width := size; CropStep_Height := size |}
            ctx resized
      | _ => ret (panics "interface conversion")
      end
  end.

Lemma ThumbnailStep_two_stages (s : ThumbnailStep) (ctx : Context X)
  (img : ImageData) (w h : Z) (pix : list Z) (wd : World X) :
  Image img = image_Image (at_origin w h) pix ->
  goint.in_range w -> goint.in_range h ->
  ThumbnailStep_Execute lib s ctx img wd
  = two_stages (ThumbnailStep_Size s)
      (if w <? h then ThumbnailStep_Size s else 0)
      (if w <? h then 0 else ThumbnailStep_Size s) ctx img wd.
Proof.
  intros Himg Rw Rh. unfold ThumbnailStep_Execute. rewrite Himg.
  rewrite (Dx_at_origin w h Rw), (Dy_at_origin w h Rh).
  destruct (w <? h); reflexivity.
Qed.

(** The two stages for a resize that leaves no side below the size:
    the square comes back when the buffers asked for are made (the one
    of the resized image, unless the resize has nothing to do, and the
    one of the square), and the step panics otherwise. *)
Lemma thumbnail_stages (size : Z) (ctx : Context X) (img : ImageData)
  (w h rw rh a b : Z) (pix : list Z) (wd : World X) :
  (forall x, fst (Err ctx x) = None) ->
  Image img = image_Image (at_origin w h) pix ->
  goint.in_range w -> goint.in_range h ->
  utils.ScaleDimensions w h rw rh = (a, b) ->
  0 < size -> size <= a < 2 ^ 62 -> size <= b < 2 ^ 62 ->
  let r := fst (two_stages size rw rh ctx img wd) in
  if (4 * size * size <=? alloc_limit lib)
     && (((a =? w) && (b =? h)) || (4 * a * b <=? alloc_limit lib))
  then
    exists out pix',
      r = returns (Some out, None) /\
      Image out = image_Image (at_origin size size) pix' /\
      Width (Meta out) = size /\ Height (Meta out) = size /\
      Data out = Data img /\
      ImageData_Format out = ImageData_Format img
  else exists msg, r = panics msg.
Proof.
  intros Hlive Himg Rw Rh Hscale Hs Ha Hb r. unfold r. clear r.
  set (step := {| ResizeStep_Width := rw; ResizeStep_Height := rh;
                  Resampler := None |}).
  unfold two_stages, bind. fold step.
  pose proof (ResizeStep_live step ctx img _ pix wd (Hlive _) Himg) as Hres.
  destruct (ResizeStep_Execute lib step ctx img wd) as [r1 w1].
  cbn [fst snd] in Hres.
  rewrite (Dx_at_origin w h Rw), (Dy_at_origin w h Rh) in Hres.
  unfold step in Hres at 1 2. cbn [ResizeStep_Width ResizeStep_Height] in Hres.
  rewrite Hscale in Hres.
  assert (Hlive1 : fst (Err ctx (ext w1)) = None) by apply Hlive.
  assert (Hss : 4 * size * size <= 4 * a * b) by nia.
  destruct ((a =? w) && (b =? h)) eqn:Hsame.
  - (* the resize has nothing to do *)
    apply andb_prop in Hsame as [Ea Eb].
    apply Z.eqb_eq in Ea, Eb. subst a b r1. cbn [orb]. rewrite andb_true_r.
    cbv beta iota. rewrite Himg.
    exact (centre_crop size ctx img w h pix w1 Hlive1 Himg Hs Ha Hb).
  - destruct (Z.leb_spec a 0); [lia |]. destruct (Z.leb_spec b 0); [lia |].
    cbn [orb] in Hres |- *.
    destruct (Z.leb_spec (4 * a * b) (alloc_limit lib)) as [Hfit | Hno].
    + rewrite image_NewRGBA_fits in Hres by lia. subst r1.
      cbv beta iota.
      set (resized := resized_to step img (at_origin w h) pix
                        (at_origin a b) a b).
      assert (Hr : Image resized
                   = image_Image (at_origin a b)
                       (default (xdraw_BiLinear lib) (Resampler step)
                          (at_origin a b) (at_origin w h) pix))
        by reflexivity.
      rewrite Hr.
      pose proof (centre_crop size ctx resized a b _ w1 Hlive1 Hr Hs Ha Hb)
        as Hcrop.
      cbv zeta in Hcrop.
      destruct (Z.leb_spec (4 * size * size) (alloc_limit lib)); [| lia].
      cbn [andb]. exact Hcrop.
    + destruct (image_NewRGBA_refuses lib a b) as [msg Hm]; try lia.
      rewrite Hm in Hres. subst r1. rewrite andb_false_r.
      exists msg. reflexivity.
Qed.

(** A thumbnail of a source that is not square, under a live scope and
    for a positive size (the product of the longer side and the size
    below 2^52).  The resize makes the shorter side the size and leaves
    the longer one not below it, so the centre crop always fits: the
    step returns a state whose image is [size] by [size] pixels,
    recorded as such in the metadata, with the encoded bytes and the
    format of the input, whenever the buffers it asks for are made (the
    resized image, unless the source has these dimensions already, and
    the square).  When one of them is refused the step panics. *)
Theorem ThumbnailStep_rectangular (s : ThumbnailStep) (ctx : Context X)
  (img : ImageData) (w h : Z) (pix : list Z) (wd : World X) :
  (forall x, fst (Err ctx x) = None) ->
  Image img = image_Image (at_origin w h) pix ->
  0 < w -> 0 < h -> w <> h ->
  0 < ThumbnailStep_Size s ->
  Z.max w h * ThumbnailStep_Size s < 2 ^ 52 ->
  let size := ThumbnailStep_Size s in
  let dims :=
    utils.ScaleDimensions w h
      (if w <? h then size else 0) (if w <? h then 0 else size) in
  let a := fst dims in
  let b := snd dims in
  let made :=
    (4 * size * size <=? alloc_limit lib)
    && (((a =? w) && (b =? h)) || (4 * a * b <=? alloc_limit lib)) in
  let r := fst (ThumbnailStep_Execute lib s ctx img wd) in
  Z.min a b = size /\
  Z.max a b <= Z.max w h * size / Z.min w h /\
  (made = true ->
   exists out pix',
     r = returns (Some out, None) /\
     Image out = image_Image (at_origin size size) pix' /\
     Width (Meta out) = size /\
     Height (Meta out) = size /\
     Data out = Data img /\
     ImageData_Format out = ImageData_Format img) /\
  (made = false -> exists msg, r = panics msg).
Proof.
  intros Hlive Himg Hw Hh Hne Hs Hmax size dims a b made r.
  destruct (thumbnail_resize size w h Hw Hh Hne Hs Hmax)
    as (a' & b' & Hscale & Ha & Hb & Hmin & Hlong).
  assert (Hd : dims = (a', b')) by exact Hscale.
  assert (Ea : a = a') by (unfold a; rewrite Hd; reflexivity).
  assert (Eb : b = b') by (unfold b; rewrite Hd; reflexivity).
  assert (Hpow' : 2 ^ 62 = 1024 * 2 ^ 52) by reflexivity.
  assert (Rw : goint.in_range w) by (apply in_range_small; nia).
  assert (Rh : goint.in_range h) by (apply in_range_small; nia).
  pose proof (thumbnail_stages size ctx img w h _ _ a' b' pix wd
                Hlive Himg Rw Rh Hscale Hs Ha Hb) as Hst.
  cbv zeta in Hst. rewrite <- Ea, <- Eb in Hst.
  assert (Hexec : r = fst (two_stages size (if w <? h then size else 0)
                             (if w <? h then 0 else size) ctx img wd)).
  { unfold r.
    rewrite (ThumbnailStep_two_stages s ctx img w h pix wd Himg Rw Rh).
    reflexivity. }
  clearbody r. subst r.
  split; [rewrite Ea, Eb; exact Hmin |].
  split; [rewrite Ea, Eb; exact Hlong |].
  split; intros Hmade; unfold made in Hmade; rewrite Hmade in Hst; exact Hst.
Qed.

(** A thumbnail of a square source of [n] by [n] pixels.  The step
    leaves the width to the aspect ratio, and the width comes out as
    [int(float64(n) * (float64(size) / float64(n)))]: the size, or one
    less when the rounded ratio falls short.  In the first case the
    step returns a [size] by [size] image when the buffer of the square
    is made, and panics when it is refused.  In the second case it
    fails: the centre crop of [size] columns is refused on an image of
    [size - 1] columns (for the size 1 the resize is refused before,
    with [ErrInvalidDimensions]), unless the buffer of the resized
    image is refused, which is a panic.  The second case occurs: a 22
    by 22 source and the size 15 give the width 14, a 49 by 49 source
    and the size 1 the width 0. *)
Theorem ThumbnailStep_square_source (s : ThumbnailStep) (ctx : Context X)
  (img : ImageData) (n : Z) (pix : list Z) (wd : World X) :
  (forall x, fst (Err ctx x) = None) ->
  Image img = image_Image (at_origin n n) pix ->
  0 < n -> 0 < ThumbnailStep_Size s -> n * ThumbnailStep_Size s < 2 ^ 52 ->
  let size := ThumbnailStep_Size s in
  let a := fst (utils.ScaleDimensions n n 0 size) in
  let r := fst (ThumbnailStep_Execute lib s ctx img wd) in
  (a = size \/ a = size - 1) /\
  (a = size ->
   if 4 * size * size <=? alloc_limit lib then
     exists out pix',
       r = returns (Some out, None) /\
       Image out = image_Image (at_origin size size) pix' /\
       Width (Meta out) = size /\ Height (Meta out) = size
   else exists msg, r = panics msg) /\
  (a = size - 1 ->
   if size =? 1 then
     r = returns
           (None, Some (New_ CategoryPipeline "resize" ErrInvalidDimensions))
   else if 4 * (size - 1) * size <=? alloc_limit lib then r = crop_refused
   else exists msg, r = panics msg) /\
  fst (utils.ScaleDimensions 22 22 0 15) = 14 /\
  fst (utils.ScaleDimensions 49 49 0 1) = 0.
Proof.
  intros Hlive Himg Hn Hs Hprod size a r.
  assert (Hpow : 2 ^ 53 = 2 * 2 ^ 52) by reflexivity.
  assert (Hpow' : 2 ^ 62 = 1024 * 2 ^ 52) by reflexivity.
  assert (Rn : goint.in_range n) by (apply in_range_small; nia).
  assert (E0 : (size =? 0) = false) by (apply Z.eqb_neq; lia).
  assert (Hscale : utils.ScaleDimensions n n 0 size = (a, size)).
  { unfold a, utils.ScaleDimensions. cbn [Z.eqb andb]. rewrite E0.
    reflexivity. }
  assert (Ha : a = size \/ a = size - 1).
  { unfold a, utils.ScaleDimensions. cbn [Z.eqb andb]. rewrite E0.
    cbn [fst].
    destruct (scaled_axis n size n) as [[Hlo Hup] _]; try nia.
    assert (Hq : n * size / n = size)
      by (rewrite Z.mul_comm; apply Z.div_mul; lia).
    rewrite Hq in Hlo, Hup. lia. }
  assert (Hexec : r = fst (two_stages size 0 size ctx img wd)).
  { unfold r.
    rewrite (ThumbnailStep_two_stages s ctx img n n pix wd Himg Rn Rn).
    rewrite Z.ltb_irrefl. reflexivity. }
  clearbody r. subst r.
  split; [exact Ha |]. split; [| split; [| split; vm_compute; reflexivity]].
  - intros Ea. rewrite Ea in Hscale.
    pose proof (thumbnail_stages size ctx img n n 0 size size size pix wd
                  Hlive Himg Rn Rn Hscale Hs ltac:(nia) ltac:(nia)) as Hst.
    cbv zeta in Hst.
    destruct (4 * size * size <=? alloc_limit lib).
    + rewrite orb_true_r in Hst. cbn [andb] in Hst.
      destruct Hst as (out & pix' & H1 & H2 & H3 & H4 & _).
      exists out, pix'. repeat split; assumption.
    + cbn [andb] in Hst. exact Hst.
  - intros Ea. rewrite Ea in Hscale.
    set (step := {| ResizeStep_Width := 0; ResizeStep_Height := size;
                    Resampler := None |}).
    unfold two_stages, bind. fold step.
    pose proof (ResizeStep_live step ctx img _ pix wd (Hlive _) Himg) as Hres.
    destruct (ResizeStep_Execute lib step ctx img wd) as [r1 w1].
    cbn [fst snd] in Hres.
    rewrite (Dx_at_origin n n Rn), (Dy_at_origin n n Rn) in Hres.
    unfold step in Hres at 1 2.
    cbn [ResizeStep_Width ResizeStep_Height] in Hres.
    rewrite Hscale in Hres.
    assert (Hunchanged : (size - 1 =? n) && (size =? n) = false).
    { destruct (Z.eqb_spec (size - 1) n), (Z.eqb_spec size n);
        try reflexivity; lia. }
    rewrite Hunchanged in Hres.
    destruct (Z.eqb_spec size 1) as [E1 | N1].
    + (* the resize is refused *)
      assert (Hle : (size - 1 <=? 0) = true) by (apply Z.leb_le; lia).
      rewrite Hle in Hres. cbn [orb] in Hres. subst r1. reflexivity.
    + destruct (Z.leb_spec (size - 1) 0); [lia |].
      destruct (Z.leb_spec size 0); [lia |]. cbn [orb] in Hres.
      destruct (Z.leb_spec (4 * (size - 1) * size) (alloc_limit lib))
        as [Hfit | Hno].
      2:{ destruct (image_NewRGBA_refuses lib (size - 1) size) as [msg Hm];
            try nia.
          rewrite Hm in Hres. subst r1. exists msg. reflexivity. }
      rewrite image_NewRGBA_fits in Hres by nia. subst r1. cbv beta iota.
      set (resized := resized_to step img (at_origin n n) pix
                        (at_origin (size - 1) size) (size - 1) size).
      assert (Hr : Image resized
                   = image_Image (at_origin (size - 1) size)
                       (default (xdraw_BiLinear lib) (Resampler step)
                          (at_origin (size - 1) size)
                          (at_origin n n) pix))
        by reflexivity.
      rewrite Hr.
      rewrite Dx_at_origin, Dy_at_origin by (apply in_range_small; nia).
      assert (R62 : goint.max_int = 2 * 2 ^ 62 - 1) by reflexivity.
      assert (L62 : goint.min_int = - (2 * 2 ^ 62)) by reflexivity.
      rewrite !sub_no_overflow by nia.
      replace (size - 1 - size) with (-1) by lia.
      rewrite Z.sub_diag. change (Z.quot (-1) 2) with 0.
      change (Z.quot 0 2) with 0.
      rewrite (CropStep_live lib
                 {| CropStep_X := 0; CropStep_Y := 0;
                    CropStep_Width := size; CropStep_Height := size |}
                 ctx _ _ _ w1 (Hlive _) Hr).
      cbn [CropStep_X CropStep_Y CropStep_Width CropStep_Height].
      rewrite !add_no_overflow by nia.
      rewrite (image_Rect_ordered 0 0 (0 + size)) by lia.
      unfold Rectangle_In, Rectangle_Empty, at_origin.
      cbn [MinX MinY MaxX MaxY].
      destruct (Z.leb_spec (0 + size) 0); [lia |]. cbn [orb].
      destruct (Z.leb_spec (0 + size) (size - 1)); [lia |].
      cbn [andb]. rewrite Z.leb_refl. cbn [andb]. reflexivity.
Qed.

End ResizeAndThumbnail.

(** A source of 1000 by 1 pixels resized to the width 100. *)
Lemma ResizeStep_invalid_dimensions_witness :
  let s := {| pipeline.ResizeStep_Width := 100;
              pipeline.ResizeStep_Height := 0;
              pipeline.Resampler := None |} in
  let strip :=
    pipeline.set_Image
      (core.image_Image (at_origin 1000 1) (repeat 0 1000%nat))
      samples.photo in
  fst (pipeline.ResizeStep_Execute samples.lib0 s samples.ctx_live strip
         samples.album)
  = core.returns
      (None,
       Some (core.New_ apperrors.CategoryPipeline "resize"
               apperrors.ErrInvalidDimensions)).
Proof.
  intros s strip.
  refine (proj1 (ResizeStep_invalid_dimensions samples.lib0 s samples.ctx_live
                   strip 1000 1 (repeat 0 1000%nat) samples.album
                   eq_refl eq_refl _ _ _)).
  - split; reflexivity.
  - split; reflexivity.
  - right. right. left. split; [reflexivity |]. split; reflexivity.
Defined.

(** The 4 by 3 sample image, thumbnail size 2. *)
Lemma ThumbnailStep_rectangular_witness :
  exists out pix',
    fst (pipeline.ThumbnailStep_Execute samples.lib0
           {| pipeline.ThumbnailStep_Size := 2 |} samples.ctx_live
           samples.photo samples.album)
    = core.returns (Some out, None) /\
    core.Image out = core.image_Image (at_origin 2 2) pix' /\
    core.Width (core.Meta out) = 2 /\ core.Height (core.Meta out) = 2.
Proof.
  destruct (ThumbnailStep_rectangular samples.lib0
              {| pipeline.ThumbnailStep_Size := 2 |} samples.ctx_live
              samples.photo 4 3 (repeat 0 12%nat) samples.album
              (fun _ => eq_refl) eq_refl eq_refl eq_refl
              ltac:(intros E; discriminate E) eq_refl eq_refl)
    as (_ & _ & Hmade & _).
  destruct (Hmade ltac:(vm_compute; reflexivity))
    as (out & pix' & H1 & H2 & H3 & H4 & _).
  exists out, pix'. repeat split; assumption.
Defined.

(** A square source of 22 by 22 pixels, thumbnail size 15: the crop is
    refused. *)
Lemma ThumbnailStep_square_source_witness :
  let square :=
    pipeline.set_Image
      (core.image_Image (at_origin 22 22) (repeat 0 484%nat))
      samples.photo in
  fst (pipeline.ThumbnailStep_Execute samples.lib0
         {| pipeline.ThumbnailStep_Size := 15 |} samples.ctx_live square
         samples.album)
  = crop_refused.
Proof.
  intros square.
  pose proof (proj1 (proj2 (proj2
                (ThumbnailStep_square_source samples.lib0
                   {| pipeline.ThumbnailStep_Size := 15 |} samples.ctx_live
                   square 22 (repeat 0 484%nat) samples.album
                   (fun _ => eq_refl) eq_refl eq_refl eq_refl eq_refl)))
                ltac:(vm_compute; reflexivity)) as Hr.
  exact Hr.
Defined.

(** ** Steps in sequence *)

Section StepSequences.
Import apperrors context core pipeline.
Context {X : Type}.

(** Two steps in a row, as both runners chain them: the second gets
    the state the first returned, and a failure ends the run. *)
Definition and_then (m : M (World X) outcome)
  (k : ImageData -> M (World X) outcome) : M (World X) outcome :=
  let* (out, err) := m in
  match err, out with
  | None, Some img => k img
  | _, _ => ret (out, err)
  end.

Lemma QualityStep_returns (q : Z) (ctx : Context X) (img : ImageData)
  (w : World X) :
  exists out w1,
    QualityStep_Execute {| QualityStep_Quality := q |} ctx img w
    = ((Some out, None), w1) /\
    encodes w1 = encodes w /\ ext w1 = ext w /\
    ImageData_Format out = ImageData_Format img.
Proof.
  destruct (EXIF (Meta img)) as [l |] eqn:Hl.
  - rewrite (QualityStep_shared _ ctx img w l Hl).
    eexists _, _. split; [reflexivity |]. repeat split; reflexivity.
  - destruct (QualityStep_fresh {| QualityStep_Quality := q |} ctx img w Hl)
      as [Hrun _]. cbv zeta in Hrun. rewrite Hrun.
    eexists _, _. split; [reflexivity |]. repeat split; reflexivity.
Qed.

(** [StripEXIFStep] between a [QualityStep] and an [EncodeStep] takes
    the quality setting away with the EXIF reference: the encoder is
    called once, on a state without EXIF map, with [BaseOptions] as
    they are, whatever quality was asked for. *)
Theorem StripEXIFStep_drops_quality (q : Z) (s : EncodeStep X)
  (ctx : Context X) (img : ImageData) (w : World X) (enc : Encoder X) :
  EncoderFor (EncodeStep_Registry s) (ImageData_Format img) = Some enc ->
  let run :=
    and_then
      (and_then (QualityStep_Execute {| QualityStep_Quality := q |} ctx img)
         (StripEXIFStep_Execute ctx))
      (EncodeStep_Execute s ctx) w in
  exists c,
    encodes (snd run) = (encodes w ++ [c])%list /\
    encoded_opts c = BaseOptions s /\
    EXIF (Meta (encoded_img c)) = None /\
    HasEXIF (Meta (encoded_img c)) = false /\
    (encoded_data c, encoded_err c)
    = fst (Encode enc ctx (encoded_img c) (BaseOptions s) (ext w)).
Proof.
  intros Henc run. unfold run, and_then.
  destruct (QualityStep_returns q ctx img w)
    as (o1 & w1 & Hq & He1 & Hx1 & Hf1).
  unfold bind at 1. unfold bind at 1. rewrite Hq.
  unfold StripEXIFStep_Execute at 1. unfold ret at 1.
  set (o2 := set_Meta (Meta_Orientation 0)
               (set_Meta (Meta_HasEXIF false)
                  (set_Meta (Meta_EXIF None) o1))).
  assert (Hf2 : ImageData_Format o2 = ImageData_Format img)
    by (rewrite <- Hf1; reflexivity).
  pose proof (EncodeStep_call s ctx o2 w1 enc) as Hcall.
  rewrite Hf2 in Hcall. specialize (Hcall Henc). cbv zeta in Hcall.
  rewrite quality_override_spec in Hcall. cbn [fst] in Hcall.
  unfold EXIF_entries in Hcall.
  cbn [o2 set_Meta Meta Meta_Orientation Meta_HasEXIF Meta_EXIF EXIF
       mbind option_bind] in Hcall.
  fold o2 in Hcall.
  destruct (Encode enc ctx o2 (BaseOptions s) (ext w1)) as [r x'] eqn:Hr.
  rewrite Hcall. cbn [snd encodes]. rewrite He1.
  eexists. split; [reflexivity |].
  cbn [encoded_opts encoded_img encoded_data encoded_err].
  split; [reflexivity |]. split; [reflexivity |]. split; [reflexivity |].
  rewrite <- Hx1, Hr. destruct r; reflexivity.
Qed.

(** [FormatStep] before [EncodeStep]: the encoder is the one
    registered for the step's format, not the one for the format the
    state came with, and it is given the state relabelled, its pixel
    buffer and encoded bytes untouched.  Without an encoder for the
    step's format the run fails with an encode error that wraps
    [ErrUnsupportedFormat] and is not retried, and nothing is
    encoded. *)
Theorem FormatStep_selects_encoder (f : Format) (s : EncodeStep X)
  (ctx : Context X) (img : ImageData) (w : World X) :
  let run :=
    and_then (FormatStep_Execute {| FormatStep_Format := f |} ctx img)
      (EncodeStep_Execute s ctx) w in
  let relabelled := set_Meta (Meta_Format f) (set_Format f img) in
  (forall enc,
     EncoderFor (EncodeStep_Registry s) f = Some enc ->
     exists c,
       encodes (snd run) = (encodes w ++ [c])%list /\
       encoded_img c = relabelled /\
       Image relabelled = Image img /\ Data relabelled = Data img /\
       (encoded_data c, encoded_err c)
       = fst (Encode enc ctx relabelled (encoded_opts c) (ext w))) /\
  (EncoderFor (EncodeStep_Registry s) f = None ->
   exists e,
     run = ((None, Some e), w) /\
     e = New_ CategoryEncode "encode"
           (fmt_Errorf_w (": " ++ f) ErrUnsupportedFormat) /\
     IsRetryable (Some e) = false /\
     IsCategory (Some e) CategoryEncode = true).
Proof.
  intros run relabelled.
  assert (Hseq : run = EncodeStep_Execute s ctx relabelled w)
    by reflexivity.
  rewrite Hseq. clear Hseq run.
  split.
  - intros enc Henc.
    pose proof (EncodeStep_call s ctx relabelled w enc Henc) as Hcall.
    cbv zeta in Hcall.
    destruct (Encode enc ctx relabelled _ (ext w)) as [r x'] eqn:Hr.
    rewrite Hcall. cbn [snd encodes].
    eexists. split; [reflexivity |].
    cbn [encoded_opts encoded_img encoded_data encoded_err].
    split; [reflexivity |]. split; [reflexivity |]. split; [reflexivity |].
    rewrite Hr. destruct r; reflexivity.
  - intros Hnone.
    assert (Hrun : EncodeStep_Execute s ctx relabelled w
                   = ((None,
                       Some (New_ CategoryEncode "encode"
                               (fmt_Errorf_w (": " ++ f)
                                  ErrUnsupportedFormat))), w)).
    { unfold EncodeStep_Execute.
      change (ImageData_Format relabelled) with f. rewrite Hnone.
      reflexivity. }
    rewrite Hrun.
    eexists. split; [reflexivity |]. split; [reflexivity |].
    split; reflexivity.
Qed.

End StepSequences.

(** Quality 40, then the EXIF strip, then an encode configured for 85:
    the sample encoder is called at 85. *)
Lemma StripEXIFStep_drops_quality_witness :
  let s := {| pipeline.EncodeStep_Registry := samples.jpeg_only;
              pipeline.BaseOptions :=
                {| core.Quality := 85; core.Lossless := false;
                   core.StripEXIF := false; core.Interlaced := false |} |} in
  exists c,
    core.encodes
      (snd (and_then
              (and_then
                 (pipeline.QualityStep_Execute
                    {| pipeline.QualityStep_Quality := 40 |}
                    samples.ctx_live samples.photo)
                 (pipeline.StripEXIFStep_Execute samples.ctx_live))
              (pipeline.EncodeStep_Execute s samples.ctx_live)
              samples.album))
    = [c] /\
    core.Quality (core.encoded_opts c) = 85.
Proof.
  intros s.
  destruct (StripEXIFStep_drops_quality 40 s samples.ctx_live samples.photo
              samples.album samples.enc_by_quality eq_refl)
    as (c & Hc & Hopts & _).
  exists c. split; [exact Hc |]. rewrite Hopts. reflexivity.
Defined.

(** ** The cost of the adaptive search *)

Section AdaptiveCost.
Import apperrors context core pipeline.
Context {X : Type}.

Lemma quality_scan_length (img : ImageData) (target minQ step q : Z)
  (tried : list EncodeCall) :
  0 < step -> quality_scan img target minQ step q tried ->
  Z.of_nat (length tried) <= Z.max 0 ((q - minQ) / step + 1).
Proof.
  intros Hstep Hscan.
  destruct tried as [| c tried]; [cbn; lia |].
  destruct (lookup_lt_is_Some_2 (c :: tried) (length tried)
              ltac:(cbn; lia)) as [c' Hc'].
  destruct (Hscan _ _ Hc') as (_ & _ & Hfloor & _).
  cbn [length]. rewrite Nat2Z.inj_succ.
  assert (Z.of_nat (length tried) <= (q - minQ) / step)
    by (apply Z.div_le_lower_bound; lia).
  lia.
Qed.

(** The loop when the first decrement already falls below the floor:
    one turn. *)
Lemma AdaptiveCompress_loop_once (fuel : nat) (enc : Encoder X)
  (ctx : Context X) (img : ImageData) (target minQ step quality : Z)
  (best : list byte) (w : World X) :
  minQ <= quality -> goint.sub quality step < minQ ->
  AdaptiveCompress_loop (S fuel) enc ctx img target minQ step quality best w
  = let (cerr, x1) := Err ctx (ext w) in
    match cerr with
    | Some err =>
        (Some (inr (New_ CategoryPipeline "adaptive_compress" err)),
         Build_World x1 (heap w) (encodes w))
    | None =>
        let (r, x2) := Encode enc ctx img (at_quality quality) x1 in
        (match snd r with
         | Some e => Some (inr e)
         | None => Some (inl (fst r))
         end,
         Build_World x2 (heap w)
           (encodes w
            ++ [Build_EncodeCall img (at_quality quality) (fst r) (snd r)]))
    end.
Proof.
  intros Hge Hlt. cbn [AdaptiveCompress_loop].
  destruct (Z.ltb_spec quality minQ); [lia |].
  unfold bind at 1. unfold on_ext.
  destruct (Err ctx (ext w)) as [[cerr |] x1]; [reflexivity |].
  unfold bind, call_Encode. cbn [ext heap encodes]. fold (at_quality quality).
  destruct (Encode enc ctx img (at_quality quality) x1) as [[data err] x2].
  cbn [fst snd]. destruct err as [e |]; [reflexivity |].
  destruct (Z.of_nat (length data) <=? target); [reflexivity |].
  destruct fuel; cbn [AdaptiveCompress_loop];
    destruct (Z.ltb_spec (goint.sub quality step) minQ); try lia; reflexivity.
Qed.

(** The encoder calls of [AdaptiveCompressStep] are bounded by the
    quality range: at most [(MaxQuality - floor) / stride + 1] of them
    (none when the ceiling is below the floor), whatever the encoder
    returns.  When [MinQuality] is not set (not positive), the floor is
    one below the ceiling, and with a decrement of 2 or more (the
    default of 5 included) the step encodes once at most, at the
    ceiling: the bytes of that call are the result whether or not they
    meet the target. *)
Theorem AdaptiveCompressStep_call_bound (s : AdaptiveCompressStep X)
  (ctx : Context X) (img : ImageData) (w : World X) (fuel : nat) :
  0 < TargetSizeBytes s ->
  goint.in_range (MaxQuality s) ->
  goint.min_int <= quality_floor s - quality_stride s ->
  exists tried,
    encodes (snd (AdaptiveCompressStep_Execute fuel s ctx img w))
    = (encodes w ++ tried)%list /\
    Z.of_nat (length tried)
    <= Z.max 0 ((MaxQuality s - quality_floor s) / quality_stride s + 1) /\
    (MinQuality s <= 0 -> 2 <= quality_stride s ->
     (length tried <= 1)%nat /\
     forall c, tried = [c] ->
       encoded_img c = img /\
       encoded_opts c = at_quality (MaxQuality s) /\
       (encoded_err c = None -> (0 < fuel)%nat ->
        fst (AdaptiveCompressStep_Execute fuel s ctx img w)
        = Some (Some (set_Meta (Meta_SizeBytes (size_of c))
                        (set_Data (encoded_data c) img)), None))).
Proof.
  intros Htarget Hmax Hwrap.
  assert (Hstride : 0 < quality_stride s).
  { unfold quality_stride. destruct (Z.leb_spec (StepSize s) 0); lia. }
  unfold AdaptiveCompressStep_Execute.
  assert (Ht : (TargetSizeBytes s <=? 0) = false) by (apply Z.leb_gt; lia).
  rewrite Ht.
  destruct (EncoderFor (AdaptiveCompressStep_Registry s)
              (ImageData_Format img)) as [enc |].
  2:{ exists []. rewrite app_nil_r. split; [reflexivity |].
      split; [cbn; lia |]. intros _ _. split; [cbn; lia |].
      intros c Hc. discriminate Hc. }
  fold (quality_floor s). fold (quality_stride s).
  destruct (AdaptiveCompress_loop_scan enc ctx img (TargetSizeBytes s)
              (quality_floor s) (quality_stride s) Hstride Hwrap fuel
              (MaxQuality s) [] w (proj2 Hmax))
    as (tried & Henc & Hscan & _).
  unfold bind.
  pose proof (AdaptiveCompress_loop_once (pred fuel) enc ctx img
                (TargetSizeBytes s) (quality_floor s) (quality_stride s)
                (MaxQuality s) [] w) as Honce.
  destruct (AdaptiveCompress_loop fuel enc ctx img _ _ _ _ _ w) as [r w']
    eqn:Hloop.
  cbn [fst snd] in Henc.
  exists tried.
  split; [destruct r as [[best | e] |]; exact Henc |].
  split; [exact (quality_scan_length _ _ _ _ _ _ Hstride Hscan) |].
  intros Hmin Hstep2.
  assert (Hlen : (length tried <= 1)%nat).
  { destruct tried as [| c0 [| c1 rest]]; [cbn; lia | cbn; lia |].
    exfalso.
    destruct (Hscan 1%nat c1 eq_refl) as (_ & _ & Hfloor & _).
    unfold quality_floor in Hfloor.
    destruct (Z.ltb_spec 0 (MinQuality s)); [lia |].
    destruct (Z.eq_dec (MaxQuality s) goint.min_int) as [E | N].
    - rewrite E in Hfloor.
      change (goint.sub goint.min_int 1) with goint.max_int in Hfloor.
      unfold goint.max_int, goint.min_int in Hfloor. lia.
    - rewrite sub_no_overflow in Hfloor
        by (unfold goint.in_range in Hmax; lia).
      lia. }
  split; [exact Hlen |].
  intros c ->. destruct (Hscan 0%nat c eq_refl) as (Himg & Hopts & Hge & _).
  split; [exact Himg |].
  split; [rewrite Hopts; f_equal; lia |].
  intros Herr Hfuel.
  destruct fuel as [| fuel]; [lia |]. cbn [pred] in Honce.
  rewrite Z.mul_0_l, Z.sub_0_r in Hge.
  assert (Hbelow : goint.sub (MaxQuality s) (quality_stride s)
                   < quality_floor s).
  { unfold quality_floor in *.
    destruct (Z.ltb_spec 0 (MinQuality s)); [lia |].
    destruct (Z.eq_dec (MaxQuality s) goint.min_int) as [E | N].
    - rewrite E in Hge.
      change (goint.sub goint.min_int 1) with goint.max_int in Hge.
      unfold goint.max_int, goint.min_int in Hge. lia.
    - rewrite (sub_no_overflow _ 1) in *
        by (unfold goint.in_range in Hmax; lia).
      rewrite sub_no_overflow
        by (unfold goint.in_range in Hmax; lia).
      lia. }
  rewrite (Honce Hge Hbelow) in Hloop.
  destruct (Err ctx (ext w)) as [[cerr |] x1].
  - injection Hloop as <- <-. cbn [encodes] in Henc.
    rewrite <- (app_nil_r (encodes w)) in Henc at 1.
    apply app_inv_head in Henc. discriminate Henc.
  - destruct (Encode enc ctx img (at_quality (MaxQuality s)) x1)
      as [[data err] x2].
    injection Hloop as <- <-. cbn [encodes fst snd] in Henc.
    apply app_inv_head in Henc. injection Henc as <-.
    cbn [encoded_err] in Herr. subst err. reflexivity.
Qed.

End AdaptiveCost.

(** The facade's step [AdaptiveCompress(reg, 10, 0, 90)]: no floor, the
    decrement 5.  The sample encoder returns 90 bytes at the ceiling,
    over the target of 10; they are the result of the one call made. *)
Lemma AdaptiveCompressStep_call_bound_witness :
  let s := {| pipeline.AdaptiveCompressStep_Registry := samples.jpeg_only;
              pipeline.TargetSizeBytes := 10; pipeline.MinQuality := 0;
              pipeline.MaxQuality := 90; pipeline.StepSize := 5 |} in
  exists tried,
    core.encodes
      (snd (pipeline.AdaptiveCompressStep_Execute 3 s samples.ctx_live
              samples.photo samples.album)) = tried /\
    (length tried <= 1)%nat.
Proof.
  intros s.
  destruct (AdaptiveCompressStep_call_bound s samples.ctx_live samples.photo
              samples.album 3)
    as (tried & Henc & _ & H).
  - reflexivity.
  - split; intros E; discriminate E.
  - intros E; discriminate E.
  - exists tried. split; [exact Henc |].
    apply H; [intros E; discriminate E | intros E; discriminate E].
Defined.

(** ** What a result of [Process] carries *)

Section ResultShape.
Import apperrors context streaming core.
Context {X : Type}.
Variables (rt : GoRuntime X) (ctx : Context X).

Lemma Process_steps_timings (fuel : nat) (steps : list (Step X)) :
  forall current timings (st : St X) cur tm e st',
    Process_steps rt fuel ctx steps current timings st
    = (Some (Some (cur, tm), e), st') ->
    e = None /\
    dom tm = dom timings ∪ list_to_set (Name <$> steps).
Proof.
  induction steps as [| step rest IH];
    intros current timings st cur tm e st' Hrun.
  { cbv [Process_steps ret] in Hrun. injection Hrun as <- <- <- <-.
    split; [reflexivity |]. cbn [fmap list_fmap list_to_set].
    rewrite (right_id_L ∅ (∪)). reflexivity. }
  cbn [Process_steps] in Hrun.
  unfold bind at 1 in Hrun.
  destruct (on_env (Err ctx) st) as [[ce |] st1].
  { unfold bind, on_proc, ret in Hrun. cbn in Hrun. discriminate Hrun. }
  unfold bind at 1 in Hrun. unfold bind at 1 in Hrun.
  destruct (on_world (notifyBefore (hooks (proc st1)) ctx (Name step) current)
              st1) as [[] st2].
  unfold bind at 1 in Hrun.
  destruct (on_env (time_Now rt) st2) as [t st3].
  unfold bind at 1 in Hrun.
  destruct (runWithRetry fuel ctx step current st3) as [[[next stepErr] |] st4];
    [| unfold ret in Hrun; discriminate Hrun].
  unfold bind at 1 in Hrun.
  destruct (on_env (time_Now rt) st4) as [t' st5].
  unfold bind at 1 in Hrun. unfold bind at 1 in Hrun.
  destruct (on_world (notifyAfter (hooks (proc st5)) ctx (Name step) next
                        (goint.sub t' t) stepErr) st5) as [[] st6].
  destruct stepErr as [se |].
  { unfold bind, on_proc, ret in Hrun. cbn in Hrun. discriminate Hrun. }
  apply IH in Hrun. destruct Hrun as [-> Hdom]. split; [reflexivity |].
  rewrite Hdom, dom_insert_L. cbn [fmap list_fmap list_to_set].
  rewrite (comm_L (∪) {[Name step]} (dom timings)).
  rewrite (assoc_L (∪)). reflexivity.
Qed.

(** A result of [Process] comes without an error, and its fields are
    filled as follows: [StepTimings] has one entry per step name (steps
    of the same name share an entry, so it can have fewer entries than
    steps were run), [Variants] is empty and [MemoryUsedB] is 0
    whatever the steps did. *)
Theorem Process_result_shape (fuel : nat) (src : Source X)
  (steps : list (Step X)) (st st' : St X) (res : ProcessingResult)
  (err : option error) :
  Process rt fuel ctx src steps st = (Some (Some res, err), st') ->
  err = None /\
  dom (StepTimings res) = list_to_set (Name <$> steps) /\
  (size (dom (StepTimings res)) <= length steps)%nat /\
  Variants res = ∅ /\
  MemoryUsedB res = 0.
Proof.
  intros Hrun. unfold Process in Hrun.
  destruct steps as [| step rest]; [cbv [ret] in Hrun; discriminate Hrun |].
  set (steps := step :: rest) in *.
  unfold bind at 1 in Hrun.
  destruct (on_env (time_Now rt) st) as [start st1].
  unfold bind at 1 in Hrun. unfold bind at 1 in Hrun.
  match type of Hrun with
  | context [on_env (DrainReader ?f ctx ?r ?c) st1] =>
      destruct (on_env (DrainReader f ctx r c) st1) as [[[buf | e] |] st2]
  end.
  3:{ unfold ret in Hrun. discriminate Hrun. }
  2:{ unfold ret in Hrun. cbn [Wrap] in Hrun. discriminate Hrun. }
  unfold bind at 1 in Hrun.
  match type of Hrun with
  | context [Process_steps rt ?f ctx ?ss ?cur ?tim st2] =>
      destruct (Process_steps rt f ctx ss cur tim st2) as [r st3] eqn:Hsteps
  end.
  destruct r as [[[[current timings] |] e] |];
    [| unfold ret in Hrun; discriminate Hrun
     | unfold ret in Hrun; discriminate Hrun].
  apply Process_steps_timings in Hsteps. destruct Hsteps as [-> Hdom].
  unfold bind at 1 in Hrun. unfold on_proc at 1 in Hrun.
  unfold bind at 1 in Hrun.
  match type of Hrun with
  | context [on_env (time_Now rt) ?s4] =>
      destruct (on_env (time_Now rt) s4) as [stop st5]
  end.
  unfold ret in Hrun. injection Hrun as <- <- <-.
  cbn [StepTimings Variants MemoryUsedB].
  assert (Hkeys : dom timings = list_to_set (Name <$> steps)).
  { rewrite Hdom, dom_empty_L. apply (left_id_L ∅ (∪)). }
  split; [reflexivity |]. split; [exact Hkeys |].
  split; [| split; reflexivity].
  rewrite Hkeys.
  clearbody steps. clear.
  induction steps as [| s0 steps IH]; [cbn; rewrite size_empty; lia |].
  cbn [fmap list_fmap list_to_set length].
  pose proof (size_union_alt ({[Name s0]} : gset string)
                (list_to_set (Name <$> steps))) as Hu.
  assert (Hsub : (size (list_to_set (Name <$> steps)
                        ∖ ({[Name s0]} : gset string))
                  <= size (list_to_set (Name <$> steps) : gset string))%nat)
    by (apply subseteq_size, subseteq_difference_l; reflexivity).
  rewrite size_singleton in Hu.
  change (list_fmap (Step X) string Name steps) with (Name <$> steps) in *.
  lia.
Qed.

End ResultShape.

(** Two runs of the step ["keep"] leave one timing. *)
Lemma Process_result_shape_witness :
  exists res st',
    core.Process samples.rt0 6 samples.ctx_live samples.FromReader
      [samples.keep; samples.keep]
      (samples.fresh config.Default [xff; xd8; xff; xe0])
    = (Some (Some res, None), st') /\
    dom (core.StepTimings res) = ({["keep"]} : gset string).
Proof.
  destruct (core.Process samples.rt0 6 samples.ctx_live samples.FromReader
              [samples.keep; samples.keep]
              (samples.fresh config.Default [xff; xd8; xff; xe0]))
    as [[[[res |] err] |] st'] eqn:Hrun;
    try (vm_compute in Hrun; discriminate Hrun).
  destruct (Process_result_shape samples.rt0 samples.ctx_live 6
              samples.FromReader [samples.keep; samples.keep]
              (samples.fresh config.Default [xff; xd8; xff; xe0]) st' res err
              Hrun) as (-> & Hdom & _).
  exists res, st'. split; [reflexivity |].
  rewrite Hdom. cbn [fmap list_fmap list_to_set samples.keep core.Name].
  rewrite (right_id_L ∅ (∪)). apply (idemp_L (∪)).
Defined.

(** ** The chunked writer *)

Section ChunkedWrites.
Import apperrors core writer.
Context {Env : Type}.

(** The writer [w] with a record of the slices it was given. *)
Definition logged (w : Writer Env) : Writer (Env * list (list byte)) :=
  {| Write := fun p s =>
       let (r, x') := Write w p (fst s) in (r, (x', (snd s ++ [p])%list)) |}.

(** The contract of [io.Writer]: a write without error took the whole
    slice. *)
Definition full_writes (w : Writer Env) : Prop :=
  forall (q : list byte) (x : Env),
    snd (fst (Write w q x)) = None ->
    fst (fst (Write w q x)) = Z.of_nat (length q).

Lemma ChunkedWriter_Write_loop_turn {E} (fuel : nat) (c : ChunkedWriter E)
  (p : list byte) (total : Z) :
  p <> [] ->
  ChunkedWriter_Write_loop (S fuel) c p total
  = (let end_ := ChunkSize c in
     let end_ :=
       if Z.of_nat (length p) <? end_ then Z.of_nat (length p) else end_ in
     if end_ <? 0 then ret (Some (panics "slice bounds out of range"))
     else
       let* (n, err) := Write (W c) (take (Z.to_nat end_) p) in
       let total := goint.add total n in
       match err with
       | Some e => ret (Some (returns (total, Some e)))
       | None =>
           ChunkedWriter_Write_loop fuel c (drop (Z.to_nat end_) p) total
       end).
Proof. intros Hp. destruct p; [congruence | reflexivity]. Qed.

Lemma ChunkedWriter_Write_loop_chunks (w : Writer Env) (size : Z) :
  0 < size ->
  forall (fuel : nat) (p : list byte) (total : Z) (x : Env)
         (log : list (list byte)),
    (length p <= fuel)%nat ->
    exists total' err chunks x',
      ChunkedWriter_Write_loop fuel
        {| W := logged w; ChunkSize := size |} p total (x, log)
      = (Some (returns (total', err)), (x', (log ++ chunks)%list)) /\
      Forall (fun ch => (0 < length ch)%nat /\ Z.of_nat (length ch) <= size)
        chunks /\
      (exists rest, (concat chunks ++ rest)%list = p) /\
      (err = None -> concat chunks = p) /\
      (err = None -> full_writes w ->
       0 <= total -> total + Z.of_nat (length p) <= goint.max_int ->
       total' = total + Z.of_nat (length p)).
Proof.
  intros Hsize.
  induction fuel as [| fuel IH]; intros p total x log Hfuel.
  { destruct p; [| cbn in Hfuel; lia].
    exists total, None, [], x. rewrite app_nil_r. cbn.
    split; [reflexivity |]. split; [constructor |].
    split; [exists []; reflexivity |]. split; [reflexivity |].
    intros; lia. }
  destruct (decide (p = [])) as [-> | Hp].
  { exists total, None, [], x. rewrite app_nil_r. cbn.
    split; [reflexivity |]. split; [constructor |].
    split; [exists []; reflexivity |]. split; [reflexivity |].
    intros; lia. }
  rewrite ChunkedWriter_Write_loop_turn by exact Hp. cbn [ChunkSize W].
  set (end_ := if Z.of_nat (length p) <? size then Z.of_nat (length p)
               else size).
  assert (Hlen : (0 < length p)%nat) by (destruct p; [congruence | cbn; lia]).
  assert (Hend : 0 < end_ /\ end_ <= size /\ end_ <= Z.of_nat (length p)).
  { unfold end_. destruct (Z.ltb_spec (Z.of_nat (length p)) size); lia. }
  destruct (Z.ltb_spec end_ 0); [lia |].
  set (chunk := take (Z.to_nat end_) p).
  assert (Hchunk : length chunk = Z.to_nat end_).
  { unfold chunk. rewrite length_take. lia. }
  unfold bind at 1. unfold logged at 1. cbn [Write fst snd].
  destruct (Write w chunk x) as [[n err] x1] eqn:Hw.
  destruct err as [e |].
  - exists (goint.add total n), (Some e), [chunk], x1.
    split; [reflexivity |].
    split; [constructor; [lia | constructor] |].
    split; [exists (drop (Z.to_nat end_) p); cbn [concat];
            rewrite app_nil_r; apply take_drop |].
    split; intros E; discriminate E.
  - destruct (IH (drop (Z.to_nat end_) p) (goint.add total n) x1
                (log ++ [chunk])%list) as
      (total' & err & chunks & x' & Hrun & Hall & [rest Hpre] & Hcat & Htot).
    { rewrite length_drop. lia. }
    exists total', err, (chunk :: chunks), x'.
    split; [rewrite Hrun, <- app_assoc; reflexivity |].
    split; [constructor; [lia | exact Hall] |].
    split.
    { exists rest. cbn [concat]. rewrite <- app_assoc, Hpre.
      apply take_drop. }
    split.
    { intros E. cbn [concat]. rewrite (Hcat E). apply take_drop. }
    intros E Hfull H0 Hmax.
    pose proof (Hfull chunk x) as Hn. rewrite Hw in Hn. cbn [fst snd] in Hn.
    specialize (Hn eq_refl). subst n.
    assert (Hadd : goint.add total (Z.of_nat (length chunk))
                   = total + Z.of_nat (length chunk)).
    { apply add_no_overflow. unfold goint.min_int. lia. }
    rewrite Hadd in Htot.
    rewrite (Htot E Hfull); rewrite ?length_drop; lia.
Qed.

(** [ChunkedWriter] with a positive chunk size returns once it has run
    for as many turns as [p] has bytes.  What it passed to the writer
    are chunks of 1 to [ChunkSize] bytes that make up a prefix of [p],
    in order, and all of [p] when no error comes back; with a writer
    that honours its contract the count returned is then [len(p)]. *)
Theorem ChunkedWriter_chunks (w : Writer Env) (size : Z) (fuel : nat)
  (p : list byte) (x : Env) (log : list (list byte)) :
  0 < size -> (length p <= fuel)%nat ->
  exists total err chunks x',
    ChunkedWriter_Write fuel {| W := logged w; ChunkSize := size |} p (x, log)
    = (Some (returns (total, err)), (x', (log ++ chunks)%list)) /\
    Forall (fun ch => (0 < length ch)%nat /\ Z.of_nat (length ch) <= size)
      chunks /\
    (exists rest, (concat chunks ++ rest)%list = p) /\
    (err = None -> concat chunks = p) /\
    (err = None -> full_writes w ->
     Z.of_nat (length p) <= goint.max_int ->
     total = Z.of_nat (length p)).
Proof.
  intros Hsize Hfuel.
  destruct (ChunkedWriter_Write_loop_chunks w size Hsize fuel p 0 x log Hfuel)
    as (total & err & chunks & x' & Hrun & Hall & Hpre & Hcat & Htot).
  exists total, err, chunks, x'.
  split; [exact Hrun |]. split; [exact Hall |]. split; [exact Hpre |].
  split; [exact Hcat |].
  intros E Hfull Hmax. rewrite (Htot E Hfull); lia.
Qed.

Lemma ChunkedWriter_Write_loop_stuck (w : Writer Env) (p : list byte) :
  p <> [] ->
  (forall q y, snd (fst (Write w q y)) = None) ->
  forall (fuel : nat) (total : Z) (x : Env) (log : list (list byte)),
    exists x',
      ChunkedWriter_Write_loop fuel {| W := logged w; ChunkSize := 0 |} p
        total (x, log)
      = (None, (x', (log ++ replicate fuel [])%list)).
Proof.
  intros Hp Hok.
  induction fuel as [| fuel IH]; intros total x log.
  { exists x. destruct p; [congruence |]. cbn. rewrite app_nil_r. reflexivity. }
  rewrite ChunkedWriter_Write_loop_turn by exact Hp. cbn [ChunkSize W].
  assert (Hlen : (Z.of_nat (length p) <? 0) = false)
    by (apply Z.ltb_ge; lia).
  rewrite Hlen. cbn [Z.ltb Z.compare Z.to_nat].
  rewrite take_0, drop_0.
  unfold bind at 1. unfold logged at 1. cbn [Write fst snd].
  pose proof (Hok [] x) as Hnone.
  destruct (Write w [] x) as [[n err] x1]. cbn [fst snd] in Hnone.
  subst err.
  destruct (IH (goint.add total n) x1 (log ++ [[]])%list) as [x' Hrun].
  exists x'. rewrite Hrun. cbn [replicate].
  rewrite <- app_assoc. reflexivity.
Qed.

(** [ChunkedWriter] with a chunk size that is not positive, on a [p]
    that is not empty.  A negative size panics in the slice expression
    before anything is written.  The size 0, which the zero value of
    the struct has, never returns while the writer accepts empty
    writes: every turn writes the empty slice and leaves [p] as it
    is. *)
Theorem ChunkedWriter_degenerate (w : Writer Env) (size : Z) (fuel : nat)
  (p : list byte) (x : Env) (log : list (list byte)) :
  p <> [] ->
  (size < 0 ->
   ChunkedWriter_Write (S fuel) {| W := logged w; ChunkSize := size |} p
     (x, log)
   = (Some (panics "slice bounds out of range"), (x, log))) /\
  (size = 0 ->
   (forall q y, snd (fst (Write w q y)) = None) ->
   exists x',
     ChunkedWriter_Write fuel {| W := logged w; ChunkSize := size |} p (x, log)
     = (None, (x', (log ++ replicate fuel [])%list))).
Proof.
  intros Hp. split.
  - intros Hneg. unfold ChunkedWriter_Write.
    rewrite ChunkedWriter_Write_loop_turn by exact Hp. cbn [ChunkSize].
    destruct (Z.ltb_spec (Z.of_nat (length p)) size); [lia |].
    destruct (Z.ltb_spec size 0); [reflexivity | lia].
  - intros -> Hok. apply ChunkedWriter_Write_loop_stuck; assumption.
Qed.

End ChunkedWrites.

(** Five bytes in chunks of two, into a buffer. *)
Lemma ChunkedWriter_chunks_witness :
  exists total err chunks x',
    writer.ChunkedWriter_Write 5
      {| writer.W := logged fixtures.buffer_Writer; writer.ChunkSize := 2 |}
      [x01; x02; x03; x04; x05] ([], [])
    = (Some (core.returns (total, err)), (x', chunks)) /\
    concat chunks = [x01; x02; x03; x04; x05] /\ total = 5.
Proof.
  destruct (ChunkedWriter_chunks fixtures.buffer_Writer 2 5
              [x01; x02; x03; x04; x05] [] [] eq_refl (le_n 5))
    as (total & err & chunks & x' & Hrun & _ & _ & Hcat & Htot).
  assert (Herr : err = None) by (vm_compute in Hrun; congruence).
  exists total, err, chunks, x'.
  split; [exact Hrun |]. split; [exact (Hcat Herr) |].
  apply (Htot Herr).
  - intros q y _. reflexivity.
  - intros E. discriminate E.
Defined.

(** The zero value of the struct around a buffer, one byte to write. *)
Lemma ChunkedWriter_degenerate_witness :
  exists x',
    writer.ChunkedWriter_Write 7
      {| writer.W := logged fixtures.buffer_Writer; writer.ChunkSize := 0 |}
      [x01] ([], [])
    = (None, (x', replicate 7 [])).
Proof.
  refine (proj2 (ChunkedWriter_degenerate fixtures.buffer_Writer 0 7 [x01]
                   [] [] _) eq_refl _).
  - intros E. discriminate E.
  - intros q y. reflexivity.
Defined.

(** ** The encoders *)

Section EncoderQuality.
Import apperrors context core pipeline encoder.
Context {X : Type}.
Variable lib : Codecs.

(** The quality the JPEG and WebP adapters hand to [jpeg.Encode]: the
    one of the options when positive, else the adapter's default, which
    the constructors replace by 85 when it is not positive. *)
Definition effective_quality (defaultQuality : Z) (opts : EncodeOptions)
  : Z :=
  if 0 <? Quality opts then Quality opts
  else if 0 <? defaultQuality then defaultQuality else 85.

Lemma effective_quality_pos d opts : 0 < effective_quality d opts.
Proof.
  unfold effective_quality.
  destruct (Z.ltb_spec 0 (Quality opts)); [assumption |].
  destruct (Z.ltb_spec 0 d); lia.
Qed.

Lemma JPEG_Encode_live (d : Z) (ctx : Context X) (img : ImageData)
  (opts : EncodeOptions) (b : Rectangle) (pix : list Z) (x : X) :
  fst (Err ctx x) = None ->
  Image img = image_Image b pix ->
  JPEG_Encode lib (NewJPEG d) ctx img opts x
  = (match jpeg_Encode lib b pix (effective_quality d opts) with
     | (_, Some err) => ([], Wrap CategoryEncode "jpeg.encode" (Some err))
     | (data, None) => (data, None)
     end, snd (Err ctx x)).
Proof.
  intros Hlive Himg. unfold JPEG_Encode, bind.
  destruct (Err ctx x) as [cerr x1]. cbn [fst] in Hlive. subst cerr.
  rewrite Himg. unfold NewJPEG, effective_quality. cbn [JPEG_DefaultQuality snd].
  assert (E : (if Quality opts <=? 0
               then if d <=? 0 then 85 else d else Quality opts)
              = (if 0 <? Quality opts then Quality opts
                 else if 0 <? d then d else 85)).
  { destruct (Z.leb_spec (Quality opts) 0), (Z.ltb_spec 0 (Quality opts));
      try lia; try reflexivity.
    destruct (Z.leb_spec d 0), (Z.ltb_spec 0 d); try lia; reflexivity. }
  rewrite E.
  destruct (jpeg_Encode lib b pix _) as [data [err |]]; reflexivity.
Qed.

(** The WebP adapter is the JPEG adapter under another name: for the
    same default quality it leaves the outside in the same state,
    fails exactly when the JPEG adapter fails, and returns the same
    bytes, those of [jpeg.Encode].  Only the operation named in an
    error differs. *)
Theorem WebP_Encode_is_JPEG (d : Z) (ctx : Context X) (img : ImageData)
  (opts : EncodeOptions) (x : X) :
  let webp := WebP_Encode lib (NewWebP d) ctx img opts x in
  let jpeg := JPEG_Encode lib (NewJPEG d) ctx img opts x in
  snd webp = snd jpeg /\
  fst (fst webp) = fst (fst jpeg) /\
  (snd (fst webp) = None <-> snd (fst jpeg) = None) /\
  IsRetryable (snd (fst webp)) = false /\
  (forall b pix,
     fst (Err ctx x) = None -> Image img = image_Image b pix ->
     snd (fst webp) = None ->
     fst (fst webp)
     = fst (jpeg_Encode lib b pix (effective_quality d opts))).
Proof.
  cbv zeta. unfold WebP_Encode, JPEG_Encode, bind.
  destruct (Err ctx x) as [[cerr |] x1]; cbn [fst snd].
  { repeat split; try reflexivity; intros; discriminate. }
  destruct (Image img) as [| b pix | ref]; cbn [ret fst snd].
  1,3: repeat split; try reflexivity; intros; discriminate.
  unfold NewWebP, NewJPEG. cbn [WebP_DefaultQuality JPEG_DefaultQuality].
  set (q := if Quality opts <=? 0 then if d <=? 0 then 85 else d
            else Quality opts).
  assert (Eq : q = effective_quality d opts).
  { unfold q, effective_quality.
    destruct (Z.leb_spec (Quality opts) 0), (Z.ltb_spec 0 (Quality opts));
      try lia; try reflexivity.
    destruct (Z.leb_spec d 0), (Z.ltb_spec 0 d); try lia; reflexivity. }
  destruct (jpeg_Encode lib b pix q) as [data [err |]] eqn:Hq;
    cbn [ret fst snd].
  - repeat split; try reflexivity; intros; discriminate.
  - split; [reflexivity |]. split; [reflexivity |].
    split; [split; reflexivity |]. split; [reflexivity |].
    intros b' pix' _ [= <- <-] _. rewrite <- Eq, Hq. reflexivity.
Qed.

(** [Quality(q)] before an encode through the JPEG adapter, under a
    live scope: the codec is called at [q] when [q] is positive, and
    at the adapter's default otherwise, never at the quality of the
    step's [BaseOptions], which the stored entry replaces even when it
    is 0 or negative. *)
Theorem QualityStep_overrides_base (q d : Z) (s : EncodeStep X)
  (ctx : Context X) (img : ImageData) (b : Rectangle) (pix : list Z)
  (w : World X) :
  goint.in_range q ->
  fst (Err ctx (ext w)) = None ->
  Image img = image_Image b pix ->
  EncoderFor (EncodeStep_Registry s) (ImageData_Format img)
  = Some (JPEG_Encoder lib (NewJPEG d)) ->
  let run :=
    and_then (QualityStep_Execute {| QualityStep_Quality := q |} ctx img)
      (EncodeStep_Execute s ctx) w in
  let asked := if 0 <? q then q else if 0 <? d then d else 85 in
  0 < asked /\
  exists c,
    encodes (snd run) = (encodes w ++ [c])%list /\
    Quality (encoded_opts c) = q /\
    match jpeg_Encode lib b pix asked with
    | (data, None) =>
        encoded_data c = data /\ encoded_err c = None /\
        exists out, fst run = (Some out, None) /\ Data out = data
    | (_, Some err) =>
        encoded_err c = Wrap CategoryEncode "jpeg.encode" (Some err) /\
        fst run = (None, Wrap CategoryEncode "jpeg.encode" (Some err))
    end.
Proof.
  intros Hq Hlive Himg Henc run asked.
  assert (Hasked : asked
                   = effective_quality d (set_Quality q (BaseOptions s)))
    by reflexivity.
  split; [rewrite Hasked; apply effective_quality_pos |].
  assert (Hstep : exists o1 w1,
            QualityStep_Execute {| QualityStep_Quality := q |} ctx img w
            = ((Some o1, None), w1) /\
            encodes w1 = encodes w /\ ext w1 = ext w /\
            ImageData_Format o1 = ImageData_Format img /\
            Image o1 = Image img /\
            fst (quality_override s o1 w1) = set_Quality q (BaseOptions s)).
  { destruct (EXIF (Meta img)) as [l |] eqn:Hl.
    - rewrite (QualityStep_shared _ ctx img w l Hl).
      eexists _, _. split; [reflexivity |].
      repeat (split; [reflexivity |]).
      rewrite quality_override_spec. cbn [fst].
      unfold EXIF_entries. rewrite Hl. cbn [heap mbind option_bind].
      rewrite lookup_insert_eq. cbn [default from_option id].
      rewrite lookup_insert_eq. cbn [QualityStep_Quality].
      rewrite Sscanf_d_Sprintf_d by exact Hq. reflexivity.
    - destruct (QualityStep_fresh {| QualityStep_Quality := q |} ctx img w Hl)
        as [Hrun _]. cbv zeta in Hrun. rewrite Hrun.
      eexists _, _. split; [reflexivity |].
      repeat (split; [reflexivity |]).
      rewrite quality_override_spec. cbn [fst].
      unfold EXIF_entries.
      cbn [set_Meta Meta Meta_EXIF EXIF heap mbind option_bind].
      rewrite lookup_insert_eq. cbn [default from_option id].
      rewrite lookup_singleton_eq. cbn [QualityStep_Quality].
      rewrite Sscanf_d_Sprintf_d by exact Hq. reflexivity. }
  destruct Hstep as (o1 & w1 & Hrun1 & He1 & Hx1 & Hf1 & Hi1 & Hopts).
  assert (Hseq : run = EncodeStep_Execute s ctx o1 w1)
    by (unfold run, and_then, bind; rewrite Hrun1; reflexivity).
  rewrite Hseq. clear Hseq run.
  pose proof (EncodeStep_call s ctx o1 w1 (JPEG_Encoder lib (NewJPEG d)))
    as Hcall.
  rewrite Hf1 in Hcall. specialize (Hcall Henc). cbv zeta in Hcall.
  rewrite Hopts in Hcall. cbn [JPEG_Encoder Encode] in Hcall.
  rewrite Hx1 in Hcall.
  rewrite (JPEG_Encode_live d ctx o1 _ b pix (ext w) Hlive
             ltac:(rewrite Hi1; exact Himg)) in Hcall.
  rewrite <- Hasked in Hcall. rewrite Hcall.
  cbn [snd encodes]. rewrite He1.
  eexists. split; [reflexivity |].
  cbn [encoded_opts encoded_data encoded_err set_Quality Quality].
  split; [reflexivity |].
  destruct (jpeg_Encode lib b pix asked) as [data [err |]]; cbn [fst snd].
  - split; reflexivity.
  - split; [reflexivity |]. split; [reflexivity |].
    eexists. split; reflexivity.
Qed.

End EncoderQuality.

(** [Quality(0)] before the facade's [EncodeWith] with options that ask
    for 70, over the registry the facade wires for the default
    configuration: the codec is called at 85. *)
Lemma QualityStep_overrides_base_witness :
  let s := imageprocessor.EncodeWith (fixtures.registry0 config.Default)
             {| core.Quality := 70; core.Lossless := false;
                core.StripEXIF := false; core.Interlaced := false |} in
  exists out,
    fst (and_then
           (pipeline.QualityStep_Execute
              {| pipeline.QualityStep_Quality := 0 |} samples.ctx_live
              samples.photo)
           (pipeline.EncodeStep_Execute s samples.ctx_live) samples.album)
    = (Some out, None) /\
    length (core.Data out) = 85%nat.
Proof.
  intros s.
  destruct (QualityStep_overrides_base fixtures.codecs0 0 85 s samples.ctx_live
              samples.photo (pipeline.image_Rect 0 0 4 3) (repeat 0 12%nat)
              samples.album)
    as (_ & c & _ & _ & H).
  - split; intros E; discriminate E.
  - reflexivity.
  - reflexivity.
  - vm_compute. reflexivity.
  - cbn in H. destruct H as (_ & _ & out & Hrun & Hdata).
    exists out. split; [exact Hrun |]. rewrite Hdata. reflexivity.
Defined.

(** ** Adaptive compression of a PNG *)

Section AdaptivePNG.
Import apperrors context core pipeline encoder.
Context {X : Type}.
Variable lib : Codecs.

(** Every encoder call of the adaptive loop returned what the encoder
    gives for the state and the options recorded, and the options ask
    for nothing but a quality. *)
Definition call_of (enc : Encoder X) (ctx : Context X) (img : ImageData)
  (c : EncodeCall) : Prop :=
  encoded_img c = img /\
  Lossless (encoded_opts c) = false /\ Interlaced (encoded_opts c) = false /\
  exists x, (encoded_data c, encoded_err c)
            = fst (Encode enc ctx img (encoded_opts c) x).

Lemma AdaptiveCompress_loop_calls (enc : Encoder X) (ctx : Context X)
  (img : ImageData) (target minQ step : Z) (fuel : nat) :
  forall (quality : Z) (best0 : list byte) (w : World X),
    exists tried,
      encodes (snd (AdaptiveCompress_loop fuel enc ctx img target minQ step
                      quality best0 w)) = (encodes w ++ tried)%list /\
      Forall (call_of enc ctx img) tried /\
      forall best,
        fst (AdaptiveCompress_loop fuel enc ctx img target minQ step
               quality best0 w) = Some (inl best) ->
        match last tried with
        | Some c => best = encoded_data c
        | None => best = best0
        end.
Proof.
  induction fuel as [| fuel IH]; intros quality best0 w;
    destruct (AdaptiveCompress_loop _ enc ctx img target minQ step quality
                best0 w) as [r w'] eqn:Hrun;
    cbn [AdaptiveCompress_loop] in Hrun; cbn [fst snd].
  { exists []. rewrite app_nil_r.
    destruct (quality <? minQ); injection Hrun as <- <-;
      (split; [reflexivity |]); (split; [constructor |]); intros best Hb.
    - injection Hb as <-. reflexivity.
    - discriminate Hb. }
  destruct (quality <? minQ).
  { exists []. rewrite app_nil_r. injection Hrun as <- <-.
    split; [reflexivity |]. split; [constructor |].
    intros best [= <-]. reflexivity. }
  unfold bind at 1 in Hrun. unfold on_ext in Hrun.
  destruct (Err ctx (ext w)) as [[cerr |] x1].
  { exists []. rewrite app_nil_r. injection Hrun as <- <-.
    split; [reflexivity |]. split; [constructor |].
    intros best Hb. discriminate Hb. }
  unfold bind at 1 in Hrun. unfold call_Encode at 1 in Hrun.
  cbn [ext heap encodes] in Hrun.
  destruct (Encode enc ctx img _ x1) as [[data err] x2] eqn:Henc.
  cbn [fst snd] in Hrun.
  set (c := {| encoded_img := img;
               encoded_opts := {| Quality := quality; Lossless := false;
                                  StripEXIF := false; Interlaced := false |};
               encoded_data := data; encoded_err := err |}) in *.
  assert (Hc : call_of enc ctx img c).
  { unfold call_of, c. cbn [encoded_img encoded_opts encoded_data encoded_err
                            Lossless Interlaced].
    split; [reflexivity |]. split; [reflexivity |]. split; [reflexivity |].
    exists x1. rewrite Henc. reflexivity. }
  destruct err as [e |].
  { exists [c]. injection Hrun as <- <-.
    split; [reflexivity |]. split; [constructor; [exact Hc | constructor] |].
    intros best Hb. discriminate Hb. }
  destruct (Z.of_nat (length data) <=? target).
  { exists [c]. injection Hrun as <- <-.
    split; [reflexivity |]. split; [constructor; [exact Hc | constructor] |].
    intros best [= <-]. reflexivity. }
  destruct (IH (goint.sub quality step) data
              (Build_World x2 (heap w) (encodes w ++ [c])%list))
    as (tried & Henc' & Hall & Hbest).
  rewrite Hrun in Henc', Hbest. cbn [fst snd encodes] in Henc', Hbest.
  exists (c :: tried).
  split; [rewrite Henc', <- app_assoc; reflexivity |].
  split; [constructor; assumption |].
  intros best Hr. specialize (Hbest best Hr).
  destruct tried as [| c1 tried']; [exact Hbest |].
  rewrite last_cons_cons.
  destruct (last (c1 :: tried')) eqn:Hlast; [exact Hbest |].
  apply last_None in Hlast. discriminate Hlast.
Qed.

(** The PNG adapter takes no quality: under a live scope its result
    depends on the pixels and the two flags alone. *)
Lemma PNG_Encode_live (ctx : Context X) (img : ImageData)
  (opts : EncodeOptions) (b : Rectangle) (pix : list Z) (x : X) :
  fst (Err ctx x) = None ->
  Image img = image_Image b pix ->
  Lossless opts = false -> Interlaced opts = false ->
  fst (PNG_Encode lib ctx img opts x)
  = match png_Encode lib DefaultCompression b pix with
    | (_, Some err) => ([], Wrap CategoryEncode "png.encode" (Some err))
    | (data, None) => (data, None)
    end.
Proof.
  intros Hlive Himg Hl Hi. unfold PNG_Encode, bind.
  destruct (Err ctx x) as [cerr x1]. cbn [fst] in Hlive. subst cerr.
  rewrite Himg, Hl, Hi.
  destruct (png_Encode lib DefaultCompression b pix) as [data [err |]];
    reflexivity.
Qed.

(** [AdaptiveCompressStep] on a state whose format is served by the PNG
    adapter, under a live scope: every call of the scan, whatever
    quality it asks for, returns the same bytes, those of [png.Encode]
    at the default level, and a result carries these bytes.  Lowering
    the quality buys nothing: the scan cannot bring a PNG under the
    target that was over it. *)
Theorem AdaptiveCompressStep_on_PNG (s : AdaptiveCompressStep X)
  (ctx : Context X) (img : ImageData) (b : Rectangle) (pix : list Z)
  (w : World X) (fuel : nat) :
  (forall x, fst (Err ctx x) = None) ->
  Image img = image_Image b pix ->
  EncoderFor (AdaptiveCompressStep_Registry s) (ImageData_Format img)
  = Some (PNG_Encoder lib) ->
  0 < TargetSizeBytes s ->
  let run := AdaptiveCompressStep_Execute fuel s ctx img w in
  let png :=
    match png_Encode lib DefaultCompression b pix with
    | (_, Some err) => ([], Wrap CategoryEncode "png.encode" (Some err))
    | (data, None) => (data, None)
    end in
  exists tried,
    encodes (snd run) = (encodes w ++ tried)%list /\
    Forall (fun c => (encoded_data c, encoded_err c) = png) tried /\
    (forall out, fst run = Some (Some out, None) ->
                 Data out = match tried with [] => [] | _ => fst png end).
Proof.
  intros Hlive Himg Henc Htarget run png.
  unfold run, AdaptiveCompressStep_Execute.
  assert (Ht : (TargetSizeBytes s <=? 0) = false) by (apply Z.leb_gt; lia).
  rewrite Ht, Henc.
  set (minQ := if 0 <? MinQuality s then MinQuality s
               else goint.sub (MaxQuality s) 1).
  set (step := if StepSize s <=? 0 then 5 else StepSize s).
  destruct (AdaptiveCompress_loop_calls (PNG_Encoder lib) ctx img
              (TargetSizeBytes s) minQ step fuel (MaxQuality s) [] w)
    as (tried & Hencs & Hall & Hbest).
  unfold bind.
  destruct (AdaptiveCompress_loop fuel (PNG_Encoder lib) ctx img _ _ _ _ _ w)
    as [r w'].
  cbn [fst snd] in Hencs, Hbest.
  assert (Hsame : Forall (fun c => (encoded_data c, encoded_err c) = png)
                    tried).
  { eapply Forall_impl; [exact Hall |].
    intros c (_ & Hl & Hi & x & Hc). rewrite Hc.
    cbn [PNG_Encoder Encode].
    apply PNG_Encode_live; auto. }
  exists tried.
  split; [destruct r as [[best | e] |]; exact Hencs |].
  split; [exact Hsame |].
  intros out Hout.
  destruct r as [[best | e] |]; cbn [ret fst] in Hout;
    [| discriminate Hout | discriminate Hout].
  injection Hout as <-. cbn [set_Meta set_Data Data].
  specialize (Hbest best eq_refl).
  destruct tried as [| c0 tried']; [exact Hbest |].
  destruct (last (c0 :: tried')) as [c |] eqn:Hlast;
    [| apply last_None in Hlast; discriminate Hlast].
  subst best.
  assert (Hin : c ∈ c0 :: tried') by (apply last_Some_elem_of; exact Hlast).
  rewrite Forall_forall in Hsame. specialize (Hsame c Hin).
  rewrite <- Hsame. reflexivity.
Qed.

End AdaptivePNG.

(** A PNG of two bytes against a target of one, with the facade's
    registry: the scan from 90 down to 60 in steps of 5 encodes it seven times, two
    bytes each time. *)
Lemma AdaptiveCompressStep_on_PNG_witness :
  let s := imageprocessor.AdaptiveCompress
             (fixtures.registry0 config.Default) 1 60 90 in
  let img := pipeline.set_Format core.FormatPNG samples.photo in
  exists tried,
    core.encodes
      (snd (pipeline.AdaptiveCompressStep_Execute 9 s samples.ctx_live
              img samples.album)) = tried /\
    length tried = 7%nat /\
    Forall (fun c => length (core.encoded_data c) = 2%nat) tried.
Proof.
  intros s img.
  destruct (AdaptiveCompressStep_on_PNG fixtures.codecs0 s samples.ctx_live
              img (pipeline.image_Rect 0 0 4 3) (repeat 0 12%nat)
              samples.album 9 (fun _ => eq_refl) eq_refl
              ltac:(vm_compute; reflexivity) eq_refl)
    as (tried & Henc & Hall & _).
  exists tried. split; [exact Henc |].
  split.
  - cbn [samples.album core.encodes app] in Henc. rewrite <- Henc.
    vm_compute. reflexivity.
  - eapply Forall_impl; [exact Hall |].
    intros c Hc. cbn in Hc. injection Hc as -> _. reflexivity.
Defined.

(** ** The registry *)

Section RegistryLookup.
Import apperrors context core encoder.
Context {X : Type}.

(** Registering and looking up.  An encoder registered for a format is
    the one found for it, a later registration for the same format
    replacing an earlier one; the other formats and the decoders are
    not touched.  The same holds of decoders, and a new registry finds
    nothing.  The registry the facade wires serves the three formats
    ["jpeg"], ["png"] and ["webp"] and no other: for ["unknown"],
    which is what format detection gives for bytes it does not
    recognise, there is neither a decoder nor an encoder. *)
Theorem Registry_lookup (r : DefaultRegistry X) (f f' : Format)
  (e e' : Encoder X) (d d' : Decoder X) :
  EncoderFor (RegisterEncoder r f e) f = Some e /\
  EncoderFor (RegisterEncoder (RegisterEncoder r f e) f e') f = Some e' /\
  (f' <> f -> EncoderFor (RegisterEncoder r f e) f' = EncoderFor r f') /\
  DecoderFor (RegisterEncoder r f e) f' = DecoderFor r f' /\
  DecoderFor (RegisterDecoder r f d) f = Some d /\
  DecoderFor (RegisterDecoder (RegisterDecoder r f d) f d') f = Some d' /\
  (f' <> f -> DecoderFor (RegisterDecoder r f d) f' = DecoderFor r f') /\
  EncoderFor (RegisterDecoder r f d) f' = EncoderFor r f' /\
  EncoderFor (NewRegistry (X := X)) f = None /\
  DecoderFor (NewRegistry (X := X)) f = None /\
  (forall lib (dj dp dw : Decoder X) cfg,
     let reg := imageprocessor.default_registry lib dj dp dw cfg in
     EncoderFor reg FormatJPEG
     = Some (JPEG_Encoder lib (NewJPEG (config.DefaultQuality cfg))) /\
     EncoderFor reg FormatPNG = Some (PNG_Encoder lib) /\
     EncoderFor reg FormatWebP
     = Some (WebP_Encoder lib (NewWebP (config.DefaultQuality cfg))) /\
     DecoderFor reg FormatJPEG = Some dj /\
     DecoderFor reg FormatPNG = Some dp /\
     DecoderFor reg FormatWebP = Some dw /\
     (f <> FormatJPEG -> f <> FormatPNG -> f <> FormatWebP ->
      EncoderFor reg f = None /\ DecoderFor reg f = None) /\
     EncoderFor reg FormatUnknown = None /\
     DecoderFor reg FormatUnknown = None).
Proof.
  unfold EncoderFor, DecoderFor, RegisterEncoder, RegisterDecoder,
    NewRegistry. cbn [encoders decoders].
  split; [apply lookup_insert_eq |].
  split; [apply lookup_insert_eq |].
  split; [intros Hne; apply lookup_insert_ne; congruence |].
  split; [reflexivity |].
  split; [apply lookup_insert_eq |].
  split; [apply lookup_insert_eq |].
  split; [intros Hne; apply lookup_insert_ne; congruence |].
  split; [reflexivity |].
  split; [apply lookup_empty |].
  split; [apply lookup_empty |].
  intros lib dj dp dw cfg. cbv zeta.
  unfold imageprocessor.default_registry, EncoderFor, DecoderFor,
    RegisterEncoder, RegisterDecoder, NewRegistry.
  cbn [encoders decoders].
  assert (Hjp : FormatJPEG <> FormatPNG) by discriminate.
  assert (Hjw : FormatJPEG <> FormatWebP) by discriminate.
  assert (Hpw : FormatPNG <> FormatWebP) by discriminate.
  assert (Huj : FormatUnknown <> FormatJPEG) by discriminate.
  assert (Hup : FormatUnknown <> FormatPNG) by discriminate.
  assert (Huw : FormatUnknown <> FormatWebP) by discriminate.
  assert (Hother : forall (A : Type) (a b c : A) (g : Format),
            g <> FormatJPEG -> g <> FormatPNG -> g <> FormatWebP ->
            (<[FormatWebP := c]> (<[FormatPNG := b]>
               (<[FormatJPEG := a]> (∅ : gmap Format A)))) !! g = None).
  { intros A a b c g H1 H2 H3.
    rewrite !lookup_insert_ne by congruence. apply lookup_empty. }
  split.
  { rewrite !lookup_insert_ne by congruence. apply lookup_insert_eq. }
  split.
  { rewrite lookup_insert_ne by congruence. apply lookup_insert_eq. }
  split; [apply lookup_insert_eq |].
  split.
  { rewrite !lookup_insert_ne by congruence. apply lookup_insert_eq. }
  split.
  { rewrite lookup_insert_ne by congruence. apply lookup_insert_eq. }
  split; [apply lookup_insert_eq |].
  split; [intros H1 H2 H3; split; apply Hother; assumption |].
  split; apply Hother; assumption.
Qed.

End RegistryLookup.

(** ** The standalone pipeline against the engine *)

Section RunnerAgreement.
Import apperrors context core runner.
Context {X : Type}.
Variables (rt : GoRuntime X) (ctx : Context X).

(** Reading the clock leaves the outside as it is. *)
Definition clock_reads_only : Prop :=
  forall x : X, snd (time_Now rt x) = x.

Lemma on_env_reads {A} (m : M X A) (st : St X) :
  (forall x, snd (m x) = x) ->
  on_env m st = (fst (m (ext (world st))), st).
Proof.
  intros Hm. unfold on_env, on_world, on_ext.
  destruct st as [[x h e] p c]. cbn [world ext heap encodes proc calls].
  specialize (Hm x). destruct (m x) as [a x']. cbn [fst snd] in *.
  subst x'. reflexivity.
Qed.

Lemma runStep_loop_agrees (step : Step X) (img : option ImageData)
  (maxR delay : Z) :
  clock_reads_only -> maxR < goint.max_int -> goint.min_int <= maxR ->
  forall (fuel : nat) (i : Z) result elapsed err (st : St X) out st',
    0 <= i ->
    runWithRetry_loop fuel maxR delay ctx step img i result err st
    = (Some out, st') ->
    exists result' elapsed',
      runStep_loop rt fuel (maxR + 1) delay ctx step img i result elapsed err st
      = (Some (result', elapsed', snd out), st') /\
      (result' = fst out \/
       fst out = None /\
       exists c, last (calls st') = Some c /\ call_result c = result' /\
                 IsRetryable (call_err c) = true).
Proof.
  intros Hclock Hmax Hmin.
  induction fuel as [| fuel IH];
    intros i result elapsed err st out st' Hi Hrun; [discriminate Hrun |].
  cbn [runWithRetry_loop] in Hrun. cbn [runStep_loop].
  destruct (Z.leb_spec i maxR) as [Hle | Hgt];
    destruct (Z.ltb_spec i (maxR + 1)) as [Hlt | Hge]; try lia.
  2:{ injection Hrun as <- <-. exists result, elapsed.
      split; [reflexivity | left; reflexivity]. }
  unfold bind at 1 in Hrun.
  unfold bind at 1. rewrite (on_env_reads _ st Hclock).
  unfold bind at 1.
  destruct (call_Execute step ctx img st) as [[r e] st1] eqn:Hcall.
  unfold bind at 1. rewrite (on_env_reads _ st1 Hclock).
  set (el := goint.sub _ _).
  destruct (is_nil e) eqn:Hnil.
  { cbn [orb] in Hrun. injection Hrun as <- <-.
    exists r, el. split; [reflexivity | left; reflexivity]. }
  cbn [orb] in Hrun.
  destruct (IsRetryable e) eqn:Hretry; cbn [negb] in Hrun |- *.
  2:{ injection Hrun as <- <-. exists r, el. cbn [orb].
      split; [reflexivity | left; reflexivity]. }
  cbn [orb].
  rewrite sub_no_overflow
    by (unfold goint.min_int, goint.max_int in *; lia).
  replace (maxR + 1 - 1) with maxR by lia.
  assert (Hlast : exists c, last (calls st1) = Some c /\ call_result c = r /\
                            IsRetryable (call_err c) = true).
  { unfold call_Execute, bind, on_world, record_call, ret in Hcall.
    destruct (Execute step ctx img (world st)) as [[r0 e0] w1].
    injection Hcall as <- <- <-. cbn [calls].
    eexists. rewrite last_snoc. split; [reflexivity |].
    split; [reflexivity | exact Hretry]. }
  destruct (Z.ltb_spec i maxR) as [Hwait | Hlastturn].
  - destruct (Z.eqb_spec i maxR); [lia |].
    unfold bind at 1 in Hrun. unfold bind at 1.
    destruct (on_env (Done_or_After ctx delay) st1) as [[cerr |] st2] eqn:Hd.
    + injection Hrun as <- <-. exists r, el.
      split; [reflexivity |]. right. split; [reflexivity |].
      destruct Hlast as (c & Hc & Hr & Hre). exists c.
      unfold on_env, on_world in Hd.
      destruct (on_ext (Done_or_After ctx delay) (world st1)) as [a w2].
      injection Hd as _ <-. cbn [calls]. auto.
    + rewrite add_no_overflow in Hrun |- *
        by (unfold goint.min_int, goint.max_int in *; lia).
      assert (Hi' : 0 <= i + 1) by lia.
      exact (IH (i + 1) r el e st2 out st' Hi' Hrun).
  - assert (i = maxR) as -> by lia. rewrite Z.eqb_refl.
    unfold bind at 1 in Hrun. unfold ret at 1 in Hrun.
    rewrite add_no_overflow in Hrun
      by (unfold goint.min_int, goint.max_int in *; lia).
    destruct fuel as [| fuel]; [discriminate Hrun |].
    cbn [runWithRetry_loop] in Hrun.
    destruct (Z.leb_spec (maxR + 1) maxR); [lia |].
    injection Hrun as <- <-. exists r, el.
    split; [reflexivity | left; reflexivity].
Qed.

(** A standalone [Pipeline] without hooks applies the retry policy of
    the engine.  With the retry count and the delay of the processor's
    configuration, whenever [runWithRetry] returns, [runStep] returns
    too, in the same state (the same calls of the step, the same
    waits) and with the same error.  It returns the same image state
    as well, but for one case: when the scope ends a wait, the engine
    returns a nil state and the pipeline the state of the failed
    attempt.  The count is taken below the largest [int], where
    [maxRetries + 1] would wrap around. *)
Theorem runStep_agrees_with_runWithRetry (p : Pipeline X) (step : Step X)
  (img : option ImageData) (fuel : nat) (st st' : St X)
  (out : option ImageData * option error) :
  clock_reads_only ->
  hooks p = [] ->
  maxRetries p = config.MaxRetries (cfg (proc st)) ->
  retryDelay p = config.RetryDelay (cfg (proc st)) ->
  goint.min_int <= maxRetries p < goint.max_int ->
  runWithRetry fuel ctx step img st = (Some out, st') ->
  exists result elapsed,
    runStep rt fuel p ctx step img st
    = (Some (result, elapsed, snd out), st') /\
    (result = fst out \/
     fst out = None /\
     exists c, last (calls st') = Some c /\ call_result c = result /\
               IsRetryable (call_err c) = true).
Proof.
  intros Hclock Hhooks Hmax Hdelay [Hlo Hhi] Hrun.
  unfold runWithRetry in Hrun. rewrite <- Hmax, <- Hdelay in Hrun.
  unfold runStep. rewrite Hhooks. cbn [callHooksBefore callHooksAfter].
  rewrite add_no_overflow
    by (unfold goint.min_int, goint.max_int in *; lia).
  assert (Hi : 0 <= 0) by lia.
  destruct (runStep_loop_agrees step img (maxRetries p) (retryDelay p)
              Hclock Hhi Hlo fuel 0 None 0 None st out st' Hi Hrun)
    as (result & elapsed & Hloop & Hres).
  exists result, elapsed. split; [| exact Hres].
  unfold bind at 1. unfold on_world at 1, ret at 1.
  assert (Hst : Build_St (world st) (proc st) (calls st) = st)
    by (destruct st; reflexivity).
  rewrite Hst. unfold bind at 1. rewrite Hloop.
  unfold bind, on_world, ret.
  destruct st' as [w' p' c']. reflexivity.
Qed.

End RunnerAgreement.

(** The step that settles at its third call, with the default
    configuration's three retries: both give its result. *)
Lemma runStep_agrees_with_runWithRetry_witness :
  exists result elapsed st',
    runner.runStep samples.rt0 6
      (runner.WithRetry (runner.Use runner.New [samples.settles]) 3
         (200 * 1000000))
      samples.ctx_live samples.settles None samples.st0
    = (Some (result, elapsed, None), st') /\
    length (core.calls st') = 3%nat.
Proof.
  destruct (core.runWithRetry 6 samples.ctx_live samples.settles None
              samples.st0) as [[out |] st'] eqn:Hrun;
    [| vm_compute in Hrun; discriminate Hrun].
  destruct (runStep_agrees_with_runWithRetry samples.rt0 samples.ctx_live
              (runner.WithRetry (runner.Use runner.New [samples.settles]) 3
                 (200 * 1000000))
              samples.settles None 6 samples.st0 st' out
              (fun _ => eq_refl) eq_refl eq_refl eq_refl
              ltac:(split; [intros E; discriminate E | reflexivity]) Hrun)
    as (result & elapsed & Hstep & _).
  assert (Hout : snd out = None /\ length (core.calls st') = 3%nat)
    by (vm_compute in Hrun; injection Hrun as <- <-; split; reflexivity).
  destruct Hout as [Herr Hcalls]. rewrite Herr in Hstep.
  exists result, elapsed, st'. split; [exact Hstep | exact Hcalls].
Defined.

(** ** Pipelines compose *)

Section RunnerComposition.
Import apperrors context core runner.
Context {X : Type}.
Variables (rt : GoRuntime X) (ctx : Context X) (fuel : nat).

(** The timings of a second run laid over those of a first: an entry
    of the second replaces the entry of the same step name. *)
Definition over (tm1 : gmap string Z)
  (r : option (option ImageData * gmap string Z * option error))
  : option (option ImageData * gmap string Z * option error) :=
  match r with
  | Some (cur, tm2, err) => Some (cur, tm2 ∪ tm1, err)
  | None => None
  end.

(** The pipeline [p] with the steps [s] in place of its own. *)
Definition with_steps (p : Pipeline X) (s : list (Step X)) : Pipeline X :=
  Build_Pipeline s (hooks p) (maxRetries p) (retryDelay p).

Lemma runStep_same_settings (p p' : Pipeline X) step img :
  hooks p' = hooks p -> maxRetries p' = maxRetries p ->
  retryDelay p' = retryDelay p ->
  runStep rt fuel p' ctx step img = runStep rt fuel p ctx step img.
Proof. intros H1 H2 H3. unfold runStep. rewrite H1, H2, H3. reflexivity. Qed.

Lemma Run_loop_same_settings (p p' : Pipeline X) (todo : list (Step X)) :
  hooks p' = hooks p -> maxRetries p' = maxRetries p ->
  retryDelay p' = retryDelay p ->
  forall cur tm st,
    Run_loop rt fuel p' ctx todo cur tm st
    = Run_loop rt fuel p ctx todo cur tm st.
Proof.
  intros H1 H2 H3. induction todo as [| step rest IH]; intros cur tm st;
    [reflexivity |].
  cbn [Run_loop]. rewrite (runStep_same_settings p p') by assumption.
  unfold bind at 1 3.
  destruct (on_env (Err ctx) st) as [[e |] st1]; [reflexivity |].
  unfold bind.
  destruct (runStep rt fuel p ctx step cur st1)
    as [[[[result elapsed] [e |]] |] st2]; try reflexivity.
  apply IH.
Qed.

Lemma Run_loop_over (p : Pipeline X) (todo : list (Step X)) :
  forall cur tm st,
    Run_loop rt fuel p ctx todo cur tm st
    = (over tm (fst (Run_loop rt fuel p ctx todo cur ∅ st)),
       snd (Run_loop rt fuel p ctx todo cur ∅ st)).
Proof.
  induction todo as [| step rest IH]; intros cur tm st.
  { cbn [Run_loop ret over fst snd]. rewrite (left_id_L ∅ (∪)). reflexivity. }
  cbn [Run_loop]. unfold bind at 1 3 5.
  destruct (on_env (Err ctx) st) as [[e |] st1].
  { cbn [ret over fst snd]. rewrite (left_id_L ∅ (∪)). reflexivity. }
  unfold bind.
  destruct (runStep rt fuel p ctx step cur st1)
    as [[[[result elapsed] [e |]] |] st2]; cbn [ret over fst snd].
  - rewrite <- insert_union_l, (left_id_L ∅ (∪)). reflexivity.
  - rewrite (IH result (<[Name step := elapsed]> tm) st2).
    rewrite (IH result (<[Name step := elapsed]> ∅) st2).
    destruct (Run_loop rt fuel p ctx rest result ∅ st2) as [[[[c t] e] |] st3];
      cbn [over fst snd]; [| reflexivity].
    rewrite <- (assoc_L (∪)).
    rewrite <- (insert_union_l _ tm), (left_id_L ∅ (∪)). reflexivity.
  - reflexivity.
Qed.

Lemma Run_loop_app (p : Pipeline X) (s1 s2 : list (Step X)) :
  forall cur tm st,
    Run_loop rt fuel p ctx (s1 ++ s2) cur tm st
    = let (r1, st1) := Run_loop rt fuel p ctx s1 cur tm st in
      match r1 with
      | Some (cur1, tm1, None) => Run_loop rt fuel p ctx s2 cur1 tm1 st1
      | _ => (r1, st1)
      end.
Proof.
  induction s1 as [| step rest IH]; intros cur tm st; [reflexivity |].
  cbn [app Run_loop]. unfold bind at 1 3.
  destruct (on_env (Err ctx) st) as [[e |] st1]; [reflexivity |].
  unfold bind.
  destruct (runStep rt fuel p ctx step cur st1)
    as [[[[result elapsed] [e |]] |] st2]; try reflexivity.
  apply IH.
Qed.

(** Running a pipeline that was extended by [Use] is running the
    pipeline as it was and then, on the state that run returned, the
    steps that were added: the runs meet in the same world, a failure
    of the first part ends the whole, and the timings of the second
    part are laid over those of the first.  In particular the empty
    pipeline returns the state it was given, and does so under a
    cancelled scope too; two calls of [Use] add up to one, and a clone
    runs as its original does. *)
Theorem Run_Use (p : Pipeline X) (s : list (Step X))
  (img : option ImageData) (st : St X) :
  Run rt fuel (Use p s) ctx img st
  = (let (r1, st1) := Run rt fuel p ctx img st in
     match r1 with
     | Some (cur, tm1, None) =>
         let (r2, st2) := Run rt fuel (with_steps p s) ctx cur st1 in
         (over tm1 r2, st2)
     | _ => (r1, st1)
     end) /\
  Run rt fuel New ctx img st = (Some (img, ∅, None), st) /\
  (forall s', Use (Use p s) s' = Use p (s ++ s')) /\
  Clone p = p.
Proof.
  split; [| split; [reflexivity | split]].
  - unfold Run. cbn [Use steps with_steps].
    rewrite (Run_loop_same_settings p (Use p s)) by reflexivity.
    rewrite Run_loop_app.
    destruct (Run_loop rt fuel p ctx (steps p) img ∅ st)
      as [[[[cur tm1] [e |]] |] st1]; try reflexivity.
    rewrite (Run_loop_same_settings p (with_steps p s)) by reflexivity.
    rewrite (Run_loop_over p s cur tm1 st1).
    destruct (Run_loop rt fuel p ctx s cur ∅ st1) as [r2 st2]. reflexivity.
  - intros s'. unfold Use. cbn [steps hooks maxRetries retryDelay].
    rewrite <- app_assoc. reflexivity.
  - destruct p. reflexivity.
Qed.

End RunnerComposition.

(** ** Variants *)

Section VariantsMachine.
Import apperrors context core variants.
Context {X : Type}.
Variables (ctx : Context X) (base : ProcessingResult).
Variables (vs : list (VariantDefinition X)) (st1 : St X).

Definition is_back (p : variant_pc) : bool :=
  match p with variant_gone => true | _ => false end.

(** The goroutines that have not returned yet. *)
Fixpoint running (gs : list (Variant X)) : Z :=
  match gs with
  | [] => 0
  | g :: gs' => (if is_back (vpc g) then 0 else 1) + running gs'
  end.

(** A bound on the steps a goroutine has executed so far. *)
Definition executed (g : Variant X) : nat :=
  match vpc g with
  | at_clone => 0
  | at_step n _ => n
  | _ => length (VariantDefinition_Steps (vd g))
  end.

Fixpoint executed_total (gs : list (Variant X)) : nat :=
  match gs with
  | [] => 0
  | g :: gs' => executed g + executed_total gs'
  end.


(** The error [e] came back from a call of [Execute] among [new]. *)
Definition raised (new : list Call) (e : error) : Prop :=
  exists c, c ∈ new /\ call_err c = Some e.

(** What the goroutine launched [k]-th has established so far. *)
Definition variant_ok (b : VariantsState X) (new : list Call) (k : nat)
  (g : Variant X) : Prop :=
  vs !! k = Some (vd g) /\
  (executed g <= length (VariantDefinition_Steps (vd g)))%nat /\
  match vpc g with
  | append_err e => raised new e
  | at_Done | variant_gone =>
      VariantDefinition_Name (vd g) ∈ dom (variantResults b)
      \/ variants.errs b <> []
  | _ => True
  end.

Record VInv (b : VariantsState X) : Prop := {
  vinv_panicked : variants.panicked b = true -> Primary base = None;
  vinv_caller :
    match caller b with
    | range_variants i =>
        length (goroutines b) = i /\ (i <= length vs)%nat
    | wait_variants => length (goroutines b) = length vs
    | variants_returned =>
        length (goroutines b) = length vs /\ running (goroutines b) = 0
    end;
  vinv_wg : variants.wg_counter b = running (goroutines b);
  vinv_proc : proc (variants.shared b) = proc st1;
  vinv_dom :
    forall name, name ∈ dom (variantResults b) ->
                 exists v, v ∈ vs /\ VariantDefinition_Name v = name;
  vinv_calls :
    exists new,
      calls (variants.shared b) = (calls st1 ++ new)%list /\
      (length new <= executed_total (goroutines b))%nat /\
      Forall (raised new) (variants.errs b) /\
      forall k g, goroutines b !! k = Some g -> variant_ok b new k g;
}.

Lemma running_nonneg gs : 0 <= running gs.
Proof.
  induction gs as [| g gs IH]; cbn [running]; [lia |].
  destruct (is_back _); lia.
Qed.

Lemma running_app gs gs' : running (gs ++ gs') = running gs + running gs'.
Proof.
  induction gs as [| g gs IH]; cbn [running app]; [lia |]. rewrite IH. lia.
Qed.

Lemma running_insert gs k g g' :
  gs !! k = Some g ->
  running (<[k := g']> gs)
  = running gs - (if is_back (vpc g) then 0 else 1)
    + (if is_back (vpc g') then 0 else 1).
Proof.
  revert k. induction gs as [| g0 gs IH]; intros [| k] Hk; try discriminate.
  - injection Hk as ->.
    change (<[0%nat := g']> (g :: gs)) with (g' :: gs). cbn [running]. lia.
  - change (<[S k := g']> (g0 :: gs)) with (g0 :: <[k := g']> gs).
    cbn [running]. rewrite (IH k Hk). lia.
Qed.

Lemma running_zero gs k g :
  running gs = 0 -> gs !! k = Some g -> is_back (vpc g) = true.
Proof.
  revert k. induction gs as [| g0 gs IH]; intros [| k] Hz Hk; try discriminate;
    cbn [running] in Hz; pose proof (running_nonneg gs).
  - injection Hk as ->. destruct (is_back (vpc g)); [reflexivity | lia].
  - destruct (is_back (vpc g0)); [| lia]. apply (IH k); [lia | exact Hk].
Qed.

Lemma executed_total_app gs gs' :
  executed_total (gs ++ gs') = (executed_total gs + executed_total gs')%nat.
Proof.
  induction gs as [| g gs IH]; cbn [executed_total app]; [lia |].
  rewrite IH. lia.
Qed.

Lemma executed_total_insert gs k g g' :
  gs !! k = Some g ->
  (executed_total (<[k := g']> gs) + executed g
   = executed_total gs + executed g')%nat.
Proof.
  revert k. induction gs as [| g0 gs IH]; intros [| k] Hk; try discriminate.
  - injection Hk as ->.
    change (<[0%nat := g']> (g :: gs)) with (g' :: gs).
    cbn [executed_total]. lia.
  - change (<[S k := g']> (g0 :: gs)) with (g0 :: <[k := g']> gs).
    cbn [executed_total]. pose proof (IH k Hk). lia.
Qed.


Lemma raised_snoc new c e : raised new e -> raised (new ++ [c]) e.
Proof.
  intros (c0 & Hin & He). exists c0. split; [| exact He].
  apply elem_of_app. left. exact Hin.
Qed.

Lemma VInv_init : VInv (variants_init st1).
Proof.
  split; cbn.
  - discriminate.
  - split; [reflexivity | lia].
  - reflexivity.
  - reflexivity.
  - intros name Hin. rewrite dom_empty_L in Hin.
    apply not_elem_of_empty in Hin. contradiction.
  - exists []. rewrite app_nil_r. split; [reflexivity |].
    split; [cbn; lia |]. split; [constructor |].
    intros k g Hk. rewrite lookup_nil in Hk. discriminate.
Qed.

(** A goroutine's facts hold on when the calls, the map and the errors
    only grow. *)
Lemma variant_ok_frame b b' new new' k g :
  (forall e, raised new e -> raised new' e) ->
  dom (variantResults b) ⊆ dom (variantResults b') ->
  (variants.errs b <> [] -> variants.errs b' <> []) ->
  variant_ok b new k g -> variant_ok b' new' k g.
Proof.
  intros Hr Hd He (Hv & Hn & Hpc). split; [exact Hv |]. split; [exact Hn |].
  destruct (vpc g); try exact Hpc.
  - apply Hr, Hpc.
  - destruct Hpc as [Hin | Herr]; [left; apply Hd, Hin | right; apply He, Herr].
  - destruct Hpc as [Hin | Herr]; [left; apply Hd, Hin | right; apply He, Herr].
Qed.

Lemma VInv_caller_step b : VInv b -> VInv (caller_step vs b).
Proof.
  intros [Hp Hm Hw Hproc Hdom (new & Hcalls & Hlen & Herrs & Hgs)].
  unfold caller_step.
  destruct (caller b) as [i | |] eqn:Hcaller.
  - destruct Hm as [Hl Hi].
    destruct (vs !! i) as [v |] eqn:Hv.
    + pose proof (lookup_lt_Some _ _ _ Hv) as Hlt.
      split; cbn [variants.panicked caller goroutines variants.wg_counter
                  variants.shared variantResults variants.errs];
        try assumption.
      * rewrite length_app. cbn. lia.
      * rewrite running_app. cbn. lia.
      * exists new. split; [exact Hcalls |].
        split; [rewrite executed_total_app; lia |].
        split; [exact Herrs |].
        intros k g Hk.
        destruct (decide (k < length (goroutines b))%nat) as [Hin | Hout].
        -- rewrite lookup_app_l in Hk by exact Hin.
           apply (variant_ok_frame b _ new new); auto.
        -- rewrite lookup_app_r in Hk by lia.
           destruct (k - length (goroutines b))%nat as [| j] eqn:Hj;
             [| rewrite lookup_cons, lookup_nil in Hk; discriminate].
           injection Hk as <-. assert (k = i) as -> by lia.
           split; [exact Hv |]. split; [cbn; lia | exact I].
    + pose proof (lookup_ge_None_1 _ _ Hv) as Hge.
      split; cbn [variants.panicked caller goroutines variants.wg_counter
                  variants.shared variantResults variants.errs];
        try assumption.
      * lia.
      * exists new. auto.
  - destruct (Z.eqb_spec (variants.wg_counter b) 0) as [Hz | Hnz].
    + split; cbn [variants.panicked caller goroutines variants.wg_counter
                  variants.shared variantResults variants.errs];
        try assumption.
      * split; [exact Hm | congruence].
      * exists new. auto.
    + split; try assumption; [rewrite Hcaller; exact Hm | exists new; auto].
  - split; try assumption; [rewrite Hcaller; exact Hm | exists new; auto].
Qed.

Lemma call_Execute_record (step : Step X) (img : option ImageData)
  (st : St X) :
  exists r e w',
    call_Execute step ctx img st
    = ((r, e), Build_St w' (proc st)
                 (calls st ++ [Build_Call (Name step) r e])%list).
Proof.
  unfold call_Execute, bind, on_world, record_call, ret.
  destruct (Execute step ctx img (world st)) as [[r e] w'].
  exists r, e, w'. reflexivity.
Qed.

Lemma VInv_variant_step k b : VInv b -> VInv (variant_step ctx base k b).
Proof.
  intros [Hp Hm Hw Hproc Hdom (new & Hcalls & Hlen & Herrs & Hgs)].
  unfold variant_step.
  destruct (goroutines b !! k) as [g |] eqn:Hk;
    [| split; try assumption; exists new; auto].
  pose proof (Hgs k g Hk) as (Hv & Hn & Hpc).
  assert (Hcaller : forall gs',
    length gs' = length (goroutines b) ->
    running gs' = running (goroutines b) ->
    match caller b with
    | range_variants i => length gs' = i /\ (i <= length vs)%nat
    | wait_variants => length gs' = length vs
    | variants_returned => length gs' = length vs /\ running gs' = 0
    end).
  { intros gs' Hl Hr. destruct (caller b); rewrite Hl, ?Hr; exact Hm. }
  assert (Hothers : forall (b' : VariantsState X) new' pc' j g',
    goroutines b' = <[k := Build_Variant (vd g) pc']> (goroutines b) ->
    (forall e, raised new e -> raised new' e) ->
    dom (variantResults b) ⊆ dom (variantResults b') ->
    (variants.errs b <> [] -> variants.errs b' <> []) ->
    variant_ok b' new' k (Build_Variant (vd g) pc') ->
    goroutines b' !! j = Some g' -> variant_ok b' new' j g').
  { intros b' new' pc' j g' Hg Hr Hd He Hnew Hj. rewrite Hg in Hj.
    destruct (decide (j = k)) as [-> | Hne].
    - rewrite list_lookup_insert_eq in Hj by (eapply lookup_lt_Some, Hk).
      injection Hj as <-. exact Hnew.
    - rewrite list_lookup_insert_ne in Hj by congruence.
      apply (variant_ok_frame b b' new new'); auto. }
  pose proof (executed_total_insert (goroutines b) k g) as Hex.
  destruct (vpc g) as [| n result | e | result | |] eqn:Hpcg.
  - (* clone := *base.Primary *)
    destruct (Primary base) as [clone |] eqn:Hprim.
    + split; cbn [variants.panicked caller goroutines variants.wg_counter
                  variants.shared variantResults variants.errs];
        try assumption.
      * intros Hpan. specialize (Hp Hpan). congruence.
      * apply Hcaller; [apply length_insert |].
        rewrite (running_insert _ _ _ _ Hk), Hpcg. cbn. lia.
      * rewrite (running_insert _ _ _ _ Hk), Hpcg. cbn. lia.
      * exists new. split; [exact Hcalls |].
        split.
        { specialize (Hex (Build_Variant (vd g) (at_step 0 (Some clone))) Hk).
          unfold executed in Hex. rewrite Hpcg in Hex.
          cbn [vpc] in Hex. lia. }
        split; [exact Herrs |].
        intros j g' Hj. eapply Hothers; [reflexivity | | | | | exact Hj];
          cbn [variantResults variants.errs]; auto.
        split; [exact Hv |]. split; [cbn; lia | exact I].
    + split; cbn [variants.panicked caller goroutines variants.wg_counter
                  variants.shared variantResults variants.errs];
        try assumption.
      * intros _. exact Hprim.
      * exists new. split; [exact Hcalls |]. split; [exact Hlen |].
        split; [exact Herrs |].
        intros j g' Hj. apply (variant_ok_frame b _ new new); auto.
  - (* the loop over the steps *)
    unfold executed in Hn. rewrite Hpcg in Hn.
    destruct (VariantDefinition_Steps (vd g) !! n) as [step |] eqn:Hstep.
    + pose proof (lookup_lt_Some _ _ _ Hstep) as Hlt.
      destruct (call_Execute_record step result (variants.shared b))
        as (r & e & w' & Hcall).
      rewrite Hcall.
      set (c := Build_Call (Name step) r e).
      assert (Hgrow : forall e0, raised new e0 -> raised (new ++ [c]) e0)
        by (intros e0; apply raised_snoc).
      destruct e as [e |].
      * split; cbn [variants.panicked caller goroutines variants.wg_counter
                    variants.shared variantResults variants.errs proc calls];
          try assumption.
        -- apply Hcaller; [apply length_insert |].
           rewrite (running_insert _ _ _ _ Hk), Hpcg. cbn. lia.
        -- rewrite (running_insert _ _ _ _ Hk), Hpcg. cbn. lia.
        -- exists (new ++ [c])%list.
           split; [rewrite Hcalls, <- app_assoc; reflexivity |].
           split.
           { specialize (Hex (Build_Variant (vd g) (append_err e)) Hk).
             unfold executed in Hex. rewrite Hpcg in Hex.
             cbn [vpc vd] in Hex. rewrite length_app. cbn [length]. lia. }
           split; [eapply Forall_impl; [exact Herrs | exact Hgrow] |].
           intros j g' Hj. eapply Hothers; [reflexivity | | | | | exact Hj];
             cbn [variantResults variants.errs]; auto.
           split; [exact Hv |]. split; [cbn; lia |].
           cbn [vpc]. exists c. split; [| reflexivity].
           apply elem_of_app. right. apply list_elem_of_singleton. reflexivity.
      * split; cbn [variants.panicked caller goroutines variants.wg_counter
                    variants.shared variantResults variants.errs proc calls];
          try assumption.
        -- apply Hcaller; [apply length_insert |].
           rewrite (running_insert _ _ _ _ Hk), Hpcg. cbn. lia.
        -- rewrite (running_insert _ _ _ _ Hk), Hpcg. cbn. lia.
        -- exists (new ++ [c])%list.
           split; [rewrite Hcalls, <- app_assoc; reflexivity |].
           split.
           { specialize (Hex (Build_Variant (vd g) (at_step (S n) r)) Hk).
             unfold executed in Hex. rewrite Hpcg in Hex.
             cbn [vpc vd] in Hex. rewrite length_app. cbn [length]. lia. }
           split; [eapply Forall_impl; [exact Herrs | exact Hgrow] |].
           intros j g' Hj. eapply Hothers; [reflexivity | | | | | exact Hj];
             cbn [variantResults variants.errs]; auto.
           split; [exact Hv |]. split; [cbn; lia | exact I].
    + split; cbn [variants.panicked caller goroutines variants.wg_counter
                  variants.shared variantResults variants.errs];
        try assumption.
      * apply Hcaller; [apply length_insert |].
        rewrite (running_insert _ _ _ _ Hk), Hpcg. cbn. lia.
      * rewrite (running_insert _ _ _ _ Hk), Hpcg. cbn. lia.
      * exists new. split; [exact Hcalls |].
        split.
        { specialize (Hex (Build_Variant (vd g) (store_variant result)) Hk).
          unfold executed in Hex. rewrite Hpcg in Hex.
          cbn [vpc vd] in Hex. lia. }
        split; [exact Herrs |].
        intros j g' Hj. eapply Hothers; [reflexivity | | | | | exact Hj];
          cbn [variantResults variants.errs]; auto.
        split; [exact Hv |]. split; [cbn; lia | exact I].
  - (* errs = append(errs, stepErr) *)
    split; cbn [variants.panicked caller goroutines variants.wg_counter
                variants.shared variantResults variants.errs];
      try assumption.
    + apply Hcaller; [apply length_insert |].
      rewrite (running_insert _ _ _ _ Hk), Hpcg. cbn. lia.
    + rewrite (running_insert _ _ _ _ Hk), Hpcg. cbn. lia.
    + exists new. split; [exact Hcalls |].
      split.
      { specialize (Hex (Build_Variant (vd g) at_Done) Hk).
        unfold executed in Hex. rewrite Hpcg in Hex.
        cbn [vpc vd] in Hex. lia. }
      split; [apply Forall_app; split; [exact Herrs |];
              constructor; [exact Hpc | constructor] |].
      intros j g' Hj. eapply Hothers; [reflexivity | | | | | exact Hj];
        cbn [variantResults variants.errs]; auto.
      * intros _ E. apply app_eq_nil in E. destruct E as [_ E]. discriminate E.
      * split; [exact Hv |]. split; [cbn; lia |].
        cbn [vpc]. right. intros E. apply app_eq_nil in E.
        destruct E as [_ E]. discriminate E.
  - (* variantResults[vd.Name] = result *)
    split; cbn [variants.panicked caller goroutines variants.wg_counter
                variants.shared variantResults variants.errs];
      try assumption.
    + apply Hcaller; [apply length_insert |].
      rewrite (running_insert _ _ _ _ Hk), Hpcg. cbn. lia.
    + rewrite (running_insert _ _ _ _ Hk), Hpcg. cbn. lia.
    + intros name Hin. rewrite dom_insert_L in Hin.
      apply elem_of_union in Hin. destruct Hin as [Hin | Hin].
      * apply elem_of_singleton in Hin. subst name.
        exists (vd g). split; [| reflexivity].
        eapply list_elem_of_lookup_2. exact Hv.
      * apply Hdom, Hin.
    + exists new. split; [exact Hcalls |].
      split.
      { specialize (Hex (Build_Variant (vd g) at_Done) Hk).
        unfold executed in Hex. rewrite Hpcg in Hex.
        cbn [vpc vd] in Hex. lia. }
      split; [exact Herrs |].
      intros j g' Hj. eapply Hothers; [reflexivity | | | | | exact Hj];
        cbn [variantResults variants.errs]; auto.
      * rewrite dom_insert_L. apply union_subseteq_r.
      * split; [exact Hv |]. split; [cbn; lia |].
        cbn [vpc vd variantResults]. left. rewrite dom_insert_L.
        apply elem_of_union. left. apply elem_of_singleton. reflexivity.
  - (* wg.Done() *)
    assert (Hrun : running (goroutines b) <> 0).
    { intros Hz. pose proof (running_zero _ _ _ Hz Hk) as Hg.
      rewrite Hpcg in Hg. discriminate. }
    split; cbn [variants.panicked caller goroutines variants.wg_counter
                variants.shared variantResults variants.errs];
      try assumption.
    + destruct (caller b) as [i | |]; rewrite ?length_insert; try exact Hm.
      destruct Hm as [_ Hz]. contradiction.
    + rewrite (running_insert _ _ _ _ Hk), Hpcg. cbn. lia.
    + exists new. split; [exact Hcalls |].
      split.
      { specialize (Hex (Build_Variant (vd g) variant_gone) Hk).
        unfold executed in Hex. rewrite Hpcg in Hex.
        cbn [vpc vd] in Hex. lia. }
      split; [exact Herrs |].
      intros j g' Hj. eapply Hothers; [reflexivity | | | | | exact Hj];
        cbn [variantResults variants.errs]; auto.
      split; [exact Hv |]. split; [cbn; lia | exact Hpc].
  - split; try assumption. exists new. auto.
Qed.

Lemma VInv_run schedule b :
  VInv b -> VInv (variants_run ctx base vs schedule b).
Proof.
  revert b. unfold variants_run.
  induction schedule as [| t schedule IH]; intros b HI; [exact HI |].
  cbn [fold_left]. apply IH. unfold variants_step.
  destruct (variants.panicked b); [exact HI |].
  destruct t as [| k]; [apply VInv_caller_step | apply VInv_variant_step];
    exact HI.
Qed.


End VariantsMachine.

(** *** No step is called twice *)


Section VariantsHistory.
Import apperrors context core variants.
Context {X : Type}.
Variables (ctx : Context X) (base : ProcessingResult).
Variables (vs : list (VariantDefinition X)) (st1 : St X).














End VariantsHistory.

Section VariantsOutcome.
Import apperrors context streaming core variants.
Context {X : Type}.
Variables (rt : GoRuntime X) (ctx : Context X).



End VariantsOutcome.


Section VariantsRace.
Import apperrors context streaming core variants.
Context {X : Type}.
Variables (rt : GoRuntime X) (ctx : Context X).

(** The step fails with [e] whatever it is given. *)
Definition always_fails (s : Step X) (e : error) : Prop :=
  forall (img : option ImageData) (w : World X),
    snd (fst (Execute s ctx img w)) = Some e.

Lemma call_Execute_fails (s : Step X) (e : error) :
  always_fails s e ->
  forall img (st : St X),
    exists r st', call_Execute s ctx img st = ((r, Some e), st').
Proof.
  intros Hs img st. unfold call_Execute, bind, on_world, record_call, ret.
  pose proof (Hs img (world st)) as He.
  destruct (Execute s ctx img (world st)) as [[r e0] w']. cbn [fst snd] in He.
  subst e0. eexists _, _. reflexivity.
Qed.

(** Two variants whose steps fail: which of the two errors
    [ProcessVariants] returns is decided by the order in which the
    goroutines reach the mutex, not by the order of the variants nor
    by the order in which the steps ran.  Under both schedules below
    the step of the first variant runs before the step of the second;
    the goroutines then append their errors in the one order or the
    other, and the call returns the error appended first. *)
Theorem ProcessVariants_first_error_races (fuel : nat) (src : Source X)
  (baseSteps : list (Step X)) (st st1 : St X) (base : ProcessingResult)
  (clone : ImageData) (n1 n2 : string) (s1 s2 : Step X) (e1 e2 : error) :
  Process rt fuel ctx src baseSteps st = (Some (Some base, None), st1) ->
  Primary base = Some clone ->
  always_fails s1 e1 -> always_fails s2 e2 ->
  let vs := [ {| VariantDefinition_Name := n1;
                 VariantDefinition_Steps := [s1] |};
              {| VariantDefinition_Name := n2;
                 VariantDefinition_Steps := [s2] |} ] in
  let run schedule :=
    ProcessVariants rt fuel ctx src baseSteps vs schedule st in
  fst (run [0; 0; 0; 1; 1; 2; 2; 1; 2; 1; 2; 0]%nat)
  = Some (returns (None, Some e1)) /\
  fst (run [0; 0; 0; 1; 1; 2; 2; 2; 1; 1; 2; 0]%nat)
  = Some (returns (None, Some e2)) /\
  calls (snd (run [0; 0; 0; 1; 1; 2; 2; 1; 2; 1; 2; 0]%nat))
  = calls (snd (run [0; 0; 0; 1; 1; 2; 2; 2; 1; 1; 2; 0]%nat)).
Proof.
  intros Hbase Hprim H1 H2 vs run.
  unfold run, ProcessVariants. rewrite Hbase.
  destruct (call_Execute_fails s1 e1 H1 (Some clone) st1) as (r1 & st2 & Hc1).
  destruct (call_Execute_fails s2 e2 H2 (Some clone) st2) as (r2 & st3 & Hc2).
  unfold variants_run, vs.
  cbn [fold_left variants_step variants_init caller_step variant_step
       variants.panicked caller goroutines variants.wg_counter
       variants.shared variantResults variants.errs
       lookup list_lookup app vd vpc VariantDefinition_Steps
       VariantDefinition_Name insert list_insert Z.eqb Z.add Z.sub].
  rewrite Hprim.
  cbn [fold_left variants_step variants_init caller_step variant_step
       variants.panicked caller goroutines variants.wg_counter
       variants.shared variantResults variants.errs
       lookup list_lookup app vd vpc VariantDefinition_Steps
       VariantDefinition_Name insert list_insert Z.eqb Z.add Z.sub].
  rewrite Hc1.
  cbn [fold_left variants_step variants_init caller_step variant_step
       variants.panicked caller goroutines variants.wg_counter
       variants.shared variantResults variants.errs
       lookup list_lookup app vd vpc VariantDefinition_Steps
       VariantDefinition_Name insert list_insert Z.eqb Z.add Z.sub].
  rewrite Hprim.
  cbn [fold_left variants_step variants_init caller_step variant_step
       variants.panicked caller goroutines variants.wg_counter
       variants.shared variantResults variants.errs
       lookup list_lookup app vd vpc VariantDefinition_Steps
       VariantDefinition_Name insert list_insert Z.eqb Z.add Z.sub].
  rewrite Hc2.
  cbn. split; [reflexivity |]. split; reflexivity.
Qed.

End VariantsRace.

(** A broken step and a flaky one as the two variants. *)
Lemma ProcessVariants_first_error_races_witness :
  let vs := [ {| variants.VariantDefinition_Name := "a";
                 variants.VariantDefinition_Steps := [samples.broken] |};
              {| variants.VariantDefinition_Name := "b";
                 variants.VariantDefinition_Steps := [samples.flaky] |} ] in
  let run schedule :=
    variants.ProcessVariants samples.rt0 6 samples.ctx_live samples.FromReader
      [samples.keep] vs schedule
      (samples.fresh config.Default [xff; xd8; xff; xe0]) in
  fst (run [0; 0; 0; 1; 1; 2; 2; 1; 2; 1; 2; 0]%nat)
  = Some (core.returns
            (None,
             Some (apperrors.New apperrors.CategoryPipeline "broken"
                     apperrors.ErrInvalidDimensions))) /\
  fst (run [0; 0; 0; 1; 1; 2; 2; 2; 1; 1; 2; 0]%nat)
  = Some (core.returns
            (None,
             Some (apperrors.Transient "flaky"
                     (apperrors.external "timeout")))).
Proof.
  intros vs run.
  destruct (core.Process samples.rt0 6 samples.ctx_live samples.FromReader
              [samples.keep]
              (samples.fresh config.Default [xff; xd8; xff; xe0]))
    as [[[[base |] [e |]] |] st1] eqn:Hbase;
    try (vm_compute in Hbase; discriminate Hbase).
  assert (Hprim : exists clone, core.Primary base = Some clone).
  { vm_compute in Hbase. injection Hbase as <- _. eexists. reflexivity. }
  destruct Hprim as [clone Hprim].
  destruct (ProcessVariants_first_error_races samples.rt0 samples.ctx_live 6
              samples.FromReader [samples.keep]
              (samples.fresh config.Default [xff; xd8; xff; xe0]) st1 base
              clone "a" "b" samples.broken samples.flaky _ _ Hbase Hprim
              (fun _ _ => eq_refl) (fun _ _ => eq_refl))
    as (HA & HB & _).
  split; [exact HA | exact HB].
Defined.

(** *** [ProcessVariants] returns *)

Section VariantsProgress.
Import apperrors context streaming core variants.
Context {X : Type}.
Variables (ctx : Context X) (base : ProcessingResult).
Variables (vs : list (VariantDefinition X)) (st1 : St X).

(** The turns a goroutine has before it is back, at most. *)
Definition variant_weight (g : Variant X) : nat :=
  match vpc g with
  | at_clone => length (VariantDefinition_Steps (vd g)) + 4
  | at_step n _ => (length (VariantDefinition_Steps (vd g)) - n) + 3
  | append_err _ => 2
  | store_variant _ => 2
  | at_Done => 1
  | variant_gone => 0
  end.

Fixpoint variants_pending (gs : list (Variant X)) : nat :=
  match gs with
  | [] => 0
  | g :: gs' => variant_weight g + variants_pending gs'
  end.

Fixpoint launch_cost (l : list (VariantDefinition X)) : nat :=
  match l with
  | [] => 0
  | v :: l' => length (VariantDefinition_Steps v) + 5 + launch_cost l'
  end.

Definition variants_turns_left (b : VariantsState X) : nat :=
  match caller b with
  | range_variants i => 2 + launch_cost (drop i vs)
  | wait_variants => 1
  | variants_returned => 0
  end + variants_pending (goroutines b).

Lemma variants_pending_app gs gs' :
  variants_pending (gs ++ gs')
  = (variants_pending gs + variants_pending gs')%nat.
Proof.
  induction gs as [| g gs IH]; cbn [variants_pending app]; [lia |].
  rewrite IH. lia.
Qed.

Lemma variants_pending_insert gs k g g' :
  gs !! k = Some g ->
  (variants_pending (<[k := g']> gs) + variant_weight g
   = variants_pending gs + variant_weight g')%nat.
Proof.
  revert k. induction gs as [| g0 gs IH]; intros [| k] Hk; try discriminate.
  - injection Hk as ->.
    change (<[0%nat := g']> (g :: gs)) with (g' :: gs).
    cbn [variants_pending]. lia.
  - change (<[S k := g']> (g0 :: gs)) with (g0 :: <[k := g']> gs).
    cbn [variants_pending]. pose proof (IH k Hk). lia.
Qed.

Lemma running_pos (gs : list (Variant X)) :
  running gs <> 0 -> exists k g, gs !! k = Some g /\ is_back (vpc g) = false.
Proof.
  induction gs as [| g0 gs IH]; cbn [running]; [lia |]. intros Hl.
  destruct (is_back (vpc g0)) eqn:Hg.
  - destruct IH as (k & g & Hk & Hb); [lia |]. exists (S k), g. auto.
  - exists 0%nat, g0. auto.
Qed.

(** Some thread can always move, and its move brings the return
    nearer, or ends the program. *)
Lemma variants_progress b :
  VInv base vs st1 b -> variants.panicked b = false ->
  caller b <> variants_returned ->
  exists thread,
    variants.panicked (variants_step ctx base vs b thread) = true \/
    (variants_turns_left (variants_step ctx base vs b thread)
     < variants_turns_left b)%nat.
Proof.
  intros [Hp Hm Hw Hproc Hdom (new & Hcalls & Hlen & Herrs & Hgs)] Hpan Hc.
  unfold variants_step. rewrite Hpan.
  destruct (caller b) as [i | |] eqn:Hcb; [| | contradiction].
  - exists 0%nat. right. unfold caller_step, variants_turns_left. rewrite Hcb.
    destruct Hm as [Hl Hi].
    destruct (vs !! i) as [v |] eqn:Hv; cbn [caller goroutines].
    + rewrite (drop_S _ _ _ Hv). cbn [launch_cost].
      rewrite variants_pending_app. cbn. lia.
    + lia.
  - destruct (Z.eq_dec (variants.wg_counter b) 0) as [Hz | Hnz].
    + exists 0%nat. right. unfold caller_step, variants_turns_left.
      rewrite Hcb.
      destruct (Z.eqb_spec (variants.wg_counter b) 0); [| contradiction].
      cbn [caller goroutines]. lia.
    + rewrite Hw in Hnz. destruct (running_pos _ Hnz) as (k & g & Hk & Hlive).
      exists (S k). unfold variant_step, variants_turns_left. rewrite Hk.
      destruct (Hgs k g Hk) as (Hv & Hn & _).
      pose proof (variants_pending_insert (goroutines b) k g) as Hins.
      unfold executed in Hn.
      destruct (vpc g) as [| n result | e | result | |] eqn:Hpc;
        [| | | | | discriminate].
      * destruct (Primary base) as [clone |]; [| left; reflexivity].
        right. cbn [caller goroutines].
        specialize (Hins (Build_Variant (vd g) (at_step 0 (Some clone))) Hk).
        unfold variant_weight in Hins. rewrite Hpc in Hins.
        cbn [vpc vd] in Hins. rewrite Hcb. lia.
      * right.
        destruct (VariantDefinition_Steps (vd g) !! n) as [step |] eqn:Hstep.
        -- pose proof (lookup_lt_Some _ _ _ Hstep) as Hlt.
           destruct (call_Execute step ctx result (variants.shared b))
             as [[r [e |]] st'].
           ++ cbn [caller goroutines].
              specialize (Hins (Build_Variant (vd g) (append_err e)) Hk).
              unfold variant_weight in Hins. rewrite Hpc in Hins.
              cbn [vpc vd] in Hins. rewrite Hcb. lia.
           ++ cbn [caller goroutines].
              specialize (Hins (Build_Variant (vd g) (at_step (S n) r)) Hk).
              unfold variant_weight in Hins. rewrite Hpc in Hins.
              cbn [vpc vd] in Hins. rewrite Hcb. lia.
        -- cbn [caller goroutines].
           specialize (Hins (Build_Variant (vd g) (store_variant result)) Hk).
           unfold variant_weight in Hins. rewrite Hpc in Hins.
           cbn [vpc vd] in Hins. rewrite Hcb. lia.
      * right. cbn [caller goroutines].
        specialize (Hins (Build_Variant (vd g) at_Done) Hk).
        unfold variant_weight in Hins. rewrite Hpc in Hins.
        cbn [vpc vd] in Hins. rewrite Hcb. lia.
      * right. cbn [caller goroutines].
        specialize (Hins (Build_Variant (vd g) at_Done) Hk).
        unfold variant_weight in Hins. rewrite Hpc in Hins.
        cbn [vpc vd] in Hins. rewrite Hcb. lia.
      * right. cbn [caller goroutines].
        specialize (Hins (Build_Variant (vd g) variant_gone) Hk).
        unfold variant_weight in Hins. rewrite Hpc in Hins.
        cbn [vpc vd] in Hins. rewrite Hcb. lia.
Qed.

Lemma VInv_step b thread :
  VInv base vs st1 b -> VInv base vs st1 (variants_step ctx base vs b thread).
Proof.
  intros HI. unfold variants_step.
  destruct (variants.panicked b); [exact HI |].
  destruct thread as [| k];
    [apply VInv_caller_step | apply VInv_variant_step]; exact HI.
Qed.

Lemma variants_completes (n : nat) :
  forall b, (variants_turns_left b <= n)%nat -> VInv base vs st1 b ->
  exists more,
    let b' := variants_run ctx base vs more b in
    variants.panicked b' = true \/ caller b' = variants_returned.
Proof.
  induction n as [| n IH]; intros b Hn HI.
  - exists []. cbn. destruct (caller b) eqn:Hcb; [| | right; reflexivity];
      unfold variants_turns_left in Hn; rewrite Hcb in Hn; lia.
  - destruct (variants.panicked b) eqn:Hpan;
      [exists []; left; exact Hpan |].
    destruct (caller b) eqn:Hcb; [| | exists []; right; exact Hcb].
    + destruct (variants_progress b HI Hpan) as (t & [Ht | Ht]);
        [congruence | exists [t]; left; exact Ht |].
      destruct (IH (variants_step ctx base vs b t))
        as (more & Hmore); [lia | apply VInv_step, HI |].
      exists (t :: more). exact Hmore.
    + destruct (variants_progress b HI Hpan) as (t & [Ht | Ht]);
        [congruence | exists [t]; left; exact Ht |].
      destruct (IH (variants_step ctx base vs b t))
        as (more & Hmore); [lia | apply VInv_step, HI |].
      exists (t :: more). exact Hmore.
Qed.

End VariantsProgress.

Section VariantsReturn.
Import apperrors context streaming core variants.
Context {X : Type}.
Variables (rt : GoRuntime X) (ctx : Context X).

(** When the base run returns, every interleaving of the variants that
    has run so far can be carried on until [ProcessVariants] is back
    (or the program has panicked on a nil base state): the steps of a
    variant are run once each, no goroutine waits for another but at
    the mutex, and a failed variant does not stop the others. *)
Theorem ProcessVariants_returns (fuel : nat) (src : Source X)
  (baseSteps : list (Step X)) (vs : list (VariantDefinition X))
  (schedule : list nat) (st : St X) :
  (exists out st1,
     Process rt fuel ctx src baseSteps st = (Some out, st1)) ->
  exists more r st',
    ProcessVariants rt fuel ctx src baseSteps vs (schedule ++ more) st
    = (Some r, st').
Proof.
  intros (out & st1 & Hbase). unfold ProcessVariants. rewrite Hbase.
  destruct out as [[base |] [err |]];
    try (exists []; eexists _, _; reflexivity).
  destruct (variants_completes ctx base vs st1 _
              (variants_run ctx base vs schedule (variants_init st1))
              (Nat.le_refl _) (VInv_run ctx base vs st1 schedule _
                                 (VInv_init base vs st1)))
    as (more & Hmore).
  exists more. cbv zeta in Hmore |- *.
  unfold variants_run in *. rewrite fold_left_app.
  destruct Hmore as [Hpan | Hret].
  - rewrite Hpan. eexists _, _. reflexivity.
  - destruct (variants.panicked _); [eexists _, _; reflexivity |].
    rewrite Hret. destruct (variants.errs _); eexists _, _; reflexivity.
Qed.

End VariantsReturn.

(** From the moment both goroutines are launched and nothing else has
    happened, the sample call can be carried on to its return. *)
Lemma ProcessVariants_returns_witness :
  let vs := [ {| variants.VariantDefinition_Name := "same";
                 variants.VariantDefinition_Steps := [samples.keep] |};
              {| variants.VariantDefinition_Name := "bad";
                 variants.VariantDefinition_Steps := [samples.broken] |} ] in
  exists more r st',
    variants.ProcessVariants samples.rt0 6 samples.ctx_live samples.FromReader
      [samples.keep] vs ([0; 0]%nat ++ more)
      (samples.fresh config.Default [xff; xd8; xff; xe0])
    = (Some r, st').
Proof.
  intros vs.
  apply (ProcessVariants_returns samples.rt0 samples.ctx_live 6
           samples.FromReader [samples.keep] vs [0; 0]%nat
           (samples.fresh config.Default [xff; xd8; xff; xe0])).
  eexists _, _. vm_compute. reflexivity.
Defined.
